(** * Ordered hash tables (src/objects/ordered-hash-table.cc)

    A shallow embedding of the insertion-ordered hash containers: the large
    form [OrderedHashTable] (a FixedArray of buckets, chain links and data
    cells), the small form [SmallOrderedHashTable] (byte-sized buckets and
    chains), the handler facade that promotes a small table to a large one,
    and the iterator's [Transition] over obsolete tables.

    Tables live in a heap owned by the isolate and are referred to by
    handles, because [Rehash] and [Clear] mutate the table they are given
    while they build a new one, and iterators follow the [next_table] links
    left behind. *)

From Stdlib Require Import ZArith Lia Bool List.
From stdpp Require Import base option list numbers gmap.

Local Open Scope Z_scope.

(** ** Machine integers *)

(** [int] and [uint32_t] are 32 bits wide.  A conversion from [uint32_t] to
    [int] keeps the low 32 bits (two's complement). *)
Definition uint32 (z : Z) : Z := z mod 2 ^ 32.
Definition int32 (z : Z) : Z := (z + 2 ^ 31) mod 2 ^ 32 - 2 ^ 31.

(** Modelled from the spec: [base::bits::RoundUpToPowerOfTwo32] (src/base/bits.h
    is not part of the sources at hand).  The spec says the large form's
    capacity is rounded up to a power of two; the function takes and returns a
    [uint32_t]. *)
Definition RoundUpToPowerOfTwo32 (value : Z) : Z :=
  uint32 (2 ^ Z.log2_up value).

(** ** Objects *)

(** Tagged values stored in table cells: small integers, the hole and
    undefined sentinels, and every other heap object by identity. *)
Inductive Object : Type :=
| Smi (value : Z)
| the_hole_value
| undefined_value
| HeapObject (id : N).

#[global] Instance Object_eq_dec : EqDecision Object.
Proof. solve_decision. Defined.

Definition IsTheHole (o : Object) : bool :=
  match o with the_hole_value => true | _ => false end.

Definition IsUndefined (o : Object) : bool :=
  match o with undefined_value => true | _ => false end.

(** [Smi::ToInt] is a checked cast in debug builds; on anything that is not a
    Smi the model reads 0. *)
Definition Smi_ToInt (o : Object) : Z :=
  match o with Smi v => v | _ => 0 end.

(** Handles are heap addresses. *)
Definition Handle := nat.
Definition MaybeHandle := option Handle.

(** Property details are an opaque scalar per entry, stored as a Smi. *)
Definition PropertyDetails := Z.
Definition AsSmi (details : PropertyDetails) : Object := Smi details.

(** ** What the host and the headers provide *)

(** Constants declared in ordered-hash-table.h, which is not among the
    sources: they are parameters of the development. [MaxCapacity] depends on
    the entry size of the instantiation. *)
Class Constants := {
  kInitialCapacity : Z;
  MaxCapacity : Z → Z;
  kNotFound : Z;
  kClearedTableSentinel : Z;
  HashTableStartIndex : Z;
  OrderedHashTableMinSize : Z;
  kNoHashSentinel : Z;
}.

(** The host runtime's hashing and equality primitives. [GetHash] answers
    [undefined_value] for an object that has no identity hash yet;
    [GetOrCreateHash] is the hash an object has or is given; [Name_hash] is
    the hash field of an interned name. *)
Class Host := {
  GetHash : Object → Object;
  GetOrCreateHash : Object → Z;
  SameValueZero : Object → Object → bool;
  Name_hash : Object → Z;
}.

(** Modelled from the spec: the load factor is fixed at 2 for both forms. *)
Definition kLoadFactor : Z := 2.

(** ** The large form *)

(** Modelled from the spec: the header of a large table (ordered-hash-table.h
    is not among the sources).  The header holds the three counters, the
    optional [next_table] link, the hash word of a name dictionary, and the
    log of removed indices that [Rehash] leaves in the source.  [elements] is
    the FixedArray part from [HashTableStartIndex] on: the buckets, then
    [kEntrySize] cells per entry. *)
Record OrderedHashTable := mkOrderedHashTable {
  number_of_elements : Z;
  number_of_deleted_elements : Z;
  number_of_buckets : Z;
  next_table : option Handle;
  hash_field : Z;
  removed_indices : gmap Z Z;
  elements : list Object;
}.

Definition NumberOfElements (t : OrderedHashTable) : Z := number_of_elements t.
Definition NumberOfDeletedElements (t : OrderedHashTable) : Z :=
  number_of_deleted_elements t.
Definition NumberOfBuckets (t : OrderedHashTable) : Z := number_of_buckets t.
Definition UsedCapacity (t : OrderedHashTable) : Z :=
  NumberOfElements t + NumberOfDeletedElements t.
Definition Capacity (t : OrderedHashTable) : Z := NumberOfBuckets t * kLoadFactor.
Definition IsObsolete (t : OrderedHashTable) : bool :=
  match next_table t with Some _ => true | None => false end.
Definition Hash (t : OrderedHashTable) : Z := hash_field t.

Definition SetNumberOfElements (t : OrderedHashTable) (num : Z) :=
  mkOrderedHashTable num (number_of_deleted_elements t) (number_of_buckets t)
    (next_table t) (hash_field t) (removed_indices t) (elements t).
Definition SetNumberOfDeletedElements (t : OrderedHashTable) (num : Z) :=
  mkOrderedHashTable (number_of_elements t) num (number_of_buckets t)
    (next_table t) (hash_field t) (removed_indices t) (elements t).
Definition SetNumberOfBuckets (t : OrderedHashTable) (num : Z) :=
  mkOrderedHashTable (number_of_elements t) (number_of_deleted_elements t) num
    (next_table t) (hash_field t) (removed_indices t) (elements t).
Definition SetNextTable (t : OrderedHashTable) (next : Handle) :=
  mkOrderedHashTable (number_of_elements t) (number_of_deleted_elements t)
    (number_of_buckets t) (Some next) (hash_field t) (removed_indices t)
    (elements t).
Definition SetHash (t : OrderedHashTable) (hash : Z) :=
  mkOrderedHashTable (number_of_elements t) (number_of_deleted_elements t)
    (number_of_buckets t) (next_table t) hash (removed_indices t) (elements t).
Definition SetRemovedIndexAt (t : OrderedHashTable) (index removed_index : Z) :=
  mkOrderedHashTable (number_of_elements t) (number_of_deleted_elements t)
    (number_of_buckets t) (next_table t) (hash_field t)
    (<[index := removed_index]> (removed_indices t)) (elements t).
Definition with_elements (t : OrderedHashTable) (a : list Object) :=
  mkOrderedHashTable (number_of_elements t) (number_of_deleted_elements t)
    (number_of_buckets t) (next_table t) (hash_field t) (removed_indices t) a.

(** Reading a position of the log that was never written has no meaning. *)
Definition RemovedIndexAt (t : OrderedHashTable) (index : Z) : option Z :=
  removed_indices t !! index.

(** ** The small form *)

(** Modelled from the spec: the header of a small table (the header file is
    not among the sources).  Counters, buckets and chain links are single
    bytes; [data_table] holds [kEntrySize] tagged cells per entry,
    [hash_table] the bucket heads and [chain_table] one link per entry. *)
Record SmallOrderedHashTable := mkSmallOrderedHashTable {
  small_number_of_elements : Z;
  small_number_of_deleted_elements : Z;
  small_number_of_buckets : Z;
  small_hash_field : Z;
  data_table : list Object;
  hash_table : list Z;
  chain_table : list Z;
}.

(** ** The isolate and its heap *)

Inductive MessageTemplate := kTooManyProperties.

Inductive HeapTable :=
| LargeTable (t : OrderedHashTable)
| SmallTable (t : SmallOrderedHashTable).

Record Isolate := mkIsolate {
  heap : list HeapTable;
  pending_exception : option MessageTemplate;
}.

Definition has_pending_exception (isolate : Isolate) : bool :=
  match pending_exception isolate with Some _ => true | None => false end.

(** [THROW_NEW_ERROR_RETURN_VALUE(isolate, NewRangeError(m), {})]. *)
Definition ThrowRangeError (isolate : Isolate) (m : MessageTemplate) : Isolate :=
  mkIsolate (heap isolate) (Some m).

(** Dereferencing a handle, with the cast to the table's form. *)
Definition large_at (isolate : Isolate) (table : Handle) : option OrderedHashTable :=
  match heap isolate !! table with
  | Some (LargeTable t) => Some t
  | _ => None
  end.

Definition small_at (isolate : Isolate) (table : Handle)
  : option SmallOrderedHashTable :=
  match heap isolate !! table with
  | Some (SmallTable t) => Some t
  | _ => None
  end.

(** Writing an object back through its handle, and allocating a new one at
    the end of the heap. *)
Definition store (isolate : Isolate) (table : Handle) (o : HeapTable) : Isolate :=
  mkIsolate (<[table := o]> (heap isolate)) (pending_exception isolate).

Definition new_object (isolate : Isolate) (o : HeapTable) : Isolate * Handle :=
  (mkIsolate (heap isolate ++ [o]) (pending_exception isolate),
   length (heap isolate)).

(** The three instantiations of the large template. *)
Inductive Derived := OrderedHashSet | OrderedHashMap | OrderedNameDictionary.

Definition entrysize (d : Derived) : Z :=
  match d with
  | OrderedHashSet => 1
  | OrderedHashMap => 2
  | OrderedNameDictionary => 3
  end.

(** Arrays indexed by an [int].  The accessors of the source check their
    index in debug builds only, and in a release build an access outside the
    array touches whatever memory follows it.  The model is meant for
    indices inside the array: outside it reads the given default and drops
    the write, which says nothing about the source.  A theorem that depends
    on the cells read or written carries hypotheses on the layout that keep
    those accesses inside the array. *)
Definition array_get {A} (dflt : A) (a : list A) (i : Z) : A :=
  if decide (0 ≤ i) then default dflt (a !! Z.to_nat i) else dflt.

Definition array_set {A} (a : list A) (i : Z) (v : A) : list A :=
  if decide (0 ≤ i) then <[Z.to_nat i := v]> a else a.

Section Large.
Context `{Constants} `{Host}.

(** [FixedArray::get] and [FixedArray::set], on the cells from
    [HashTableStartIndex] on. *)
Definition get (t : OrderedHashTable) (index : Z) : Object :=
  array_get undefined_value (elements t) (index - HashTableStartIndex).

Definition set (t : OrderedHashTable) (index : Z) (value : Object)
  : OrderedHashTable :=
  with_elements t (array_set (elements t) (index - HashTableStartIndex) value).

(** Layout, for a table whose entries carry [entrysize] payload cells. *)
Definition kEntrySize (entrysize : Z) : Z := entrysize + 1.
Definition kChainOffset (entrysize : Z) : Z := entrysize.
Definition kValueOffset : Z := 1.
Definition kPropertyDetailsOffset : Z := 2.

Definition EntryToIndexRaw (entrysize : Z) (t : OrderedHashTable) (entry : Z) : Z :=
  HashTableStartIndex + NumberOfBuckets t + entry * kEntrySize entrysize.
Definition HashToBucket (t : OrderedHashTable) (hash : Z) : Z :=
  Z.land hash (NumberOfBuckets t - 1).
Definition HashToEntryRaw (t : OrderedHashTable) (hash : Z) : Z :=
  Smi_ToInt (get t (HashTableStartIndex + HashToBucket t hash)).
Definition NextChainEntryRaw (entrysize : Z) (t : OrderedHashTable) (entry : Z) : Z :=
  Smi_ToInt (get t (EntryToIndexRaw entrysize t entry + kChainOffset entrysize)).
Definition KeyAt (entrysize : Z) (t : OrderedHashTable) (entry : Z) : Object :=
  get t (EntryToIndexRaw entrysize t entry).
Definition IterateEntries (t : OrderedHashTable) : list Z :=
  seqZ 0 (UsedCapacity t).

(** [Factory::NewFixedArrayWithMap]: a fresh array of [length] cells, every
    cell undefined; the cells below [HashTableStartIndex] are the header.
    The factory of the source refuses a negative length; the model is meant
    for lengths that are not negative. *)
Definition NewFixedArrayWithMap (length : Z) : OrderedHashTable :=
  mkOrderedHashTable 0 0 0 None 0 ∅
    (replicate (Z.to_nat (length - HashTableStartIndex)) undefined_value).

(** [OrderedHashTable<Derived, entrysize>::Allocate].  The capacity is an
    [int]; the length of the backing store is computed without wrap-around,
    which agrees with the source while that length fits an [int], as it does
    for every capacity within the [MaxCapacity()] of V8. *)
Definition OrderedHashTable_Allocate (d : Derived) (isolate : Isolate)
    (capacity : Z) : Isolate * MaybeHandle :=
  let capacity :=
    int32 (RoundUpToPowerOfTwo32 (uint32 (Z.max kInitialCapacity capacity))) in
  if decide (capacity > MaxCapacity (entrysize d)) then
    (ThrowRangeError isolate kTooManyProperties, None)
  else
    let num_buckets := capacity ÷ kLoadFactor in
    let backing_store :=
      NewFixedArrayWithMap
        (HashTableStartIndex + num_buckets + capacity * kEntrySize (entrysize d)) in
    let raw_table :=
      foldl (λ raw_table i, set raw_table (HashTableStartIndex + i) (Smi kNotFound))
        backing_store (seqZ 0 num_buckets) in
    let raw_table := SetNumberOfBuckets raw_table num_buckets in
    let raw_table := SetNumberOfElements raw_table 0 in
    let raw_table := SetNumberOfDeletedElements raw_table 0 in
    let '(isolate, table) := new_object isolate (LargeTable raw_table) in
    (isolate, Some table).

(** [OrderedHashSet::Allocate], [OrderedHashMap::Allocate] and
    [OrderedNameDictionary::Allocate] *)
Definition Derived_Allocate (d : Derived) (isolate : Isolate) (capacity : Z)
  : option (Isolate * MaybeHandle) :=
  match d with
  | OrderedNameDictionary =>
      let '(isolate, table_candidate) :=
        OrderedHashTable_Allocate d isolate capacity in
      match table_candidate with
      | Some table =>
          t ← large_at isolate table;
          Some (store isolate table (LargeTable (SetHash t kNoHashSentinel)),
                table_candidate)
      | None => Some (isolate, table_candidate)
      end
  | _ => Some (OrderedHashTable_Allocate d isolate capacity)
  end.

(** The body of the loop of [Rehash] over the source's entries.  The loop
    state is the source [table] (its log of removed indices grows), the
    [new_table], [new_entry] and [removed_holes_index]. *)
Definition Rehash_step (d : Derived) (new_buckets : Z)
    (st : OrderedHashTable * OrderedHashTable * Z * Z) (old_entry : Z)
  : OrderedHashTable * OrderedHashTable * Z * Z :=
  let '(table, new_table, new_entry, removed_holes_index) := st in
  let old_entry_raw := old_entry in
  let key := KeyAt (entrysize d) table old_entry in
  if IsTheHole key then
    (SetRemovedIndexAt table removed_holes_index old_entry_raw,
     new_table, new_entry, removed_holes_index + 1)
  else
    let hash := GetHash key in
    let bucket := Z.land (Smi_ToInt hash) (new_buckets - 1) in
    let chain_entry := get new_table (HashTableStartIndex + bucket) in
    let new_table := set new_table (HashTableStartIndex + bucket) (Smi new_entry) in
    let new_index := EntryToIndexRaw (entrysize d) new_table new_entry in
    let old_index := EntryToIndexRaw (entrysize d) table old_entry_raw in
    let new_table :=
      foldl (λ new_table i, set new_table (new_index + i) (get table (old_index + i)))
        new_table (seqZ 0 (entrysize d)) in
    let new_table :=
      set new_table (new_index + kChainOffset (entrysize d)) chain_entry in
    (table, new_table, new_entry + 1, removed_holes_index).

(** [OrderedHashTable<Derived, entrysize>::Rehash(isolate, table, new_capacity)] *)
Definition OrderedHashTable_Rehash (d : Derived) (isolate : Isolate)
    (table : Handle) (new_capacity : Z) : option (Isolate * MaybeHandle) :=
  '(isolate, new_table_candidate) ← Derived_Allocate d isolate new_capacity;
  match new_table_candidate with
  | None => Some (isolate, new_table_candidate)
  | Some new_table =>
      raw_table ← large_at isolate table;
      raw_new_table ← large_at isolate new_table;
      let new_buckets := NumberOfBuckets raw_new_table in
      let '(raw_table, raw_new_table, new_entry, removed_holes_index) :=
        foldl (Rehash_step d new_buckets) (raw_table, raw_new_table, 0, 0)
          (IterateEntries raw_table) in
      let raw_new_table :=
        SetNumberOfElements raw_new_table (NumberOfElements raw_table) in
      let raw_table :=
        if decide (NumberOfBuckets raw_table > 0)
        then SetNextTable raw_table new_table
        else raw_table in
      let isolate := store isolate new_table (LargeTable raw_new_table) in
      let isolate := store isolate table (LargeTable raw_table) in
      Some (isolate, new_table_candidate)
  end.

(** [OrderedHashSet::Rehash], [OrderedHashMap::Rehash] and
    [OrderedNameDictionary::Rehash], the latter copying the hash word. *)
Definition Derived_Rehash (d : Derived) (isolate : Isolate) (table : Handle)
    (new_capacity : Z) : option (Isolate * MaybeHandle) :=
  match d with
  | OrderedNameDictionary =>
      '(isolate, new_table_candidate) ←
        OrderedHashTable_Rehash d isolate table new_capacity;
      match new_table_candidate with
      | Some new_table =>
          raw_table ← large_at isolate table;
          raw_new_table ← large_at isolate new_table;
          Some (store isolate new_table
                  (LargeTable (SetHash raw_new_table (Hash raw_table))),
                new_table_candidate)
      | None => Some (isolate, new_table_candidate)
      end
  | _ => OrderedHashTable_Rehash d isolate table new_capacity
  end.

(** [OrderedHashTable<Derived, entrysize>::EnsureCapacityForAdding] *)
Definition EnsureCapacityForAdding (d : Derived) (isolate : Isolate)
    (table : Handle) : option (Isolate * MaybeHandle) :=
  raw_table ← large_at isolate table;
  let nof := NumberOfElements raw_table in
  let nod := NumberOfDeletedElements raw_table in
  let capacity := Capacity raw_table in
  if decide (nof + nod < capacity) then Some (isolate, Some table)
  else
    let new_capacity :=
      if decide (capacity = 0) then kInitialCapacity
      else if decide (nod >= Z.shiftr capacity 1) then capacity
      else Z.shiftl capacity 1 in
    Derived_Rehash d isolate table new_capacity.

(** [OrderedHashTable<Derived, entrysize>::Clear]; [ToHandleChecked] aborts on
    an empty candidate. *)
Definition Clear (d : Derived) (isolate : Isolate) (table : Handle)
  : option (Isolate * Handle) :=
  let '(isolate, new_table_candidate) :=
    OrderedHashTable_Allocate d isolate kInitialCapacity in
  new_table ← new_table_candidate;
  raw_table ← large_at isolate table;
  if decide (NumberOfBuckets raw_table > 0) then
    let raw_table := SetNextTable raw_table new_table in
    let raw_table := SetNumberOfDeletedElements raw_table kClearedTableSentinel in
    Some (store isolate table (LargeTable raw_table), new_table)
  else Some (isolate, new_table).

(** The loop [while (raw_entry != kNotFound)] that walks the chain of a bucket
    looking for [key]; [Some None] when the chain ends, [None] when the fuel
    runs out. *)
Fixpoint FindInChain (fuel : nat) (d : Derived) (raw_table : OrderedHashTable)
    (raw_key : Object) (raw_entry : Z) : option (option Z) :=
  match fuel with
  | O => None
  | S fuel =>
      if decide (raw_entry = kNotFound) then Some None
      else
        let candidate_key := KeyAt (entrysize d) raw_table raw_entry in
        if SameValueZero candidate_key raw_key then Some (Some raw_entry)
        else FindInChain fuel d raw_table raw_key
               (NextChainEntryRaw (entrysize d) raw_table raw_entry)
  end.

(** [OrderedHashSet::Add] *)
Definition OrderedHashSet_Add (fuel : nat) (isolate : Isolate) (table : Handle)
    (key : Object) : option (Isolate * MaybeHandle) :=
  raw_table ← large_at isolate table;
  let hash := GetOrCreateHash key in
  found ←
    (if decide (NumberOfElements raw_table > 0) then
       FindInChain fuel OrderedHashSet raw_table key (HashToEntryRaw raw_table hash)
     else Some None);
  match found with
  | Some _ => Some (isolate, Some table)
  | None =>
      '(isolate, table_candidate) ←
        EnsureCapacityForAdding OrderedHashSet isolate table;
      match table_candidate with
      | None =>
          if has_pending_exception isolate then Some (isolate, table_candidate)
          else None
      | Some table =>
          raw_table ← large_at isolate table;
          let bucket := HashToBucket raw_table hash in
          let previous_entry := HashToEntryRaw raw_table hash in
          let nof := NumberOfElements raw_table in
          let new_entry := nof + NumberOfDeletedElements raw_table in
          let new_index := EntryToIndexRaw 1 raw_table new_entry in
          let raw_table := set raw_table new_index key in
          let raw_table :=
            set raw_table (new_index + kChainOffset 1) (Smi previous_entry) in
          let raw_table :=
            set raw_table (HashTableStartIndex + bucket) (Smi new_entry) in
          let raw_table := SetNumberOfElements raw_table (nof + 1) in
          Some (store isolate table (LargeTable raw_table), Some table)
      end
  end.

(** [OrderedHashMap::Add] *)
Definition OrderedHashMap_Add (fuel : nat) (isolate : Isolate) (table : Handle)
    (key value : Object) : option (Isolate * MaybeHandle) :=
  let hash := GetOrCreateHash key in
  raw_table ← large_at isolate table;
  found ←
    (if decide (NumberOfElements raw_table > 0) then
       FindInChain fuel OrderedHashMap raw_table key (HashToEntryRaw raw_table hash)
     else Some None);
  match found with
  | Some _ => Some (isolate, Some table)
  | None =>
      '(isolate, table_candidate) ←
        EnsureCapacityForAdding OrderedHashMap isolate table;
      match table_candidate with
      | None => Some (isolate, table_candidate)
      | Some table =>
          raw_table ← large_at isolate table;
          let bucket := HashToBucket raw_table hash in
          let previous_entry := HashToEntryRaw raw_table hash in
          let nof := NumberOfElements raw_table in
          let new_entry := nof + NumberOfDeletedElements raw_table in
          let new_index := EntryToIndexRaw 2 raw_table new_entry in
          let raw_table := set raw_table new_index key in
          let raw_table := set raw_table (new_index + kValueOffset) value in
          let raw_table :=
            set raw_table (new_index + kChainOffset 2) (Smi previous_entry) in
          let raw_table :=
            set raw_table (HashTableStartIndex + bucket) (Smi new_entry) in
          let raw_table := SetNumberOfElements raw_table (nof + 1) in
          Some (store isolate table (LargeTable raw_table), Some table)
      end
  end.

(** [OrderedNameDictionary::Add]; the caller has checked that the key is
    absent (a DCHECK here). *)
Definition OrderedNameDictionary_Add (isolate : Isolate) (table : Handle)
    (key value : Object) (details : PropertyDetails)
  : option (Isolate * MaybeHandle) :=
  '(isolate, table_candidate) ←
    EnsureCapacityForAdding OrderedNameDictionary isolate table;
  match table_candidate with
  | None => Some (isolate, table_candidate)
  | Some table =>
      raw_table ← large_at isolate table;
      let hash := Name_hash key in
      let bucket := HashToBucket raw_table hash in
      let previous_entry := HashToEntryRaw raw_table hash in
      let nof := NumberOfElements raw_table in
      let new_entry := nof + NumberOfDeletedElements raw_table in
      let new_index := EntryToIndexRaw 3 raw_table new_entry in
      let raw_table := set raw_table new_index key in
      let raw_table := set raw_table (new_index + kValueOffset) value in
      let raw_table :=
        set raw_table (new_index + kPropertyDetailsOffset) (AsSmi details) in
      let raw_table :=
        set raw_table (new_index + kChainOffset 3) (Smi previous_entry) in
      let raw_table :=
        set raw_table (HashTableStartIndex + bucket) (Smi new_entry) in
      let raw_table := SetNumberOfElements raw_table (nof + 1) in
      Some (store isolate table (LargeTable raw_table), Some table)
  end.

(** [OrderedHashMap::SetEntry] *)
Definition OrderedHashMap_SetEntry (t : OrderedHashTable) (entry : Z)
    (key value : Object) : OrderedHashTable :=
  let index := EntryToIndexRaw 2 t entry in
  let t := set t index key in
  set t (index + kValueOffset) value.

(** ** The iterator *)

Record OrderedHashTableIterator := mkIterator {
  iterator_table : Handle;
  iterator_index : Object;
}.

(** The inner loop of [Transition] over the first [nod] removed indices; it
    breaks at the first one that is not below [old_index]. *)
Fixpoint Transition_removed (table : OrderedHashTable) (old_index : Z)
    (positions : list Z) (index : Z) : option Z :=
  match positions with
  | [] => Some index
  | i :: positions =>
      removed_index ← RemovedIndexAt table i;
      if decide (removed_index >= old_index) then Some index
      else Transition_removed table old_index positions (index - 1)
  end.

(** The loop [while (table.IsObsolete())] of [Transition]. *)
Fixpoint Transition_loop (fuel : nat) (isolate : Isolate) (table : Handle)
    (index : Z) : option (Handle * Z) :=
  match fuel with
  | O => None
  | S fuel =>
      raw_table ← large_at isolate table;
      match next_table raw_table with
      | None => Some (table, index)
      | Some next_table =>
          index ←
            (if decide (index > 0) then
               let nod := NumberOfDeletedElements raw_table in
               if decide (nod = kClearedTableSentinel) then Some 0
               else
                 let old_index := index in
                 Transition_removed raw_table old_index (seqZ 0 nod) index
             else Some index);
          Transition_loop fuel isolate next_table index
      end
  end.

(** [OrderedHashTableIterator<Derived, TableType>::Transition] *)
Definition Transition (fuel : nat) (isolate : Isolate)
    (this : OrderedHashTableIterator) : option OrderedHashTableIterator :=
  table ← large_at isolate (iterator_table this);
  if negb (IsObsolete table) then Some this
  else
    let index := Smi_ToInt (iterator_index this) in
    '(table, index) ← Transition_loop fuel isolate (iterator_table this) index;
    Some (mkIterator table (Smi index)).

End Large.

(** ** The small form: accessors and operations *)

(** The three instantiations of the small template; their [kEntrySize] counts
    payload cells only, the chain links live in [chain_table]. *)
Inductive SmallDerived :=
| SmallOrderedHashSet | SmallOrderedHashMap | SmallOrderedNameDictionary.

Definition Small_kEntrySize (d : SmallDerived) : Z :=
  match d with
  | SmallOrderedHashSet => 1
  | SmallOrderedHashMap => 2
  | SmallOrderedNameDictionary => 3
  end.

Definition kKeyIndex : Z := 0.
Definition kValueIndex : Z := 1.
Definition kPropertyDetailsIndex : Z := 2.

(** The byte that marks the end of a chain, the hard maximum of the small
    capacity and the doubled capacity that is mapped onto it. *)
Definition Small_kNotFound : Z := 255.
Definition kMaxCapacity : Z := 254.
Definition kGrowthHack : Z := 256.

(** What a one-byte field keeps of an [int]. *)
Definition uint8 (z : Z) : Z := z mod 256.

Definition Small_NumberOfElements (t : SmallOrderedHashTable) : Z :=
  small_number_of_elements t.
Definition Small_NumberOfDeletedElements (t : SmallOrderedHashTable) : Z :=
  small_number_of_deleted_elements t.
Definition Small_NumberOfBuckets (t : SmallOrderedHashTable) : Z :=
  small_number_of_buckets t.
Definition Small_Capacity (t : SmallOrderedHashTable) : Z :=
  Small_NumberOfBuckets t * kLoadFactor.
Definition Small_UsedCapacity (t : SmallOrderedHashTable) : Z :=
  Small_NumberOfElements t + Small_NumberOfDeletedElements t.
Definition Small_Hash (t : SmallOrderedHashTable) : Z := small_hash_field t.

Definition Small_SetNumberOfElements (t : SmallOrderedHashTable) (num : Z) :=
  mkSmallOrderedHashTable (uint8 num) (small_number_of_deleted_elements t)
    (small_number_of_buckets t) (small_hash_field t) (data_table t)
    (hash_table t) (chain_table t).
Definition Small_SetNumberOfDeletedElements (t : SmallOrderedHashTable) (num : Z) :=
  mkSmallOrderedHashTable (small_number_of_elements t) (uint8 num)
    (small_number_of_buckets t) (small_hash_field t) (data_table t)
    (hash_table t) (chain_table t).
Definition Small_SetHash (t : SmallOrderedHashTable) (hash : Z) :=
  mkSmallOrderedHashTable (small_number_of_elements t)
    (small_number_of_deleted_elements t) (small_number_of_buckets t) hash
    (data_table t) (hash_table t) (chain_table t).

Definition GetDataEntry (d : SmallDerived) (t : SmallOrderedHashTable)
    (entry relative_index : Z) : Object :=
  array_get undefined_value (data_table t)
    (entry * Small_kEntrySize d + relative_index).
Definition SetDataEntry (d : SmallDerived) (t : SmallOrderedHashTable)
    (entry relative_index : Z) (value : Object) :=
  mkSmallOrderedHashTable (small_number_of_elements t)
    (small_number_of_deleted_elements t) (small_number_of_buckets t)
    (small_hash_field t)
    (array_set (data_table t) (entry * Small_kEntrySize d + relative_index) value)
    (hash_table t) (chain_table t).

Definition GetFirstEntry (t : SmallOrderedHashTable) (bucket : Z) : Z :=
  array_get 0 (hash_table t) bucket.
Definition SetFirstEntry (t : SmallOrderedHashTable) (bucket entry : Z) :=
  mkSmallOrderedHashTable (small_number_of_elements t)
    (small_number_of_deleted_elements t) (small_number_of_buckets t)
    (small_hash_field t) (data_table t)
    (array_set (hash_table t) bucket (uint8 entry)) (chain_table t).
Definition GetNextEntry (t : SmallOrderedHashTable) (entry : Z) : Z :=
  array_get 0 (chain_table t) entry.
Definition SetNextEntry (t : SmallOrderedHashTable) (entry next_entry : Z) :=
  mkSmallOrderedHashTable (small_number_of_elements t)
    (small_number_of_deleted_elements t) (small_number_of_buckets t)
    (small_hash_field t) (data_table t) (hash_table t)
    (array_set (chain_table t) entry (uint8 next_entry)).

(** Modelled from the spec: the small form's bucket of a hash is the hash
    modulo the number of buckets (the accessor is declared in the header,
    which is not among the sources). *)
Definition Small_HashToBucket (t : SmallOrderedHashTable) (hash : Z) : Z :=
  hash mod Small_NumberOfBuckets t.
Definition HashToFirstEntry (t : SmallOrderedHashTable) (hash : Z) : Z :=
  GetFirstEntry t (Small_HashToBucket t hash).
Definition Small_KeyAt (d : SmallDerived) (t : SmallOrderedHashTable) (entry : Z)
  : Object :=
  GetDataEntry d t entry kKeyIndex.
Definition Small_IterateEntries (t : SmallOrderedHashTable) : list Z :=
  seqZ 0 (Small_UsedCapacity t).

(** [SmallOrderedHashTable<Derived>::Initialize], on the raw memory of a
    table sized for [capacity]. *)
Definition Initialize (d : SmallDerived) (capacity : Z) : SmallOrderedHashTable :=
  let num_buckets := capacity ÷ kLoadFactor in
  let num_chains := capacity in
  mkSmallOrderedHashTable (uint8 0) (uint8 0) (uint8 num_buckets) 0
    (replicate (Z.to_nat (capacity * Small_kEntrySize d)) the_hole_value)
    (replicate (Z.to_nat num_buckets) Small_kNotFound)
    (replicate (Z.to_nat num_chains) Small_kNotFound).

(** Modelled from the spec: [SmallOrderedHashTable<Derived>::Allocate] hands
    the request to the factory (src/heap/factory.cc is not among the
    sources), which per the spec returns a fresh table of the requested
    capacity with buckets and chain links set to NOT_FOUND, payload cells
    set to the hole and the counters zero, as [Initialize] leaves it. *)
Definition Small_Allocate (d : SmallDerived) (isolate : Isolate) (capacity : Z)
  : Isolate * Handle :=
  new_object isolate (SmallTable (Initialize d capacity)).

Section Small.
Context `{Constants} `{Host}.

(** The chain walk of [SmallOrderedHashTable<Derived>::FindEntry]. *)
Fixpoint Small_FindInChain (fuel : nat) (d : SmallDerived)
    (t : SmallOrderedHashTable) (key : Object) (raw_entry : Z)
  : option (option Z) :=
  match fuel with
  | O => None
  | S fuel =>
      if decide (raw_entry = Small_kNotFound) then Some None
      else
        let candidate_key := Small_KeyAt d t raw_entry in
        let same :=
          match d with
          | SmallOrderedNameDictionary => bool_decide (candidate_key = key)
          | _ => SameValueZero candidate_key key
          end in
        if same then Some (Some raw_entry)
        else Small_FindInChain fuel d t key (GetNextEntry t raw_entry)
  end.

(** [SmallOrderedHashTable<Derived>::FindEntry], with its specialisation for
    the name dictionary. *)
Definition Small_FindEntry (fuel : nat) (d : SmallDerived)
    (t : SmallOrderedHashTable) (key : Object) : option (option Z) :=
  match d with
  | SmallOrderedNameDictionary =>
      let raw_entry := HashToFirstEntry t (Name_hash key) in
      Small_FindInChain fuel d t key raw_entry
  | _ =>
      let hash := GetHash key in
      if IsUndefined hash then Some None
      else
        let raw_entry := HashToFirstEntry t (Smi_ToInt hash) in
        Small_FindInChain fuel d t key raw_entry
  end.

(** [SmallOrderedHashTable<Derived>::HasKey] *)
Definition Small_HasKey (fuel : nat) (d : SmallDerived)
    (t : SmallOrderedHashTable) (key : Object) : option bool :=
  entry ← Small_FindEntry fuel d t key;
  Some (bool_decide (is_Some entry)).

(** The body of the loop of the small [Rehash]. *)
Definition Small_Rehash_step (d : SmallDerived) (table : SmallOrderedHashTable)
    (st : SmallOrderedHashTable * Z) (old_entry : Z)
  : SmallOrderedHashTable * Z :=
  let '(new_table, new_entry) := st in
  let key := Small_KeyAt d table old_entry in
  if IsTheHole key then (new_table, new_entry)
  else
    let hash := Smi_ToInt (GetHash key) in
    let bucket := Small_HashToBucket new_table hash in
    let chain := GetFirstEntry new_table bucket in
    let new_table := SetFirstEntry new_table bucket new_entry in
    let new_table := SetNextEntry new_table new_entry chain in
    let new_table :=
      foldl (λ new_table i,
               SetDataEntry d new_table new_entry i (GetDataEntry d table old_entry i))
        new_table (seqZ 0 (Small_kEntrySize d)) in
    (new_table, new_entry + 1).

(** [SmallOrderedHashTable<Derived>::Rehash] *)
Definition SmallOrderedHashTable_Rehash (d : SmallDerived) (isolate : Isolate)
    (table : Handle) (new_capacity : Z) : option (Isolate * Handle) :=
  let '(isolate, new_table) := Small_Allocate d isolate new_capacity in
  raw_table ← small_at isolate table;
  raw_new_table ← small_at isolate new_table;
  let '(raw_new_table, new_entry) :=
    foldl (Small_Rehash_step d raw_table) (raw_new_table, 0)
      (Small_IterateEntries raw_table) in
  let raw_new_table :=
    Small_SetNumberOfElements raw_new_table (Small_NumberOfElements raw_table) in
  Some (store isolate new_table (SmallTable raw_new_table), new_table).

(** [SmallOrderedHashSet::Rehash], [SmallOrderedHashMap::Rehash] and
    [SmallOrderedNameDictionary::Rehash]. *)
Definition Small_Derived_Rehash (d : SmallDerived) (isolate : Isolate)
    (table : Handle) (new_capacity : Z) : option (Isolate * Handle) :=
  match d with
  | SmallOrderedNameDictionary =>
      '(isolate, new_table) ←
        SmallOrderedHashTable_Rehash d isolate table new_capacity;
      raw_table ← small_at isolate table;
      raw_new_table ← small_at isolate new_table;
      Some (store isolate new_table
              (SmallTable (Small_SetHash raw_new_table (Small_Hash raw_table))),
            new_table)
  | _ => SmallOrderedHashTable_Rehash d isolate table new_capacity
  end.

(** [SmallOrderedHashTable<Derived>::Grow] *)
Definition Grow (d : SmallDerived) (isolate : Isolate) (table : Handle)
  : option (Isolate * MaybeHandle) :=
  raw_table ← small_at isolate table;
  let capacity := Small_Capacity raw_table in
  let new_capacity := capacity in
  let rehash (new_capacity : Z) : option (Isolate * MaybeHandle) :=
    '(isolate, new_table) ← Small_Derived_Rehash d isolate table new_capacity;
    Some (isolate, Some new_table) in
  if decide (Small_NumberOfDeletedElements raw_table < Z.shiftr capacity 1) then
    let new_capacity := Z.shiftl capacity 1 in
    let new_capacity :=
      if decide (new_capacity = kGrowthHack) then kMaxCapacity else new_capacity in
    if decide (new_capacity > kMaxCapacity) then Some (isolate, None)
    else rehash new_capacity
  else rehash new_capacity.

(** [SmallOrderedHashSet::Add] *)
Definition SmallOrderedHashSet_Add (fuel : nat) (isolate : Isolate)
    (table : Handle) (key : Object) : option (Isolate * MaybeHandle) :=
  raw_table ← small_at isolate table;
  has_key ← Small_HasKey fuel SmallOrderedHashSet raw_table key;
  if (has_key : bool) then Some (isolate, Some table)
  else
    '(isolate, new_table) ←
      (if decide (Small_UsedCapacity raw_table >= Small_Capacity raw_table)
       then Grow SmallOrderedHashSet isolate table
       else Some (isolate, Some table));
    match new_table with
    | None => Some (isolate, None)
    | Some table =>
        raw_table ← small_at isolate table;
        let hash := GetOrCreateHash key in
        let nof := Small_NumberOfElements raw_table in
        let bucket := Small_HashToBucket raw_table hash in
        let previous_entry := HashToFirstEntry raw_table hash in
        let new_entry := nof + Small_NumberOfDeletedElements raw_table in
        let raw_table :=
          SetDataEntry SmallOrderedHashSet raw_table new_entry kKeyIndex key in
        let raw_table := SetFirstEntry raw_table bucket new_entry in
        let raw_table := SetNextEntry raw_table new_entry previous_entry in
        let raw_table := Small_SetNumberOfElements raw_table (nof + 1) in
        Some (store isolate table (SmallTable raw_table), Some table)
    end.

(** [SmallOrderedHashMap::Add] *)
Definition SmallOrderedHashMap_Add (fuel : nat) (isolate : Isolate)
    (table : Handle) (key value : Object) : option (Isolate * MaybeHandle) :=
  raw_table ← small_at isolate table;
  has_key ← Small_HasKey fuel SmallOrderedHashMap raw_table key;
  if (has_key : bool) then Some (isolate, Some table)
  else
    '(isolate, new_table) ←
      (if decide (Small_UsedCapacity raw_table >= Small_Capacity raw_table)
       then Grow SmallOrderedHashMap isolate table
       else Some (isolate, Some table));
    match new_table with
    | None => Some (isolate, None)
    | Some table =>
        raw_table ← small_at isolate table;
        let hash := GetOrCreateHash key in
        let nof := Small_NumberOfElements raw_table in
        let bucket := Small_HashToBucket raw_table hash in
        let previous_entry := HashToFirstEntry raw_table hash in
        let new_entry := nof + Small_NumberOfDeletedElements raw_table in
        let raw_table :=
          SetDataEntry SmallOrderedHashMap raw_table new_entry kValueIndex value in
        let raw_table :=
          SetDataEntry SmallOrderedHashMap raw_table new_entry kKeyIndex key in
        let raw_table := SetFirstEntry raw_table bucket new_entry in
        let raw_table := SetNextEntry raw_table new_entry previous_entry in
        let raw_table := Small_SetNumberOfElements raw_table (nof + 1) in
        Some (store isolate table (SmallTable raw_table), Some table)
    end.

(** [SmallOrderedNameDictionary::Add]; the caller has checked that the key is
    absent (a DCHECK here). *)
Definition SmallOrderedNameDictionary_Add (isolate : Isolate) (table : Handle)
    (key value : Object) (details : PropertyDetails)
  : option (Isolate * MaybeHandle) :=
  raw_table ← small_at isolate table;
  '(isolate, new_table) ←
    (if decide (Small_UsedCapacity raw_table >= Small_Capacity raw_table)
     then Grow SmallOrderedNameDictionary isolate table
     else Some (isolate, Some table));
  match new_table with
  | None => Some (isolate, None)
  | Some table =>
      raw_table ← small_at isolate table;
      let nof := Small_NumberOfElements raw_table in
      let hash := Name_hash key in
      let bucket := Small_HashToBucket raw_table hash in
      let previous_entry := HashToFirstEntry raw_table hash in
      let new_entry := nof + Small_NumberOfDeletedElements raw_table in
      let raw_table :=
        SetDataEntry SmallOrderedNameDictionary raw_table new_entry kValueIndex
          value in
      let raw_table :=
        SetDataEntry SmallOrderedNameDictionary raw_table new_entry kKeyIndex key in
      let raw_table :=
        SetDataEntry SmallOrderedNameDictionary raw_table new_entry
          kPropertyDetailsIndex (AsSmi details) in
      let raw_table := SetFirstEntry raw_table bucket new_entry in
      let raw_table := SetNextEntry raw_table new_entry previous_entry in
      let raw_table := Small_SetNumberOfElements raw_table (nof + 1) in
      Some (store isolate table (SmallTable raw_table), Some table)
  end.

(** ** The handler facade *)

(** The loop of [OrderedHashSetHandler::AdjustRepresentation] over the small
    table's entries; it returns early when an add fails. *)
Fixpoint OrderedHashSetHandler_AdjustRepresentation_loop (fuel : nat)
    (isolate : Isolate) (table : Handle) (new_table : Handle)
    (new_table_candidate : MaybeHandle) (entries : list Z)
  : option (Isolate * MaybeHandle) :=
  match entries with
  | [] => Some (isolate, new_table_candidate)
  | entry :: entries =>
      raw_table ← small_at isolate table;
      let key := Small_KeyAt SmallOrderedHashSet raw_table entry in
      if IsTheHole key then
        OrderedHashSetHandler_AdjustRepresentation_loop fuel isolate table
          new_table new_table_candidate entries
      else
        '(isolate, new_table_candidate) ←
          OrderedHashSet_Add fuel isolate new_table key;
        match new_table_candidate with
        | None => Some (isolate, new_table_candidate)
        | Some new_table =>
            OrderedHashSetHandler_AdjustRepresentation_loop fuel isolate table
              new_table new_table_candidate entries
        end
  end.

(** [OrderedHashSetHandler::AdjustRepresentation] *)
Definition OrderedHashSetHandler_AdjustRepresentation (fuel : nat)
    (isolate : Isolate) (table : Handle) : option (Isolate * MaybeHandle) :=
  '(isolate, new_table_candidate) ←
    Derived_Allocate OrderedHashSet isolate OrderedHashTableMinSize;
  match new_table_candidate with
  | None => Some (isolate, new_table_candidate)
  | Some new_table =>
      raw_table ← small_at isolate table;
      OrderedHashSetHandler_AdjustRepresentation_loop fuel isolate table
        new_table new_table_candidate (Small_IterateEntries raw_table)
  end.

(** [OrderedHashSetHandler::Add] *)
Definition OrderedHashSetHandler_Add (fuel : nat) (isolate : Isolate)
    (table : Handle) (key : Object) : option (Isolate * MaybeHandle) :=
  object ← heap isolate !! table;
  match object with
  | SmallTable _ =>
      let small_set := table in
      '(isolate, new_set) ← SmallOrderedHashSet_Add fuel isolate small_set key;
      match new_set with
      | Some new_set => Some (isolate, Some new_set)
      | None =>
          '(isolate, table_candidate) ←
            OrderedHashSetHandler_AdjustRepresentation fuel isolate small_set;
          match table_candidate with
          | None => Some (isolate, table_candidate)
          | Some table => OrderedHashSet_Add fuel isolate table key
          end
      end
  | LargeTable _ => OrderedHashSet_Add fuel isolate table key
  end.

End Small.

(** ** Vocabulary of the statements *)

Section Vocabulary.
Context `{Constants} `{Host}.

(** The bucket-initialising loop of [Allocate]. *)
Definition init_buckets (t : OrderedHashTable) (l : list Z) : OrderedHashTable :=
  foldl (λ raw_table i, set raw_table (HashTableStartIndex + i) (Smi kNotFound)) t l.

(** The capacity [Allocate] settles on for a request. *)
Definition allocated_capacity (capacity : Z) : Z :=
  int32 (RoundUpToPowerOfTwo32 (uint32 (Z.max kInitialCapacity capacity))).

(** A chain of obsolete tables in the heap: [obsolete_chain isolate table
    predecessors final] when following [next_table] from [table] passes the
    obsolete tables [predecessors], in that order, and ends at the handle
    [final] of a table that is not obsolete. *)
Inductive obsolete_chain (isolate : Isolate)
  : Handle → list OrderedHashTable → Handle → Prop :=
| obsolete_chain_end table t :
    large_at isolate table = Some t →
    next_table t = None →
    obsolete_chain isolate table [] table
| obsolete_chain_step table t next predecessors final :
    large_at isolate table = Some t →
    next_table t = Some next →
    obsolete_chain isolate next predecessors final →
    obsolete_chain isolate table (t :: predecessors) final.

(** The removed indices a table has recorded, in the order of the log. *)
Definition recorded_removed_indices (t : OrderedHashTable) : list Z :=
  omap (RemovedIndexAt t) (seqZ 0 (NumberOfDeletedElements t)).

(** How many removed indices are below [old_index] before the first one that
    is not. *)
Fixpoint count_leading_below (old_index : Z) (removed : list Z) : Z :=
  match removed with
  | [] => 0
  | removed_index :: removed =>
      if decide (removed_index < old_index)
      then 1 + count_leading_below old_index removed
      else 0
  end.

(** The index an iterator has after it leaves an obsolete table that it
    entered at [index]. *)
Definition index_after (t : OrderedHashTable) (index : Z) : Z :=
  if decide (NumberOfDeletedElements t = kClearedTableSentinel) then 0
  else index - count_leading_below index (recorded_removed_indices t).

(** Slot indices in strictly ascending order, none below [lo]. *)
Fixpoint ascending_from (lo : Z) (l : list Z) : Prop :=
  match l with
  | [] => True
  | x :: l => lo ≤ x ∧ ascending_from (x + 1) l
  end.

(** The log of a rehashed table: one slot index per deleted element, in
    ascending order.  A cleared table has no log. *)
Definition removed_log_ok (t : OrderedHashTable) : Prop :=
  NumberOfDeletedElements t = kClearedTableSentinel ∨
  (length (recorded_removed_indices t) = Z.to_nat (NumberOfDeletedElements t) ∧
   ascending_from 0 (recorded_removed_indices t)).

(** The payload cells of an entry (key, value and details, as many as the
    instantiation has), and the live entries of a table in slot order. *)
Definition payload (d : Derived) (t : OrderedHashTable) (entry : Z) : list Object :=
  map (λ i, get t (EntryToIndexRaw (entrysize d) t entry + i))
    (seqZ 0 (entrysize d)).

Definition is_hole (d : Derived) (t : OrderedHashTable) (entry : Z) : bool :=
  IsTheHole (KeyAt (entrysize d) t entry).

Definition live_slots (d : Derived) (t : OrderedHashTable) : list Z :=
  List.filter (λ entry, negb (is_hole d t entry)) (IterateEntries t).

Definition hole_slots (d : Derived) (t : OrderedHashTable) : list Z :=
  List.filter (is_hole d t) (IterateEntries t).

Definition live_entries (d : Derived) (t : OrderedHashTable) : list (list Object) :=
  map (payload d t) (live_slots d t).

(** The cells of a table are laid out for [capacity] entries. *)
Definition layout_ok (d : Derived) (t : OrderedHashTable) (capacity : Z) : Prop :=
  1 ≤ NumberOfBuckets t ∧ 0 ≤ capacity ∧
  Z.of_nat (length (elements t))
    = NumberOfBuckets t + capacity * kEntrySize (entrysize d).

(** Bucket heads and chain links over the first [used] entries: each is a
    Smi that is [kNotFound] or an earlier entry. *)
Definition chains_upto (d : Derived) (used : Z) (t : OrderedHashTable) : Prop :=
  (∀ b, 0 ≤ b < NumberOfBuckets t →
     ∃ e, get t (HashTableStartIndex + b) = Smi e ∧
          (e = kNotFound ∨ 0 ≤ e < used)) ∧
  (∀ entry, 0 ≤ entry < used →
     ∃ e, get t (EntryToIndexRaw (entrysize d) t entry + kChainOffset (entrysize d))
            = Smi e ∧
          (e = kNotFound ∨ 0 ≤ e < entry)).

(** Copying cells from one table into another. *)
Definition copy_cells (table : OrderedHashTable) (new_index old_index : Z)
    (new_table : OrderedHashTable) (offsets : list Z) : OrderedHashTable :=
  foldl (λ new_table i, set new_table (new_index + i) (get table (old_index + i)))
    new_table offsets.

Definition with_removed_indices (t : OrderedHashTable) (log : gmap Z Z) :=
  mkOrderedHashTable (number_of_elements t) (number_of_deleted_elements t)
    (number_of_buckets t) (next_table t) (hash_field t) log (elements t).

(** What the loop of [Rehash] does for a live entry: the writes into the new
    table. *)
Definition copy_entry (d : Derived) (table new_table : OrderedHashTable)
    (new_entry old_entry bucket : Z) : OrderedHashTable :=
  let chain_entry := get new_table (HashTableStartIndex + bucket) in
  let new_table := set new_table (HashTableStartIndex + bucket) (Smi new_entry) in
  let new_index := EntryToIndexRaw (entrysize d) new_table new_entry in
  let old_index := EntryToIndexRaw (entrysize d) table old_entry in
  let new_table :=
    foldl (λ new_table i, set new_table (new_index + i) (get table (old_index + i)))
      new_table (seqZ 0 (entrysize d)) in
  set new_table (new_index + kChainOffset (entrysize d)) chain_entry.

(** Whether a payload starts with the hole. *)
Definition payload_is_hole (p : list Object) : bool :=
  match p with
  | key :: _ => IsTheHole key
  | [] => false
  end.

(** The state a successful [Rehash] of [table] (holding [t]) leaves behind:
    a new table at the end of the heap, laid out for [capacity] entries,
    with the live entries of [t] in its first slots, and the source with its
    log of removed indices and, unless it has no buckets, its [next_table]
    link. *)
Definition rehashed (d : Derived) (isolate : Isolate) (table : Handle)
    (t : OrderedHashTable) (capacity : Z) (isolate' : Isolate)
    (t' new_t : OrderedHashTable) : Prop :=
  let new_table := length (heap isolate) in
  let lives := live_slots d t in
  let holes := hole_slots d t in
  heap isolate' = <[table := LargeTable t']> (heap isolate ++ [LargeTable new_t]) ∧
  pending_exception isolate' = pending_exception isolate ∧
  (∃ log,
     t' = (if decide (NumberOfBuckets t > 0)
           then SetNextTable (with_removed_indices t log) new_table
           else with_removed_indices t log) ∧
     ∀ i, log !! i =
       if decide (0 ≤ i < Z.of_nat (length holes))
       then holes !! Z.to_nat i
       else removed_indices t !! i) ∧
  NumberOfElements new_t = NumberOfElements t ∧
  NumberOfDeletedElements new_t = 0 ∧
  NumberOfBuckets new_t = capacity / 2 ∧
  next_table new_t = None ∧
  layout_ok d new_t capacity ∧
  map (payload d new_t) (seqZ 0 (Z.of_nat (length lives)))
    = map (payload d t) lives ∧
  chains_upto d (Z.of_nat (length lives)) new_t.

(** The entries a chain walk visits from [raw_entry] on, at most [fuel] of
    them. *)
Fixpoint chain_from (fuel : nat) (d : Derived) (t : OrderedHashTable)
    (raw_entry : Z) : list Z :=
  match fuel with
  | O => []
  | S fuel =>
      if decide (raw_entry = kNotFound) then []
      else raw_entry
           :: chain_from fuel d t (NextChainEntryRaw (entrysize d) t raw_entry)
  end.

(** Every live entry is on the chain of the bucket its key hashes to. *)
Definition buckets_complete (d : Derived) (t : OrderedHashTable) : Prop :=
  ∀ entry, entry ∈ live_slots d t →
    entry ∈ chain_from (Z.to_nat (UsedCapacity t)) d t
              (HashToEntryRaw t (GetOrCreateHash (KeyAt (entrysize d) t entry))).

(** A key is in the table when a live entry holds a key that is the same
    value (zero). *)
Definition key_present (d : Derived) (t : OrderedHashTable) (key : Object) : Prop :=
  ∃ entry, entry ∈ live_slots d t ∧
           SameValueZero (KeyAt (entrysize d) t entry) key = true.

Definition key_absent (d : Derived) (t : OrderedHashTable) (key : Object) : Prop :=
  ∀ entry, entry ∈ live_slots d t →
           SameValueZero (KeyAt (entrysize d) t entry) key = false.

(** What the runtime guarantees about its primitives: the hole is not the
    same value as any other value, and keys that are the same value have the
    same hash. *)
Class HostOk : Prop := {
  SameValueZero_hole : ∀ key,
    IsTheHole key = false → SameValueZero the_hole_value key = false;
  SameValueZero_GetOrCreateHash : ∀ a b,
    SameValueZero a b = true → GetOrCreateHash a = GetOrCreateHash b;
  SameValueZero_GetHash : ∀ a b,
    SameValueZero a b = true → GetHash a = GetHash b;
}.

(** Writing payload cells one after the other from [index] on. *)
Fixpoint write_cells (t : OrderedHashTable) (index : Z) (cells : list Object)
  : OrderedHashTable :=
  match cells with
  | [] => t
  | cell :: cells => write_cells (set t index cell) (index + 1) cells
  end.

(** The tail of the three [Add] functions of the large form: the new entry
    goes into the slot after the used ones and becomes the head of its
    bucket's chain. *)
Definition insert_entry (d : Derived) (raw_table : OrderedHashTable) (hash : Z)
    (cells : list Object) : OrderedHashTable :=
  let bucket := HashToBucket raw_table hash in
  let previous_entry := HashToEntryRaw raw_table hash in
  let nof := NumberOfElements raw_table in
  let new_entry := nof + NumberOfDeletedElements raw_table in
  let new_index := EntryToIndexRaw (entrysize d) raw_table new_entry in
  let raw_table := write_cells raw_table new_index cells in
  let raw_table :=
    set raw_table (new_index + kChainOffset (entrysize d)) (Smi previous_entry) in
  let raw_table :=
    set raw_table (HashTableStartIndex + bucket) (Smi new_entry) in
  SetNumberOfElements raw_table (nof + 1).

(** The invariants of a large table that the operations rely on: counters in
    range, cells laid out for the capacity (or no buckets and no entries, as
    in the canonical empty table), chains that lead to earlier entries, and
    as many tombstoned slots as the header counts. *)
Definition table_ok (d : Derived) (t : OrderedHashTable) : Prop :=
  0 ≤ NumberOfElements t ∧
  0 ≤ NumberOfDeletedElements t ∧
  UsedCapacity t ≤ Capacity t ≤ 2 ^ 29 ∧
  (layout_ok d t (Capacity t) ∨ (NumberOfBuckets t = 0 ∧ UsedCapacity t = 0)) ∧
  chains_upto d (UsedCapacity t) t ∧
  Z.of_nat (length (hole_slots d t)) = NumberOfDeletedElements t.

(** What the three [Add] functions of the large form do once the key is
    known to be absent; [check_exception] is the CHECK of
    [OrderedHashSet::Add]. *)
Definition Add_after_lookup (d : Derived) (check_exception : bool)
    (isolate : Isolate) (table : Handle) (hash : Z) (cells : list Object)
  : option (Isolate * MaybeHandle) :=
  '(isolate, table_candidate) ← EnsureCapacityForAdding d isolate table;
  match table_candidate with
  | None =>
      if check_exception && negb (has_pending_exception isolate) then None
      else Some (isolate, table_candidate)
  | Some table =>
      raw_table ← large_at isolate table;
      Some (store isolate table
              (LargeTable (insert_entry d raw_table hash cells)),
            Some table)
  end.

(** *** The small form *)

Definition small_payload (d : SmallDerived) (s : SmallOrderedHashTable)
    (entry : Z) : list Object :=
  map (GetDataEntry d s entry) (seqZ 0 (Small_kEntrySize d)).

Definition small_is_hole (d : SmallDerived) (s : SmallOrderedHashTable)
    (entry : Z) : bool :=
  IsTheHole (Small_KeyAt d s entry).

Definition small_live_slots (d : SmallDerived) (s : SmallOrderedHashTable)
  : list Z :=
  List.filter (λ entry, negb (small_is_hole d s entry)) (Small_IterateEntries s).

Definition small_hole_slots (d : SmallDerived) (s : SmallOrderedHashTable)
  : list Z :=
  List.filter (small_is_hole d s) (Small_IterateEntries s).

Definition small_live_entries (d : SmallDerived) (s : SmallOrderedHashTable)
  : list (list Object) :=
  map (small_payload d s) (small_live_slots d s).

(** The entries a chain walk of the small form visits. *)
Fixpoint small_chain_from (fuel : nat) (s : SmallOrderedHashTable)
    (raw_entry : Z) : list Z :=
  match fuel with
  | O => []
  | S fuel =>
      if decide (raw_entry = Small_kNotFound) then []
      else raw_entry :: small_chain_from fuel s (GetNextEntry s raw_entry)
  end.

(** The keys of a set or map are hashed, and every live entry is on the
    chain of the bucket its key hashes to. *)
Definition small_buckets_complete (d : SmallDerived) (s : SmallOrderedHashTable)
  : Prop :=
  ∀ entry, entry ∈ small_live_slots d s →
    IsUndefined (GetHash (Small_KeyAt d s entry)) = false ∧
    entry ∈ small_chain_from (Z.to_nat (Small_UsedCapacity s)) s
              (HashToFirstEntry s (Smi_ToInt (GetHash (Small_KeyAt d s entry)))).

Definition small_key_present (d : SmallDerived) (s : SmallOrderedHashTable)
    (key : Object) : Prop :=
  ∃ entry, entry ∈ small_live_slots d s ∧
           SameValueZero (Small_KeyAt d s entry) key = true.

Definition small_key_absent (d : SmallDerived) (s : SmallOrderedHashTable)
    (key : Object) : Prop :=
  ∀ entry, entry ∈ small_live_slots d s →
           SameValueZero (Small_KeyAt d s entry) key = false.

(** The invariants of a small table: at most 127 buckets, counters within
    the capacity, arrays sized for the capacity, bucket heads and chain
    links that are [kNotFound] or lead to earlier entries, and as many
    tombstoned slots as the header counts. *)
Definition small_table_ok (d : SmallDerived) (s : SmallOrderedHashTable) : Prop :=
  0 ≤ Small_NumberOfElements s ∧
  0 ≤ Small_NumberOfDeletedElements s ∧
  1 ≤ Small_NumberOfBuckets s ≤ 127 ∧
  Small_UsedCapacity s ≤ Small_Capacity s ∧
  Z.of_nat (length (data_table s)) = Small_Capacity s * Small_kEntrySize d ∧
  Z.of_nat (length (hash_table s)) = Small_NumberOfBuckets s ∧
  Z.of_nat (length (chain_table s)) = Small_Capacity s ∧
  (∀ b, 0 ≤ b < Small_NumberOfBuckets s →
     GetFirstEntry s b = Small_kNotFound ∨
     0 ≤ GetFirstEntry s b < Small_UsedCapacity s) ∧
  (∀ entry, 0 ≤ entry < Small_UsedCapacity s →
     GetNextEntry s entry = Small_kNotFound ∨
     0 ≤ GetNextEntry s entry < entry) ∧
  Z.of_nat (length (small_hole_slots d s)) = Small_NumberOfDeletedElements s.

(** The table a small [Add] inserts into: the one given while it has room,
    otherwise what [Grow] returns. *)
Definition Small_table_for_adding (d : SmallDerived) (isolate : Isolate)
    (table : Handle) (s : SmallOrderedHashTable) : option (Isolate * MaybeHandle) :=
  if decide (Small_UsedCapacity s >= Small_Capacity s)
  then Grow d isolate table
  else Some (isolate, Some table).

(** The data cells a small [Add] writes for a new entry, in the order it
    writes them, and the payload they make up. *)
Definition small_writes (d : SmallDerived) (key value : Object)
    (details : PropertyDetails) : list (Z * Object) :=
  match d with
  | SmallOrderedHashSet => [(kKeyIndex, key)]
  | SmallOrderedHashMap => [(kValueIndex, value); (kKeyIndex, key)]
  | SmallOrderedNameDictionary =>
      [(kValueIndex, value); (kKeyIndex, key);
       (kPropertyDetailsIndex, AsSmi details)]
  end.

Definition small_cells (d : SmallDerived) (key value : Object)
    (details : PropertyDetails) : list Object :=
  match d with
  | SmallOrderedHashSet => [key]
  | SmallOrderedHashMap => [key; value]
  | SmallOrderedNameDictionary => [key; value; AsSmi details]
  end.

(** The tail of the three [Add] functions of the small form. *)
Definition Small_insert_entry (d : SmallDerived) (raw_table : SmallOrderedHashTable)
    (hash : Z) (writes : list (Z * Object)) : SmallOrderedHashTable :=
  let nof := Small_NumberOfElements raw_table in
  let bucket := Small_HashToBucket raw_table hash in
  let previous_entry := HashToFirstEntry raw_table hash in
  let new_entry := nof + Small_NumberOfDeletedElements raw_table in
  let raw_table :=
    foldl (λ raw_table w, SetDataEntry d raw_table new_entry w.1 w.2)
      raw_table writes in
  let raw_table := SetFirstEntry raw_table bucket new_entry in
  let raw_table := SetNextEntry raw_table new_entry previous_entry in
  Small_SetNumberOfElements raw_table (nof + 1).

(** What the three small [Add] functions do once the key is known to be
    absent. *)
Definition Small_Add_after_lookup (d : SmallDerived) (isolate : Isolate)
    (table : Handle) (s : SmallOrderedHashTable) (hash : Z)
    (writes : list (Z * Object)) : option (Isolate * MaybeHandle) :=
  '(isolate, new_table) ← Small_table_for_adding d isolate table s;
  match new_table with
  | None => Some (isolate, None)
  | Some table =>
      raw_table ← small_at isolate table;
      Some (store isolate table
              (SmallTable (Small_insert_entry d raw_table hash writes)),
            Some table)
  end.

(** Two small tables with the same counters and arrays of the same sizes. *)
Definition small_same_shape (s s' : SmallOrderedHashTable) : Prop :=
  small_number_of_elements s' = small_number_of_elements s ∧
  small_number_of_deleted_elements s' = small_number_of_deleted_elements s ∧
  small_number_of_buckets s' = small_number_of_buckets s ∧
  length (data_table s') = length (data_table s) ∧
  length (hash_table s') = length (hash_table s) ∧
  length (chain_table s') = length (chain_table s).

(** The value stored with an entry of a map, in the large and the small
    form. *)
Definition OrderedHashMap_ValueAt (t : OrderedHashTable) (entry : Z) : Object :=
  get t (EntryToIndexRaw 2 t entry + kValueOffset).

Definition SmallOrderedHashMap_ValueAt (s : SmallOrderedHashTable) (entry : Z)
  : Object :=
  GetDataEntry SmallOrderedHashMap s entry kValueIndex.

(** What a successful large add of an absent key leaves: the new entry in
    slot [UsedCapacity] of the table [EnsureCapacityForAdding] handed back,
    the slots below it as they were. *)
Definition large_add_appends (d : Derived) (isolate : Isolate) (table : Handle)
    (cells : list Object) (isolate' : Isolate) (table' : Handle) : Prop :=
  ∃ isolate1 t1 t',
    EnsureCapacityForAdding d isolate table = Some (isolate1, Some table') ∧
    large_at isolate1 table' = Some t1 ∧
    large_at isolate' table' = Some t' ∧
    payload d t' (UsedCapacity t1) = cells ∧
    (∀ entry, 0 ≤ entry < UsedCapacity t1 →
       payload d t' entry = payload d t1 entry) ∧
    NumberOfElements t' = NumberOfElements t1 + 1 ∧
    NumberOfDeletedElements t' = NumberOfDeletedElements t1.

(** The same for the small form, with the table [Grow] returned when the
    one given was full. *)
Definition small_add_appends (d : SmallDerived) (isolate : Isolate)
    (table : Handle) (s : SmallOrderedHashTable) (cells : list Object)
    (isolate' : Isolate) (table' : Handle) : Prop :=
  ∃ isolate1 s1 s',
    Small_table_for_adding d isolate table s = Some (isolate1, Some table') ∧
    small_at isolate1 table' = Some s1 ∧
    small_at isolate' table' = Some s' ∧
    small_payload d s' (Small_UsedCapacity s1) = cells ∧
    (∀ entry, 0 ≤ entry < Small_UsedCapacity s1 →
       small_payload d s' entry = small_payload d s1 entry) ∧
    Small_NumberOfElements s' = Small_NumberOfElements s1 + 1 ∧
    Small_NumberOfDeletedElements s' = Small_NumberOfDeletedElements s1.

(** Keys met one after the other, none the same value as one met before:
    [all_distinct seen rest] when this holds for [rest] after [seen]. *)
Fixpoint all_distinct (seen rest : list Object) : Prop :=
  match rest with
  | [] => True
  | key :: rest =>
      Forall (λ earlier, SameValueZero earlier key = false) seen ∧
      all_distinct (seen ++ [key]) rest
  end.

(** The keys of the live entries of a small set, in slot order. *)
Definition small_live_keys (s : SmallOrderedHashTable) : list Object :=
  map (Small_KeyAt SmallOrderedHashSet s) (small_live_slots SmallOrderedHashSet s).

(** The large set under construction while a small set is promoted: it
    holds [keys], in this order, in its first slots, has no tombstones, and
    is laid out for [capacity] entries. *)
Definition promoted (isolate : Isolate) (new_table : Handle) (keys : list Object)
    (capacity : Z) : Prop :=
  ∃ t,
    large_at isolate new_table = Some t ∧
    layout_ok OrderedHashSet t capacity ∧
    Capacity t = capacity ∧
    kInitialCapacity ≤ capacity ≤ 2 ^ 29 ∧
    NumberOfElements t = Z.of_nat (length keys) ∧
    NumberOfDeletedElements t = 0 ∧
    Z.of_nat (length keys) ≤ capacity ∧
    chains_upto OrderedHashSet (Z.of_nat (length keys)) t ∧
    map (payload OrderedHashSet t) (seqZ 0 (Z.of_nat (length keys)))
      = map (λ key, [key]) keys.

End Vocabulary.

(** ** Concrete constants, host and tables used to exercise the statements *)

(** The values V8 gives the constants (capacity 4 to start with, -1 for both
    sentinels, three header cells, promotion at 512 entries, and as maximal
    capacity what a FixedArray of the maximal length holds: one bucket for
    two entries, and per entry its payload and its chain link). *)
Definition v8_constants : Constants := {|
  kInitialCapacity := 4;
  MaxCapacity := λ entrysize, (134217727 - 3) ÷ (1 + (entrysize + 1) * 2);
  kNotFound := -1;
  kClearedTableSentinel := -1;
  HashTableStartIndex := 3;
  OrderedHashTableMinSize := 512;
  kNoHashSentinel := 0;
|}.

(** A host in which a Smi hashes to itself, a heap object to its identity,
    and same-value-zero is identity of the tagged value. *)
Definition simple_host : Host := {|
  GetHash := λ o,
    match o with
    | Smi v => Smi v
    | HeapObject id => Smi (Z.of_N id)
    | _ => undefined_value
    end;
  GetOrCreateHash := λ o,
    match o with
    | Smi v => v
    | HeapObject id => Z.of_N id
    | _ => 0
    end;
  SameValueZero := λ a b, bool_decide (a = b);
  Name_hash := λ o, match o with HeapObject id => Z.of_N id | _ => 0 end;
|}.

Definition empty_isolate : Isolate := mkIsolate [] None.

Section Examples.
#[local] Existing Instance v8_constants.
#[local] Existing Instance simple_host.

(** Adding keys one after the other to a large set, following the handle
    each add returns. *)
Fixpoint add_all (fuel : nat) (isolate : Isolate) (table : Handle)
    (keys : list Object) : option (Isolate * Handle) :=
  match keys with
  | [] => Some (isolate, table)
  | key :: keys =>
      '(isolate, table_candidate) ← OrderedHashSet_Add fuel isolate table key;
      table ← table_candidate;
      add_all fuel isolate table keys
  end.

(** A large set allocated for [capacity] entries and filled with [keys]. *)
Definition large_set_of (capacity : Z) (keys : list Object)
  : option (Isolate * Handle) :=
  let '(isolate, table_candidate) :=
    OrderedHashTable_Allocate OrderedHashSet empty_isolate capacity in
  table ← table_candidate;
  add_all 16 isolate table keys.

(** Five keys in a set of capacity 8, at handle 0. *)
Definition five_keys : list Object := [Smi 1; Smi 2; Smi 3; Smi 4; Smi 5].
Definition five_keys_isolate : Isolate :=
  default empty_isolate (fst <$> large_set_of 8 five_keys).

(** The table a handle refers to in an example heap. *)
Definition large_table_at (isolate : Isolate) (table : Handle) : OrderedHashTable :=
  default (mkOrderedHashTable 0 0 0 None 0 ∅ []) (large_at isolate table).

Definition small_table_at (isolate : Isolate) (table : Handle)
  : SmallOrderedHashTable :=
  default (mkSmallOrderedHashTable 0 0 0 0 [] [] []) (small_at isolate table).

Definition five_keys_table : OrderedHashTable :=
  large_table_at five_keys_isolate 0%nat.

(** The writes of [OrderedHashTable::Delete] once the entry is found: the
    payload becomes the hole, one element fewer, one deleted element more. *)
Definition Delete_entry (d : Derived) (table : OrderedHashTable) (entry : Z)
  : OrderedHashTable :=
  let nof := NumberOfElements table in
  let nod := NumberOfDeletedElements table in
  let index := EntryToIndexRaw (entrysize d) table entry in
  let table :=
    foldl (λ table i, set table (index + i) the_hole_value) table
      (seqZ 0 (entrysize d)) in
  let table := SetNumberOfElements table (nof - 1) in
  SetNumberOfDeletedElements table (nod + 1).

(** The five keys with the second one deleted, and the heap after that
    table is rehashed for the same capacity: the old table at handle 0, now
    obsolete, and the new one at handle 1. *)
Definition holed_isolate : Isolate :=
  store five_keys_isolate 0%nat
    (LargeTable (Delete_entry OrderedHashSet five_keys_table 1)).

Definition holed_table : OrderedHashTable := large_table_at holed_isolate 0%nat.

Definition rehashed_isolate : Isolate :=
  default holed_isolate
    (fst <$> OrderedHashTable_Rehash OrderedHashSet holed_isolate 0%nat 8).

Definition rehashed_source : OrderedHashTable := large_table_at rehashed_isolate 0%nat.

(** A large map of two pairs and a large name dictionary of one property,
    each at handle 0 of its heap. *)
Definition two_pairs_isolate : Isolate :=
  default empty_isolate
    (let '(isolate, table_candidate) :=
       OrderedHashTable_Allocate OrderedHashMap empty_isolate 4 in
     table ← table_candidate;
     '(isolate, table_candidate) ←
       OrderedHashMap_Add 16 isolate table (Smi 1) (Smi 10);
     table ← table_candidate;
     '(isolate, table_candidate) ←
       OrderedHashMap_Add 16 isolate table (Smi 2) (Smi 20);
     Some isolate).

Definition two_pairs_table : OrderedHashTable :=
  large_table_at two_pairs_isolate 0%nat.

Definition one_property_isolate : Isolate :=
  default empty_isolate
    (let '(isolate, table_candidate) :=
       OrderedHashTable_Allocate OrderedNameDictionary empty_isolate 4 in
     table ← table_candidate;
     '(isolate, table_candidate) ←
       OrderedNameDictionary_Add isolate table (HeapObject 7) (Smi 70) 0;
     Some isolate).

Definition one_property_table : OrderedHashTable :=
  large_table_at one_property_isolate 0%nat.

(** Adding keys one after the other to a small set. *)
Fixpoint small_add_all (fuel : nat) (isolate : Isolate) (table : Handle)
    (keys : list Object) : option (Isolate * Handle) :=
  match keys with
  | [] => Some (isolate, table)
  | key :: keys =>
      '(isolate, table_candidate) ← SmallOrderedHashSet_Add fuel isolate table key;
      table ← table_candidate;
      small_add_all fuel isolate table keys
  end.

(** A small set allocated for [capacity] entries and filled with [keys]. *)
Definition small_set_of (capacity : Z) (keys : list Object) : Isolate :=
  let '(isolate, table) :=
    Small_Allocate SmallOrderedHashSet empty_isolate capacity in
  default empty_isolate (fst <$> small_add_all 300 isolate table keys).

(** A small set of two keys, of capacity 4. *)
Definition two_keys_isolate : Isolate := small_set_of 4 [Smi 1; Smi 2].
Definition two_keys_table : SmallOrderedHashTable :=
  small_table_at two_keys_isolate 0%nat.

(** A small set that cannot grow: 254 keys in a table of capacity 254. *)
Definition full_keys : list Object := Smi <$> seqZ 1 254.
Definition full_isolate : Isolate := small_set_of 254 full_keys.
Definition full_table : SmallOrderedHashTable := small_table_at full_isolate 0%nat.

(** A small map of two pairs and a small name dictionary of one property. *)
Definition small_pairs_isolate : Isolate :=
  default empty_isolate
    (let '(isolate, table) :=
       Small_Allocate SmallOrderedHashMap empty_isolate 4 in
     '(isolate, table_candidate) ←
       SmallOrderedHashMap_Add 16 isolate table (Smi 1) (Smi 10);
     table ← table_candidate;
     '(isolate, table_candidate) ←
       SmallOrderedHashMap_Add 16 isolate table (Smi 2) (Smi 20);
     Some isolate).

Definition small_pairs_table : SmallOrderedHashTable :=
  small_table_at small_pairs_isolate 0%nat.

Definition small_property_isolate : Isolate :=
  default empty_isolate
    (let '(isolate, table) :=
       Small_Allocate SmallOrderedNameDictionary empty_isolate 4 in
     '(isolate, table_candidate) ←
       SmallOrderedNameDictionary_Add isolate table (HeapObject 7) (Smi 70) 0;
     Some isolate).

Definition small_property_table : SmallOrderedHashTable :=
  small_table_at small_property_isolate 0%nat.

End Examples.

(* ===================================================================== *)
(** ** Lookup, deletion and shrinking *)

Definition IsSmi (o : Object) : bool :=
  match o with Smi _ => true | _ => false end.

(** What the lookup and the name dictionary use beside [Host], declared in
    headers that are not among the sources: the hash of an integer, the
    largest Smi and the empty property details. *)
Class Primitives := {
  ComputeUnseededHash : Z → Z;
  Smi_kMaxValue : Z;
  PropertyDetails_Empty : PropertyDetails;
}.

Section Lookup.
Context `{Constants} `{Host} `{Primitives}.

(** [OrderedHashTable<Derived, entrysize>::FindEntry]; the hash of a Smi
    key is a [uint32_t]. *)
Definition OrderedHashTable_FindEntry (fuel : nat) (d : Derived)
    (t : OrderedHashTable) (key : Object) : option (option Z) :=
  if decide (NumberOfElements t = 0) then Some None
  else if IsSmi key then
    let hash := uint32 (ComputeUnseededHash (Smi_ToInt key)) in
    let raw_entry := HashToEntryRaw t (Z.land hash Smi_kMaxValue) in
    FindInChain fuel d t key raw_entry
  else
    let hash := GetHash key in
    if IsUndefined hash then Some None
    else
      let raw_entry := HashToEntryRaw t (Smi_ToInt hash) in
      FindInChain fuel d t key raw_entry.

(** The chain walk of [OrderedNameDictionary::FindEntry], which compares
    names by identity. *)
Fixpoint FindInChain_by_identity (fuel : nat) (t : OrderedHashTable)
    (raw_key : Object) (raw_entry : Z) : option (option Z) :=
  match fuel with
  | O => None
  | S fuel =>
      if decide (raw_entry = kNotFound) then Some None
      else
        let candidate_key := KeyAt 3 t raw_entry in
        if bool_decide (candidate_key = raw_key) then Some (Some raw_entry)
        else FindInChain_by_identity fuel t raw_key (NextChainEntryRaw 3 t raw_entry)
  end.

(** [OrderedNameDictionary::FindEntry] *)
Definition OrderedNameDictionary_FindEntry (fuel : nat) (t : OrderedHashTable)
    (key : Object) : option (option Z) :=
  let raw_key := key in
  if decide (NumberOfElements t = 0) then Some None
  else
    let raw_entry := HashToEntryRaw t (Name_hash raw_key) in
    FindInChain_by_identity fuel t raw_key raw_entry.

(** [table.FindEntry] for a table of class [Derived]: the name dictionary
    declares its own. *)
Definition Derived_FindEntry (fuel : nat) (d : Derived) (t : OrderedHashTable)
    (key : Object) : option (option Z) :=
  match d with
  | OrderedNameDictionary => OrderedNameDictionary_FindEntry fuel t key
  | _ => OrderedHashTable_FindEntry fuel d t key
  end.

(** [OrderedHashTable<Derived, entrysize>::HasKey] *)
Definition OrderedHashTable_HasKey (fuel : nat) (d : Derived)
    (table : OrderedHashTable) (key : Object) : option bool :=
  entry ← Derived_FindEntry fuel d table key;
  Some (bool_decide (is_Some entry)).

(** [OrderedHashTable<Derived, entrysize>::Delete], on the table object it is
    given; it answers the table as it leaves it and whether it removed the
    key. *)
Definition OrderedHashTable_Delete (fuel : nat) (d : Derived)
    (table : OrderedHashTable) (key : Object) : option (OrderedHashTable * bool) :=
  entry ← Derived_FindEntry fuel d table key;
  match entry with
  | None => Some (table, false)
  | Some entry =>
      let nof := NumberOfElements table in
      let nod := NumberOfDeletedElements table in
      let index := EntryToIndexRaw (entrysize d) table entry in
      let hole := the_hole_value in
      let table :=
        foldl (λ table i, set table (index + i) hole) table
          (seqZ 0 (entrysize d)) in
      let table := SetNumberOfElements table (nof - 1) in
      let table := SetNumberOfDeletedElements table (nod + 1) in
      Some (table, true)
  end.

(** [OrderedHashTable<Derived, entrysize>::Shrink]; [ToHandleChecked] aborts
    on an empty candidate. *)
Definition Shrink (d : Derived) (isolate : Isolate) (table : Handle)
  : option (Isolate * Handle) :=
  raw_table ← large_at isolate table;
  let nof := NumberOfElements raw_table in
  let capacity := Capacity raw_table in
  if decide (nof >= Z.shiftr capacity 2) then Some (isolate, table)
  else
    '(isolate, new_table_candidate) ←
      Derived_Rehash d isolate table (capacity ÷ 2);
    new_table ← new_table_candidate;
    Some (isolate, new_table).

(** [OrderedHashTable<Derived, entrysize>::AllocateEmpty] and, for the name
    dictionary, [OrderedNameDictionary::AllocateEmpty]. *)
Definition OrderedHashTable_AllocateEmpty (isolate : Isolate)
  : Isolate * Handle :=
  let backing_store := NewFixedArrayWithMap HashTableStartIndex in
  let raw_table := SetNumberOfBuckets backing_store 0 in
  let raw_table := SetNumberOfElements raw_table 0 in
  let raw_table := SetNumberOfDeletedElements raw_table 0 in
  new_object isolate (LargeTable raw_table).

Definition Derived_AllocateEmpty (d : Derived) (isolate : Isolate)
  : option (Isolate * Handle) :=
  let '(isolate, table) := OrderedHashTable_AllocateEmpty isolate in
  match d with
  | OrderedNameDictionary =>
      t ← large_at isolate table;
      Some (store isolate table (LargeTable (SetHash t kNoHashSentinel)), table)
  | _ => Some (isolate, table)
  end.

(** [OrderedNameDictionary::SetEntry] *)
Definition OrderedNameDictionary_SetEntry (t : OrderedHashTable) (entry : Z)
    (key value : Object) (details : PropertyDetails) : OrderedHashTable :=
  let index := EntryToIndexRaw 3 t entry in
  let t := set t index key in
  let t := set t (index + kValueOffset) value in
  set t (index + kPropertyDetailsOffset) (AsSmi details).

(** [OrderedNameDictionary::DeleteEntry] *)
Definition OrderedNameDictionary_DeleteEntry (isolate : Isolate) (table : Handle)
    (entry : Z) : option (Isolate * Handle) :=
  raw_table ← large_at isolate table;
  let hole := the_hole_value in
  let details := PropertyDetails_Empty in
  let raw_table := OrderedNameDictionary_SetEntry raw_table entry hole hole details in
  let nof := NumberOfElements raw_table in
  let raw_table := SetNumberOfElements raw_table (nof - 1) in
  let nod := NumberOfDeletedElements raw_table in
  let raw_table := SetNumberOfDeletedElements raw_table (nod + 1) in
  let isolate := store isolate table (LargeTable raw_table) in
  Shrink OrderedNameDictionary isolate table.

(** The loop of [HasMore] that steps over tombstoned entries. *)
Fixpoint HasMore_skip (fuel : nat) (d : Derived) (table : OrderedHashTable)
    (index used_capacity : Z) : option Z :=
  match fuel with
  | O => None
  | S fuel =>
      if bool_decide (index < used_capacity)
         && IsTheHole (KeyAt (entrysize d) table index)
      then HasMore_skip fuel d table (index + 1) used_capacity
      else Some index
  end.

(** [OrderedHashTableIterator<Derived, TableType>::HasMore]; [empty] is the
    canonical empty table of the roots. *)
Definition HasMore (fuel : nat) (d : Derived) (empty : Handle)
    (isolate : Isolate) (this : OrderedHashTableIterator)
  : option (OrderedHashTableIterator * bool) :=
  this ← Transition fuel isolate this;
  table ← large_at isolate (iterator_table this);
  let index := Smi_ToInt (iterator_index this) in
  let used_capacity := UsedCapacity table in
  index ← HasMore_skip fuel d table index used_capacity;
  let this := mkIterator (iterator_table this) (Smi index) in
  if decide (index < used_capacity) then Some (this, true)
  else Some (mkIterator empty (Smi index), false).

(** *** The small form *)

(** [SmallOrderedHashTable<Derived>::Delete] *)
Definition Small_Delete (fuel : nat) (d : SmallDerived)
    (table : SmallOrderedHashTable) (key : Object)
  : option (SmallOrderedHashTable * bool) :=
  entry ← Small_FindEntry fuel d table key;
  match entry with
  | None => Some (table, false)
  | Some entry =>
      let nof := Small_NumberOfElements table in
      let nod := Small_NumberOfDeletedElements table in
      let hole := the_hole_value in
      let table :=
        foldl (λ table j, SetDataEntry d table entry j hole) table
          (seqZ 0 (Small_kEntrySize d)) in
      let table := Small_SetNumberOfElements table (nof - 1) in
      let table := Small_SetNumberOfDeletedElements table (nod + 1) in
      Some (table, true)
  end.

(** [SmallOrderedHashTable<Derived>::Shrink] *)
Definition Small_Shrink (d : SmallDerived) (isolate : Isolate) (table : Handle)
  : option (Isolate * Handle) :=
  raw_table ← small_at isolate table;
  let nof := Small_NumberOfElements raw_table in
  let capacity := Small_Capacity raw_table in
  if decide (nof >= Z.shiftr capacity 2) then Some (isolate, table)
  else Small_Derived_Rehash d isolate table (capacity ÷ 2).

(** [SmallOrderedNameDictionary::SetEntry] *)
Definition SmallOrderedNameDictionary_SetEntry (t : SmallOrderedHashTable)
    (entry : Z) (key value : Object) (details : PropertyDetails)
  : SmallOrderedHashTable :=
  let raw_entry := entry in
  let t := SetDataEntry SmallOrderedNameDictionary t raw_entry kValueIndex value in
  let t := SetDataEntry SmallOrderedNameDictionary t raw_entry kKeyIndex key in
  SetDataEntry SmallOrderedNameDictionary t raw_entry kPropertyDetailsIndex
    (AsSmi details).

(** [SmallOrderedNameDictionary::DeleteEntry] *)
Definition SmallOrderedNameDictionary_DeleteEntry (isolate : Isolate)
    (table : Handle) (entry : Z) : option (Isolate * Handle) :=
  raw_table ← small_at isolate table;
  let hole := the_hole_value in
  let details := PropertyDetails_Empty in
  let raw_table :=
    SmallOrderedNameDictionary_SetEntry raw_table entry hole hole details in
  let nof := Small_NumberOfElements raw_table in
  let raw_table := Small_SetNumberOfElements raw_table (nof - 1) in
  let nod := Small_NumberOfDeletedElements raw_table in
  let raw_table := Small_SetNumberOfDeletedElements raw_table (nod + 1) in
  let isolate := store isolate table (SmallTable raw_table) in
  Small_Shrink SmallOrderedNameDictionary isolate table.

End Lookup.

(** ** Vocabulary of lookup and deletion *)

Section LookupVocabulary.
Context `{Constants} `{Host} `{Primitives}.

(** The hash under which [FindEntry] looks a key up, if it has one. *)
Definition FindEntry_hash (key : Object) : option Z :=
  if IsSmi key
  then Some (Z.land (uint32 (ComputeUnseededHash (Smi_ToInt key))) Smi_kMaxValue)
  else if IsUndefined (GetHash key) then None
  else Some (Smi_ToInt (GetHash key)).

(** The keys of the live entries were hashed when they were added: a lookup
    computes the hash they are stored under. *)
Definition keys_hashed (d : Derived) (t : OrderedHashTable) : Prop :=
  ∀ entry, entry ∈ live_slots d t →
    FindEntry_hash (KeyAt (entrysize d) t entry)
      = Some (GetOrCreateHash (KeyAt (entrysize d) t entry)).

(** Keys that are the same value are looked up under the same hash. *)
Class PrimitivesOk : Prop := {
  SameValueZero_FindEntry_hash : ∀ a b,
    SameValueZero a b = true → FindEntry_hash a = FindEntry_hash b;
}.

(** The table after [Delete] has removed [entry]. *)
Definition tombstoned (d : Derived) (t : OrderedHashTable) (entry : Z)
  : OrderedHashTable :=
  let cleared :=
    write_cells t (EntryToIndexRaw (entrysize d) t entry)
      (replicate (Z.to_nat (entrysize d)) the_hole_value) in
  SetNumberOfDeletedElements
    (SetNumberOfElements cleared (NumberOfElements t - 1))
    (NumberOfDeletedElements t + 1).

(** The small table after [Delete] has removed [entry]. *)
Definition small_tombstoned (d : SmallDerived) (s : SmallOrderedHashTable)
    (entry : Z) : SmallOrderedHashTable :=
  let cleared :=
    foldl (λ table j, SetDataEntry d table entry j the_hole_value) s
      (seqZ 0 (Small_kEntrySize d)) in
  Small_SetNumberOfDeletedElements
    (Small_SetNumberOfElements cleared (Small_NumberOfElements s - 1))
    (Small_NumberOfDeletedElements s + 1).

(** The live keys have, as the hash [GetHash] reads, the hash
    [GetOrCreateHash] gave them when they were added. *)
Definition hashes_agree (d : Derived) (t : OrderedHashTable) : Prop :=
  ∀ entry, entry ∈ live_slots d t →
    Smi_ToInt (GetHash (KeyAt (entrysize d) t entry))
      = GetOrCreateHash (KeyAt (entrysize d) t entry).

(** Every slot below [n] is on the chain of the bucket that the hash of its
    key, as [GetHash] reads it, selects. *)
Definition chained_upto (d : Derived) (n : Z) (t : OrderedHashTable) : Prop :=
  ∀ e, 0 ≤ e < n →
    e ∈ chain_from (Z.to_nat n) d t
          (HashToEntryRaw t (Smi_ToInt (GetHash (KeyAt (entrysize d) t e)))).

(** What a lookup relies on, together: the invariants of the layout, the
    chains that reach every live entry, and the keys stored under the hash
    that a lookup and a rehash compute for them. *)
Definition table_invariants (d : Derived) (t : OrderedHashTable)
  : Prop :=
  table_ok d t ∧ buckets_complete d t ∧ keys_hashed d t ∧ hashes_agree d t.

End LookupVocabulary.

(** ** More concrete data *)

(** Primitives that go with the simple host: an integer hashes to itself,
    Smis have 31 bits, the empty property details are 0. *)
Definition simple_primitives : Primitives := {|
  ComputeUnseededHash := λ z, z;
  Smi_kMaxValue := 2 ^ 30 - 1;
  PropertyDetails_Empty := 0;
|}.

Section MoreExamples.
#[local] Existing Instance v8_constants.
#[local] Existing Instance simple_host.

(** Two keys in a large set of capacity 16 and in a small set of capacity
    16: less than a quarter of either is in use. *)
Definition sparse_isolate : Isolate :=
  default empty_isolate (fst <$> large_set_of 16 [Smi 1; Smi 2]).
Definition sparse_table : OrderedHashTable := large_table_at sparse_isolate 0%nat.

Definition sparse_small_isolate : Isolate := small_set_of 16 [Smi 1; Smi 2].
Definition sparse_small_table : SmallOrderedHashTable :=
  small_table_at sparse_small_isolate 0%nat.

(** Four keys in a large set of capacity 4: the table is full. *)
Definition full_set_isolate : Isolate :=
  default empty_isolate
    (fst <$> large_set_of 4 [Smi 1; Smi 2; Smi 3; Smi 4]).
Definition full_set_table : OrderedHashTable :=
  large_table_at full_set_isolate 0%nat.

End MoreExamples.

(** * Properties *)

(** ** Handles and the heap *)

Lemma large_at_new_object isolate o table :
  (table < length (heap isolate))%nat →
  large_at (mkIsolate (heap isolate ++ [o]) (pending_exception isolate)) table
    = large_at isolate table.
Proof.
  intros Hlt. unfold large_at; simpl.
  by rewrite lookup_app_l.
Qed.

Lemma large_at_lt isolate table t :
  large_at isolate table = Some t → (table < length (heap isolate))%nat.
Proof.
  unfold large_at. destruct (heap isolate !! table) eqn:E; [|done].
  intros _. by apply lookup_lt_Some in E.
Qed.

Lemma small_at_lt isolate table t :
  small_at isolate table = Some t → (table < length (heap isolate))%nat.
Proof.
  unfold small_at. destruct (heap isolate !! table) eqn:E; [|done].
  intros _. by apply lookup_lt_Some in E.
Qed.

Lemma large_at_new_object_eq isolate t :
  large_at (mkIsolate (heap isolate ++ [LargeTable t]) (pending_exception isolate))
    (length (heap isolate)) = Some t.
Proof.
  unfold large_at; simpl.
  rewrite lookup_app_r; [|lia]. by rewrite Nat.sub_diag.
Qed.

Lemma small_at_new_object isolate o table :
  (table < length (heap isolate))%nat →
  small_at (mkIsolate (heap isolate ++ [o]) (pending_exception isolate)) table
    = small_at isolate table.
Proof.
  intros Hlt. unfold small_at; simpl.
  by rewrite lookup_app_l.
Qed.

Lemma small_at_new_object_eq isolate t :
  small_at (mkIsolate (heap isolate ++ [SmallTable t]) (pending_exception isolate))
    (length (heap isolate)) = Some t.
Proof.
  unfold small_at; simpl.
  rewrite lookup_app_r; [|lia]. by rewrite Nat.sub_diag.
Qed.

Lemma large_at_store_eq isolate table t :
  (table < length (heap isolate))%nat →
  large_at (store isolate table (LargeTable t)) table = Some t.
Proof.
  intros Hlt. unfold large_at, store; simpl.
  by rewrite list_lookup_insert_eq.
Qed.

Lemma large_at_store_ne isolate table table' o :
  table ≠ table' →
  large_at (store isolate table o) table' = large_at isolate table'.
Proof.
  intros Hne. unfold large_at, store; simpl.
  by rewrite list_lookup_insert_ne.
Qed.

Lemma small_at_store_ne isolate table table' o :
  table ≠ table' →
  small_at (store isolate table o) table' = small_at isolate table'.
Proof.
  intros Hne. unfold small_at, store; simpl.
  by rewrite list_lookup_insert_ne.
Qed.

Lemma small_at_store_eq isolate table t :
  (table < length (heap isolate))%nat →
  small_at (store isolate table (SmallTable t)) table = Some t.
Proof.
  intros Hlt. unfold small_at, store; simpl.
  by rewrite list_lookup_insert_eq.
Qed.

Lemma length_heap_store isolate table o :
  length (heap (store isolate table o)) = length (heap isolate).
Proof. unfold store; simpl. by rewrite length_insert. Qed.

(** ** Shifts by one on [int] values *)

Lemma shiftr_1_div2 z : Z.shiftr z 1 = z / 2.
Proof. by rewrite Z.shiftr_div_pow2. Qed.

Lemma shiftl_1_double z : Z.shiftl z 1 = 2 * z.
Proof. rewrite Z.shiftl_mul_pow2 by lia. lia. Qed.

Section CapacityPolicy.
Context `{Constants} `{Host}.


(** The small [Rehash] always produces a table when its source handle is
    valid: the factory's allocation cannot fail. *)
Lemma SmallOrderedHashTable_Rehash_total d isolate table t new_capacity :
  small_at isolate table = Some t →
  ∃ isolate' new_t,
    SmallOrderedHashTable_Rehash d isolate table new_capacity
      = Some (isolate', length (heap isolate)) ∧
    small_at isolate' (length (heap isolate)) = Some new_t ∧
    small_at isolate' table = Some t ∧
    length (heap isolate') = S (length (heap isolate)).
Proof.
  intros Ht. pose proof (small_at_lt _ _ _ Ht) as Hlt.
  unfold SmallOrderedHashTable_Rehash, Small_Allocate, new_object; simpl.
  rewrite (small_at_new_object isolate _ table) by done. rewrite Ht; simpl.
  rewrite small_at_new_object_eq; simpl.
  destruct (foldl _ _ _) as [raw_new_table new_entry].
  eexists _, _. split; [reflexivity|].
  assert (∀ o, length (heap (mkIsolate (heap isolate ++ [o])
                  (pending_exception isolate))) = S (length (heap isolate)))
    as Hlen by (intros o; simpl; rewrite length_app; simpl; lia).
  split; [|split].
  - apply small_at_store_eq. rewrite Hlen. lia.
  - rewrite small_at_store_ne by lia.
    by rewrite (small_at_new_object isolate _ table).
  - by rewrite length_heap_store, Hlen.
Qed.

Lemma Small_Derived_Rehash_total d isolate table t new_capacity :
  small_at isolate table = Some t →
  ∃ isolate' new_t,
    Small_Derived_Rehash d isolate table new_capacity
      = Some (isolate', length (heap isolate)) ∧
    small_at isolate' (length (heap isolate)) = Some new_t ∧
    small_at isolate' table = Some t.
Proof.
  intros Ht. pose proof (small_at_lt _ _ _ Ht) as Hlt.
  destruct (SmallOrderedHashTable_Rehash_total d _ _ _ new_capacity Ht)
    as (isolate1 & new_t & Hr & Hnew & Hold & Hlen).
  destruct d; simpl; try (by eexists _, _).
  rewrite Hr; simpl. rewrite Hold; simpl. rewrite Hnew; simpl.
  eexists _, _. split; [reflexivity|]. split.
  - apply small_at_store_eq. lia.
  - rewrite small_at_store_ne by lia. done.
Qed.


End CapacityPolicy.

(** ** Arrays *)

Lemma length_array_set {A} (a : list A) i v :
  length (array_set a i v) = length a.
Proof. unfold array_set. case_decide; [apply length_insert|done]. Qed.

Lemma array_get_set_eq {A} (dflt : A) a i v :
  0 ≤ i < Z.of_nat (length a) →
  array_get dflt (array_set a i v) i = v.
Proof.
  intros Hi. unfold array_get, array_set.
  rewrite !decide_True by lia.
  rewrite list_lookup_insert_eq by lia. done.
Qed.

Lemma array_get_set_ne {A} (dflt : A) a i j v :
  i ≠ j → array_get dflt (array_set a i v) j = array_get dflt a j.
Proof.
  intros Hne. unfold array_get, array_set.
  destruct (decide (0 ≤ j)); [|done].
  destruct (decide (0 ≤ i)); [|done].
  rewrite list_lookup_insert_ne by lia. done.
Qed.

Lemma array_get_replicate {A} (dflt x : A) n i :
  0 ≤ i < Z.of_nat n → array_get dflt (replicate n x) i = x.
Proof.
  intros Hi. unfold array_get. rewrite decide_True by lia.
  rewrite lookup_replicate_2 by lia. done.
Qed.

(** ** Rounding up to a power of two *)

Lemma log2_up_le_30 v : v ≤ 2 ^ 30 → Z.log2_up v ≤ 30.
Proof.
  intros Hv. rewrite <- (Z.log2_up_pow2 30) by lia.
  by apply Z.log2_up_le_mono.
Qed.

Lemma RoundUpToPowerOfTwo32_small v :
  1 ≤ v ≤ 2 ^ 30 →
  RoundUpToPowerOfTwo32 (uint32 v) = 2 ^ Z.log2_up v ∧
  v ≤ 2 ^ Z.log2_up v ≤ 2 ^ 30 ∧
  2 ^ Z.log2_up v < 2 * v.
Proof.
  intros Hv. pose proof (log2_up_le_30 v ltac:(lia)) as H30.
  pose proof (Z.log2_up_nonneg v) as H0.
  assert (2 ^ Z.log2_up v ≤ 2 ^ 30) as Hpow by (apply Z.pow_le_mono_r; lia).
  assert (v ≤ 2 ^ Z.log2_up v ∧ 2 ^ Z.log2_up v < 2 * v) as [Hle Hlt].
  { destruct (decide (v = 1)) as [->|Hne]; [by vm_compute|].
    pose proof (Z.log2_up_spec v ltac:(lia)) as [Hlo Hhi].
    split; [done|].
    replace (Z.log2_up v) with (Z.succ (Z.pred (Z.log2_up v))) by lia.
    rewrite Z.pow_succ_r; [lia|].
    assert (0 < Z.log2_up v) by (apply Z.log2_up_pos; lia). lia. }
  unfold RoundUpToPowerOfTwo32, uint32.
  rewrite (Z.mod_small v) by lia.
  rewrite Z.mod_small by lia. done.
Qed.

Lemma int32_small z : - 2 ^ 31 ≤ z < 2 ^ 31 → int32 z = z.
Proof. intros Hz. unfold int32. rewrite Z.mod_small by lia. lia. Qed.

Section Allocation.
Context `{Constants} `{Host}.

(** *** Cells of a large table *)

Lemma get_set_eq t index value :
  0 ≤ index - HashTableStartIndex < Z.of_nat (length (elements t)) →
  get (set t index value) index = value.
Proof. intros Hi. unfold get, set; simpl. by apply array_get_set_eq. Qed.

Lemma get_set_ne t index index' value :
  index ≠ index' → get (set t index value) index' = get t index'.
Proof.
  intros Hne. unfold get, set; simpl. apply array_get_set_ne. lia.
Qed.

Lemma length_elements_set t index value :
  length (elements (set t index value)) = length (elements t).
Proof. unfold set; simpl. apply length_array_set. Qed.

Lemma init_buckets_cons t i l :
  init_buckets t (i :: l)
    = init_buckets (set t (HashTableStartIndex + i) (Smi kNotFound)) l.
Proof. done. Qed.

Lemma init_buckets_header t l :
  let t' := init_buckets t l in
  number_of_elements t' = number_of_elements t ∧
  number_of_deleted_elements t' = number_of_deleted_elements t ∧
  number_of_buckets t' = number_of_buckets t ∧
  next_table t' = next_table t ∧
  hash_field t' = hash_field t ∧
  removed_indices t' = removed_indices t ∧
  length (elements t') = length (elements t).
Proof.
  revert t. induction l as [|i l IH]; intros t; [done|].
  rewrite init_buckets_cons.
  specialize (IH (set t (HashTableStartIndex + i) (Smi kNotFound))).
  simpl in IH. rewrite length_array_set in IH. done.
Qed.

Lemma init_buckets_other t l j :
  j ∉ l →
  get (init_buckets t l) (HashTableStartIndex + j) = get t (HashTableStartIndex + j).
Proof.
  revert t. induction l as [|i l IH]; intros t Hj; [done|].
  apply not_elem_of_cons in Hj as [Hne Hj].
  rewrite init_buckets_cons, IH by done.
  apply get_set_ne. lia.
Qed.

Lemma init_buckets_in t l j :
  j ∈ l → 0 ≤ j < Z.of_nat (length (elements t)) →
  get (init_buckets t l) (HashTableStartIndex + j) = Smi kNotFound.
Proof.
  revert t. induction l as [|i l IH]; intros t Hj Hr.
  - by apply elem_of_nil in Hj.
  - rewrite init_buckets_cons.
    destruct (decide (j ∈ l)) as [Hin|Hnin].
    + apply IH; [done|]. by rewrite length_elements_set.
    + apply elem_of_cons in Hj as [->|Hin]; [|done].
      rewrite init_buckets_other by done.
      apply get_set_eq. lia.
Qed.

(** A request the 32-bit arithmetic of [Allocate] represents exactly. *)
Lemma allocated_capacity_small capacity :
  1 ≤ kInitialCapacity ≤ 2 ^ 30 → capacity ≤ 2 ^ 30 →
  allocated_capacity capacity = 2 ^ Z.log2_up (Z.max kInitialCapacity capacity) ∧
  Z.max kInitialCapacity capacity ≤ allocated_capacity capacity ≤ 2 ^ 30 ∧
  allocated_capacity capacity < 2 * Z.max kInitialCapacity capacity.
Proof.
  intros Hk Hc. unfold allocated_capacity.
  assert (1 ≤ Z.max kInitialCapacity capacity ≤ 2 ^ 30) as Hmax by lia.
  destruct (RoundUpToPowerOfTwo32_small _ Hmax) as (-> & Hb & Hm).
  set (r := 2 ^ Z.log2_up _) in *. clearbody r.
  rewrite int32_small by lia. done.
Qed.

Lemma OrderedHashTable_Allocate_throws d isolate capacity :
  allocated_capacity capacity > MaxCapacity (entrysize d) →
  OrderedHashTable_Allocate d isolate capacity
    = (ThrowRangeError isolate kTooManyProperties, None).
Proof.
  intros Hgt. unfold OrderedHashTable_Allocate.
  by rewrite decide_True by done.
Qed.

(** What a successful [Allocate] leaves in the heap. *)
Lemma OrderedHashTable_Allocate_ok d isolate capacity :
  let cap := allocated_capacity capacity in
  let num_buckets := cap ÷ kLoadFactor in
  ¬ cap > MaxCapacity (entrysize d) →
  ∃ t,
    OrderedHashTable_Allocate d isolate capacity =
      (mkIsolate (heap isolate ++ [LargeTable t]) (pending_exception isolate),
       Some (length (heap isolate))) ∧
    NumberOfBuckets t = num_buckets ∧
    NumberOfElements t = 0 ∧
    NumberOfDeletedElements t = 0 ∧
    next_table t = None ∧
    removed_indices t = ∅ ∧
    length (elements t)
      = Z.to_nat (num_buckets + cap * kEntrySize (entrysize d)) ∧
    (∀ b, 0 ≤ b < num_buckets →
       0 ≤ b < Z.of_nat (length (elements t)) →
       get t (HashTableStartIndex + b) = Smi kNotFound) ∧
    (∀ j, ¬ (0 ≤ j < num_buckets) →
       get t (HashTableStartIndex + j) = undefined_value).
Proof.
  intros cap num_buckets Hok.
  unfold OrderedHashTable_Allocate. fold (allocated_capacity capacity). fold cap.
  rewrite decide_False by done. fold num_buckets.
  unfold new_object; simpl.
  set (t0 := NewFixedArrayWithMap _).
  fold (init_buckets t0 (seqZ 0 num_buckets)).
  destruct (init_buckets_header t0 (seqZ 0 num_buckets))
    as (Hnof & Hnod & Hnob & Hnext & Hhash & Hrem & Hlen).
  assert (length (elements t0)
            = Z.to_nat (num_buckets + cap * kEntrySize (entrysize d))) as Hlen0.
  { unfold t0, NewFixedArrayWithMap; simpl. rewrite length_replicate. f_equal. lia. }
  set (t1 := init_buckets t0 (seqZ 0 num_buckets)) in *.
  eexists. split; [reflexivity|].
  split_and!; try reflexivity.
  - exact Hnext.
  - exact Hrem.
  - simpl. by rewrite Hlen.
  - intros b Hb Hr. simpl in Hr. rewrite Hlen in Hr.
    change (get t1 (HashTableStartIndex + b) = Smi kNotFound).
    apply init_buckets_in; [|done]. apply elem_of_seqZ. lia.
  - intros j Hj.
    change (get t1 (HashTableStartIndex + j) = undefined_value).
    unfold t1. rewrite init_buckets_other by (rewrite elem_of_seqZ; lia).
    unfold get, t0, NewFixedArrayWithMap, array_get; simpl.
    case_decide; [|done].
    destruct (replicate _ _ !! _) eqn:E; [|done].
    apply lookup_replicate in E as [-> _]. done.
Qed.

End Allocation.

Section AllocateAndClear.
Context `{Constants} `{Host}.

(** C9 (amended). For a request of at most 2^30, [Allocate] settles on the
    least power of two that is at least the request and [kInitialCapacity];
    it throws the range error, leaving the heap alone and returning the empty
    handle, exactly when that capacity exceeds [MaxCapacity()]; otherwise the
    fresh table has half as many buckets as the capacity, every bucket is
    [kNotFound], and the counts of elements and of deleted elements are 0. *)
Theorem OrderedHashTable_Allocate_rounds d isolate capacity :
  1 ≤ kInitialCapacity ≤ 2 ^ 30 → capacity ≤ 2 ^ 30 →
  let rounded := 2 ^ Z.log2_up (Z.max kInitialCapacity capacity) in
  (kInitialCapacity ≤ rounded ∧ capacity ≤ rounded ∧
   rounded < 2 * Z.max kInitialCapacity capacity) ∧
  (rounded > MaxCapacity (entrysize d) →
   OrderedHashTable_Allocate d isolate capacity
     = (mkIsolate (heap isolate) (Some kTooManyProperties), None)) ∧
  (¬ rounded > MaxCapacity (entrysize d) →
   ∃ isolate' t,
     OrderedHashTable_Allocate d isolate capacity
       = (isolate', Some (length (heap isolate))) ∧
     pending_exception isolate' = pending_exception isolate ∧
     heap isolate' = heap isolate ++ [LargeTable t] ∧
     NumberOfBuckets t = rounded / 2 ∧
     (∀ b, 0 ≤ b < NumberOfBuckets t →
        get t (HashTableStartIndex + b) = Smi kNotFound) ∧
     NumberOfElements t = 0 ∧
     NumberOfDeletedElements t = 0).
Proof.
  intros Hk Hc rounded.
  destruct (allocated_capacity_small capacity Hk Hc) as (Hcap & Hb & Hm).
  fold rounded in Hcap. rewrite Hcap in Hb, Hm.
  split; [lia|]. split.
  - intros Hgt. rewrite OrderedHashTable_Allocate_throws; [done|].
    by rewrite Hcap.
  - intros Hok.
    destruct (OrderedHashTable_Allocate_ok d isolate capacity)
      as (t & Halloc & Hnob & Hnof & Hnod & _ & _ & Hlen & Hbuckets & _).
    { by rewrite Hcap. }
    rewrite Hcap in Hnob, Hlen.
    assert (rounded ÷ kLoadFactor = rounded / 2) as Hq
      by (apply Z.quot_div_nonneg; unfold kLoadFactor; lia).
    rewrite Hq in Hnob, Hlen.
    eexists _, t. split; [exact Halloc|]. simpl.
    split_and!; try done.
    rewrite Hcap, Hq in Hbuckets.
    intros b Hbr. rewrite Hnob in Hbr. apply Hbuckets; [lia|].
    rewrite Hlen.
    assert (0 ≤ rounded * kEntrySize (entrysize d))
      by (unfold kEntrySize; destruct d; simpl; lia).
    lia.
Qed.

(** C8. [Clear] returns a fresh, empty table of capacity [kInitialCapacity].
    The table it was given gets its [next_table] set to the fresh table and
    its count of deleted elements set to the cleared-table sentinel exactly
    when its bucket count is not zero; a table without buckets (the canonical
    empty table) is left as it was, and so is every other object. *)
Theorem Clear_marks_obsolete d isolate table t k :
  large_at isolate table = Some t →
  0 ≤ NumberOfBuckets t →
  1 ≤ k ≤ 30 → kInitialCapacity = 2 ^ k →
  kInitialCapacity ≤ MaxCapacity (entrysize d) →
  let new_table := length (heap isolate) in
  ∃ isolate' new_t,
    Clear d isolate table = Some (isolate', new_table) ∧
    large_at isolate' new_table = Some new_t ∧
    Capacity new_t = kInitialCapacity ∧
    NumberOfElements new_t = 0 ∧
    NumberOfDeletedElements new_t = 0 ∧
    IsObsolete new_t = false ∧
    large_at isolate' table =
      Some (if decide (NumberOfBuckets t ≠ 0)
            then SetNumberOfDeletedElements (SetNextTable t new_table)
                   kClearedTableSentinel
            else t) ∧
    (NumberOfBuckets t = 0 → heap isolate' = heap isolate ++ [LargeTable new_t]) ∧
    (∀ other, other ≠ table → other ≠ new_table →
       heap isolate' !! other = heap isolate !! other).
Proof.
  intros Ht Hnob Hk Hpow Hmax new_table.
  pose proof (large_at_lt _ _ _ Ht) as Hlt.
  assert (2 ^ k ≤ 2 ^ 30) as Hle by (apply Z.pow_le_mono_r; lia).
  assert (2 ≤ 2 ^ k) as Hge.
  { change 2 with (2 ^ 1) at 1. apply Z.pow_le_mono_r; lia. }
  destruct (allocated_capacity_small kInitialCapacity) as (Hcap & _); [lia..|].
  rewrite Z.max_id, Hpow, Z.log2_up_pow2 in Hcap by lia. rewrite <- Hpow in Hcap.
  destruct (OrderedHashTable_Allocate_ok d isolate kInitialCapacity)
    as (new_t & Halloc & Hnnob & Hnnof & Hnnod & Hnext & _).
  { rewrite Hcap. lia. }
  rewrite Hcap in Hnnob.
  assert (Capacity new_t = kInitialCapacity) as Hcapacity.
  { unfold Capacity. rewrite Hnnob, Hpow. unfold kLoadFactor.
    replace k with (Z.succ (k - 1)) by lia. rewrite Z.pow_succ_r by lia.
    set (p := 2 ^ (k - 1)). rewrite (Z.mul_comm 2 p), Z.quot_mul by lia. lia. }
  assert (IsObsolete new_t = false) as Hobs by (unfold IsObsolete; by rewrite Hnext).
  unfold Clear. rewrite Halloc; simpl.
  rewrite (large_at_new_object isolate _ table) by done. rewrite Ht; simpl.
  destruct (decide (NumberOfBuckets t > 0)) as [Hpos|Hzero].
  - eexists _, new_t. split; [reflexivity|].
    split_and!; try done.
    + rewrite large_at_store_ne by (unfold new_table; lia).
      apply large_at_new_object_eq.
    + rewrite decide_True by lia. apply large_at_store_eq.
      simpl. rewrite length_app. lia.
    + lia.
    + intros other Hne1 Hne2. unfold store; simpl.
      rewrite list_lookup_insert_ne by done.
      destruct (decide (other < length (heap isolate))%nat).
      * by rewrite lookup_app_l.
      * rewrite !lookup_ge_None_2; [done|lia|].
        rewrite length_app; simpl. unfold new_table in Hne2. lia.
  - eexists _, new_t. split; [reflexivity|].
    split_and!; try done.
    + apply large_at_new_object_eq.
    + rewrite decide_False by lia.
      by rewrite (large_at_new_object isolate _ table).
    + intros other Hne1 Hne2. simpl.
      destruct (decide (other < length (heap isolate))%nat).
      * by rewrite lookup_app_l.
      * rewrite !lookup_ge_None_2; [done|lia|].
        rewrite length_app; simpl. unfold new_table in Hne2. lia.
Qed.

End AllocateAndClear.

Lemma length_omap_le {A B} (f : A → option B) (l : list A) :
  (length (omap f l) ≤ length l)%nat.
Proof.
  induction l as [|x l IH]; [done|].
  change (omap f (x :: l))
    with (match f x with Some y => y :: omap f l | None => omap f l end).
  destruct (f x); simpl; lia.
Qed.

Section IteratorTransition.
Context `{Constants} `{Host}.

Lemma count_leading_below_bounds old_index lo removed :
  ascending_from lo removed → lo ≤ old_index →
  0 ≤ count_leading_below old_index removed ≤ old_index - lo.
Proof.
  revert lo. induction removed as [|r removed IH]; intros lo Hasc Hlo; simpl.
  - lia.
  - destruct Hasc as [Hr Hasc]. case_decide; [|lia].
    specialize (IH (r + 1) Hasc ltac:(lia)). lia.
Qed.

(** The inner loop reads the log position by position and agrees with the
    count over the recorded indices. *)
Lemma Transition_removed_counts t old_index positions index :
  length (omap (RemovedIndexAt t) positions) = length positions →
  Transition_removed t old_index positions index
    = Some (index
            - count_leading_below old_index (omap (RemovedIndexAt t) positions)).
Proof.
  revert index. induction positions as [|i positions IH]; intros index Hlen.
  - simpl. f_equal. lia.
  - assert (omap (RemovedIndexAt t) (i :: positions)
            = match RemovedIndexAt t i with
              | Some r => r :: omap (RemovedIndexAt t) positions
              | None => omap (RemovedIndexAt t) positions
              end) as Hcons by done.
    rewrite Hcons in *. cbn [Transition_removed].
    pose proof (length_omap_le (RemovedIndexAt t) positions) as Hle.
    destruct (RemovedIndexAt t i) as [r|] eqn:Er; cbn [length] in Hlen; [|lia].
    cbn [mbind option_bind count_leading_below].
    destruct (decide (r >= old_index)) as [Hge|Hlt].
    + rewrite decide_False by lia. f_equal. lia.
    + rewrite decide_True by lia. rewrite IH by lia. f_equal. lia.
Qed.

Lemma index_after_nonneg t index :
  removed_log_ok t → 0 ≤ index → 0 ≤ index_after t index.
Proof.
  intros Hlog Hidx. unfold index_after. case_decide; [lia|].
  destruct Hlog as [?|[_ Hasc]]; [done|].
  pose proof (count_leading_below_bounds index 0 _ Hasc Hidx). lia.
Qed.

(** One turn of the loop of [Transition] computes [index_after]. *)
Lemma Transition_loop_step t index :
  removed_log_ok t → 0 ≤ index →
  (if decide (index > 0) then
     if decide (NumberOfDeletedElements t = kClearedTableSentinel) then Some 0
     else Transition_removed t index (seqZ 0 (NumberOfDeletedElements t)) index
   else Some index) = Some (index_after t index).
Proof.
  intros Hlog Hidx. unfold index_after.
  destruct (decide (index > 0)) as [Hpos|Hzero]; simpl.
  - case_decide; [done|].
    destruct Hlog as [?|[Hlen _]]; [done|].
    apply Transition_removed_counts.
    unfold recorded_removed_indices in Hlen. by rewrite Hlen, length_seqZ.
  - assert (index = 0) as -> by lia.
    case_decide; [done|].
    destruct Hlog as [?|[_ Hasc]]; [done|].
    f_equal. destruct (recorded_removed_indices t) as [|r l]; simpl; [done|].
    destruct Hasc as [Hr _]. by rewrite decide_False by lia.
Qed.

Lemma Transition_loop_chain isolate table predecessors final fuel index :
  obsolete_chain isolate table predecessors final →
  Forall removed_log_ok predecessors →
  0 ≤ index →
  (length predecessors < fuel)%nat →
  Transition_loop fuel isolate table index
    = Some (final, foldl (λ index t, index_after t index) index predecessors).
Proof.
  intros Hchain. revert fuel index.
  induction Hchain as [table t Ht Hnext|table t next predecessors final Ht Hnext Hchain IH];
    intros fuel index Hlogs Hidx Hfuel.
  - destruct fuel as [|fuel]; [simpl in Hfuel; lia|]. simpl.
    by rewrite Ht; simpl; rewrite Hnext.
  - destruct fuel as [|fuel]; [simpl in Hfuel; lia|].
    simpl in Hfuel. apply Forall_cons in Hlogs as [Hlog Hlogs].
    cbn [Transition_loop]. rewrite Ht. cbn [mbind option_bind]. rewrite Hnext.
    cbv zeta. rewrite (Transition_loop_step t index Hlog Hidx).
    cbn [mbind option_bind].
    apply IH; [done| |lia]. by apply index_after_nonneg.
Qed.

(** C3. When the iterator's table is obsolete, [Transition] moves it along
    the [next_table] links to the first table that is not obsolete; for each
    obsolete table passed, the index becomes 0 if that table's count of
    deleted elements is the cleared-table sentinel, and otherwise drops by
    one for each recorded removed index below the index it had on entering
    that table, counting up to the first removed index that is not below
    it. *)
Theorem Transition_follows_chain isolate this t predecessors final index :
  iterator_index this = Smi index →
  0 ≤ index →
  obsolete_chain isolate (iterator_table this) (t :: predecessors) final →
  Forall removed_log_ok (t :: predecessors) →
  ∃ final_t,
    large_at isolate final = Some final_t ∧
    IsObsolete final_t = false ∧
    Transition (S (S (length predecessors))) isolate this
      = Some (mkIterator final
                (Smi (foldl (λ index t, index_after t index) index
                        (t :: predecessors)))).
Proof.
  intros Hindex Hidx Hchain Hlogs.
  assert (∃ final_t, large_at isolate final = Some final_t ∧
                     IsObsolete final_t = false) as (final_t & Hfinal & Hobs).
  { clear Hlogs. remember (t :: predecessors) as l eqn:El. clear El.
    induction Hchain as [table t' Ht Hnext|]; [|done].
    exists t'. split; [done|]. unfold IsObsolete. by rewrite Hnext. }
  exists final_t. split; [done|]. split; [done|].
  unfold Transition.
  inversion Hchain as [|table t' next preds final' Ht Hnext Hrest]; subst.
  rewrite Ht. cbn [mbind option_bind]. unfold IsObsolete. rewrite Hnext.
  cbn [negb]. rewrite Hindex. cbn [Smi_ToInt].
  rewrite (Transition_loop_chain isolate _ (t :: predecessors) final _ index
             Hchain Hlogs Hidx); [done|simpl; lia].
Qed.

End IteratorTransition.

(** ** The loop of [Rehash] *)

Lemma land_upper_bound a b : 0 ≤ b → Z.land a b ≤ b.
Proof.
  intros Hb.
  assert (Z.ldiff (Z.land a b) b = 0) as Hd.
  { apply Z.bits_inj'. intros n Hn.
    rewrite Z.ldiff_spec, Z.land_spec, Z.bits_0.
    destruct (Z.testbit a n), (Z.testbit b n); reflexivity. }
  pose proof (Z.sub_nocarry_ldiff b (Z.land a b) Hd) as Hs.
  assert (0 ≤ Z.ldiff b (Z.land a b)) by (apply Z.ldiff_nonneg; auto).
  lia.
Qed.

Lemma land_mask_range hash buckets :
  1 ≤ buckets → 0 ≤ Z.land hash (buckets - 1) < buckets.
Proof.
  intros Hb. split.
  - apply Z.land_nonneg. right. lia.
  - pose proof (land_upper_bound hash (buckets - 1) ltac:(lia)). lia.
Qed.

Section RehashLoop.
Context `{Constants} `{Host}.

Lemma copy_cells_cons table ni oi nt i l :
  copy_cells table ni oi nt (i :: l)
    = copy_cells table ni oi (set nt (ni + i) (get table (oi + i))) l.
Proof. done. Qed.

Lemma copy_cells_header table ni oi nt l :
  let nt' := copy_cells table ni oi nt l in
  number_of_elements nt' = number_of_elements nt ∧
  number_of_deleted_elements nt' = number_of_deleted_elements nt ∧
  number_of_buckets nt' = number_of_buckets nt ∧
  next_table nt' = next_table nt ∧
  hash_field nt' = hash_field nt ∧
  removed_indices nt' = removed_indices nt ∧
  length (elements nt') = length (elements nt).
Proof.
  revert nt. induction l as [|i l IH]; intros nt; [done|].
  rewrite copy_cells_cons.
  specialize (IH (set nt (ni + i) (get table (oi + i)))).
  simpl in IH. rewrite length_array_set in IH. done.
Qed.

Lemma copy_cells_other table ni oi nt l index :
  index - ni ∉ l →
  get (copy_cells table ni oi nt l) index = get nt index.
Proof.
  revert nt. induction l as [|i l IH]; intros nt Hj; [done|].
  apply not_elem_of_cons in Hj as [Hne Hj].
  rewrite copy_cells_cons, IH by done.
  apply get_set_ne. lia.
Qed.

Lemma copy_cells_in table ni oi nt l i :
  i ∈ l →
  0 ≤ ni + i - HashTableStartIndex < Z.of_nat (length (elements nt)) →
  get (copy_cells table ni oi nt l) (ni + i) = get table (oi + i).
Proof.
  revert nt. induction l as [|i' l IH]; intros nt Hi Hr.
  - by apply elem_of_nil in Hi.
  - rewrite copy_cells_cons.
    destruct (decide (i ∈ l)) as [Hin|Hnin].
    + apply IH; [done|]. by rewrite length_elements_set.
    + apply elem_of_cons in Hi as [->|Hin]; [|done].
      rewrite copy_cells_other by (by replace (ni + i' - ni) with i' by lia).
      apply get_set_eq. lia.
Qed.

(** The cells of the new table after a live entry was copied into slot
    [new_entry] and linked into [bucket]. *)
Lemma get_copy_entry d table new_table capacity new_entry old_entry bucket index :
  layout_ok d new_table capacity →
  0 ≤ new_entry < capacity →
  0 ≤ bucket < NumberOfBuckets new_table →
  let new_index := EntryToIndexRaw (entrysize d) new_table new_entry in
  let old_index := EntryToIndexRaw (entrysize d) table old_entry in
  get (copy_entry d table new_table new_entry old_entry bucket) index =
    if decide (index = HashTableStartIndex + bucket) then Smi new_entry
    else if decide (new_index ≤ index < new_index + entrysize d)
         then get table (old_index + (index - new_index))
    else if decide (index = new_index + kChainOffset (entrysize d))
         then get new_table (HashTableStartIndex + bucket)
    else get new_table index.
Proof.
  intros (Hnb & Hcap & Hlen) Hentry Hbucket new_index old_index.
  unfold copy_entry.
  fold (copy_cells table
          (EntryToIndexRaw (entrysize d)
             (set new_table (HashTableStartIndex + bucket) (Smi new_entry)) new_entry)
          (EntryToIndexRaw (entrysize d) table old_entry)
          (set new_table (HashTableStartIndex + bucket) (Smi new_entry))
          (seqZ 0 (entrysize d))).
  change (EntryToIndexRaw (entrysize d)
            (set new_table (HashTableStartIndex + bucket) (Smi new_entry)) new_entry)
    with new_index.
  fold old_index.
  set (nt1 := set new_table (HashTableStartIndex + bucket) (Smi new_entry)).
  set (nt2 := copy_cells table new_index old_index nt1 (seqZ 0 (entrysize d))).
  assert (length (elements nt1) = length (elements new_table)) as Hlen1
    by apply length_elements_set.
  destruct (copy_cells_header table new_index old_index nt1 (seqZ 0 (entrysize d)))
    as (_ & _ & _ & _ & _ & _ & Hlen2). fold nt2 in Hlen2.
  assert (new_index = HashTableStartIndex + NumberOfBuckets new_table
                      + new_entry * kEntrySize (entrysize d)) as Hni by done.
  assert (1 ≤ entrysize d ≤ 3) as Hes by (destruct d; simpl; lia).
  assert (kEntrySize (entrysize d) = entrysize d + 1) as Hkes by done.
  assert (kChainOffset (entrysize d) = entrysize d) as Hco by done.
  assert (new_entry * (entrysize d + 1) + entrysize d
            < capacity * (entrysize d + 1)) as Hfit by nia.
  assert (0 ≤ new_entry * (entrysize d + 1)) as Hpos by nia.
  rewrite Hkes in *. rewrite Hco.
  destruct (decide (index = HashTableStartIndex + bucket)) as [->|Hne1].
  { rewrite get_set_ne by lia.
    unfold nt2. rewrite copy_cells_other
      by (rewrite elem_of_seqZ; lia).
    apply get_set_eq. lia. }
  destruct (decide (new_index ≤ index < new_index + entrysize d)) as [Hin|Hnin].
  { rewrite get_set_ne by lia.
    replace index with (new_index + (index - new_index)) at 1 by lia.
    unfold nt2. apply copy_cells_in; [rewrite elem_of_seqZ; lia|].
    rewrite Hlen1. lia. }
  destruct (decide (index = new_index + entrysize d)) as [->|Hne2].
  { apply get_set_eq. rewrite Hlen2, Hlen1. lia. }
  rewrite get_set_ne by lia.
  unfold nt2. rewrite copy_cells_other by (rewrite elem_of_seqZ; lia).
  apply get_set_ne. lia.
Qed.

Lemma copy_entry_header d table new_table new_entry old_entry bucket :
  let nt' := copy_entry d table new_table new_entry old_entry bucket in
  number_of_elements nt' = number_of_elements new_table ∧
  number_of_deleted_elements nt' = number_of_deleted_elements new_table ∧
  number_of_buckets nt' = number_of_buckets new_table ∧
  next_table nt' = next_table new_table ∧
  hash_field nt' = hash_field new_table ∧
  removed_indices nt' = removed_indices new_table ∧
  length (elements nt') = length (elements new_table).
Proof.
  unfold copy_entry.
  match goal with |- context [foldl ?f ?a ?l] =>
    pose proof (copy_cells_header table
      (EntryToIndexRaw (entrysize d)
         (set new_table (HashTableStartIndex + bucket) (Smi new_entry)) new_entry)
      (EntryToIndexRaw (entrysize d) table old_entry) a l) as Hh end.
  unfold copy_cells in Hh. simpl in Hh |- *.
  rewrite !length_array_set in *. done.
Qed.

Lemma copy_entry_with_elements d table new_table new_entry old_entry bucket :
  copy_entry d table new_table new_entry old_entry bucket
    = with_elements new_table
        (elements (copy_entry d table new_table new_entry old_entry bucket)).
Proof.
  destruct (copy_entry_header d table new_table new_entry old_entry bucket)
    as (H1 & H2 & H3 & H4 & H5 & H6 & _).
  destruct (copy_entry _ _ _ _ _ _), new_table; simpl in *. by subst.
Qed.

Lemma Rehash_step_hole d nb table new_table new_entry removed_holes_index old_entry :
  is_hole d table old_entry = true →
  Rehash_step d nb (table, new_table, new_entry, removed_holes_index) old_entry
    = (SetRemovedIndexAt table removed_holes_index old_entry, new_table,
       new_entry, removed_holes_index + 1).
Proof. intros Hh. unfold Rehash_step, is_hole in *. by rewrite Hh. Qed.

Lemma Rehash_step_live d nb table new_table new_entry removed_holes_index old_entry :
  is_hole d table old_entry = false →
  Rehash_step d nb (table, new_table, new_entry, removed_holes_index) old_entry
    = (table,
       copy_entry d table new_table new_entry old_entry
         (Z.land (Smi_ToInt (GetHash (KeyAt (entrysize d) table old_entry)))
            (nb - 1)),
       new_entry + 1, removed_holes_index).
Proof. intros Hh. unfold Rehash_step, is_hole in *. by rewrite Hh. Qed.

(** The payload of the slot a live entry was copied into, and of every other
    slot. *)
Lemma payload_copy_entry_eq d table new_table capacity new_entry old_entry bucket :
  layout_ok d new_table capacity →
  0 ≤ new_entry < capacity →
  0 ≤ bucket < NumberOfBuckets new_table →
  payload d (copy_entry d table new_table new_entry old_entry bucket) new_entry
    = payload d table old_entry.
Proof.
  intros Hlay Hentry Hbucket. unfold payload.
  apply map_ext_in. intros i Hi%list_elem_of_In%elem_of_seqZ.
  assert (EntryToIndexRaw (entrysize d)
            (copy_entry d table new_table new_entry old_entry bucket) new_entry
          = EntryToIndexRaw (entrysize d) new_table new_entry) as ->.
  { unfold EntryToIndexRaw, NumberOfBuckets.
    by destruct (copy_entry_header d table new_table new_entry old_entry bucket)
      as (_ & _ & -> & _). }
  rewrite (get_copy_entry d table new_table capacity) by done.
  destruct Hlay as (Hnb & Hcap & Hlen).
  assert (0 ≤ new_entry * kEntrySize (entrysize d))
    by (unfold kEntrySize; destruct d; simpl; lia).
  rewrite decide_False by (unfold EntryToIndexRaw; lia).
  rewrite decide_True by lia. f_equal. lia.
Qed.

Lemma payload_copy_entry_ne d table new_table capacity new_entry old_entry bucket e :
  layout_ok d new_table capacity →
  0 ≤ new_entry < capacity →
  0 ≤ bucket < NumberOfBuckets new_table →
  0 ≤ e → e ≠ new_entry →
  payload d (copy_entry d table new_table new_entry old_entry bucket) e
    = payload d new_table e.
Proof.
  intros Hlay Hentry Hbucket He Hne. unfold payload.
  apply map_ext_in. intros i Hi%list_elem_of_In%elem_of_seqZ.
  assert (EntryToIndexRaw (entrysize d)
            (copy_entry d table new_table new_entry old_entry bucket) e
          = EntryToIndexRaw (entrysize d) new_table e) as ->.
  { unfold EntryToIndexRaw, NumberOfBuckets.
    by destruct (copy_entry_header d table new_table new_entry old_entry bucket)
      as (_ & _ & -> & _). }
  rewrite (get_copy_entry d table new_table capacity) by done.
  destruct Hlay as (Hnb & Hcap & Hlen).
  unfold EntryToIndexRaw, kEntrySize, kChainOffset.
  repeat case_decide; try done; destruct d; simpl in *; lia.
Qed.

Lemma chains_upto_copy_entry d table new_table capacity new_entry old_entry bucket :
  layout_ok d new_table capacity →
  0 ≤ new_entry < capacity →
  0 ≤ bucket < NumberOfBuckets new_table →
  chains_upto d new_entry new_table →
  chains_upto d (new_entry + 1)
    (copy_entry d table new_table new_entry old_entry bucket).
Proof.
  intros Hlay Hentry Hbucket [Hbuckets Hchains].
  assert (NumberOfBuckets (copy_entry d table new_table new_entry old_entry bucket)
          = NumberOfBuckets new_table) as Hnob.
  { unfold NumberOfBuckets.
    by destruct (copy_entry_header d table new_table new_entry old_entry bucket)
      as (_ & _ & -> & _). }
  assert (∀ e, EntryToIndexRaw (entrysize d)
            (copy_entry d table new_table new_entry old_entry bucket) e
          = EntryToIndexRaw (entrysize d) new_table e) as Hidx.
  { intros e. unfold EntryToIndexRaw. by rewrite Hnob. }
  pose proof Hlay as (Hnb & Hcap & Hlen).
  split.
  - intros b Hb. rewrite Hnob in Hb.
    rewrite (get_copy_entry d table new_table capacity) by done.
    destruct (decide (HashTableStartIndex + b = HashTableStartIndex + bucket)).
    { exists new_entry. split; [done|]. right. lia. }
    destruct (Hbuckets b Hb) as (e & He & Hrange).
    assert (0 ≤ new_entry * kEntrySize (entrysize d))
      by (unfold kEntrySize; destruct d; simpl; lia).
    rewrite !decide_False
      by (unfold EntryToIndexRaw, kChainOffset; destruct d; simpl in *; lia).
    exists e. split; [done|]. lia.
  - intros entry Hentry'. rewrite Hidx.
    rewrite (get_copy_entry d table new_table capacity) by done.
    assert (0 ≤ entry * kEntrySize (entrysize d))
      by (unfold kEntrySize; destruct d; simpl; lia).
    rewrite decide_False
      by (unfold EntryToIndexRaw, kChainOffset; destruct d; simpl in *; lia).
    destruct (decide (entry = new_entry)) as [->|Hne].
    + rewrite decide_False
        by (unfold EntryToIndexRaw, kChainOffset; destruct d; simpl in *; lia).
      rewrite decide_True by done.
      destruct (Hbuckets bucket Hbucket) as (e & He & Hrange).
      exists e. split; [done|]. lia.
    + rewrite !decide_False
        by (unfold EntryToIndexRaw, kEntrySize, kChainOffset;
            destruct d; simpl in *; lia).
      destruct (Hchains entry ltac:(lia)) as (e & He & Hrange).
      exists e. split; [done|]. lia.
Qed.

Lemma seqZ_cons_of_nat m n :
  seqZ m (Z.of_nat (S n)) = m :: seqZ (m + 1) (Z.of_nat n).
Proof.
  rewrite seqZ_cons by lia. f_equal. f_equal; lia.
Qed.

(** The whole loop, from any state: the source keeps its cells and gains one
    log position per hole, in the order met; the new table keeps its header
    and the slots below [new_entry], and receives the live entries, in the
    order met, in the slots from [new_entry] on. *)
Lemma Rehash_loop d capacity l :
  ∀ table new_table new_entry removed_holes_index,
  let lives := List.filter (λ e, negb (is_hole d table e)) l in
  let holes := List.filter (is_hole d table) l in
  layout_ok d new_table capacity →
  0 ≤ new_entry →
  new_entry + Z.of_nat (length lives) ≤ capacity →
  chains_upto d new_entry new_table →
  ∃ log cells,
    foldl (Rehash_step d (NumberOfBuckets new_table))
      (table, new_table, new_entry, removed_holes_index) l
    = (with_removed_indices table log, with_elements new_table cells,
       new_entry + Z.of_nat (length lives),
       removed_holes_index + Z.of_nat (length holes)) ∧
    (∀ i, log !! i =
       if decide (removed_holes_index ≤ i
                  < removed_holes_index + Z.of_nat (length holes))
       then holes !! Z.to_nat (i - removed_holes_index)
       else removed_indices table !! i) ∧
    length cells = length (elements new_table) ∧
    (∀ e, 0 ≤ e < new_entry →
       payload d (with_elements new_table cells) e = payload d new_table e) ∧
    map (payload d (with_elements new_table cells))
      (seqZ new_entry (Z.of_nat (length lives)))
      = map (payload d table) lives ∧
    chains_upto d (new_entry + Z.of_nat (length lives))
      (with_elements new_table cells).
Proof.
  induction l as [|a l IH]; intros table new_table new_entry r lives holes
    Hlay Hentry Hfit Hchains.
  - exists (removed_indices table), (elements new_table). simpl.
    replace (new_entry + Z.of_nat 0) with new_entry by lia.
    replace (r + Z.of_nat 0) with r by lia.
    assert (with_elements new_table (elements new_table) = new_table) as ->
      by (by destruct new_table).
    assert (with_removed_indices table (removed_indices table) = table) as ->
      by (by destruct table).
    split_and!; try done.
    intros i. by rewrite decide_False by lia.
  - cbn [foldl].
    destruct (is_hole d table a) eqn:Ehole.
    + rewrite Rehash_step_hole by done.
      set (table1 := SetRemovedIndexAt table r a).
      destruct (IH table1 new_table new_entry (r + 1) Hlay Hentry) as
        (log & cells & Hfold & Hlog & Hlen & Hframe & Hmap & Hch).
      { subst lives. simpl in Hfit. rewrite Ehole in Hfit. exact Hfit. }
      { done. }
      change (List.filter (λ e, negb (is_hole d table1 e)) l)
        with (List.filter (λ e, negb (is_hole d table e)) l) in *.
      change (List.filter (is_hole d table1) l)
        with (List.filter (is_hole d table) l) in *.
      change (payload d table1) with (payload d table) in Hmap.
      assert (lives = List.filter (λ e, negb (is_hole d table e)) l) as Hlives.
      { subst lives. simpl. by rewrite Ehole. }
      assert (holes = a :: List.filter (is_hole d table) l) as Hholes.
      { subst holes. simpl. by rewrite Ehole. }
      rewrite Hlives, Hholes. clear Hlives Hholes.
      exists log, cells. split.
      { rewrite Hfold. simpl length.
        repeat (apply pair_equal_spec; split); try done; lia. }
      split_and!; try done.
      intros i. rewrite Hlog. simpl length.
      destruct (decide (r + 1 ≤ i < r + 1 + _)) as [Hin|Hout].
      * rewrite decide_True by lia.
        replace (Z.to_nat (i - r)) with (S (Z.to_nat (i - (r + 1)))) by lia.
        done.
      * destruct (decide (i = r)) as [->|Hne].
        -- rewrite decide_True by lia. replace (r - r) with 0 by lia.
           unfold table1; simpl. by rewrite lookup_insert_eq.
        -- rewrite decide_False by lia.
           unfold table1; simpl. by rewrite lookup_insert_ne.
    + rewrite Rehash_step_live by done.
      set (bucket := Z.land _ _).
      assert (0 ≤ bucket < NumberOfBuckets new_table) as Hbucket
        by (apply land_mask_range; apply Hlay).
      assert (lives = a :: List.filter (λ e, negb (is_hole d table e)) l) as Hlives.
      { subst lives. simpl. by rewrite Ehole. }
      assert (holes = List.filter (is_hole d table) l) as Hholes.
      { subst holes. simpl. by rewrite Ehole. }
      rewrite Hlives, Hholes in *. clear Hlives Hholes lives holes.
      simpl length in *.
      set (new1 := copy_entry d table new_table new_entry a bucket).
      destruct (copy_entry_header d table new_table new_entry a bucket)
        as (_ & _ & Hnob1 & _ & _ & _ & Hlen1). fold new1 in Hnob1, Hlen1.
      assert (layout_ok d new1 capacity) as Hlay1.
      { destruct Hlay as (? & ? & ?). unfold layout_ok, NumberOfBuckets.
        rewrite Hnob1, Hlen1. done. }
      assert (NumberOfBuckets new_table = NumberOfBuckets new1) as Hnb
        by (unfold NumberOfBuckets; by rewrite Hnob1).
      rewrite Hnb.
      destruct (IH table new1 (new_entry + 1) r Hlay1) as
        (log & cells & Hfold & Hlog & Hlen & Hframe & Hmap & Hch).
      { lia. }
      { lia. }
      { apply (chains_upto_copy_entry d table new_table capacity); [done|lia|done..]. }
      assert (with_elements new1 cells = with_elements new_table cells) as Hwe.
      { unfold new1. rewrite copy_entry_with_elements. done. }
      rewrite Hwe in *.
      exists log, cells. split.
      { rewrite Hfold. simpl length.
        repeat (apply pair_equal_spec; split); try done; lia. }
      split_and!; try done.
      * by rewrite Hlen, Hlen1.
      * intros e He. rewrite Hframe by lia.
        apply (payload_copy_entry_ne d table new_table capacity); [done|lia|done|lia..].
      * rewrite seqZ_cons_of_nat. cbn [map]. f_equal; [|done].
        rewrite Hframe by lia.
        apply (payload_copy_entry_eq d table new_table capacity); [done|lia|done].
      * replace (new_entry + Z.of_nat (S _)) with (new_entry + 1 + Z.of_nat (length
          (List.filter (λ e, negb (is_hole d table e)) l))) by lia. done.
Qed.

End RehashLoop.

Section Rehash.
Context `{Constants} `{Host}.

(** The rounded capacity of a request that 32 bits represent: a power of two
    that is at least 2, hence twice its number of buckets. *)
Lemma rounded_capacity capacity :
  2 ≤ kInitialCapacity ≤ 2 ^ 30 → capacity ≤ 2 ^ 30 →
  let rounded := 2 ^ Z.log2_up (Z.max kInitialCapacity capacity) in
  allocated_capacity capacity = rounded ∧
  rounded ÷ kLoadFactor = rounded / 2 ∧
  1 ≤ rounded / 2 ∧
  rounded / 2 * kLoadFactor = rounded ∧
  Z.max kInitialCapacity capacity ≤ rounded ≤ 2 ^ 30.
Proof.
  intros Hk Hc rounded.
  destruct (allocated_capacity_small capacity) as (Hcap & Hb & _); [lia..|].
  fold rounded in Hcap. rewrite Hcap in Hb.
  assert (0 < Z.log2_up (Z.max kInitialCapacity capacity)) as Hpos
    by (apply Z.log2_up_pos; lia).
  assert (rounded = 2 * 2 ^ (Z.log2_up (Z.max kInitialCapacity capacity) - 1))
    as Heven.
  { unfold rounded. rewrite <- Z.pow_succ_r by lia. f_equal. lia. }
  set (half := 2 ^ (Z.log2_up (Z.max kInitialCapacity capacity) - 1)) in *.
  assert (rounded / 2 = half) as Hhalf
    by (rewrite Heven, Z.mul_comm, Z.div_mul; lia).
  unfold kLoadFactor. rewrite Z.quot_div_nonneg by lia.
  split_and!; try done; lia.
Qed.

(** [Derived::Allocate] adds the hash word of a name dictionary to what
    the template's [Allocate] builds. *)
Lemma Derived_Allocate_ok d isolate capacity :
  let cap := allocated_capacity capacity in
  let num_buckets := cap ÷ kLoadFactor in
  ¬ cap > MaxCapacity (entrysize d) →
  ∃ t,
    Derived_Allocate d isolate capacity =
      Some (mkIsolate (heap isolate ++ [LargeTable t]) (pending_exception isolate),
            Some (length (heap isolate))) ∧
    NumberOfBuckets t = num_buckets ∧
    NumberOfElements t = 0 ∧
    NumberOfDeletedElements t = 0 ∧
    next_table t = None ∧
    removed_indices t = ∅ ∧
    length (elements t)
      = Z.to_nat (num_buckets + cap * kEntrySize (entrysize d)) ∧
    (∀ b, 0 ≤ b < num_buckets →
       0 ≤ b < Z.of_nat (length (elements t)) →
       get t (HashTableStartIndex + b) = Smi kNotFound) ∧
    (∀ j, ¬ (0 ≤ j < num_buckets) →
       get t (HashTableStartIndex + j) = undefined_value).
Proof.
  intros cap num_buckets Hok.
  destruct (OrderedHashTable_Allocate_ok d isolate capacity Hok)
    as (t & Halloc & Hprops).
  destruct d; simpl; try (exists t; by rewrite Halloc).
  rewrite Halloc. cbn [mbind option_bind].
  rewrite large_at_new_object_eq. cbn [mbind option_bind].
  exists (SetHash t kNoHashSentinel). split; [|exact Hprops].
  unfold store; simpl. do 2 f_equal.
  rewrite insert_app_r_alt by lia. by rewrite Nat.sub_diag.
Qed.

(** [Rehash] succeeds when the allocation does and the new capacity holds the
    live entries, and leaves the state [rehashed] describes. *)
Lemma OrderedHashTable_Rehash_ok d isolate table t new_capacity :
  large_at isolate table = Some t →
  2 ≤ kInitialCapacity ≤ 2 ^ 30 → new_capacity ≤ 2 ^ 30 →
  let rounded := 2 ^ Z.log2_up (Z.max kInitialCapacity new_capacity) in
  ¬ rounded > MaxCapacity (entrysize d) →
  Z.of_nat (length (live_slots d t)) ≤ rounded →
  ∃ isolate' t' new_t,
    OrderedHashTable_Rehash d isolate table new_capacity
      = Some (isolate', Some (length (heap isolate))) ∧
    rehashed d isolate table t rounded isolate' t' new_t.
Proof.
  intros Ht Hk Hc rounded Hmax Hfit.
  pose proof (large_at_lt _ _ _ Ht) as Hlt.
  destruct (rounded_capacity new_capacity Hk Hc)
    as (Hcap & Hq & Hhalf & Hdouble & Hrange). fold rounded in Hcap, Hq, Hhalf, Hdouble, Hrange.
  destruct (Derived_Allocate_ok d isolate new_capacity)
    as (t0 & Halloc & Hnob0 & Hnof0 & Hnod0 & Hnext0 & Hrem0 & Hlen0 & Hbuckets0 & _).
  { by rewrite Hcap. }
  rewrite Hcap, Hq in Hnob0, Hlen0, Hbuckets0.
  assert (0 ≤ rounded * kEntrySize (entrysize d)) as Hdata
    by (unfold kEntrySize; destruct d; simpl; lia).
  assert (layout_ok d t0 rounded) as Hlay.
  { unfold layout_ok. rewrite Hnob0, Hlen0. split_and!; lia. }
  assert (chains_upto d 0 t0) as Hch0.
  { split; [|intros; lia].
    intros b Hb. rewrite Hnob0 in Hb. exists kNotFound. split; [|by left].
    apply Hbuckets0; [done|]. rewrite Hlen0. lia. }
  destruct (Rehash_loop d rounded (IterateEntries t) t t0 0 0 Hlay)
    as (log & cells & Hfold & Hlog & Hlen & _ & Hmap & Hch); [lia|done|done|].
  fold (live_slots d t) in Hfold, Hmap, Hch.
  fold (hole_slots d t) in Hfold, Hlog.
  unfold OrderedHashTable_Rehash. rewrite Halloc. cbn [mbind option_bind].
  rewrite (large_at_new_object isolate _ table) by done.
  rewrite Ht. cbn [mbind option_bind].
  rewrite large_at_new_object_eq. cbn [mbind option_bind].
  rewrite Hfold.
  eexists _, _, _. split; [reflexivity|].
  unfold rehashed. split_and!.
  - unfold store; simpl. f_equal.
    rewrite insert_app_r_alt by lia. by rewrite Nat.sub_diag.
  - done.
  - exists log. split.
    + unfold NumberOfBuckets, NumberOfElements; simpl.
      by destruct (decide (number_of_buckets t > 0)).
    + intros i. rewrite Hlog. repeat case_decide; try lia; try done.
      f_equal. lia.
  - done.
  - exact Hnod0.
  - exact Hnob0.
  - exact Hnext0.
  - destruct Hlay as (? & ? & ?). unfold layout_ok. simpl.
    rewrite Hlen. done.
  - exact Hmap.
  - exact Hch.
Qed.

Lemma is_hole_payload d t entry :
  is_hole d t entry = payload_is_hole (payload d t entry).
Proof.
  unfold is_hole, KeyAt, payload.
  destruct d; simpl; by rewrite Z.add_0_r.
Qed.

Lemma filter_all {A} (f : A → bool) (l : list A) :
  Forall (λ x, f x = true) l → List.filter f l = l.
Proof.
  induction 1 as [|x l Hx _ IH]; [done|]. simpl. by rewrite Hx, IH.
Qed.

Lemma omap_seqZ_lookup {A} (f : Z → option A) (l : list A) m :
  (∀ i : nat, (i < length l)%nat → f (m + Z.of_nat i) = l !! i) →
  omap f (seqZ m (Z.of_nat (length l))) = l.
Proof.
  revert m. induction l as [|x l IH]; intros m Hf; [done|].
  cbn [length]. rewrite seqZ_cons_of_nat.
  change (omap f (m :: seqZ (m + 1) (Z.of_nat (length l))))
    with (match f m with
          | Some y => y :: omap f (seqZ (m + 1) (Z.of_nat (length l)))
          | None => omap f (seqZ (m + 1) (Z.of_nat (length l)))
          end).
  pose proof (Hf 0%nat ltac:(simpl; lia)) as Hhead.
  rewrite Z.add_0_r in Hhead. rewrite Hhead. simpl. f_equal.
  apply IH. intros i Hi.
  change (l !! i) with ((x :: l) !! S i).
  rewrite <- (Hf (S i)) by (simpl; lia). f_equal. lia.
Qed.

Lemma ascending_from_weaken lo lo' l :
  lo' ≤ lo → ascending_from lo l → ascending_from lo' l.
Proof. destruct l; simpl; [done|]. intros ? [? ?]. split; [lia|done]. Qed.

Lemma ascending_filter_seqZ (f : Z → bool) lo (n : nat) :
  ascending_from lo (List.filter f (seqZ lo (Z.of_nat n))).
Proof.
  revert lo. induction n as [|n IH]; intros lo; [done|].
  rewrite seqZ_cons_of_nat. simpl. destruct (f lo); simpl.
  - split; [lia|apply IH].
  - apply (ascending_from_weaken (lo + 1)); [lia|apply IH].
Qed.

Lemma ascending_hole_slots d t : ascending_from 0 (hole_slots d t).
Proof.
  unfold hole_slots, IterateEntries.
  destruct (decide (0 ≤ UsedCapacity t)).
  - rewrite <- (Z2Nat.id (UsedCapacity t)) by done.
    apply ascending_filter_seqZ.
  - unfold seqZ. by rewrite Z2Nat.nonpos by lia.
Qed.

Lemma length_live_slots d t :
  0 ≤ NumberOfElements t →
  Z.of_nat (length (hole_slots d t)) = NumberOfDeletedElements t →
  Z.of_nat (length (live_slots d t)) = NumberOfElements t.
Proof.
  intros Hnof Hholes.
  pose proof (List.filter_length (is_hole d t) (IterateEntries t)) as Hsum.
  fold (hole_slots d t) in Hsum. fold (live_slots d t) in Hsum.
  unfold IterateEntries, UsedCapacity in Hsum.
  rewrite length_seqZ in Hsum. lia.
Qed.

(** The live entries of a rehashed table. *)
Lemma rehashed_live_entries d isolate table t capacity isolate' t' new_t :
  rehashed d isolate table t capacity isolate' t' new_t →
  Z.of_nat (length (live_slots d t)) = NumberOfElements t →
  live_slots d new_t = seqZ 0 (NumberOfElements t) ∧
  live_entries d new_t = live_entries d t.
Proof.
  intros (_ & _ & _ & Hnof & Hnod & _ & _ & _ & Hmap & _) Hlives.
  rewrite Hlives in Hmap.
  assert (live_slots d new_t = seqZ 0 (NumberOfElements t)) as Hslots.
  { unfold live_slots, IterateEntries, UsedCapacity.
    rewrite Hnof, Hnod, Z.add_0_r.
    apply filter_all.
    assert (Forall (λ p, negb (payload_is_hole p) = true)
              (map (payload d t) (live_slots d t))) as Hall.
    { apply Forall_map. apply Forall_forall. intros e He.
      unfold live_slots in He. apply list_elem_of_In, filter_In in He as [_ He].
      by rewrite <- is_hole_payload. }
    rewrite <- Hmap in Hall. apply Forall_map in Hall.
    eapply Forall_impl; [exact Hall|]. simpl. intros e He.
    by rewrite is_hole_payload. }
  split; [done|]. unfold live_entries at 1. by rewrite Hslots.
Qed.

Lemma rehashed_large_at d isolate table t capacity isolate' t' new_t :
  rehashed d isolate table t capacity isolate' t' new_t →
  (table < length (heap isolate))%nat →
  large_at isolate' (length (heap isolate)) = Some new_t ∧
  large_at isolate' table = Some t' ∧
  length (heap isolate') = S (length (heap isolate)) ∧
  (∀ other, other ≠ table → (other < length (heap isolate))%nat →
     heap isolate' !! other = heap isolate !! other).
Proof.
  intros (Hheap & _) Hlt. unfold large_at. rewrite Hheap. split_and!.
  - rewrite list_lookup_insert_ne by lia.
    rewrite lookup_app_r by lia. by rewrite Nat.sub_diag.
  - rewrite list_lookup_insert_eq; [done|]. rewrite length_app. lia.
  - rewrite length_insert, length_app. simpl. lia.
  - intros other Hne Hother. rewrite list_lookup_insert_ne by done.
    by rewrite lookup_app_l.
Qed.

End Rehash.

Section RehashTheorem.
Context `{Constants} `{Host}.

(** C1. When the allocation succeeds, [Rehash] returns a new table whose live
    entries, in slot order, are the live entries of the source in slot
    order; the source's log of removed indices holds its tombstoned slots in
    ascending order; the new table has the source's number of elements; and
    the source's [next_table] is the new table exactly when the source has a
    bucket count other than 0.

    The hypotheses say what a table and a successful allocation are.  The
    source has as many tombstoned slots as it counts deleted elements, which
    [Rehash] asserts itself ([DCHECK_EQ] after the loop).  The request is at
    most 2^30, so that the capacity does not wrap, and the rounded capacity
    is within [MaxCapacity()].  The new table has room for the live entries,
    as it has at every call of [Rehash] in the source (see
    [EnsureCapacityForAdding_ok] and [Shrink_rehashes]); with less room the
    loop would write outside the new backing store. *)
Theorem Rehash_preserves_live_entries d isolate table t new_capacity :
  large_at isolate table = Some t →
  2 ≤ kInitialCapacity ≤ 2 ^ 30 → new_capacity ≤ 2 ^ 30 →
  0 ≤ NumberOfElements t → 0 ≤ NumberOfBuckets t →
  Z.of_nat (length (hole_slots d t)) = NumberOfDeletedElements t →
  let rounded := 2 ^ Z.log2_up (Z.max kInitialCapacity new_capacity) in
  ¬ rounded > MaxCapacity (entrysize d) →
  NumberOfElements t ≤ rounded →
  let new_table := length (heap isolate) in
  ∃ isolate' t' new_t,
    OrderedHashTable_Rehash d isolate table new_capacity
      = Some (isolate', Some new_table) ∧
    large_at isolate' new_table = Some new_t ∧
    large_at isolate' table = Some t' ∧
    live_entries d new_t = live_entries d t ∧
    recorded_removed_indices t' = hole_slots d t ∧
    ascending_from 0 (hole_slots d t) ∧
    NumberOfElements new_t = NumberOfElements t ∧
    next_table t' =
      (if decide (NumberOfBuckets t ≠ 0) then Some new_table else next_table t).
Proof.
  intros Ht Hk Hc Hnof Hnob Hholes rounded Hmax Hfit new_table.
  pose proof (large_at_lt _ _ _ Ht) as Hlt.
  pose proof (length_live_slots d t Hnof Hholes) as Hlives.
  destruct (OrderedHashTable_Rehash_ok d isolate table t new_capacity Ht Hk Hc Hmax)
    as (isolate' & t' & new_t & Hrehash & Hpost).
  { fold rounded. lia. }
  fold rounded in Hpost.
  destruct (rehashed_large_at _ _ _ _ _ _ _ _ Hpost Hlt) as (Hnew & Hold & _).
  destruct (rehashed_live_entries _ _ _ _ _ _ _ _ Hpost Hlives) as (_ & Hentries).
  destruct Hpost as (_ & _ & (log & Ht' & Hlog) & Hnof' & _).
  exists isolate', t', new_t. split_and!; try done.
  - assert (NumberOfDeletedElements t' = Z.of_nat (length (hole_slots d t))) as Hnod'.
    { rewrite Hholes, Ht'. by destruct (decide (NumberOfBuckets t > 0)). }
    unfold recorded_removed_indices. rewrite Hnod'.
    apply omap_seqZ_lookup. intros i Hi.
    assert (RemovedIndexAt t' (0 + Z.of_nat i) = log !! (0 + Z.of_nat i)) as ->.
    { rewrite Ht'. by destruct (decide (NumberOfBuckets t > 0)). }
    rewrite Hlog, decide_True by lia. f_equal. lia.
  - apply ascending_hole_slots.
  - rewrite Ht'. destruct (decide (NumberOfBuckets t > 0)).
    + by rewrite decide_True by lia.
    + by rewrite decide_False by lia.
Qed.

End RehashTheorem.

(** ** Chain walks and insertion in the large form *)

Section LargeAdd.
Context `{Constants} `{Host}.

Lemma IsTheHole_true o : IsTheHole o = true → o = the_hole_value.
Proof. by destruct o. Qed.

Lemma elem_of_live_slots d t entry :
  entry ∈ live_slots d t ↔
  0 ≤ entry < UsedCapacity t ∧ is_hole d t entry = false.
Proof.
  unfold live_slots, IterateEntries.
  rewrite list_elem_of_In, filter_In, <- list_elem_of_In, elem_of_seqZ.
  rewrite negb_true_iff. intuition lia.
Qed.

(** A key that matches an entry of the chain is found. *)
Lemma FindInChain_found d t key (n : nat) :
  ∀ fuel raw_entry,
  (n ≤ fuel)%nat →
  (∃ entry, entry ∈ chain_from n d t raw_entry ∧
            SameValueZero (KeyAt (entrysize d) t entry) key = true) →
  ∃ entry, FindInChain fuel d t key raw_entry = Some (Some entry) ∧
           SameValueZero (KeyAt (entrysize d) t entry) key = true.
Proof.
  induction n as [|n IH]; intros fuel raw_entry Hfuel (entry & Hin & Hsame).
  - by apply elem_of_nil in Hin.
  - destruct fuel as [|fuel]; [lia|]. simpl in Hin |- *.
    destruct (decide (raw_entry = kNotFound)); [by apply elem_of_nil in Hin|].
    destruct (SameValueZero (KeyAt (entrysize d) t raw_entry) key) eqn:Ehead.
    + by exists raw_entry.
    + apply elem_of_cons in Hin as [->|Hin]; [congruence|].
      apply IH; [lia|]. by exists entry.
Qed.

(** A key that matches no used entry is not found, and the walk ends within
    as many steps as there are entries before the head of the chain. *)
Lemma FindInChain_absent d t key used (n : nat) :
  chains_upto d used t →
  (∀ entry, 0 ≤ entry < used →
     SameValueZero (KeyAt (entrysize d) t entry) key = false) →
  ∀ fuel raw_entry,
  raw_entry = kNotFound ∨ (0 ≤ raw_entry < Z.of_nat n ∧ raw_entry < used) →
  (n < fuel)%nat →
  FindInChain fuel d t key raw_entry = Some None.
Proof.
  intros [_ Hchains] Habsent.
  induction n as [|n IH]; intros fuel raw_entry Hhead Hfuel.
  - destruct fuel as [|fuel]; [lia|]. simpl.
    destruct Hhead as [->|[? _]]; [|lia]. by rewrite decide_True.
  - destruct fuel as [|fuel]; [lia|]. simpl.
    destruct (decide (raw_entry = kNotFound)); [done|].
    destruct Hhead as [?|[Hrange Hused]]; [done|].
    rewrite Habsent by lia.
    apply IH; [|lia].
    destruct (Hchains raw_entry ltac:(lia)) as (e & He & Hnext).
    unfold NextChainEntryRaw. rewrite He. simpl.
    destruct Hnext as [->|?]; [by left|right; lia].
Qed.

Lemma key_absent_used d t key `{!HostOk} :
  IsTheHole key = false →
  key_absent d t key →
  ∀ entry, 0 ≤ entry < UsedCapacity t →
    SameValueZero (KeyAt (entrysize d) t entry) key = false.
Proof.
  intros Hkey Habsent entry Hentry.
  destruct (is_hole d t entry) eqn:Ehole.
  - unfold is_hole in Ehole. apply IsTheHole_true in Ehole.
    rewrite Ehole. by apply SameValueZero_hole.
  - apply Habsent. by apply elem_of_live_slots.
Qed.

(** *** Writing the cells of a new entry *)

Lemma write_cells_header t index cells :
  let t' := write_cells t index cells in
  number_of_elements t' = number_of_elements t ∧
  number_of_deleted_elements t' = number_of_deleted_elements t ∧
  number_of_buckets t' = number_of_buckets t ∧
  next_table t' = next_table t ∧
  hash_field t' = hash_field t ∧
  removed_indices t' = removed_indices t ∧
  length (elements t') = length (elements t).
Proof.
  revert t index. induction cells as [|c cells IH]; intros t index; [done|].
  specialize (IH (set t index c) (index + 1)). simpl in IH |- *.
  rewrite length_array_set in IH. done.
Qed.

Lemma get_write_cells t index cells i :
  0 ≤ index - HashTableStartIndex →
  index - HashTableStartIndex + Z.of_nat (length cells)
    ≤ Z.of_nat (length (elements t)) →
  get (write_cells t index cells) i =
    if decide (index ≤ i < index + Z.of_nat (length cells))
    then default undefined_value (cells !! Z.to_nat (i - index))
    else get t i.
Proof.
  revert t index. induction cells as [|c cells IH]; intros t index Hlo Hhi.
  - simpl. by rewrite decide_False by lia.
  - cbn [write_cells length] in *.
    rewrite IH by (rewrite ?length_elements_set; lia).
    destruct (decide (i = index)) as [->|Hne].
    + rewrite decide_False by lia. rewrite decide_True by lia.
      rewrite Z.sub_diag. simpl. apply get_set_eq. lia.
    + rewrite get_set_ne by done.
      destruct (decide (index + 1 ≤ i < index + 1 + _)).
      * rewrite decide_True by lia.
        replace (Z.to_nat (i - index)) with (S (Z.to_nat (i - (index + 1)))) by lia.
        done.
      * by rewrite decide_False by lia.
Qed.

Lemma insert_entry_header d t hash cells :
  let t' := insert_entry d t hash cells in
  number_of_elements t' = number_of_elements t + 1 ∧
  number_of_deleted_elements t' = number_of_deleted_elements t ∧
  number_of_buckets t' = number_of_buckets t ∧
  next_table t' = next_table t ∧
  hash_field t' = hash_field t ∧
  removed_indices t' = removed_indices t ∧
  length (elements t') = length (elements t).
Proof.
  unfold insert_entry.
  match goal with |- context [write_cells ?a ?b ?c] =>
    destruct (write_cells_header a b c) as (? & ? & ? & ? & ? & ? & ?) end.
  simpl. rewrite !length_array_set. done.
Qed.

Lemma HashToBucket_range t hash :
  1 ≤ NumberOfBuckets t → 0 ≤ HashToBucket t hash < NumberOfBuckets t.
Proof. apply land_mask_range. Qed.

(** The cells of a table after an entry was inserted. *)
Lemma get_insert_entry d t capacity hash cells index :
  layout_ok d t capacity →
  0 ≤ UsedCapacity t < capacity →
  Z.of_nat (length cells) = entrysize d →
  let new_entry := UsedCapacity t in
  let new_index := EntryToIndexRaw (entrysize d) t new_entry in
  get (insert_entry d t hash cells) index =
    if decide (index = HashTableStartIndex + HashToBucket t hash)
    then Smi new_entry
    else if decide (new_index ≤ index < new_index + entrysize d)
         then default undefined_value (cells !! Z.to_nat (index - new_index))
    else if decide (index = new_index + kChainOffset (entrysize d))
         then Smi (HashToEntryRaw t hash)
    else get t index.
Proof.
  intros (Hnb & Hcap & Hlen) Hused Hcells new_entry new_index.
  pose proof (HashToBucket_range t hash Hnb) as Hbucket.
  unfold insert_entry. fold (UsedCapacity t). fold new_entry. fold new_index.
  set (t1 := write_cells t new_index cells).
  destruct (write_cells_header t new_index cells)
    as (_ & _ & _ & _ & _ & _ & Hlen1). fold t1 in Hlen1.
  assert (new_index = HashTableStartIndex + NumberOfBuckets t
                      + new_entry * kEntrySize (entrysize d)) as Hni by done.
  assert (1 ≤ entrysize d ≤ 3) as Hes by (destruct d; simpl; lia).
  assert (kEntrySize (entrysize d) = entrysize d + 1) as Hkes by done.
  assert (kChainOffset (entrysize d) = entrysize d) as Hco by done.
  assert (new_entry * (entrysize d + 1) + entrysize d
            < capacity * (entrysize d + 1)) as Hfit by (unfold new_entry; nia).
  assert (0 ≤ new_entry * (entrysize d + 1)) as Hpos by (unfold new_entry; nia).
  rewrite Hkes in *. rewrite Hco.
  change (get (SetNumberOfElements ?a ?n) index) with (get a index).
  destruct (decide (index = HashTableStartIndex + HashToBucket t hash)) as [->|Hne1].
  { apply get_set_eq. rewrite length_elements_set, Hlen1. lia. }
  rewrite get_set_ne by lia.
  destruct (decide (index = new_index + entrysize d)) as [->|Hne2].
  { rewrite decide_False by lia. apply get_set_eq. rewrite Hlen1. lia. }
  rewrite get_set_ne by lia.
  unfold t1. rewrite get_write_cells by lia. rewrite Hcells. done.
Qed.

Lemma payload_insert_entry_eq d t capacity hash cells :
  layout_ok d t capacity →
  0 ≤ UsedCapacity t < capacity →
  Z.of_nat (length cells) = entrysize d →
  payload d (insert_entry d t hash cells) (UsedCapacity t) = cells.
Proof.
  intros Hlay Hused Hcells.
  pose proof Hlay as (Hnb & Hcap & Hlen).
  pose proof (HashToBucket_range t hash Hnb) as Hbucket.
  assert (∀ e, EntryToIndexRaw (entrysize d) (insert_entry d t hash cells) e
               = EntryToIndexRaw (entrysize d) t e) as Hidx.
  { intros e. unfold EntryToIndexRaw, NumberOfBuckets.
    by destruct (insert_entry_header d t hash cells) as (_ & _ & -> & _). }
  assert (0 ≤ UsedCapacity t * kEntrySize (entrysize d))
    by (unfold kEntrySize; destruct d; simpl; lia).
  assert (∀ i, 0 ≤ i < entrysize d →
            get (insert_entry d t hash cells)
              (EntryToIndexRaw (entrysize d) t (UsedCapacity t) + i)
            = default undefined_value (cells !! Z.to_nat i)) as Hget.
  { intros i Hi. rewrite (get_insert_entry d t capacity) by done.
    rewrite decide_False by (unfold EntryToIndexRaw; lia).
    rewrite decide_True by lia. do 2 f_equal. lia. }
  unfold payload. rewrite Hidx.
  destruct d; cbn [entrysize] in *;
    [change (seqZ 0 1) with [0]
    |change (seqZ 0 2) with [0; 1]
    |change (seqZ 0 3) with [0; 1; 2]];
    destruct cells as [|c0 [|c1 [|c2 [|c3 cells]]]]; simpl in Hcells; try lia;
    cbn [map]; rewrite ?(Hget 0), ?(Hget 1), ?(Hget 2) by lia; done.
Qed.

Lemma payload_insert_entry_ne d t capacity hash cells e :
  layout_ok d t capacity →
  0 ≤ UsedCapacity t < capacity →
  Z.of_nat (length cells) = entrysize d →
  0 ≤ e → e ≠ UsedCapacity t →
  payload d (insert_entry d t hash cells) e = payload d t e.
Proof.
  intros Hlay Hused Hcells He Hne.
  pose proof Hlay as (Hnb & Hcap & Hlen).
  pose proof (HashToBucket_range t hash Hnb) as Hbucket.
  unfold payload.
  apply map_ext_in. intros i Hi%list_elem_of_In%elem_of_seqZ.
  assert (EntryToIndexRaw (entrysize d) (insert_entry d t hash cells) e
          = EntryToIndexRaw (entrysize d) t e) as ->.
  { unfold EntryToIndexRaw, NumberOfBuckets.
    by destruct (insert_entry_header d t hash cells) as (_ & _ & -> & _). }
  rewrite (get_insert_entry d t capacity) by done.
  unfold EntryToIndexRaw, kEntrySize, kChainOffset.
  repeat case_decide; try done; destruct d; simpl in *; lia.
Qed.

Lemma chains_upto_insert_entry d t capacity hash cells :
  layout_ok d t capacity →
  0 ≤ UsedCapacity t < capacity →
  Z.of_nat (length cells) = entrysize d →
  chains_upto d (UsedCapacity t) t →
  chains_upto d (UsedCapacity t + 1) (insert_entry d t hash cells).
Proof.
  intros Hlay Hused Hcells [Hbuckets Hchains].
  pose proof Hlay as (Hnb & Hcap & Hlen).
  pose proof (HashToBucket_range t hash Hnb) as Hbucket.
  assert (NumberOfBuckets (insert_entry d t hash cells) = NumberOfBuckets t) as Hnob.
  { unfold NumberOfBuckets.
    by destruct (insert_entry_header d t hash cells) as (_ & _ & -> & _). }
  assert (∀ e, EntryToIndexRaw (entrysize d) (insert_entry d t hash cells) e
               = EntryToIndexRaw (entrysize d) t e) as Hidx.
  { intros e. unfold EntryToIndexRaw. by rewrite Hnob. }
  assert (0 ≤ UsedCapacity t * kEntrySize (entrysize d))
    by (unfold kEntrySize; destruct d; simpl; lia).
  split.
  - intros b Hb. rewrite Hnob in Hb.
    rewrite (get_insert_entry d t capacity) by done.
    destruct (decide (HashTableStartIndex + b
                      = HashTableStartIndex + HashToBucket t hash)).
    { exists (UsedCapacity t). split; [done|]. right. lia. }
    destruct (Hbuckets b Hb) as (e & He & Hrange).
    rewrite !decide_False
      by (unfold EntryToIndexRaw, kChainOffset; destruct d; simpl in *; lia).
    exists e. split; [done|]. lia.
  - intros entry Hentry. rewrite Hidx.
    rewrite (get_insert_entry d t capacity) by done.
    assert (0 ≤ entry * kEntrySize (entrysize d))
      by (unfold kEntrySize; destruct d; simpl; lia).
    rewrite decide_False
      by (unfold EntryToIndexRaw, kChainOffset; destruct d; simpl in *; lia).
    destruct (decide (entry = UsedCapacity t)) as [->|Hne].
    + rewrite decide_False
        by (unfold EntryToIndexRaw, kChainOffset; destruct d; simpl in *; lia).
      rewrite decide_True by done.
      destruct (Hbuckets _ Hbucket) as (e & He & Hrange).
      exists e. unfold HashToEntryRaw. rewrite He. split; [done|]. simpl. lia.
    + rewrite !decide_False
        by (unfold EntryToIndexRaw, kEntrySize, kChainOffset;
            destruct d; simpl in *; lia).
      destruct (Hchains entry ltac:(lia)) as (e & He & Hrange).
      exists e. split; [done|]. lia.
Qed.

(** The three [Add] functions, once past their lookup. *)
Lemma OrderedHashSet_Add_unfold fuel isolate table key t :
  large_at isolate table = Some t →
  OrderedHashSet_Add fuel isolate table key =
    (found ←
       (if decide (NumberOfElements t > 0) then
          FindInChain fuel OrderedHashSet t key
            (HashToEntryRaw t (GetOrCreateHash key))
        else Some None);
     match found with
     | Some _ => Some (isolate, Some table)
     | None =>
         Add_after_lookup OrderedHashSet true isolate table
           (GetOrCreateHash key) [key]
     end).
Proof.
  intros Ht. unfold OrderedHashSet_Add, Add_after_lookup. rewrite Ht.
  cbn [mbind option_bind].
  destruct (if decide (NumberOfElements t > 0) then _ else _) as [[e|]|];
    cbn [mbind option_bind]; try done.
  destruct (EnsureCapacityForAdding _ _ _) as [[isolate1 [table1|]]|];
    cbn [mbind option_bind]; try done.
  by destruct (has_pending_exception isolate1).
Qed.

Lemma OrderedHashMap_Add_unfold fuel isolate table key value t :
  large_at isolate table = Some t →
  OrderedHashMap_Add fuel isolate table key value =
    (found ←
       (if decide (NumberOfElements t > 0) then
          FindInChain fuel OrderedHashMap t key
            (HashToEntryRaw t (GetOrCreateHash key))
        else Some None);
     match found with
     | Some _ => Some (isolate, Some table)
     | None =>
         Add_after_lookup OrderedHashMap false isolate table
           (GetOrCreateHash key) [key; value]
     end).
Proof.
  intros Ht. unfold OrderedHashMap_Add, Add_after_lookup. rewrite Ht.
  cbn [mbind option_bind].
  destruct (if decide (NumberOfElements t > 0) then _ else _) as [[e|]|];
    cbn [mbind option_bind]; try done.
Qed.

Lemma OrderedNameDictionary_Add_unfold isolate table key value details :
  OrderedNameDictionary_Add isolate table key value details =
    Add_after_lookup OrderedNameDictionary false isolate table
      (Name_hash key) [key; value; AsSmi details].
Proof.
  unfold OrderedNameDictionary_Add, Add_after_lookup.
  destruct (EnsureCapacityForAdding _ _ _) as [[isolate1 [table1|]]|];
    cbn [mbind option_bind]; try done.
  destruct (large_at isolate1 table1) as [t1|]; cbn [mbind option_bind]; [|done].
  unfold insert_entry, write_cells, kValueOffset, kPropertyDetailsOffset.
  cbv zeta. cbn [entrysize].
  set (new_index := EntryToIndexRaw 3 t1 _).
  by replace (new_index + 1 + 1) with (new_index + 2) by lia.
Qed.

Lemma Derived_Allocate_throws d isolate capacity :
  allocated_capacity capacity > MaxCapacity (entrysize d) →
  Derived_Allocate d isolate capacity
    = Some (ThrowRangeError isolate kTooManyProperties, None).
Proof.
  intros Hgt. unfold Derived_Allocate.
  rewrite OrderedHashTable_Allocate_throws by done. by destruct d.
Qed.

Lemma Derived_Rehash_throws d isolate table new_capacity :
  allocated_capacity new_capacity > MaxCapacity (entrysize d) →
  Derived_Rehash d isolate table new_capacity
    = Some (ThrowRangeError isolate kTooManyProperties, None).
Proof.
  intros Hgt. unfold Derived_Rehash, OrderedHashTable_Rehash.
  rewrite Derived_Allocate_throws by done. by destruct d.
Qed.

(** [Derived::Rehash] leaves the same state as the template's [Rehash]; a
    name dictionary's new table also gets the hash word of its source. *)
Lemma Derived_Rehash_ok d isolate table t new_capacity :
  large_at isolate table = Some t →
  2 ≤ kInitialCapacity ≤ 2 ^ 30 → new_capacity ≤ 2 ^ 30 →
  let rounded := 2 ^ Z.log2_up (Z.max kInitialCapacity new_capacity) in
  ¬ rounded > MaxCapacity (entrysize d) →
  Z.of_nat (length (live_slots d t)) ≤ rounded →
  ∃ isolate' t' new_t,
    Derived_Rehash d isolate table new_capacity
      = Some (isolate', Some (length (heap isolate))) ∧
    rehashed d isolate table t rounded isolate' t' new_t.
Proof.
  intros Ht Hk Hc rounded Hmax Hfit.
  pose proof (large_at_lt _ _ _ Ht) as Hlt.
  destruct (OrderedHashTable_Rehash_ok d isolate table t new_capacity Ht Hk Hc Hmax Hfit)
    as (isolate1 & t' & new_t & Hrehash & Hpost). fold rounded in Hpost.
  destruct d; try (by exists isolate1, t', new_t).
  destruct (rehashed_large_at _ _ _ _ _ _ _ _ Hpost Hlt) as (Hnew & Hold & Hlen & _).
  unfold Derived_Rehash. rewrite Hrehash. cbn [mbind option_bind].
  rewrite Hold. cbn [mbind option_bind]. rewrite Hnew. cbn [mbind option_bind].
  eexists _, t', (SetHash new_t (Hash t')). split; [reflexivity|].
  destruct Hpost as (Hheap & Hpend & Hlog & Hprops).
  split; [|split; [done|split; [done|exact Hprops]]].
  unfold store; cbn [heap]. rewrite Hheap.
  rewrite list_insert_insert_ne by lia. f_equal.
  rewrite insert_app_r_alt by lia. by rewrite Nat.sub_diag.
Qed.

(** The table [EnsureCapacityForAdding] hands back has room for one more
    entry: it is the table given, or the new table of a rehash. *)
Lemma EnsureCapacityForAdding_ok d isolate table t isolate1 table1 :
  large_at isolate table = Some t →
  table_ok d t →
  2 ≤ kInitialCapacity ≤ 2 ^ 30 →
  EnsureCapacityForAdding d isolate table = Some (isolate1, Some table1) →
  ∃ t1 capacity,
    large_at isolate1 table1 = Some t1 ∧
    layout_ok d t1 capacity ∧
    0 ≤ UsedCapacity t1 < capacity ∧
    chains_upto d (UsedCapacity t1) t1 ∧
    (table1 < length (heap isolate1))%nat ∧
    ((isolate1 = isolate ∧ table1 = table ∧ t1 = t ∧ capacity = Capacity t ∧
      UsedCapacity t < Capacity t) ∨
     (∃ t',
        rehashed d isolate table t capacity isolate1 t' t1 ∧
        table1 = length (heap isolate) ∧
        ¬ UsedCapacity t < Capacity t ∧
        capacity =
          2 ^ Z.log2_up
                (Z.max kInitialCapacity
                   (if decide (Capacity t = 0) then kInitialCapacity
                    else if decide (NumberOfDeletedElements t
                                    >= Capacity t / 2) then Capacity t
                    else 2 * Capacity t)))).
Proof.
  intros Ht (Hnof & Hnod & Hcap & Hlay & Hch & Hholes) Hk.
  pose proof (large_at_lt _ _ _ Ht) as Hlt.
  unfold EnsureCapacityForAdding. rewrite Ht. cbn [mbind option_bind].
  fold (UsedCapacity t). rewrite shiftr_1_div2, shiftl_1_double.
  destruct (decide (UsedCapacity t < Capacity t)) as [Hroom|Hfull].
  - intros [= <- <-]. exists t, (Capacity t).
    destruct Hlay as [Hlay|[Hnb Hused]].
    + split_and!; try done; [unfold UsedCapacity in *; lia|].
      left. done.
    + unfold Capacity in Hroom. rewrite Hnb in Hroom. lia.
  - set (new_capacity := if decide (Capacity t = 0) then _ else _).
    set (rounded := 2 ^ Z.log2_up (Z.max kInitialCapacity new_capacity)).
    assert (0 ≤ Capacity t) as Hcap0 by (unfold UsedCapacity in *; lia).
    assert (new_capacity ≤ 2 ^ 30) as Hnc.
    { unfold new_capacity. repeat case_decide; lia. }
    destruct (rounded_capacity new_capacity Hk Hnc)
      as (Halloc & _ & _ & _ & Hrange). fold rounded in Halloc, Hrange.
    pose proof (length_live_slots d t Hnof Hholes) as Hlives.
    assert (NumberOfElements t < rounded) as Hfit.
    { unfold UsedCapacity, Capacity, kLoadFactor in *.
      unfold new_capacity in Hrange.
      destruct (decide (NumberOfBuckets t * 2 = 0)); [lia|].
      destruct (decide (_ >= _)) as [Hge|Hlt']; [|lia].
      rewrite Z.div_mul in Hge by lia. lia. }
    destruct (decide (rounded > MaxCapacity (entrysize d))) as [Hgt|Hok].
    { rewrite Derived_Rehash_throws by (by rewrite Halloc). done. }
    destruct (Derived_Rehash_ok d isolate table t new_capacity Ht Hk Hnc Hok)
      as (isolate' & t' & new_t & Hrehash & Hpost); [fold rounded; lia|].
    rewrite Hrehash. intros [= <- <-].
    destruct (rehashed_large_at _ _ _ _ _ _ _ _ Hpost Hlt) as (Hnew & _ & Hlen & _).
    pose proof Hpost as (_ & _ & _ & Hnof' & Hnod' & _ & _ & Hlay' & _ & Hch').
    exists new_t, rounded.
    assert (UsedCapacity new_t = NumberOfElements t) as Hused'
      by (unfold UsedCapacity; lia).
    split_and!; try done; try lia.
    + by rewrite Hused', <- Hlives.
    + right. exists t'. done.
Qed.

(** After a successful add of an absent key, the heap holds the table that
    [EnsureCapacityForAdding] handed back with the new entry inserted. *)
Lemma Add_after_lookup_ok d check isolate table t hash cells isolate' table' :
  large_at isolate table = Some t →
  table_ok d t →
  2 ≤ kInitialCapacity ≤ 2 ^ 30 →
  Add_after_lookup d check isolate table hash cells = Some (isolate', Some table') →
  ∃ isolate1 t1 capacity,
    EnsureCapacityForAdding d isolate table = Some (isolate1, Some table') ∧
    large_at isolate1 table' = Some t1 ∧
    large_at isolate' table' = Some (insert_entry d t1 hash cells) ∧
    isolate' = store isolate1 table' (LargeTable (insert_entry d t1 hash cells)) ∧
    layout_ok d t1 capacity ∧
    0 ≤ UsedCapacity t1 < capacity ∧
    chains_upto d (UsedCapacity t1) t1.
Proof.
  intros Ht Hok Hk. unfold Add_after_lookup.
  destruct (EnsureCapacityForAdding d isolate table)
    as [[isolate1 [table1|]]|] eqn:Ensure; cbn [mbind option_bind]; [| |done].
  - destruct (EnsureCapacityForAdding_ok _ _ _ _ _ _ Ht Hok Hk Ensure)
      as (t1 & capacity & Ht1 & Hlay & Hused & Hch & Hlt & _).
    rewrite Ht1. cbn [mbind option_bind]. intros [= <- <-].
    exists isolate1, t1, capacity. split_and!; try done; try lia.
    by apply large_at_store_eq.
  - by destruct (check && _).
Qed.

(** [EnsureCapacityForAdding] returns a table when it need not rehash or the
    rehash can allocate. *)
Lemma EnsureCapacityForAdding_succeeds d isolate table t :
  large_at isolate table = Some t →
  table_ok d t →
  2 ≤ kInitialCapacity ≤ 2 ^ 30 →
  (¬ UsedCapacity t < Capacity t →
   ¬ 2 ^ Z.log2_up
         (Z.max kInitialCapacity
            (if decide (Capacity t = 0) then kInitialCapacity
             else if decide (NumberOfDeletedElements t >= Capacity t / 2)
                  then Capacity t
             else 2 * Capacity t)) > MaxCapacity (entrysize d)) →
  ∃ isolate1 table1,
    EnsureCapacityForAdding d isolate table = Some (isolate1, Some table1).
Proof.
  intros Ht (Hnof & Hnod & Hcap & Hlay & Hch & Hholes) Hk Hmax.
  unfold EnsureCapacityForAdding. rewrite Ht. cbn [mbind option_bind].
  fold (UsedCapacity t). rewrite shiftr_1_div2, shiftl_1_double.
  destruct (decide (UsedCapacity t < Capacity t)) as [Hroom|Hfull];
    [by eexists _, _|].
  specialize (Hmax Hfull).
  set (new_capacity := if decide (Capacity t = 0) then _ else _) in *.
  assert (0 ≤ Capacity t) as Hcap0 by (unfold UsedCapacity in *; lia).
  assert (new_capacity ≤ 2 ^ 30) as Hnc.
  { unfold new_capacity. repeat case_decide; lia. }
  destruct (rounded_capacity new_capacity Hk Hnc) as (_ & _ & _ & _ & Hrange).
  pose proof (length_live_slots d t Hnof Hholes) as Hlives.
  destruct (Derived_Rehash_ok d isolate table t new_capacity Ht Hk Hnc Hmax)
    as (isolate' & t' & new_t & Hrehash & _).
  { set (rounded := 2 ^ Z.log2_up _) in *. clearbody rounded.
    unfold UsedCapacity, Capacity, kLoadFactor in *.
    unfold new_capacity in Hrange.
    destruct (decide (NumberOfBuckets t * 2 = 0)); [lia|].
    destruct (decide (_ >= _)) as [Hge|Hlt']; [|lia].
    rewrite Z.div_mul in Hge by lia. lia. }
  by eexists _, _.
Qed.

(** [EnsureCapacityForAdding] always returns: a table, or the empty handle
    with the range error of the allocation pending. *)
Lemma EnsureCapacityForAdding_total d isolate table t :
  large_at isolate table = Some t →
  table_ok d t →
  2 ≤ kInitialCapacity ≤ 2 ^ 30 →
  (∃ isolate1 table1,
     EnsureCapacityForAdding d isolate table = Some (isolate1, Some table1)) ∨
  EnsureCapacityForAdding d isolate table
    = Some (ThrowRangeError isolate kTooManyProperties, None).
Proof.
  intros Ht Hok Hk.
  pose proof Hok as (Hnof & Hnod & Hcap & _).
  set (new_capacity :=
         if decide (Capacity t = 0) then kInitialCapacity
         else if decide (NumberOfDeletedElements t >= Capacity t / 2)
              then Capacity t
         else 2 * Capacity t).
  destruct (decide (UsedCapacity t < Capacity t)) as [Hroom|Hfull].
  { left. by apply (EnsureCapacityForAdding_succeeds d isolate table t). }
  destruct (decide (2 ^ Z.log2_up (Z.max kInitialCapacity new_capacity)
                    > MaxCapacity (entrysize d))) as [Hover|Hfits].
  - right. unfold EnsureCapacityForAdding. rewrite Ht. cbn [mbind option_bind].
    fold (UsedCapacity t). rewrite shiftr_1_div2, shiftl_1_double.
    rewrite decide_False by done. fold new_capacity.
    apply Derived_Rehash_throws.
    assert (new_capacity ≤ 2 ^ 30) as Hnc.
    { unfold new_capacity, UsedCapacity in *. repeat case_decide; lia. }
    assert (1 ≤ kInitialCapacity ≤ 2 ^ 30) as Hk1 by lia.
    by rewrite (proj1 (allocated_capacity_small new_capacity Hk1 Hnc)).
  - left. by apply (EnsureCapacityForAdding_succeeds d isolate table t).
Qed.

(** The tail of a large [Add] always returns: the table with the new entry,
    or the empty handle with the range error pending. *)
Lemma Add_after_lookup_total d check isolate table t hash cells :
  large_at isolate table = Some t →
  table_ok d t →
  2 ≤ kInitialCapacity ≤ 2 ^ 30 →
  ∃ isolate' result,
    Add_after_lookup d check isolate table hash cells = Some (isolate', result) ∧
    (result = None → isolate' = ThrowRangeError isolate kTooManyProperties).
Proof.
  intros Ht Hok Hk. unfold Add_after_lookup.
  destruct (EnsureCapacityForAdding_total d isolate table t Ht Hok Hk)
    as [(isolate1 & table1 & Hensure)|Hensure]; rewrite Hensure;
    cbn [mbind option_bind].
  - destruct (EnsureCapacityForAdding_ok _ _ _ _ _ _ Ht Hok Hk Hensure)
      as (t1 & capacity & Ht1 & _).
    rewrite Ht1. cbn [mbind option_bind]. by eexists _, _.
  - replace (has_pending_exception (ThrowRangeError isolate kTooManyProperties))
      with true by done.
    rewrite andb_false_r. by eexists _, _.
Qed.

End LargeAdd.

(** ** The small form: growing and inserting *)

Section SmallAdd.
Context `{Constants} `{Host}.

Lemma small_same_shape_refl s : small_same_shape s s.
Proof. by unfold small_same_shape. Qed.

Lemma small_same_shape_trans s1 s2 s3 :
  small_same_shape s1 s2 → small_same_shape s2 s3 → small_same_shape s1 s3.
Proof. unfold small_same_shape. intuition congruence. Qed.

Lemma SetDataEntry_shape d s entry i v :
  small_same_shape s (SetDataEntry d s entry i v).
Proof.
  unfold small_same_shape, SetDataEntry; simpl.
  by rewrite length_array_set.
Qed.

Lemma SetFirstEntry_shape s bucket entry :
  small_same_shape s (SetFirstEntry s bucket entry).
Proof.
  unfold small_same_shape, SetFirstEntry; simpl.
  by rewrite length_array_set.
Qed.

Lemma SetNextEntry_shape s entry next :
  small_same_shape s (SetNextEntry s entry next).
Proof.
  unfold small_same_shape, SetNextEntry; simpl.
  by rewrite length_array_set.
Qed.

Lemma Small_Rehash_step_shape d table new_table new_entry old_entry :
  small_same_shape new_table
    (Small_Rehash_step d table (new_table, new_entry) old_entry).1.
Proof.
  unfold Small_Rehash_step.
  destruct (IsTheHole _); [apply small_same_shape_refl|]. cbn [fst].
  set (nt1 := SetNextEntry _ _ _).
  assert (small_same_shape new_table nt1) as H1.
  { eapply small_same_shape_trans; [apply SetFirstEntry_shape|].
    apply SetNextEntry_shape. }
  clearbody nt1. revert nt1 H1.
  induction (seqZ 0 (Small_kEntrySize d)) as [|i l IH]; intros nt1 H1; [done|].
  cbn [foldl]. apply IH.
  eapply small_same_shape_trans; [exact H1|apply SetDataEntry_shape].
Qed.

Lemma Small_Rehash_loop_shape d table l :
  ∀ new_table new_entry,
  small_same_shape new_table
    (foldl (Small_Rehash_step d table) (new_table, new_entry) l).1.
Proof.
  induction l as [|a l IH]; intros new_table new_entry;
    [apply small_same_shape_refl|].
  cbn [foldl].
  pose proof (Small_Rehash_step_shape d table new_table new_entry a) as Hstep.
  destruct (Small_Rehash_step d table (new_table, new_entry) a) as [nt1 k1].
  eapply small_same_shape_trans; [exact Hstep|apply IH].
Qed.

(** The table a small [Rehash] returns: sized for the new capacity, with the
    source's number of elements and no tombstones. *)
Lemma Small_Derived_Rehash_shape d isolate table s new_capacity :
  small_at isolate table = Some s →
  ∃ isolate' new_s,
    Small_Derived_Rehash d isolate table new_capacity
      = Some (isolate', length (heap isolate)) ∧
    small_at isolate' (length (heap isolate)) = Some new_s ∧
    small_at isolate' table = Some s ∧
    length (heap isolate') = S (length (heap isolate)) ∧
    Small_NumberOfElements new_s = uint8 (Small_NumberOfElements s) ∧
    Small_NumberOfDeletedElements new_s = 0 ∧
    Small_NumberOfBuckets new_s = uint8 (new_capacity ÷ kLoadFactor) ∧
    length (data_table new_s) = Z.to_nat (new_capacity * Small_kEntrySize d) ∧
    length (hash_table new_s) = Z.to_nat (new_capacity ÷ kLoadFactor) ∧
    length (chain_table new_s) = Z.to_nat new_capacity.
Proof.
  intros Hs. pose proof (small_at_lt _ _ _ Hs) as Hlt.
  assert (∃ isolate' new_s,
    SmallOrderedHashTable_Rehash d isolate table new_capacity
      = Some (isolate', length (heap isolate)) ∧
    small_at isolate' (length (heap isolate)) = Some new_s ∧
    small_at isolate' table = Some s ∧
    length (heap isolate') = S (length (heap isolate)) ∧
    Small_NumberOfElements new_s = uint8 (Small_NumberOfElements s) ∧
    Small_NumberOfDeletedElements new_s = 0 ∧
    Small_NumberOfBuckets new_s = uint8 (new_capacity ÷ kLoadFactor) ∧
    length (data_table new_s) = Z.to_nat (new_capacity * Small_kEntrySize d) ∧
    length (hash_table new_s) = Z.to_nat (new_capacity ÷ kLoadFactor) ∧
    length (chain_table new_s) = Z.to_nat new_capacity) as Hbase.
  { unfold SmallOrderedHashTable_Rehash, Small_Allocate, new_object.
    cbn [mbind option_bind].
    rewrite (small_at_new_object isolate _ table) by done.
    rewrite Hs. cbn [mbind option_bind].
    rewrite small_at_new_object_eq. cbn [mbind option_bind].
    pose proof (Small_Rehash_loop_shape d s (Small_IterateEntries s)
                  (Initialize d new_capacity) 0) as Hshape.
    destruct (foldl _ _ _) as [raw_new_table new_entry]. cbn [fst] in Hshape.
    destruct Hshape as (Hnof & Hnod & Hnob & Hdata & Hhash & Hchain).
    assert (∀ o, length (heap (mkIsolate (heap isolate ++ [o])
                    (pending_exception isolate))) = S (length (heap isolate)))
      as Hlen by (intros o; simpl; rewrite length_app; simpl; lia).
    eexists _, _. split; [reflexivity|]. split_and!.
    - apply small_at_store_eq. rewrite Hlen. lia.
    - rewrite small_at_store_ne by lia.
      by rewrite (small_at_new_object isolate _ table).
    - by rewrite length_heap_store, Hlen.
    - done.
    - exact Hnod.
    - exact Hnob.
    - simpl. rewrite Hdata. simpl. by rewrite length_replicate.
    - simpl. rewrite Hhash. simpl. by rewrite length_replicate.
    - simpl. rewrite Hchain. simpl. by rewrite length_replicate. }
  destruct Hbase as (isolate1 & new_s & Hr & Hnew & Hold & Hlen & Hprops).
  destruct d; simpl; try (by exists isolate1, new_s).
  rewrite Hr. cbn [mbind option_bind]. rewrite Hold. cbn [mbind option_bind].
  rewrite Hnew. cbn [mbind option_bind].
  eexists _, _. split; [reflexivity|]. split_and!.
  - apply small_at_store_eq. lia.
  - rewrite small_at_store_ne by lia. done.
  - by rewrite length_heap_store.
  - apply Hprops.
  - apply Hprops.
  - apply Hprops.
  - apply Hprops.
  - apply Hprops.
  - apply Hprops.
Qed.

Lemma uint8_small z : 0 ≤ z < 256 → uint8 z = z.
Proof. intros Hz. unfold uint8. by rewrite Z.mod_small. Qed.

(** When [Grow] returns a table it is a rehash at an even capacity of at
    most 254 that has room for the live entries and one more. *)
Lemma Grow_rehashes d isolate table s isolate1 table1 :
  small_at isolate table = Some s →
  small_table_ok d s →
  Grow d isolate table = Some (isolate1, Some table1) →
  ∃ m, 1 ≤ m ≤ 127 ∧ Small_NumberOfElements s < m * 2 ∧
       Small_Derived_Rehash d isolate table (m * 2) = Some (isolate1, table1).
Proof.
  intros Hs (Hnof & Hnod & Hnob & Hused & _) Hgrow.
  unfold Grow in Hgrow. rewrite Hs in Hgrow. cbn [mbind option_bind] in Hgrow.
  rewrite shiftr_1_div2, shiftl_1_double in Hgrow.
  unfold Small_Capacity, Small_UsedCapacity, kLoadFactor, kGrowthHack,
    kMaxCapacity in *.
  set (nob := Small_NumberOfBuckets s) in *.
  rewrite Z.div_mul in Hgrow by lia.
  assert (∀ c, (Small_Derived_Rehash d isolate table c
                  ≫= (λ '(isolate, new_table), Some (isolate, Some new_table)))
               = Some (isolate1, Some table1) →
               Small_Derived_Rehash d isolate table c = Some (isolate1, table1))
    as Hbind.
  { intros c. destruct (Small_Derived_Rehash d isolate table c) as [[i h]|];
      cbn [mbind option_bind]; [|done]. by intros [= -> ->]. }
  destruct (decide (Small_NumberOfDeletedElements s < nob)) as [Hfew|Hmany].
  - destruct (decide (2 * (nob * 2) = 256)) as [H256|Hn256].
    + rewrite decide_False in Hgrow by lia.
      exists 127. split; [lia|]. split; [lia|]. by apply Hbind.
    + destruct (decide (2 * (nob * 2) > 254)); [done|].
      exists (2 * nob). split; [lia|]. split; [lia|].
      apply Hbind. by replace (2 * nob * 2) with (2 * (nob * 2)) by lia.
  - exists nob. split; [lia|]. split; [lia|]. by apply Hbind.
Qed.

(** The table a small [Add] inserts into has a free slot after the used
    ones. *)
Lemma Small_table_for_adding_ok d isolate table s isolate1 table1 :
  small_at isolate table = Some s →
  small_table_ok d s →
  Small_table_for_adding d isolate table s = Some (isolate1, Some table1) →
  ∃ s1,
    small_at isolate1 table1 = Some s1 ∧
    (table1 < length (heap isolate1))%nat ∧
    0 ≤ Small_NumberOfElements s1 ∧
    0 ≤ Small_NumberOfDeletedElements s1 ∧
    Small_UsedCapacity s1 < Small_Capacity s1 ≤ 254 ∧
    1 ≤ Small_NumberOfBuckets s1 ∧
    Z.of_nat (length (data_table s1)) = Small_Capacity s1 * Small_kEntrySize d ∧
    Z.of_nat (length (hash_table s1)) = Small_NumberOfBuckets s1 ∧
    Z.of_nat (length (chain_table s1)) = Small_Capacity s1.
Proof.
  intros Hs Hok Hfor.
  pose proof Hok as (Hnof & Hnod & Hnob & Hused & Hdata & Hhash & Hchain & _).
  unfold Small_table_for_adding in Hfor.
  destruct (decide (Small_UsedCapacity s >= Small_Capacity s)) as [Hfull|Hroom].
  - destruct (Grow_rehashes d _ _ _ _ _ Hs Hok Hfor) as (m & Hm & Hfit & Hrehash).
    destruct (Small_Derived_Rehash_shape d isolate table s (m * 2) Hs)
      as (isolate' & new_s & Hr & Hnew & _ & Hlen & Hnof' & Hnod' & Hnob'
          & Hdata' & Hhash' & Hchain').
    rewrite Hr in Hrehash. injection Hrehash as <- <-.
    assert (m * 2 ÷ kLoadFactor = m) as Hq
      by (unfold kLoadFactor; rewrite Z.quot_mul; lia).
    rewrite Hq in *.
    unfold Small_Capacity, Small_UsedCapacity, kLoadFactor in *.
    rewrite uint8_small in Hnof', Hnob' by lia.
    assert (0 ≤ m * 2 * Small_kEntrySize d) by (destruct d; simpl; lia).
    exists new_s. split_and!; try done; try lia.
  - injection Hfor as <- <-. exists s.
    pose proof (small_at_lt _ _ _ Hs).
    unfold Small_Capacity, Small_UsedCapacity, kLoadFactor in *.
    split_and!; try done; try lia.
Qed.

(** The three small [Add] functions, once past their lookup. *)
Lemma SmallOrderedHashSet_Add_unfold fuel isolate table key s :
  small_at isolate table = Some s →
  SmallOrderedHashSet_Add fuel isolate table key =
    (has_key ← Small_HasKey fuel SmallOrderedHashSet s key;
     if (has_key : bool) then Some (isolate, Some table)
     else Small_Add_after_lookup SmallOrderedHashSet isolate table s
            (GetOrCreateHash key)
            (small_writes SmallOrderedHashSet key undefined_value 0)).
Proof.
  intros Hs. unfold SmallOrderedHashSet_Add, Small_Add_after_lookup,
    Small_table_for_adding.
  rewrite Hs. cbn [mbind option_bind].
  destruct (Small_HasKey _ _ _ _) as [[|]|]; cbn [mbind option_bind]; done.
Qed.

Lemma SmallOrderedHashMap_Add_unfold fuel isolate table key value s :
  small_at isolate table = Some s →
  SmallOrderedHashMap_Add fuel isolate table key value =
    (has_key ← Small_HasKey fuel SmallOrderedHashMap s key;
     if (has_key : bool) then Some (isolate, Some table)
     else Small_Add_after_lookup SmallOrderedHashMap isolate table s
            (GetOrCreateHash key)
            (small_writes SmallOrderedHashMap key value 0)).
Proof.
  intros Hs. unfold SmallOrderedHashMap_Add, Small_Add_after_lookup,
    Small_table_for_adding.
  rewrite Hs. cbn [mbind option_bind].
  destruct (Small_HasKey _ _ _ _) as [[|]|]; cbn [mbind option_bind]; done.
Qed.

Lemma SmallOrderedNameDictionary_Add_unfold isolate table key value details s :
  small_at isolate table = Some s →
  SmallOrderedNameDictionary_Add isolate table key value details =
    Small_Add_after_lookup SmallOrderedNameDictionary isolate table s
      (Name_hash key)
      (small_writes SmallOrderedNameDictionary key value details).
Proof.
  intros Hs. unfold SmallOrderedNameDictionary_Add, Small_Add_after_lookup,
    Small_table_for_adding.
  rewrite Hs. cbn [mbind option_bind]. done.
Qed.

Lemma GetDataEntry_SetDataEntry_eq d s entry i v :
  0 ≤ entry * Small_kEntrySize d + i < Z.of_nat (length (data_table s)) →
  GetDataEntry d (SetDataEntry d s entry i v) entry i = v.
Proof. intros Hr. unfold GetDataEntry, SetDataEntry; simpl. by apply array_get_set_eq. Qed.

Lemma GetDataEntry_SetDataEntry_ne d s entry i v entry' i' :
  entry * Small_kEntrySize d + i ≠ entry' * Small_kEntrySize d + i' →
  GetDataEntry d (SetDataEntry d s entry i v) entry' i' = GetDataEntry d s entry' i'.
Proof. intros Hne. unfold GetDataEntry, SetDataEntry; simpl. by apply array_get_set_ne. Qed.

(** The payload of the slot a small [Add] writes, and of every other slot. *)
Lemma small_payload_insert_eq d s hash key value details :
  0 ≤ Small_UsedCapacity s →
  (Small_UsedCapacity s + 1) * Small_kEntrySize d
    ≤ Z.of_nat (length (data_table s)) →
  small_payload d
    (Small_insert_entry d s hash (small_writes d key value details))
    (Small_UsedCapacity s)
  = small_cells d key value details.
Proof.
  intros Hlo Hhi. unfold small_payload, Small_insert_entry.
  fold (Small_UsedCapacity s). set (e := Small_UsedCapacity s) in *.
  change (GetDataEntry d (Small_SetNumberOfElements ?a ?n)) with (GetDataEntry d a).
  change (GetDataEntry d (SetNextEntry ?a ?n ?m)) with (GetDataEntry d a).
  change (GetDataEntry d (SetFirstEntry ?a ?n ?m)) with (GetDataEntry d a).
  unfold kKeyIndex, kValueIndex, kPropertyDetailsIndex.
  destruct d; cbn [small_writes small_cells foldl fst snd Small_kEntrySize] in *;
    unfold kKeyIndex, kValueIndex, kPropertyDetailsIndex;
    [change (seqZ 0 1) with [0]
    |change (seqZ 0 2) with [0; 1]
    |change (seqZ 0 3) with [0; 1; 2]]; cbn [map];
    repeat first
      [ rewrite GetDataEntry_SetDataEntry_eq
          by (unfold SetDataEntry; cbn [data_table Small_kEntrySize];
              rewrite ?length_array_set; lia)
      | rewrite GetDataEntry_SetDataEntry_ne by (cbn [Small_kEntrySize]; lia) ];
    done.
Qed.

Lemma small_payload_insert_ne d s hash key value details entry :
  entry ≠ Small_UsedCapacity s →
  small_payload d
    (Small_insert_entry d s hash (small_writes d key value details)) entry
  = small_payload d s entry.
Proof.
  intros Hne. unfold small_payload, Small_insert_entry.
  fold (Small_UsedCapacity s). set (e := Small_UsedCapacity s) in *.
  apply map_ext_in. intros i Hi%list_elem_of_In%elem_of_seqZ.
  change (GetDataEntry d (Small_SetNumberOfElements ?a ?n)) with (GetDataEntry d a).
  change (GetDataEntry d (SetNextEntry ?a ?n ?m)) with (GetDataEntry d a).
  change (GetDataEntry d (SetFirstEntry ?a ?n ?m)) with (GetDataEntry d a).
  destruct d; cbn [small_writes foldl fst snd Small_kEntrySize] in *;
    unfold kKeyIndex, kValueIndex, kPropertyDetailsIndex;
    rewrite !GetDataEntry_SetDataEntry_ne by (cbn [Small_kEntrySize]; lia);
    done.
Qed.

Lemma elem_of_small_live_slots d s entry :
  entry ∈ small_live_slots d s ↔
  0 ≤ entry < Small_UsedCapacity s ∧ small_is_hole d s entry = false.
Proof.
  unfold small_live_slots, Small_IterateEntries.
  rewrite list_elem_of_In, filter_In, <- list_elem_of_In, elem_of_seqZ.
  rewrite negb_true_iff. intuition lia.
Qed.

(** Chain walks of a set or a map, which compare keys by same-value-zero. *)
Lemma Small_FindInChain_found d s key (n : nat) :
  d ≠ SmallOrderedNameDictionary →
  ∀ fuel raw_entry,
  (n ≤ fuel)%nat →
  (∃ entry, entry ∈ small_chain_from n s raw_entry ∧
            SameValueZero (Small_KeyAt d s entry) key = true) →
  ∃ entry, Small_FindInChain fuel d s key raw_entry = Some (Some entry) ∧
           SameValueZero (Small_KeyAt d s entry) key = true.
Proof.
  intros Hd.
  induction n as [|n IH]; intros fuel raw_entry Hfuel (entry & Hin & Hsame).
  - by apply elem_of_nil in Hin.
  - destruct fuel as [|fuel]; [lia|]. simpl in Hin |- *.
    destruct (decide (raw_entry = Small_kNotFound)); [by apply elem_of_nil in Hin|].
    destruct (SameValueZero (Small_KeyAt d s raw_entry) key) eqn:Ehead.
    + exists raw_entry. by destruct d.
    + apply elem_of_cons in Hin as [->|Hin]; [congruence|].
      destruct (IH fuel (GetNextEntry s raw_entry)) as (e & He & Hs);
        [lia|by exists entry|].
      exists e. by destruct d.
Qed.

Lemma Small_FindInChain_absent d s key (n : nat) :
  d ≠ SmallOrderedNameDictionary →
  (∀ entry, 0 ≤ entry < Small_UsedCapacity s →
     GetNextEntry s entry = Small_kNotFound ∨
     0 ≤ GetNextEntry s entry < entry) →
  (∀ entry, 0 ≤ entry < Small_UsedCapacity s →
     SameValueZero (Small_KeyAt d s entry) key = false) →
  ∀ fuel raw_entry,
  raw_entry = Small_kNotFound
  ∨ (0 ≤ raw_entry < Z.of_nat n ∧ raw_entry < Small_UsedCapacity s) →
  (n < fuel)%nat →
  Small_FindInChain fuel d s key raw_entry = Some None.
Proof.
  intros Hd Hchains Habsent.
  induction n as [|n IH]; intros fuel raw_entry Hhead Hfuel.
  - destruct fuel as [|fuel]; [lia|]. simpl.
    destruct Hhead as [->|[? _]]; [|lia]. by rewrite decide_True.
  - destruct fuel as [|fuel]; [lia|]. simpl.
    destruct (decide (raw_entry = Small_kNotFound)); [done|].
    destruct Hhead as [?|[Hrange Hused]]; [done|].
    rewrite Habsent by lia.
    assert (Small_FindInChain fuel d s key (GetNextEntry s raw_entry) = Some None)
      as Hrest.
    { apply IH; [|lia].
      destruct (Hchains raw_entry ltac:(lia)) as [->|?]; [by left|right; lia]. }
    by destruct d.
Qed.

Lemma Small_HasKey_present d s key fuel `{!HostOk} :
  d ≠ SmallOrderedNameDictionary →
  small_buckets_complete d s →
  small_key_present d s key →
  (Z.to_nat (Small_UsedCapacity s) ≤ fuel)%nat →
  Small_HasKey fuel d s key = Some true.
Proof.
  intros Hd Hcomplete (entry & Hlive & Hsame) Hfuel.
  destruct (Hcomplete entry Hlive) as (Hhashed & Hchain).
  rewrite (SameValueZero_GetHash _ _ Hsame) in Hhashed, Hchain.
  destruct (Small_FindInChain_found d s key (Z.to_nat (Small_UsedCapacity s)) Hd
              fuel (HashToFirstEntry s (Smi_ToInt (GetHash key))) Hfuel)
    as (e & He & _); [by exists entry|].
  unfold Small_HasKey, Small_FindEntry.
  destruct d; [| |done]; rewrite Hhashed, He; done.
Qed.

Lemma Small_HasKey_absent d s key fuel `{!HostOk} :
  d ≠ SmallOrderedNameDictionary →
  IsTheHole key = false →
  small_table_ok d s →
  small_key_absent d s key →
  (Z.to_nat (Small_UsedCapacity s) < fuel)%nat →
  Small_HasKey fuel d s key = Some false.
Proof.
  intros Hd Hkey (Hnof & Hnod & Hnob & Hused & _ & _ & _ & Hbuckets & Hchains & _)
    Habsent Hfuel.
  assert (∀ entry, 0 ≤ entry < Small_UsedCapacity s →
            SameValueZero (Small_KeyAt d s entry) key = false) as Hall.
  { intros entry Hentry. destruct (small_is_hole d s entry) eqn:Ehole.
    - unfold small_is_hole in Ehole. apply IsTheHole_true in Ehole.
      rewrite Ehole. by apply SameValueZero_hole.
    - apply Habsent. by apply elem_of_small_live_slots. }
  assert (∀ hash, Small_FindInChain fuel d s key (HashToFirstEntry s hash)
                  = Some None) as Hwalk.
  { intros hash.
    apply (Small_FindInChain_absent d s key (Z.to_nat (Small_UsedCapacity s)));
      try done.
    unfold HashToFirstEntry, Small_HashToBucket.
    pose proof (Z.mod_pos_bound hash (Small_NumberOfBuckets s) ltac:(lia)) as Hb.
    destruct (Hbuckets _ Hb) as [->|?]; [by left|right; lia]. }
  unfold Small_HasKey, Small_FindEntry.
  destruct d; [| |done]; destruct (IsUndefined _); try done; by rewrite Hwalk.
Qed.

(** After a successful small add of an absent key, the heap holds the table
    that was grown (or the one given) with the new entry in its first free
    slot. *)
Lemma Small_Add_after_lookup_ok d isolate table s hash key value details
    isolate' table' :
  small_at isolate table = Some s →
  small_table_ok d s →
  Small_Add_after_lookup d isolate table s hash (small_writes d key value details)
    = Some (isolate', Some table') →
  ∃ isolate1 s1 s',
    Small_table_for_adding d isolate table s = Some (isolate1, Some table') ∧
    small_at isolate1 table' = Some s1 ∧
    small_at isolate' table' = Some s' ∧
    small_payload d s' (Small_UsedCapacity s1) = small_cells d key value details ∧
    (∀ entry, entry ≠ Small_UsedCapacity s1 →
       small_payload d s' entry = small_payload d s1 entry) ∧
    Small_NumberOfElements s' = Small_NumberOfElements s1 + 1 ∧
    Small_NumberOfDeletedElements s' = Small_NumberOfDeletedElements s1.
Proof.
  intros Hs Hok. unfold Small_Add_after_lookup.
  destruct (Small_table_for_adding d isolate table s)
    as [[isolate1 [table1|]]|] eqn:Efor; cbn [mbind option_bind]; [|done..].
  destruct (Small_table_for_adding_ok _ _ _ _ _ _ Hs Hok Efor)
    as (s1 & Hs1 & Hlt & Hnof1 & Hnod1 & Hused1 & Hnob1 & Hdata1 & _).
  rewrite Hs1. cbn [mbind option_bind]. intros [= <- <-].
  exists isolate1, s1, (Small_insert_entry d s1 hash (small_writes d key value details)).
  split_and!; try done.
  - by apply small_at_store_eq.
  - apply small_payload_insert_eq; [unfold Small_UsedCapacity; lia|].
    rewrite Hdata1.
    assert (0 < Small_kEntrySize d) by (destruct d; simpl; lia). nia.
  - intros entry Hne. by apply small_payload_insert_ne.
  - unfold Small_insert_entry, Small_NumberOfElements; simpl.
    apply uint8_small. unfold Small_UsedCapacity, Small_NumberOfElements in *. lia.
  - by destruct d.
Qed.

Lemma Grow_fails_unchanged d isolate table isolate' :
  Grow d isolate table = Some (isolate', None) → isolate' = isolate.
Proof.
  unfold Grow. destruct (small_at isolate table) as [s|]; [|done].
  cbn [mbind option_bind]. cbv zeta.
  repeat case_decide;
    try (destruct (Small_Derived_Rehash _ _ _ _) as [[i h]|];
         cbn [mbind option_bind]; done);
    by intros [= ->].
Qed.

(** [Grow] always returns: a table, or the empty handle and the heap as it
    was. *)
Lemma Grow_total d isolate table s :
  small_at isolate table = Some s →
  (∃ isolate1 table1, Grow d isolate table = Some (isolate1, Some table1)) ∨
  Grow d isolate table = Some (isolate, None).
Proof.
  intros Hs. unfold Grow. rewrite Hs. cbn [mbind option_bind]. cbv zeta.
  assert (∀ c, ∃ isolate1 table1,
            (Small_Derived_Rehash d isolate table c
               ≫= λ '(isolate, new_table), Some (isolate, Some new_table))
            = Some (isolate1, Some table1)) as Hrehash.
  { intros c.
    destruct (Small_Derived_Rehash_total d isolate table s c Hs)
      as (isolate1 & new_s & -> & _).
    cbn [mbind option_bind]. by eexists _, _. }
  repeat case_decide; try (left; apply Hrehash); by right.
Qed.

(** The tail of a small [Add] always returns: the table with the new entry,
    or the empty handle and the heap as it was. *)
Lemma Small_Add_after_lookup_total d isolate table s hash writes :
  small_at isolate table = Some s →
  small_table_ok d s →
  ∃ isolate' result,
    Small_Add_after_lookup d isolate table s hash writes
      = Some (isolate', result) ∧
    (result = None → isolate' = isolate).
Proof.
  intros Hs Hok. unfold Small_Add_after_lookup.
  destruct (Small_table_for_adding d isolate table s)
    as [[isolate1 [table1|]]|] eqn:Efor; cbn [mbind option_bind].
  - destruct (Small_table_for_adding_ok _ _ _ _ _ _ Hs Hok Efor)
      as (s1 & Hs1 & _).
    rewrite Hs1. cbn [mbind option_bind]. by eexists _, _.
  - exists isolate1, None. split; [done|]. intros _.
    unfold Small_table_for_adding in Efor.
    destruct (decide (_ >= _)); [|done].
    by apply (Grow_fails_unchanged d isolate table).
  - exfalso. unfold Small_table_for_adding in Efor.
    destruct (decide (_ >= _)); [|done].
    destruct (Grow_total d isolate table s Hs)
      as [(isolate1 & table1 & Hgrow)|Hgrow]; congruence.
Qed.

End SmallAdd.

(** ** Adding a key *)

Section AddProperties.
Context `{Constants} `{Host} `{!HostOk}.

(** The lookup at the head of the large [Add] functions. *)
Lemma large_lookup_present d t key fuel :
  table_ok d t →
  buckets_complete d t →
  key_present d t key →
  (Z.to_nat (UsedCapacity t) ≤ fuel)%nat →
  ∃ entry,
    (if decide (NumberOfElements t > 0) then
       FindInChain fuel d t key (HashToEntryRaw t (GetOrCreateHash key))
     else Some None) = Some (Some entry).
Proof.
  intros (Hnof & Hnod & _ & _ & _ & Hholes) Hcomplete (entry & Hlive & Hsame) Hfuel.
  pose proof (length_live_slots d t Hnof Hholes) as Hlives.
  assert (NumberOfElements t > 0) as Hpos.
  { destruct (live_slots d t); [by apply elem_of_nil in Hlive|]. simpl in Hlives. lia. }
  rewrite decide_True by done.
  pose proof (Hcomplete entry Hlive) as Hchain.
  rewrite (SameValueZero_GetOrCreateHash _ _ Hsame) in Hchain.
  destruct (FindInChain_found d t key (Z.to_nat (UsedCapacity t)) fuel
              (HashToEntryRaw t (GetOrCreateHash key)) Hfuel)
    as (e & He & _); [by exists entry|].
  by exists e.
Qed.

Lemma large_lookup_absent d t key fuel :
  IsTheHole key = false →
  table_ok d t →
  key_absent d t key →
  (Z.to_nat (UsedCapacity t) < fuel)%nat →
  (if decide (NumberOfElements t > 0) then
     FindInChain fuel d t key (HashToEntryRaw t (GetOrCreateHash key))
   else Some None) = Some None.
Proof.
  intros Hkey (Hnof & Hnod & Hcap & Hlay & Hch & Hholes) Habsent Hfuel.
  destruct (decide (NumberOfElements t > 0)) as [Hpos|]; [|done].
  destruct Hlay as [(Hnb & _)|[_ Hused]];
    [|unfold UsedCapacity in Hused; lia].
  apply (FindInChain_absent d t key (UsedCapacity t) (Z.to_nat (UsedCapacity t)));
    [done|by apply key_absent_used| |done].
  destruct Hch as [Hbuckets _].
  destruct (Hbuckets _ (HashToBucket_range t (GetOrCreateHash key) Hnb))
    as (e & He & Hrange).
  unfold HashToEntryRaw. rewrite He. simpl.
  destruct Hrange as [->|?]; [by left|right; lia].
Qed.

Lemma Add_after_lookup_appends d check isolate table t hash cells isolate' table' :
  large_at isolate table = Some t →
  table_ok d t →
  2 ≤ kInitialCapacity ≤ 2 ^ 30 →
  Z.of_nat (length cells) = entrysize d →
  Add_after_lookup d check isolate table hash cells = Some (isolate', Some table') →
  large_add_appends d isolate table cells isolate' table'.
Proof.
  intros Ht Hok Hk Hcells Hadd.
  destruct (Add_after_lookup_ok _ _ _ _ _ _ _ _ _ Ht Hok Hk Hadd)
    as (isolate1 & t1 & capacity & Hensure & Ht1 & Ht' & _ & Hlay & Hused & _).
  exists isolate1, t1, (insert_entry d t1 hash cells).
  split_and!; try done.
  - by apply (payload_insert_entry_eq d t1 capacity).
  - intros entry Hentry.
    apply (payload_insert_entry_ne d t1 capacity); try done; lia.
  - apply (insert_entry_header d t1 hash cells).
Qed.

Lemma Small_Add_after_lookup_appends d isolate table s hash key value details
    isolate' table' :
  small_at isolate table = Some s →
  small_table_ok d s →
  Small_Add_after_lookup d isolate table s hash (small_writes d key value details)
    = Some (isolate', Some table') →
  small_add_appends d isolate table s (small_cells d key value details)
    isolate' table'.
Proof.
  intros Hs Hok Hadd.
  destruct (Small_Add_after_lookup_ok _ _ _ _ _ _ _ _ _ _ Hs Hok Hadd)
    as (isolate1 & s1 & s' & Hfor & Hs1 & Hs' & Heq & Hne & Hnof & Hnod).
  exists isolate1, s1, s'. split_and!; try done.
  intros entry Hentry. apply Hne. lia.
Qed.

(** C2. An add of a key that is not in the table (and is not the hole,
    which marks tombstones and is never a key) returns; when it returns a
    table, the new entry is in slot
    [number_of_elements + number_of_deleted_elements] of the table it
    inserted into (the one given, or the one it was rehashed or grown into)
    and the payload of every slot below it, live or tombstoned, is as it
    was.  Otherwise it returns the empty handle: the large form with the
    range error pending, the small form with the heap as it was.  This holds
    for the set, the map and the name dictionary in both forms. *)
Theorem Add_appends_at_used_capacity fuel isolate table key value details :
  2 ≤ kInitialCapacity ≤ 2 ^ 30 →
  IsTheHole key = false →
  (∀ t, large_at isolate table = Some t →
     table_ok OrderedHashSet t → key_absent OrderedHashSet t key →
     (Z.to_nat (UsedCapacity t) < fuel)%nat →
     ∃ isolate' result,
       OrderedHashSet_Add fuel isolate table key = Some (isolate', result) ∧
       match result with
       | Some table' =>
           large_add_appends OrderedHashSet isolate table [key] isolate' table'
       | None => isolate' = ThrowRangeError isolate kTooManyProperties
       end) ∧
  (∀ t, large_at isolate table = Some t →
     table_ok OrderedHashMap t → key_absent OrderedHashMap t key →
     (Z.to_nat (UsedCapacity t) < fuel)%nat →
     ∃ isolate' result,
       OrderedHashMap_Add fuel isolate table key value
         = Some (isolate', result) ∧
       match result with
       | Some table' =>
           large_add_appends OrderedHashMap isolate table [key; value]
             isolate' table'
       | None => isolate' = ThrowRangeError isolate kTooManyProperties
       end) ∧
  (∀ t, large_at isolate table = Some t →
     table_ok OrderedNameDictionary t →
     ∃ isolate' result,
       OrderedNameDictionary_Add isolate table key value details
         = Some (isolate', result) ∧
       match result with
       | Some table' =>
           large_add_appends OrderedNameDictionary isolate table
             [key; value; AsSmi details] isolate' table'
       | None => isolate' = ThrowRangeError isolate kTooManyProperties
       end) ∧
  (∀ s, small_at isolate table = Some s →
     small_table_ok SmallOrderedHashSet s →
     small_key_absent SmallOrderedHashSet s key →
     (Z.to_nat (Small_UsedCapacity s) < fuel)%nat →
     ∃ isolate' result,
       SmallOrderedHashSet_Add fuel isolate table key
         = Some (isolate', result) ∧
       match result with
       | Some table' =>
           small_add_appends SmallOrderedHashSet isolate table s [key]
             isolate' table'
       | None => isolate' = isolate
       end) ∧
  (∀ s, small_at isolate table = Some s →
     small_table_ok SmallOrderedHashMap s →
     small_key_absent SmallOrderedHashMap s key →
     (Z.to_nat (Small_UsedCapacity s) < fuel)%nat →
     ∃ isolate' result,
       SmallOrderedHashMap_Add fuel isolate table key value
         = Some (isolate', result) ∧
       match result with
       | Some table' =>
           small_add_appends SmallOrderedHashMap isolate table s [key; value]
             isolate' table'
       | None => isolate' = isolate
       end) ∧
  (∀ s, small_at isolate table = Some s →
     small_table_ok SmallOrderedNameDictionary s →
     ∃ isolate' result,
       SmallOrderedNameDictionary_Add isolate table key value details
         = Some (isolate', result) ∧
       match result with
       | Some table' =>
           small_add_appends SmallOrderedNameDictionary isolate table s
             [key; value; AsSmi details] isolate' table'
       | None => isolate' = isolate
       end).
Proof.
  intros Hk Hkey. split_and!.
  - intros t Ht Hok Habsent Hfuel.
    rewrite (OrderedHashSet_Add_unfold _ _ _ _ _ Ht).
    rewrite large_lookup_absent by done. cbn [mbind option_bind].
    destruct (Add_after_lookup_total OrderedHashSet true isolate table t
                (GetOrCreateHash key) [key] Ht Hok Hk)
      as (isolate' & [table'|] & Hadd & Hnone); exists isolate'; eexists;
      (split; [exact Hadd|]); [|by apply Hnone].
    eapply Add_after_lookup_appends; eauto.
  - intros t Ht Hok Habsent Hfuel.
    rewrite (OrderedHashMap_Add_unfold _ _ _ _ _ _ Ht).
    rewrite large_lookup_absent by done. cbn [mbind option_bind].
    destruct (Add_after_lookup_total OrderedHashMap false isolate table t
                (GetOrCreateHash key) [key; value] Ht Hok Hk)
      as (isolate' & [table'|] & Hadd & Hnone); exists isolate'; eexists;
      (split; [exact Hadd|]); [|by apply Hnone].
    eapply Add_after_lookup_appends; eauto.
  - intros t Ht Hok. rewrite OrderedNameDictionary_Add_unfold.
    destruct (Add_after_lookup_total OrderedNameDictionary false isolate table t
                (Name_hash key) [key; value; AsSmi details] Ht Hok Hk)
      as (isolate' & [table'|] & Hadd & Hnone); exists isolate'; eexists;
      (split; [exact Hadd|]); [|by apply Hnone].
    eapply Add_after_lookup_appends; eauto.
  - intros s Hs Hok Habsent Hfuel.
    rewrite (SmallOrderedHashSet_Add_unfold _ _ _ _ _ Hs).
    rewrite Small_HasKey_absent by done. cbn [mbind option_bind].
    destruct (Small_Add_after_lookup_total SmallOrderedHashSet isolate table s
                (GetOrCreateHash key)
                (small_writes SmallOrderedHashSet key undefined_value 0) Hs Hok)
      as (isolate' & [table'|] & Hadd & Hnone); exists isolate'; eexists;
      (split; [exact Hadd|]); [|by apply Hnone].
    by apply (Small_Add_after_lookup_appends SmallOrderedHashSet _ _ _ _ _ _ _
                _ _ Hs Hok Hadd).
  - intros s Hs Hok Habsent Hfuel.
    rewrite (SmallOrderedHashMap_Add_unfold _ _ _ _ _ _ Hs).
    rewrite Small_HasKey_absent by done. cbn [mbind option_bind].
    destruct (Small_Add_after_lookup_total SmallOrderedHashMap isolate table s
                (GetOrCreateHash key)
                (small_writes SmallOrderedHashMap key value 0) Hs Hok)
      as (isolate' & [table'|] & Hadd & Hnone); exists isolate'; eexists;
      (split; [exact Hadd|]); [|by apply Hnone].
    by apply (Small_Add_after_lookup_appends SmallOrderedHashMap _ _ _ _ _ _ _
                _ _ Hs Hok Hadd).
  - intros s Hs Hok.
    rewrite (SmallOrderedNameDictionary_Add_unfold _ _ _ _ _ _ Hs).
    destruct (Small_Add_after_lookup_total SmallOrderedNameDictionary isolate
                table s (Name_hash key)
                (small_writes SmallOrderedNameDictionary key value details)
                Hs Hok)
      as (isolate' & [table'|] & Hadd & Hnone); exists isolate'; eexists;
      (split; [exact Hadd|]); [|by apply Hnone].
    by apply (Small_Add_after_lookup_appends SmallOrderedNameDictionary _ _ _ _
                _ _ _ _ _ Hs Hok Hadd).
Qed.

(** C6. An add of a key that is already in the table, by same-value-zero,
    returns the handle it was given and leaves the heap, hence every counter
    and every cell of the table, as it was; this holds for the set and the
    map in both forms. *)
Theorem Add_present_changes_nothing fuel isolate table key value :
  (∀ t, large_at isolate table = Some t →
     table_ok OrderedHashSet t → buckets_complete OrderedHashSet t →
     key_present OrderedHashSet t key →
     (Z.to_nat (UsedCapacity t) ≤ fuel)%nat →
     OrderedHashSet_Add fuel isolate table key = Some (isolate, Some table)) ∧
  (∀ t, large_at isolate table = Some t →
     table_ok OrderedHashMap t → buckets_complete OrderedHashMap t →
     key_present OrderedHashMap t key →
     (Z.to_nat (UsedCapacity t) ≤ fuel)%nat →
     OrderedHashMap_Add fuel isolate table key value
       = Some (isolate, Some table)) ∧
  (∀ s, small_at isolate table = Some s →
     small_buckets_complete SmallOrderedHashSet s →
     small_key_present SmallOrderedHashSet s key →
     (Z.to_nat (Small_UsedCapacity s) ≤ fuel)%nat →
     SmallOrderedHashSet_Add fuel isolate table key
       = Some (isolate, Some table)) ∧
  (∀ s, small_at isolate table = Some s →
     small_buckets_complete SmallOrderedHashMap s →
     small_key_present SmallOrderedHashMap s key →
     (Z.to_nat (Small_UsedCapacity s) ≤ fuel)%nat →
     SmallOrderedHashMap_Add fuel isolate table key value
       = Some (isolate, Some table)).
Proof.
  split_and!.
  - intros t Ht Hok Hcomplete Hpresent Hfuel.
    rewrite (OrderedHashSet_Add_unfold _ _ _ _ _ Ht).
    destruct (large_lookup_present _ _ _ _ Hok Hcomplete Hpresent Hfuel)
      as (entry & ->). done.
  - intros t Ht Hok Hcomplete Hpresent Hfuel.
    rewrite (OrderedHashMap_Add_unfold _ _ _ _ _ _ Ht).
    destruct (large_lookup_present _ _ _ _ Hok Hcomplete Hpresent Hfuel)
      as (entry & ->). done.
  - intros s Hs Hcomplete Hpresent Hfuel.
    rewrite (SmallOrderedHashSet_Add_unfold _ _ _ _ _ Hs).
    by rewrite Small_HasKey_present.
  - intros s Hs Hcomplete Hpresent Hfuel.
    rewrite (SmallOrderedHashMap_Add_unfold _ _ _ _ _ _ Hs).
    by rewrite Small_HasKey_present.
Qed.

End AddProperties.

Section MapValues.
Context `{Constants} `{Host} `{!HostOk}.

(** C10. An add to a map that already holds the key returns the table with
    the entry of that key as it was: the stored value is still the old one,
    whatever value the add was given, in the large and in the small form.
    [SetEntry] is what stores a new value in an entry. *)
Theorem Map_Add_keeps_value fuel isolate table key value' :
  (∀ t entry,
     large_at isolate table = Some t →
     table_ok OrderedHashMap t → buckets_complete OrderedHashMap t →
     entry ∈ live_slots OrderedHashMap t →
     SameValueZero (KeyAt 2 t entry) key = true →
     (Z.to_nat (UsedCapacity t) ≤ fuel)%nat →
     ∃ isolate' t',
       OrderedHashMap_Add fuel isolate table key value'
         = Some (isolate', Some table) ∧
       large_at isolate' table = Some t' ∧
       KeyAt 2 t' entry = KeyAt 2 t entry ∧
       OrderedHashMap_ValueAt t' entry = OrderedHashMap_ValueAt t entry) ∧
  (∀ s entry,
     small_at isolate table = Some s →
     small_buckets_complete SmallOrderedHashMap s →
     entry ∈ small_live_slots SmallOrderedHashMap s →
     SameValueZero (Small_KeyAt SmallOrderedHashMap s entry) key = true →
     (Z.to_nat (Small_UsedCapacity s) ≤ fuel)%nat →
     ∃ isolate' s',
       SmallOrderedHashMap_Add fuel isolate table key value'
         = Some (isolate', Some table) ∧
       small_at isolate' table = Some s' ∧
       Small_KeyAt SmallOrderedHashMap s' entry
         = Small_KeyAt SmallOrderedHashMap s entry ∧
       SmallOrderedHashMap_ValueAt s' entry = SmallOrderedHashMap_ValueAt s entry) ∧
  (∀ t capacity entry,
     layout_ok OrderedHashMap t capacity → 0 ≤ entry < capacity →
     OrderedHashMap_ValueAt (OrderedHashMap_SetEntry t entry key value') entry
       = value').
Proof.
  split_and!.
  - intros t entry Ht Hok Hcomplete Hlive Hsame Hfuel.
    exists isolate, t. split_and!; try done.
    rewrite (OrderedHashMap_Add_unfold _ _ _ _ _ _ Ht).
    destruct (large_lookup_present OrderedHashMap t key fuel Hok Hcomplete)
      as (e & ->); [by exists entry|done..].
  - intros s entry Hs Hcomplete Hlive Hsame Hfuel.
    exists isolate, s. split_and!; try done.
    rewrite (SmallOrderedHashMap_Add_unfold _ _ _ _ _ _ Hs).
    rewrite Small_HasKey_present; try done. by exists entry.
  - intros t capacity entry (Hnb & Hcap & Hlen) Hentry.
    unfold OrderedHashMap_ValueAt, OrderedHashMap_SetEntry.
    change (EntryToIndexRaw 2 (set (set t ?a ?b) ?c ?d) entry)
      with (EntryToIndexRaw 2 t entry).
    apply get_set_eq. rewrite length_elements_set.
    unfold EntryToIndexRaw, kValueOffset, kEntrySize in *. simpl in *. lia.
Qed.

End MapValues.

(** ** Promotion of a small set to the large form *)

Section Promotion.
Context `{Constants} `{Host} `{!HostOk}.

Lemma filter_none {A} (f : A → bool) (l : list A) :
  Forall (λ x, f x = false) l → List.filter f l = [].
Proof.
  induction 1 as [|x l Hx _ IH]; [done|]. simpl. by rewrite Hx, IH.
Qed.

Lemma KeyAt_payload t entry :
  payload OrderedHashSet t entry = [KeyAt 1 t entry].
Proof. unfold payload, KeyAt. simpl. by rewrite Z.add_0_r. Qed.

(** The slots of a table that holds [keys] and no tombstones. *)
Lemma promoted_slots t keys :
  NumberOfElements t = Z.of_nat (length keys) →
  NumberOfDeletedElements t = 0 →
  map (payload OrderedHashSet t) (seqZ 0 (Z.of_nat (length keys)))
    = map (λ key, [key]) keys →
  Forall (λ key, IsTheHole key = false) keys →
  live_slots OrderedHashSet t = seqZ 0 (Z.of_nat (length keys)) ∧
  hole_slots OrderedHashSet t = [] ∧
  map (KeyAt 1 t) (seqZ 0 (Z.of_nat (length keys))) = keys.
Proof.
  intros Hnof Hnod Hmap Hkeys.
  assert (Forall (λ e, is_hole OrderedHashSet t e = false)
            (seqZ 0 (Z.of_nat (length keys)))) as Hall.
  { assert (Forall (λ p, payload_is_hole p = false) (map (λ key, [key]) keys))
      as Hp by (apply Forall_map; eapply Forall_impl; [exact Hkeys|done]).
    rewrite <- Hmap in Hp. apply Forall_map in Hp.
    eapply Forall_impl; [exact Hp|]. simpl. intros e He.
    by rewrite is_hole_payload. }
  unfold live_slots, hole_slots, IterateEntries, UsedCapacity.
  rewrite Hnof, Hnod, Z.add_0_r. split_and!.
  - apply filter_all. eapply Forall_impl; [exact Hall|].
    simpl. intros e ->. done.
  - by apply filter_none.
  - assert (map (λ p, default undefined_value (head p))
              (map (payload OrderedHashSet t) (seqZ 0 (Z.of_nat (length keys))))
            = map (λ p, default undefined_value (head p)) (map (λ key, [key]) keys))
      as Hheads by (by rewrite Hmap).
    rewrite !map_map in Hheads. simpl in Hheads. rewrite map_id in Hheads.
    etransitivity; [|exact Hheads]. apply map_ext. intros e.
    unfold KeyAt. f_equal. lia.
Qed.

Lemma promoted_table_ok isolate new_table keys capacity :
  promoted isolate new_table keys capacity →
  Forall (λ key, IsTheHole key = false) keys →
  ∃ t, large_at isolate new_table = Some t ∧
       table_ok OrderedHashSet t ∧
       UsedCapacity t = Z.of_nat (length keys) ∧
       NumberOfElements t = Z.of_nat (length keys) ∧
       NumberOfDeletedElements t = 0 ∧
       Capacity t = capacity ∧
       kInitialCapacity ≤ capacity ≤ 2 ^ 29 ∧
       live_slots OrderedHashSet t = seqZ 0 (Z.of_nat (length keys)) ∧
       map (KeyAt 1 t) (seqZ 0 (Z.of_nat (length keys))) = keys ∧
       map (payload OrderedHashSet t) (seqZ 0 (Z.of_nat (length keys)))
         = map (λ key, [key]) keys.
Proof.
  intros (t & Ht & Hlay & Hcap & Hbound & Hnof & Hnod & Hfit & Hch & Hmap) Hkeys.
  destruct (promoted_slots t keys Hnof Hnod Hmap Hkeys) as (Hlive & Hhole & Hkeyat).
  assert (UsedCapacity t = Z.of_nat (length keys)) as Hused
    by (unfold UsedCapacity; lia).
  exists t. split_and!; try done; try lia.
  unfold table_ok. rewrite Hused, Hcap, Hhole, Hnod.
  split_and!; try done; try lia. left. done.
Qed.

Lemma promoted_key_absent t keys key :
  live_slots OrderedHashSet t = seqZ 0 (Z.of_nat (length keys)) →
  map (KeyAt 1 t) (seqZ 0 (Z.of_nat (length keys))) = keys →
  Forall (λ earlier, SameValueZero earlier key = false) keys →
  key_absent OrderedHashSet t key.
Proof.
  intros Hlive Hkeyat Hdistinct entry Hentry. rewrite Hlive in Hentry.
  rewrite <- Hkeyat in Hdistinct. apply Forall_map in Hdistinct.
  rewrite Forall_forall in Hdistinct. by apply Hdistinct.
Qed.

Lemma rounded_le_512 c : c ≤ 512 → 2 ^ Z.log2_up c ≤ 512.
Proof.
  intros Hc. pose proof (Z.log2_up_le_mono c 512 Hc) as Hlog.
  change (Z.log2_up 512) with 9 in Hlog.
  pose proof (Z.pow_le_mono_r 2 (Z.log2_up c) 9 ltac:(lia) Hlog) as Hpow.
  change (2 ^ 9) with 512 in Hpow. exact Hpow.
Qed.

(** One turn of the loop of [AdjustRepresentation]: the add of a key that is
    not the same value as any key promoted so far appends it, in the table
    under construction or in the table that one was rehashed into. *)
Lemma promote_step fuel isolate new_table keys capacity key :
  2 ≤ kInitialCapacity ≤ 2 ^ 30 →
  512 ≤ MaxCapacity 1 →
  promoted isolate new_table keys capacity →
  Forall (λ key, IsTheHole key = false) keys →
  Forall (λ earlier, SameValueZero earlier key = false) keys →
  IsTheHole key = false →
  (length keys < fuel)%nat →
  Z.of_nat (length keys) < 254 →
  ∃ isolate' new_table' capacity',
    OrderedHashSet_Add fuel isolate new_table key
      = Some (isolate', Some new_table') ∧
    promoted isolate' new_table' (keys ++ [key]) capacity' ∧
    (capacity' = capacity ∨ Z.of_nat (length keys) = capacity) ∧
    (length (heap isolate) ≤ length (heap isolate'))%nat ∧
    (∀ other, other ≠ new_table → (other < length (heap isolate))%nat →
       heap isolate' !! other = heap isolate !! other).
Proof.
  intros Hk Hmax Hprom Hkeys Hdistinct Hkey Hfuel Hsmall.
  destruct (promoted_table_ok _ _ _ _ Hprom Hkeys)
    as (t & Ht & Hok & Hused & Hnof & Hnod & Hcap & Hbound & Hlive & Hkeyat & Hmap).
  pose proof (large_at_lt _ _ _ Ht) as Hlt.
  pose proof (promoted_key_absent t keys key Hlive Hkeyat Hdistinct) as Habsent.
  rewrite (OrderedHashSet_Add_unfold _ _ _ _ _ Ht).
  rewrite large_lookup_absent by (done || rewrite Hused; lia).
  cbn [mbind option_bind].
  assert (¬ UsedCapacity t < Capacity t →
          (if decide (Capacity t = 0) then kInitialCapacity
           else if decide (NumberOfDeletedElements t >= Capacity t / 2)
                then Capacity t
           else 2 * Capacity t) = 2 * capacity ∧
          Z.of_nat (length keys) = capacity) as Hnc.
  { intros Hfull. destruct Hok as (_ & _ & Hle & _).
    rewrite Hcap, Hnod in *. rewrite decide_False by lia.
    rewrite decide_False; [lia|].
    assert (1 ≤ capacity / 2) by (apply Z.div_le_lower_bound; lia). lia. }
  destruct (EnsureCapacityForAdding_succeeds OrderedHashSet isolate new_table t
              Ht Hok Hk) as (isolate1 & table1 & Hensure).
  { intros Hfull. destruct (Hnc Hfull) as (-> & Hfulleq).
    rewrite Z.max_r by lia.
    pose proof (rounded_le_512 (2 * capacity) ltac:(lia)).
    change (entrysize OrderedHashSet) with 1. lia. }
  destruct (EnsureCapacityForAdding_ok _ _ _ _ _ _ Ht Hok Hk Hensure)
    as (t1 & capacity' & Ht1 & Hlay1 & Hused1 & Hch1 & Hlt1 & Hcase).
  unfold Add_after_lookup. rewrite Hensure. cbn [mbind option_bind].
  rewrite Ht1. cbn [mbind option_bind].
  assert (NumberOfElements t1 = Z.of_nat (length keys) ∧
          NumberOfDeletedElements t1 = 0 ∧
          Capacity t1 = capacity' ∧
          kInitialCapacity ≤ capacity' ≤ 2 ^ 29 ∧
          map (payload OrderedHashSet t1) (seqZ 0 (Z.of_nat (length keys)))
            = map (λ key, [key]) keys ∧
          (capacity' = capacity ∨ Z.of_nat (length keys) = capacity) ∧
          (length (heap isolate) ≤ length (heap isolate1))%nat ∧
          (∀ other, other ≠ new_table → other ≠ table1 →
             (other < length (heap isolate))%nat →
             heap isolate1 !! other = heap isolate !! other))
    as (Hnof1 & Hnod1 & Hcap1 & Hbound1 & Hmap1 & Hcapcase & Hlen1 & Hframe1).
  { destruct Hcase as [(-> & -> & -> & -> & Hroom)
                      |(t' & Hre & -> & Hfull & Hcap')].
    - rewrite Hcap. split_and!; try done; try lia; by left.
    - destruct (Hnc Hfull) as (Hnceq & Hfulleq).
      rewrite Hnceq, Z.max_r in Hcap' by lia.
      pose proof (rounded_le_512 (2 * capacity) ltac:(lia)) as H512.
      rewrite <- Hcap' in H512.
      destruct (rounded_capacity (2 * capacity) Hk ltac:(lia))
        as (_ & _ & _ & Hdouble & Hrange).
      rewrite Z.max_r, <- Hcap' in Hdouble, Hrange by lia.
      destruct (rehashed_large_at _ _ _ _ _ _ _ _ Hre Hlt) as (_ & _ & Hlen & Hfr).
      destruct Hre as (_ & _ & _ & Hnof' & Hnod' & Hnob' & _ & _ & Hmap' & _).
      rewrite Hlive, length_seqZ, Z2Nat.id in Hmap' by lia.
      split_and!.
      + lia.
      + done.
      + unfold Capacity. by rewrite Hnob'.
      + lia.
      + lia.
      + by rewrite Hmap'.
      + by right.
      + lia.
      + intros other Hne1 Hne2 Hother. by apply Hfr. }
  assert (UsedCapacity t1 = Z.of_nat (length keys)) as Hused1'
    by (unfold UsedCapacity; lia).
  set (t' := insert_entry OrderedHashSet t1 (GetOrCreateHash key) [key]).
  destruct (insert_entry_header OrderedHashSet t1 (GetOrCreateHash key) [key])
    as (Hnof' & Hnod' & Hnob' & _ & _ & _ & Hlen'). fold t' in Hnof', Hnod', Hnob', Hlen'.
  eexists _, table1, capacity'. split; [reflexivity|]. split_and!.
  - exists t'. rewrite length_app. cbn [length].
    replace (Z.of_nat (length keys + 1)) with (Z.of_nat (length keys) + 1) by lia.
    split_and!.
    + by apply large_at_store_eq.
    + destruct Hlay1 as (? & ? & ?). unfold layout_ok, NumberOfBuckets.
      rewrite Hnob', Hlen'. done.
    + unfold Capacity, NumberOfBuckets. rewrite Hnob'. exact Hcap1.
    + lia.
    + lia.
    + unfold NumberOfElements in *. lia.
    + unfold NumberOfDeletedElements in *. lia.
    + lia.
    + rewrite <- Hused1'.
      by apply (chains_upto_insert_entry OrderedHashSet t1 capacity').
    + rewrite seqZ_app by lia. rewrite map_app, map_app. f_equal.
      * rewrite <- Hmap1. apply map_ext_in.
        intros e He%list_elem_of_In%elem_of_seqZ.
        apply (payload_insert_entry_ne OrderedHashSet t1 capacity'); try done; lia.
      * rewrite Z.add_0_l. change (seqZ (Z.of_nat (length keys)) 1)
          with [Z.of_nat (length keys)]. cbn [map]. f_equal.
        rewrite <- Hused1'.
        by apply (payload_insert_entry_eq OrderedHashSet t1 capacity').
  - done.
  - by rewrite length_heap_store.
  - intros other Hne Hother.
    destruct (decide (other = table1)) as [->|Hne1].
    + destruct Hcase as [(_ & -> & _)|(t'' & _ & -> & _)]; [done|lia].
    + unfold store; cbn [heap]. rewrite list_lookup_insert_ne by done.
      by apply Hframe1.
Qed.

(** The loop of [AdjustRepresentation]: every live key of the small set is
    appended, in slot order, to the large set under construction. *)
Lemma AdjustRepresentation_loop_ok fuel table s c0 entries :
  2 ≤ kInitialCapacity ≤ 2 ^ 30 →
  512 ≤ MaxCapacity 1 →
  ∀ isolate new_table keys capacity,
  let rest :=
    map (Small_KeyAt SmallOrderedHashSet s)
      (List.filter (λ e, negb (small_is_hole SmallOrderedHashSet s e)) entries) in
  small_at isolate table = Some s →
  promoted isolate new_table keys capacity →
  capacity = c0 ∨ c0 < Z.of_nat (length keys) →
  Forall (λ key, IsTheHole key = false) keys →
  all_distinct keys rest →
  Z.of_nat (length keys + length rest) ≤ 254 →
  (length keys + length rest ≤ fuel)%nat →
  ∃ isolate' new_table' capacity',
    OrderedHashSetHandler_AdjustRepresentation_loop fuel isolate table
      new_table (Some new_table) entries = Some (isolate', Some new_table') ∧
    promoted isolate' new_table' (keys ++ rest) capacity' ∧
    (capacity' = c0 ∨ c0 < Z.of_nat (length (keys ++ rest))) ∧
    small_at isolate' table = Some s.
Proof.
  intros Hk Hmax.
  induction entries as [|entry entries IH];
    intros isolate new_table keys capacity rest Hs Hprom Hc0 Hkeys Hdistinct
      Hsmall Hfuel.
  - exists isolate, new_table, capacity. subst rest. simpl.
    rewrite app_nil_r. done.
  - cbn [OrderedHashSetHandler_AdjustRepresentation_loop].
    rewrite Hs. cbn [mbind option_bind].
    destruct (IsTheHole (Small_KeyAt SmallOrderedHashSet s entry)) eqn:Ehole.
    + assert (rest = map (Small_KeyAt SmallOrderedHashSet s)
                (List.filter (λ e, negb (small_is_hole SmallOrderedHashSet s e))
                   entries)) as Hrest.
      { subst rest. simpl. unfold small_is_hole at 1. by rewrite Ehole. }
      rewrite Hrest in *. by apply (IH isolate new_table keys capacity).
    + set (key := Small_KeyAt SmallOrderedHashSet s entry) in *.
      set (rest' := map (Small_KeyAt SmallOrderedHashSet s)
                (List.filter (λ e, negb (small_is_hole SmallOrderedHashSet s e))
                   entries)).
      assert (rest = key :: rest') as Hrest.
      { subst rest rest'. simpl. unfold small_is_hole at 1. fold key.
        by rewrite Ehole. }
      rewrite Hrest in *. clear Hrest. cbn [length] in Hsmall, Hfuel.
      destruct Hdistinct as [Hnew Hdistinct].
      destruct (promote_step fuel isolate new_table keys capacity key Hk Hmax
                  Hprom Hkeys Hnew Ehole) as
        (isolate' & new_table' & capacity' & Hadd & Hprom' & Hcap' & Hlen & Hframe);
        [lia..|].
      rewrite Hadd. cbn [mbind option_bind].
      assert (small_at isolate' table = Some s) as Hs'.
      { pose proof (small_at_lt _ _ _ Hs) as Hlt.
        unfold small_at in Hs |- *. rewrite Hframe; [done| |done].
        intros ->. destruct Hprom as (t & Ht & _). unfold large_at in Ht.
        destruct (heap isolate !! new_table) as [[|]|]; done. }
      destruct (IH isolate' new_table' (keys ++ [key]) capacity' Hs' Hprom')
        as (isolate'' & new_table'' & capacity'' & Hloop & Hprom'' & Hc0'' & Hs'').
      { rewrite length_app. cbn [length]. destruct Hcap' as [->|Hfull]; lia. }
      { apply Forall_app. split; [done|]. by apply Forall_singleton. }
      { done. }
      { rewrite length_app. cbn [length]. fold rest'. lia. }
      { rewrite length_app. cbn [length]. fold rest'. lia. }
      fold rest' in Hloop, Hprom'', Hc0''.
      rewrite <- app_assoc in Hprom'', Hc0''. cbn [app] in Hprom'', Hc0''.
      by exists isolate'', new_table'', capacity''.
Qed.

(** C4. When the add to a full small set fails, the handler's add builds a
    large set, starting from a table allocated for
    [OrderedHashTableMinSize] entries, that holds the small set's live keys
    in the slot order of the small set, as many elements as the small set
    has, and then is the large add of the pending key to that set. *)
Theorem Handler_Add_promotes fuel isolate table s key isolate_failed :
  2 ≤ kInitialCapacity ≤ 2 ^ 30 →
  OrderedHashTableMinSize ≤ 2 ^ 30 →
  let min_capacity :=
    2 ^ Z.log2_up (Z.max kInitialCapacity OrderedHashTableMinSize) in
  min_capacity ≤ 2 ^ 29 →
  min_capacity ≤ MaxCapacity 1 →
  512 ≤ MaxCapacity 1 →
  small_at isolate table = Some s →
  small_table_ok SmallOrderedHashSet s →
  all_distinct [] (small_live_keys s) →
  (Z.to_nat (Small_NumberOfElements s) ≤ fuel)%nat →
  SmallOrderedHashSet_Add fuel isolate table key = Some (isolate_failed, None) →
  ∃ isolate' new_table t,
    OrderedHashSetHandler_AdjustRepresentation fuel isolate table
      = Some (isolate', Some new_table) ∧
    large_at isolate' new_table = Some t ∧
    small_at isolate' table = Some s ∧
    NumberOfElements t = Small_NumberOfElements s ∧
    NumberOfDeletedElements t = 0 ∧
    live_entries OrderedHashSet t = small_live_entries SmallOrderedHashSet s ∧
    (Small_NumberOfElements s ≤ min_capacity → Capacity t = min_capacity) ∧
    OrderedHashSetHandler_Add fuel isolate table key
      = OrderedHashSet_Add fuel isolate' new_table key.
Proof.
  intros Hk Hmin min_capacity Hmin29 Hminmax Hmax Hs Hok Hdistinct Hfuel Hfail.
  pose proof (small_at_lt _ _ _ Hs) as Hlt.
  pose proof Hok as (Hnof & Hnod & Hnob & Hused & _ & _ & _ & _ & _ & Hholes).
  (* the small add left the heap alone *)
  assert (isolate_failed = isolate) as ->.
  { rewrite (SmallOrderedHashSet_Add_unfold _ _ _ _ _ Hs) in Hfail.
    destruct (Small_HasKey _ _ _ _) as [[|]|]; cbn [mbind option_bind] in Hfail;
      try done.
    unfold Small_Add_after_lookup, Small_table_for_adding in Hfail.
    destruct (decide (_ >= _)); cbn [mbind option_bind] in Hfail;
      [|by destruct (small_at isolate table)].
    destruct (Grow _ _ _) as [[i [h|]]|] eqn:Egrow;
      cbn [mbind option_bind] in Hfail; try done.
    - by destruct (small_at i h).
    - injection Hfail as <-. by apply Grow_fails_unchanged in Egrow. }
  (* the number of live keys *)
  assert (Z.of_nat (length (small_live_keys s)) = Small_NumberOfElements s) as Hcount.
  { unfold small_live_keys. rewrite length_map.
    pose proof (List.filter_length (small_is_hole SmallOrderedHashSet s)
                  (Small_IterateEntries s)) as Hsum.
    fold (small_hole_slots SmallOrderedHashSet s) in Hsum.
    fold (small_live_slots SmallOrderedHashSet s) in Hsum.
    unfold Small_IterateEntries, Small_UsedCapacity in Hsum.
    rewrite length_seqZ in Hsum. lia. }
  (* the fresh large table *)
  destruct (rounded_capacity OrderedHashTableMinSize Hk Hmin)
    as (Hcap & Hq & Hhalf & Hdouble & Hrange).
  fold min_capacity in Hcap, Hq, Hhalf, Hdouble, Hrange.
  destruct (Derived_Allocate_ok OrderedHashSet isolate OrderedHashTableMinSize)
    as (t0 & Halloc & Hnob0 & Hnof0 & Hnod0 & Hnext0 & Hrem0 & Hlen0 & Hbuckets0 & _).
  { rewrite Hcap. change (entrysize OrderedHashSet) with 1. lia. }
  rewrite Hcap, Hq in Hnob0, Hlen0, Hbuckets0.
  set (isolate0 := mkIsolate (heap isolate ++ [LargeTable t0])
                     (pending_exception isolate)) in *.
  assert (promoted isolate0 (length (heap isolate)) [] min_capacity) as Hprom.
  { exists t0. cbn [length]. change (Z.of_nat 0) with 0.
    assert (0 ≤ min_capacity * kEntrySize (entrysize OrderedHashSet))
      by (unfold kEntrySize; simpl; lia).
    split_and!; try done; try lia.
    - apply large_at_new_object_eq.
    - unfold layout_ok. rewrite Hnob0, Hlen0. split_and!; lia.
    - unfold Capacity. by rewrite Hnob0.
    - split; [|intros; lia].
      intros b Hb. rewrite Hnob0 in Hb. exists kNotFound. split; [|by left].
      apply Hbuckets0; [done|]. rewrite Hlen0. lia. }
  assert (small_at isolate0 table = Some s) as Hs0
    by (unfold isolate0; by rewrite (small_at_new_object isolate _ table)).
  destruct (AdjustRepresentation_loop_ok fuel table s min_capacity
              (Small_IterateEntries s) Hk Hmax isolate0 (length (heap isolate)) []
              min_capacity Hs0 Hprom)
    as (isolate' & new_table & capacity' & Hloop & Hprom' & Hcap' & Hs');
    [by left|done| | | |].
  { exact Hdistinct. }
  { fold (small_live_slots SmallOrderedHashSet s). fold (small_live_keys s).
    cbn [length]. unfold Small_UsedCapacity, Small_Capacity, kLoadFactor in *. lia. }
  { fold (small_live_slots SmallOrderedHashSet s). fold (small_live_keys s).
    cbn [length]. lia. }
  fold (small_live_slots SmallOrderedHashSet s) in Hprom', Hcap'.
  fold (small_live_keys s) in Hprom', Hcap'. cbn [app] in Hprom', Hcap'.
  assert (Forall (λ key, IsTheHole key = false) (small_live_keys s)) as Hlivekeys.
  { unfold small_live_keys. apply Forall_map. apply Forall_forall.
    intros e He%elem_of_small_live_slots. apply He. }
  destruct (promoted_table_ok _ _ _ _ Hprom' Hlivekeys)
    as (t & Ht & _ & _ & Hnoft & Hnodt & Hcapt & _ & Hlive & _ & Hmap).
  assert (OrderedHashSetHandler_AdjustRepresentation fuel isolate table
          = Some (isolate', Some new_table)) as Hadjust.
  { unfold OrderedHashSetHandler_AdjustRepresentation.
    rewrite Halloc. cbn [mbind option_bind]. fold isolate0.
    rewrite Hs0. cbn [mbind option_bind]. exact Hloop. }
  exists isolate', new_table, t. split_and!; try done.
  - lia.
  - unfold live_entries. rewrite Hlive, Hmap.
    unfold small_live_entries, small_live_keys. rewrite map_map.
    apply map_ext. intros e. unfold small_payload, Small_KeyAt, kKeyIndex.
    done.
  - intros Hfits. destruct Hcap' as [->|Hover]; [done|lia].
  - unfold OrderedHashSetHandler_Add. unfold small_at in Hs.
    destruct (heap isolate !! table) as [[|s0]|]; try done.
    cbn [mbind option_bind]. rewrite Hfail. cbn [mbind option_bind].
    rewrite Hadjust. cbn [mbind option_bind]. done.
Qed.

End Promotion.

(** ** Lookup, deletion and shrinking in the large form *)

Section LargeLookup.
Context `{Constants} `{Host} `{Primitives} `{!HostOk} `{!PrimitivesOk}.

Lemma FindInChain_sound d t key used :
  chains_upto d used t →
  ∀ fuel raw_entry entry,
  raw_entry = kNotFound ∨ 0 ≤ raw_entry < used →
  FindInChain fuel d t key raw_entry = Some (Some entry) →
  0 ≤ entry < used ∧ SameValueZero (KeyAt (entrysize d) t entry) key = true.
Proof.
  intros [_ Hchains]. induction fuel as [|fuel IH]; intros raw_entry entry Hraw;
    cbn [FindInChain]; [done|].
  destruct (decide (raw_entry = kNotFound)) as [|Hne]; [done|].
  destruct Hraw as [|Hraw]; [done|].
  destruct (SameValueZero _ key) eqn:Esame.
  - intros [= <-]. done.
  - apply IH. destruct (Hchains raw_entry Hraw) as (e & He & Hnext).
    unfold NextChainEntryRaw. rewrite He. cbn [Smi_ToInt].
    destruct Hnext as [->|?]; [by left|right; lia].
Qed.

Lemma HashToEntryRaw_valid d t hash :
  1 ≤ NumberOfBuckets t →
  chains_upto d (UsedCapacity t) t →
  HashToEntryRaw t hash = kNotFound ∨ 0 ≤ HashToEntryRaw t hash < UsedCapacity t.
Proof.
  intros Hnb [Hbuckets _].
  destruct (Hbuckets _ (HashToBucket_range t hash Hnb)) as (e & He & Hrange).
  unfold HashToEntryRaw. rewrite He. done.
Qed.

Lemma table_ok_buckets d t :
  table_ok d t → NumberOfElements t ≠ 0 → 1 ≤ NumberOfBuckets t.
Proof.
  intros (Hnof & Hnod & Hcap & Hlay & _) Hne.
  destruct Hlay as [(Hnb & _)|[_ Hused]]; [done|].
  unfold UsedCapacity in Hused. lia.
Qed.

Lemma FindInChain_absent_from d t key fuel hash :
  IsTheHole key = false →
  table_ok d t →
  NumberOfElements t ≠ 0 →
  key_absent d t key →
  (Z.to_nat (UsedCapacity t) < fuel)%nat →
  FindInChain fuel d t key (HashToEntryRaw t hash) = Some None.
Proof.
  intros Hkey Hok Hne Habsent Hfuel.
  pose proof (table_ok_buckets d t Hok Hne) as Hnb.
  destruct Hok as (Hnof & Hnod & Hcap & Hlay & Hch & Hholes).
  apply (FindInChain_absent d t key (UsedCapacity t) (Z.to_nat (UsedCapacity t)));
    [done|by apply key_absent_used| |done].
  destruct (HashToEntryRaw_valid d t hash Hnb Hch) as [->|?]; [by left|right; lia].
Qed.

(** A lookup of a key that no live entry holds finds nothing. *)
Lemma OrderedHashTable_FindEntry_absent d t key fuel :
  IsTheHole key = false →
  table_ok d t →
  key_absent d t key →
  (Z.to_nat (UsedCapacity t) < fuel)%nat →
  OrderedHashTable_FindEntry fuel d t key = Some None.
Proof.
  intros Hkey Hok Habsent Hfuel. unfold OrderedHashTable_FindEntry.
  destruct (decide (NumberOfElements t = 0)) as [|Hne]; [done|].
  destruct (IsSmi key); [by apply FindInChain_absent_from|].
  destruct (IsUndefined (GetHash key)); [done|].
  by apply FindInChain_absent_from.
Qed.

(** A lookup of a key that a live entry holds finds a live entry with the
    same value. *)
Lemma OrderedHashTable_FindEntry_present d t key fuel :
  IsTheHole key = false →
  table_ok d t →
  buckets_complete d t →
  keys_hashed d t →
  key_present d t key →
  (Z.to_nat (UsedCapacity t) ≤ fuel)%nat →
  ∃ entry,
    OrderedHashTable_FindEntry fuel d t key = Some (Some entry) ∧
    entry ∈ live_slots d t ∧
    SameValueZero (KeyAt (entrysize d) t entry) key = true.
Proof.
  intros Hkey Hok Hcomplete Hhashed (e0 & He0 & Hsame) Hfuel.
  pose proof Hok as (Hnof & Hnod & Hcap & Hlay & Hch & Hholes).
  assert (NumberOfElements t ≠ 0) as Hne.
  { pose proof (length_live_slots d t Hnof Hholes) as Hlen.
    destruct (live_slots d t); [by apply elem_of_nil in He0|].
    cbn [length] in Hlen. lia. }
  pose proof (table_ok_buckets d t Hok Hne) as Hnb.
  set (hash := GetOrCreateHash (KeyAt (entrysize d) t e0)).
  assert (FindEntry_hash key = Some hash) as Hhash.
  { rewrite <- (SameValueZero_FindEntry_hash _ _ Hsame). by apply Hhashed. }
  assert (OrderedHashTable_FindEntry fuel d t key
          = FindInChain fuel d t key (HashToEntryRaw t hash)) as ->.
  { unfold OrderedHashTable_FindEntry. rewrite decide_False by done.
    unfold FindEntry_hash in Hhash.
    destruct (IsSmi key); [by injection Hhash as ->|].
    destruct (IsUndefined (GetHash key)); [done|]. by injection Hhash as ->. }
  destruct (FindInChain_found d t key (Z.to_nat (UsedCapacity t)) fuel
              (HashToEntryRaw t hash) Hfuel) as (entry & Hfind & Hentry).
  { exists e0. split; [by apply Hcomplete|done]. }
  exists entry. split; [done|].
  destruct (FindInChain_sound d t key (UsedCapacity t) Hch fuel _ entry
              (HashToEntryRaw_valid d t hash Hnb Hch) Hfind) as [Hrange _].
  split; [|done]. apply elem_of_live_slots. split; [done|].
  unfold is_hole. destruct (IsTheHole (KeyAt _ t entry)) eqn:Ehole; [|done].
  apply IsTheHole_true in Ehole. rewrite Ehole in Hentry.
  by rewrite SameValueZero_hole in Hentry.
Qed.


(** *** The table after an entry was removed *)

Lemma tombstoned_header d t entry :
  let t' := tombstoned d t entry in
  number_of_elements t' = number_of_elements t - 1 ∧
  number_of_deleted_elements t' = number_of_deleted_elements t + 1 ∧
  number_of_buckets t' = number_of_buckets t ∧
  next_table t' = next_table t ∧
  hash_field t' = hash_field t ∧
  removed_indices t' = removed_indices t ∧
  length (elements t') = length (elements t).
Proof.
  unfold tombstoned. cbn.
  destruct (write_cells_header t (EntryToIndexRaw (entrysize d) t entry)
              (replicate (Z.to_nat (entrysize d)) the_hole_value))
    as (_ & _ & ? & ? & ? & ? & ?).
  done.
Qed.

Lemma entrysize_pos d : 1 ≤ entrysize d ≤ 3.
Proof. destruct d; cbn; lia. Qed.

Lemma get_tombstoned d t capacity entry index :
  layout_ok d t capacity →
  0 ≤ entry < capacity →
  let removed := EntryToIndexRaw (entrysize d) t entry in
  get (tombstoned d t entry) index =
    if decide (removed ≤ index < removed + entrysize d) then the_hole_value
    else get t index.
Proof.
  intros (Hnb & Hcap & Hlen) Hentry removed.
  pose proof (entrysize_pos d) as Hes.
  change (get (tombstoned d t entry) index)
    with (get (write_cells t removed
                 (replicate (Z.to_nat (entrysize d)) the_hole_value)) index).
  rewrite get_write_cells; rewrite ?length_replicate, ?Z2Nat.id by lia.
  - destruct (decide (removed ≤ index < removed + entrysize d)); [|done].
    rewrite lookup_replicate_2 by lia. done.
  - unfold removed, EntryToIndexRaw, kEntrySize. nia.
  - unfold removed, EntryToIndexRaw, kEntrySize in *. nia.
Qed.

Lemma EntryToIndexRaw_tombstoned d t entry e :
  EntryToIndexRaw (entrysize d) (tombstoned d t entry) e
    = EntryToIndexRaw (entrysize d) t e.
Proof.
  unfold EntryToIndexRaw, NumberOfBuckets.
  by rewrite (proj1 (proj2 (proj2 (tombstoned_header d t entry)))).
Qed.

Lemma payload_tombstoned_eq d t capacity entry :
  layout_ok d t capacity →
  0 ≤ entry < capacity →
  payload d (tombstoned d t entry) entry
    = replicate (Z.to_nat (entrysize d)) the_hole_value.
Proof.
  intros Hlay Hentry. unfold payload.
  rewrite EntryToIndexRaw_tombstoned.
  transitivity (map (λ _ : Z, the_hole_value) (seqZ 0 (entrysize d)));
    [|by destruct d].
  apply map_ext_in. intros i Hi%list_elem_of_In%elem_of_seqZ.
  rewrite (get_tombstoned d t capacity entry) by done.
  rewrite decide_True; [done|lia].
Qed.

Lemma payload_tombstoned_ne d t capacity entry e :
  layout_ok d t capacity →
  0 ≤ entry < capacity →
  0 ≤ e → e ≠ entry →
  payload d (tombstoned d t entry) e = payload d t e.
Proof.
  intros Hlay Hentry He Hne. unfold payload.
  rewrite EntryToIndexRaw_tombstoned.
  apply map_ext_in. intros i Hi%list_elem_of_In%elem_of_seqZ.
  rewrite (get_tombstoned d t capacity entry) by done.
  rewrite decide_False; [done|].
  unfold EntryToIndexRaw, kEntrySize. nia.
Qed.

Lemma KeyAt_tombstoned d t capacity entry e :
  layout_ok d t capacity →
  0 ≤ entry < capacity →
  0 ≤ e →
  KeyAt (entrysize d) (tombstoned d t entry) e
    = if decide (e = entry) then the_hole_value else KeyAt (entrysize d) t e.
Proof.
  intros Hlay Hentry He. unfold KeyAt.
  rewrite EntryToIndexRaw_tombstoned.
  rewrite (get_tombstoned d t capacity entry) by done.
  pose proof (entrysize_pos d).
  destruct (decide (e = entry)) as [->|Hne].
  - rewrite decide_True; [done|lia].
  - rewrite decide_False; [done|].
    unfold EntryToIndexRaw, kEntrySize. nia.
Qed.

Lemma chain_tombstoned d t capacity entry e :
  layout_ok d t capacity →
  0 ≤ entry < capacity →
  0 ≤ e →
  get (tombstoned d t entry)
    (EntryToIndexRaw (entrysize d) (tombstoned d t entry) e
     + kChainOffset (entrysize d))
  = get t (EntryToIndexRaw (entrysize d) t e + kChainOffset (entrysize d)).
Proof.
  intros Hlay Hentry He. rewrite EntryToIndexRaw_tombstoned.
  rewrite (get_tombstoned d t capacity entry) by done.
  pose proof (entrysize_pos d).
  rewrite decide_False; [done|].
  unfold EntryToIndexRaw, kEntrySize, kChainOffset.
  destruct (Z.lt_trichotomy e entry) as [?|[->|?]]; nia.
Qed.

Lemma bucket_tombstoned d t capacity entry b :
  layout_ok d t capacity →
  0 ≤ entry < capacity →
  b < NumberOfBuckets t →
  get (tombstoned d t entry) (HashTableStartIndex + b)
    = get t (HashTableStartIndex + b).
Proof.
  intros Hlay Hentry Hb.
  rewrite (get_tombstoned d t capacity entry) by done.
  rewrite decide_False; [done|].
  unfold EntryToIndexRaw, kEntrySize. nia.
Qed.


Lemma filter_filter_and {A} (f g : A → bool) (l : list A) :
  List.filter g (List.filter f l) = List.filter (λ x, f x && g x) l.
Proof.
  induction l as [|x l IH]; [done|]. cbn.
  destruct (f x); cbn; [|done]. destruct (g x); by rewrite IH.
Qed.

Lemma length_filter_remove (l : list Z) (x : Z) :
  NoDup l → x ∈ l →
  S (length (List.filter (λ e, bool_decide (e ≠ x)) l)) = length l.
Proof.
  induction 1 as [|y l Hy Hnd IH]; intros Hx; [by apply elem_of_nil in Hx|].
  cbn. apply elem_of_cons in Hx as [->|Hx].
  - rewrite bool_decide_false by (intros Hne; by apply Hne).
    f_equal. f_equal. apply filter_all. apply Forall_forall.
    intros e He. apply bool_decide_true. by intros ->.
  - rewrite bool_decide_true by (by intros ->). cbn. by rewrite IH.
Qed.

Lemma NoDup_live_slots d t : NoDup (live_slots d t).
Proof.
  unfold live_slots.
  apply NoDup_ListNoDup, List.NoDup_filter, NoDup_ListNoDup, NoDup_seqZ.
Qed.

Lemma UsedCapacity_tombstoned d t entry :
  UsedCapacity (tombstoned d t entry) = UsedCapacity t.
Proof.
  unfold UsedCapacity, NumberOfElements, NumberOfDeletedElements.
  destruct (tombstoned_header d t entry) as (-> & -> & _). lia.
Qed.

Lemma is_hole_tombstoned d t capacity entry e :
  layout_ok d t capacity →
  0 ≤ entry < capacity →
  0 ≤ e →
  is_hole d (tombstoned d t entry) e
    = bool_decide (e = entry) || is_hole d t e.
Proof.
  intros Hlay Hentry He. unfold is_hole.
  rewrite (KeyAt_tombstoned d t capacity) by done.
  destruct (decide (e = entry)) as [->|Hne].
  - by rewrite bool_decide_true.
  - by rewrite bool_decide_false.
Qed.

Lemma live_slots_tombstoned d t capacity entry :
  layout_ok d t capacity →
  0 ≤ entry < capacity →
  live_slots d (tombstoned d t entry)
    = List.filter (λ e, bool_decide (e ≠ entry)) (live_slots d t).
Proof.
  intros Hlay Hentry. unfold live_slots, IterateEntries.
  rewrite UsedCapacity_tombstoned, filter_filter_and.
  apply List.filter_ext_in. intros e He%list_elem_of_In%elem_of_seqZ.
  rewrite (is_hole_tombstoned d t capacity) by (done || lia).
  destruct (decide (e = entry)) as [->|Hne].
  - rewrite bool_decide_true by done.
    rewrite (bool_decide_false (entry ≠ entry)) by (intros Hn; by apply Hn).
    by rewrite andb_false_r.
  - rewrite bool_decide_false by done.
    rewrite (bool_decide_true (e ≠ entry)) by done.
    by rewrite andb_true_r.
Qed.

Lemma length_hole_slots d t :
  0 ≤ UsedCapacity t →
  Z.of_nat (length (hole_slots d t)) + Z.of_nat (length (live_slots d t))
    = UsedCapacity t.
Proof.
  intros Hused.
  pose proof (List.filter_length (is_hole d t) (IterateEntries t)) as Hsum.
  fold (hole_slots d t) in Hsum. fold (live_slots d t) in Hsum.
  unfold IterateEntries in Hsum. rewrite length_seqZ in Hsum. lia.
Qed.

Lemma length_hole_slots_tombstoned d t capacity entry :
  layout_ok d t capacity →
  0 ≤ entry < capacity →
  0 ≤ UsedCapacity t →
  entry ∈ live_slots d t →
  Z.of_nat (length (hole_slots d (tombstoned d t entry)))
    = Z.of_nat (length (hole_slots d t)) + 1.
Proof.
  intros Hlay Hentry Hused Hlive.
  pose proof (length_hole_slots d t Hused) as Hsum.
  pose proof (length_hole_slots d (tombstoned d t entry)) as Hsum'.
  rewrite UsedCapacity_tombstoned in Hsum'. specialize (Hsum' Hused).
  rewrite (live_slots_tombstoned d t capacity) in Hsum' by done.
  pose proof (length_filter_remove _ entry (NoDup_live_slots d t) Hlive). lia.
Qed.

Lemma chains_upto_tombstoned d t capacity entry used :
  layout_ok d t capacity →
  0 ≤ entry < capacity →
  chains_upto d used t →
  chains_upto d used (tombstoned d t entry).
Proof.
  intros Hlay Hentry [Hbuckets Hchains].
  assert (NumberOfBuckets (tombstoned d t entry) = NumberOfBuckets t) as Hnb
    by apply tombstoned_header.
  split.
  - intros b Hb. rewrite Hnb in Hb.
    rewrite (bucket_tombstoned d t capacity) by (done || lia). by apply Hbuckets.
  - intros e He.
    rewrite (chain_tombstoned d t capacity) by (done || lia). by apply Hchains.
Qed.

Lemma table_ok_tombstoned d t entry :
  table_ok d t →
  entry ∈ live_slots d t →
  table_ok d (tombstoned d t entry).
Proof.
  intros (Hnof & Hnod & Hcap & Hlay & Hch & Hholes) Hlive.
  pose proof Hlive as [Hrange _]%elem_of_live_slots.
  destruct Hlay as [Hlay|[_ Hempty]]; [|lia].
  pose proof (length_live_slots d t Hnof Hholes) as Hlives.
  assert (1 ≤ NumberOfElements t) as Hpos.
  { destruct (live_slots d t); [by apply elem_of_nil in Hlive|].
    cbn [length] in Hlives. lia. }
  destruct (tombstoned_header d t entry)
    as (Hnof' & Hnod' & Hnob' & _ & _ & _ & Hlen').
  assert (Capacity (tombstoned d t entry) = Capacity t) as Hcap'
    by (unfold Capacity, NumberOfBuckets; by rewrite Hnob').
  assert (0 ≤ entry < Capacity t) as Hentry by lia.
  unfold table_ok. rewrite UsedCapacity_tombstoned, Hcap'.
  unfold NumberOfElements, NumberOfDeletedElements in *.
  rewrite Hnof', Hnod'. split_and!; try lia.
  - left. destruct Hlay as (Hnb & Hc & Hlen).
    unfold layout_ok, NumberOfBuckets in *. rewrite Hnob', Hlen'. done.
  - by apply (chains_upto_tombstoned d t (Capacity t)).
  - rewrite (length_hole_slots_tombstoned d t (Capacity t)) by (done || lia).
    lia.
Qed.


Lemma HashToEntryRaw_tombstoned d t capacity entry hash :
  layout_ok d t capacity →
  0 ≤ entry < capacity →
  HashToEntryRaw (tombstoned d t entry) hash = HashToEntryRaw t hash.
Proof.
  intros Hlay Hentry. unfold HashToEntryRaw, HashToBucket.
  assert (NumberOfBuckets (tombstoned d t entry) = NumberOfBuckets t) as ->
    by apply tombstoned_header.
  rewrite (bucket_tombstoned d t capacity); [done..|].
  apply (HashToBucket_range t hash). apply Hlay.
Qed.

Lemma chain_from_tombstoned d t capacity entry used :
  layout_ok d t capacity →
  0 ≤ entry < capacity →
  chains_upto d used t →
  ∀ n raw_entry,
  raw_entry = kNotFound ∨ 0 ≤ raw_entry < used →
  chain_from n d (tombstoned d t entry) raw_entry = chain_from n d t raw_entry.
Proof.
  intros Hlay Hentry [_ Hchains]. induction n as [|n IH]; intros raw Hraw;
    cbn [chain_from]; [done|].
  destruct (decide (raw = kNotFound)) as [|Hne]; [done|].
  destruct Hraw as [|Hraw]; [done|].
  assert (NextChainEntryRaw (entrysize d) (tombstoned d t entry) raw
          = NextChainEntryRaw (entrysize d) t raw) as ->.
  { unfold NextChainEntryRaw.
    by rewrite (chain_tombstoned d t capacity) by (done || lia). }
  f_equal. apply IH.
  destruct (Hchains raw Hraw) as (e & He & Hnext).
  unfold NextChainEntryRaw. rewrite He. cbn [Smi_ToInt].
  destruct Hnext as [->|?]; [by left|right; lia].
Qed.

Lemma elem_of_live_slots_tombstoned d t capacity entry e :
  layout_ok d t capacity →
  0 ≤ entry < capacity →
  e ∈ live_slots d (tombstoned d t entry) ↔ e ∈ live_slots d t ∧ e ≠ entry.
Proof.
  intros Hlay Hentry. rewrite (live_slots_tombstoned d t capacity) by done.
  rewrite list_elem_of_In, filter_In, <- list_elem_of_In.
  by rewrite bool_decide_eq_true.
Qed.

Lemma table_ok_layout d t entry :
  table_ok d t → entry ∈ live_slots d t →
  layout_ok d t (Capacity t) ∧ 0 ≤ entry < Capacity t ∧
  1 ≤ NumberOfBuckets t.
Proof.
  intros (Hnof & Hnod & Hcap & Hlay & _) [Hrange _]%elem_of_live_slots.
  destruct Hlay as [Hlay|[_ Hempty]]; [|lia].
  split_and!; [done|lia|lia|apply Hlay].
Qed.

Lemma buckets_complete_tombstoned d t entry :
  table_ok d t →
  buckets_complete d t →
  entry ∈ live_slots d t →
  buckets_complete d (tombstoned d t entry).
Proof.
  intros Hok Hcomplete Hlive.
  destruct (table_ok_layout d t entry Hok Hlive) as (Hlay & Hentry & Hnb).
  pose proof Hok as (_ & _ & _ & _ & Hch & _).
  intros e [He Hne]%(elem_of_live_slots_tombstoned d t (Capacity t)); [|done..].
  pose proof He as [Hrange _]%elem_of_live_slots.
  rewrite UsedCapacity_tombstoned.
  rewrite (KeyAt_tombstoned d t (Capacity t)) by (done || lia).
  rewrite decide_False by done.
  rewrite (HashToEntryRaw_tombstoned d t (Capacity t)) by done.
  rewrite (chain_from_tombstoned d t (Capacity t) entry (UsedCapacity t))
    by (done || by apply (HashToEntryRaw_valid d)).
  by apply Hcomplete.
Qed.

Lemma keys_hashed_tombstoned d t entry :
  table_ok d t →
  keys_hashed d t →
  entry ∈ live_slots d t →
  keys_hashed d (tombstoned d t entry).
Proof.
  intros Hok Hhashed Hlive.
  destruct (table_ok_layout d t entry Hok Hlive) as (Hlay & Hentry & Hnb).
  intros e [He Hne]%(elem_of_live_slots_tombstoned d t (Capacity t)); [|done..].
  pose proof He as [Hrange _]%elem_of_live_slots.
  rewrite (KeyAt_tombstoned d t (Capacity t)) by (done || lia).
  rewrite decide_False by done. by apply Hhashed.
Qed.

(** [Delete], once past its lookup. *)
Lemma OrderedHashTable_Delete_unfold fuel d t key :
  OrderedHashTable_Delete fuel d t key =
    entry ← Derived_FindEntry fuel d t key;
    Some (match entry with
          | None => (t, false)
          | Some entry => (tombstoned d t entry, true)
          end).
Proof.
  unfold OrderedHashTable_Delete.
  destruct (Derived_FindEntry fuel d t key) as [[entry|]|];
    cbn [mbind option_bind]; [|done..].
  unfold tombstoned. repeat f_equal.
  destruct d; cbn [entrysize];
    [change (seqZ 0 1) with [0]; change (Z.to_nat 1) with 1%nat
    |change (seqZ 0 2) with [0; 1]; change (Z.to_nat 2) with 2%nat
    |change (seqZ 0 3) with [0; 1; 2]; change (Z.to_nat 3) with 3%nat];
    cbn [foldl replicate write_cells];
    rewrite ?Z.add_0_r, <- ?Z.add_assoc; done.
Qed.


(** X2. [Delete] of a key that no live entry of a set or map holds answers
    false and leaves the table as it was. *)
Theorem Delete_missing_key fuel d t key :
  d ≠ OrderedNameDictionary →
  IsTheHole key = false →
  table_ok d t →
  key_absent d t key →
  (Z.to_nat (UsedCapacity t) < fuel)%nat →
  OrderedHashTable_Delete fuel d t key = Some (t, false).
Proof.
  intros Hd Hkey Hok Habsent Hfuel. rewrite OrderedHashTable_Delete_unfold.
  assert (Derived_FindEntry fuel d t key = Some None) as ->; [|done].
  destruct d; [| |done]; by apply OrderedHashTable_FindEntry_absent.
Qed.

(** X3. [Delete] of a key that a live entry of a set or map holds answers
    true and turns one such entry into a tombstone: its payload cells are
    the hole, every other entry keeps its payload and its slot, one element
    fewer and one deleted element more are counted, and the table keeps its
    invariants. *)
Theorem Delete_tombstones_entry fuel d t key :
  d ≠ OrderedNameDictionary →
  IsTheHole key = false →
  table_ok d t →
  buckets_complete d t →
  keys_hashed d t →
  key_present d t key →
  (Z.to_nat (UsedCapacity t) ≤ fuel)%nat →
  ∃ entry t',
    OrderedHashTable_Delete fuel d t key = Some (t', true) ∧
    entry ∈ live_slots d t ∧
    SameValueZero (KeyAt (entrysize d) t entry) key = true ∧
    payload d t' entry = replicate (Z.to_nat (entrysize d)) the_hole_value ∧
    (∀ e, 0 ≤ e → e ≠ entry → payload d t' e = payload d t e) ∧
    live_slots d t' = List.filter (λ e, bool_decide (e ≠ entry)) (live_slots d t) ∧
    NumberOfElements t' = NumberOfElements t - 1 ∧
    NumberOfDeletedElements t' = NumberOfDeletedElements t + 1 ∧
    table_ok d t' ∧ buckets_complete d t' ∧ keys_hashed d t'.
Proof.
  intros Hd Hkey Hok Hcomplete Hhashed Hpresent Hfuel.
  destruct (OrderedHashTable_FindEntry_present d t key fuel Hkey Hok Hcomplete
              Hhashed Hpresent Hfuel) as (entry & Hfind & Hlive & Hsame).
  destruct (table_ok_layout d t entry Hok Hlive) as (Hlay & Hentry & Hnb).
  exists entry, (tombstoned d t entry).
  rewrite OrderedHashTable_Delete_unfold.
  assert (Derived_FindEntry fuel d t key = Some (Some entry)) as ->
    by (by destruct d).
  destruct (tombstoned_header d t entry) as (Hnof' & Hnod' & _).
  split_and!; try done.
  - by apply (payload_tombstoned_eq d t (Capacity t)).
  - intros e He Hne. by apply (payload_tombstoned_ne d t (Capacity t)).
  - by apply (live_slots_tombstoned d t (Capacity t)).
  - by apply table_ok_tombstoned.
  - by apply buckets_complete_tombstoned.
  - by apply keys_hashed_tombstoned.
Qed.

(** X4. When at most one live entry of a set or map holds the key, the key is
    gone after [Delete]: [HasKey] answers false and a second [Delete]
    answers false and changes nothing. *)
Theorem Delete_then_HasKey fuel d t key :
  d ≠ OrderedNameDictionary →
  IsTheHole key = false →
  table_ok d t →
  buckets_complete d t →
  keys_hashed d t →
  key_present d t key →
  (∀ e e', e ∈ live_slots d t → e' ∈ live_slots d t →
     SameValueZero (KeyAt (entrysize d) t e) key = true →
     SameValueZero (KeyAt (entrysize d) t e') key = true → e = e') →
  (Z.to_nat (UsedCapacity t) < fuel)%nat →
  ∃ t',
    OrderedHashTable_Delete fuel d t key = Some (t', true) ∧
    OrderedHashTable_HasKey fuel d t' key = Some false ∧
    OrderedHashTable_Delete fuel d t' key = Some (t', false).
Proof.
  intros Hd Hkey Hok Hcomplete Hhashed Hpresent Honce Hfuel.
  destruct (OrderedHashTable_FindEntry_present d t key fuel Hkey Hok Hcomplete
              Hhashed Hpresent ltac:(lia)) as (entry & Hfind & Hlive & Hsame).
  destruct (table_ok_layout d t entry Hok Hlive) as (Hlay & Hentry & Hnb).
  exists (tombstoned d t entry).
  assert (OrderedHashTable_FindEntry fuel d (tombstoned d t entry) key
          = Some None) as Hgone.
  { apply OrderedHashTable_FindEntry_absent; try done.
    - by apply table_ok_tombstoned.
    - intros e [He Hne]%(elem_of_live_slots_tombstoned d t (Capacity t));
        [|done..].
      pose proof He as [Hrange _]%elem_of_live_slots.
      rewrite (KeyAt_tombstoned d t (Capacity t)) by (done || lia).
      rewrite decide_False by done.
      destruct (SameValueZero (KeyAt (entrysize d) t e) key) eqn:Esame; [|done].
      by destruct (Hne (Honce e entry He Hlive Esame Hsame)).
    - by rewrite UsedCapacity_tombstoned. }
  rewrite !OrderedHashTable_Delete_unfold. unfold OrderedHashTable_HasKey.
  assert (∀ t0, Derived_FindEntry fuel d t0 key
                = OrderedHashTable_FindEntry fuel d t0 key) as Hfe
    by (intros; by destruct d).
  rewrite !Hfe, Hfind, Hgone. done.
Qed.


(** *** Lookup after an insertion *)

Lemma key_present_or_absent d t key :
  key_present d t key ∨ key_absent d t key.
Proof.
  unfold key_present, key_absent.
  induction (live_slots d t) as [|e l IH].
  - right. intros entry Hin. by apply elem_of_nil in Hin.
  - destruct (SameValueZero (KeyAt (entrysize d) t e) key) eqn:Esame.
    + left. exists e. split; [by left|done].
    + destruct IH as [(entry & Hin & Hsame)|Habsent].
      * left. exists entry. split; [by right|done].
      * right. intros entry [->|Hin]%elem_of_cons; [done|by apply Habsent].
Qed.

(** The entry just inserted is the head of the chain of its bucket, so a
    walk from that bucket finds it at once. *)
Lemma insert_entry_found d t capacity hash key rest fuel :
  layout_ok d t capacity →
  0 ≤ UsedCapacity t < capacity →
  0 ≤ NumberOfElements t →
  Z.of_nat (length (key :: rest)) = entrysize d →
  kNotFound < 0 →
  SameValueZero key key = true →
  let t' := insert_entry d t hash (key :: rest) in
  NumberOfElements t' ≠ 0 ∧
  KeyAt (entrysize d) t' (UsedCapacity t) = key ∧
  FindInChain (S fuel) d t' key (HashToEntryRaw t' hash)
    = Some (Some (UsedCapacity t)).
Proof.
  intros Hlay Hused Hnof Hcells Hnf Hrefl t'.
  pose proof Hlay as (Hnb & Hcap & Hlen).
  destruct (insert_entry_header d t hash (key :: rest))
    as (Hnof' & _ & Hnob' & _).
  fold t' in Hnof', Hnob'.
  pose proof (entrysize_pos d) as Hes.
  pose proof (HashToBucket_range t hash Hnb) as Hbucket.
  assert (KeyAt (entrysize d) t' (UsedCapacity t) = key) as Hkeyat.
  { unfold KeyAt, EntryToIndexRaw, NumberOfBuckets. rewrite Hnob'.
    fold (NumberOfBuckets t). fold (EntryToIndexRaw (entrysize d) t (UsedCapacity t)).
    unfold t'. rewrite (get_insert_entry d t capacity) by done.
    rewrite decide_False by (unfold EntryToIndexRaw, kEntrySize; nia).
    rewrite decide_True by lia.
    by rewrite Z.sub_diag. }
  assert (HashToEntryRaw t' hash = UsedCapacity t) as Hhead.
  { unfold HashToEntryRaw, HashToBucket, NumberOfBuckets. rewrite Hnob'.
    fold (NumberOfBuckets t). fold (HashToBucket t hash).
    unfold t'. rewrite (get_insert_entry d t capacity) by done.
    by rewrite decide_True. }
  split_and!.
  - unfold NumberOfElements in *. lia.
  - done.
  - rewrite Hhead. cbn [FindInChain].
    rewrite decide_False by lia. by rewrite Hkeyat, Hrefl.
Qed.

(** After a large [Add] of an absent key, [FindEntry] finds the key in the
    slot it was appended to. *)
Lemma Add_after_lookup_found d check isolate table t key rest fuel
    isolate' table' :
  large_at isolate table = Some t →
  table_ok d t →
  2 ≤ kInitialCapacity ≤ 2 ^ 30 →
  Z.of_nat (length (key :: rest)) = entrysize d →
  kNotFound < 0 →
  SameValueZero key key = true →
  FindEntry_hash key = Some (GetOrCreateHash key) →
  Add_after_lookup d check isolate table (GetOrCreateHash key) (key :: rest)
    = Some (isolate', Some table') →
  ∃ t' entry,
    large_at isolate' table' = Some t' ∧
    OrderedHashTable_FindEntry (S fuel) d t' key = Some (Some entry) ∧
    payload d t' entry = key :: rest.
Proof.
  intros Ht Hok Hk Hcells Hnf Hrefl Hhash Hadd.
  destruct (Add_after_lookup_ok _ _ _ _ _ _ _ _ _ Ht Hok Hk Hadd)
    as (isolate1 & t1 & capacity & Hensure & Ht1 & Ht' & _ & Hlay & Hused & _).
  assert (0 ≤ NumberOfElements t1) as Hnof1.
  { destruct (EnsureCapacityForAdding_ok _ _ _ _ _ _ Ht Hok Hk Hensure)
      as (t1' & capacity' & Ht1' & _ & _ & _ & _ & Hcase).
    rewrite Ht1 in Ht1'. injection Ht1' as <-.
    destruct Hok as (Hnof & _).
    destruct Hcase as [(_ & _ & -> & _)|(t0 & Hre & _)]; [done|].
    destruct Hre as (_ & _ & _ & Hnofnew & _). unfold NumberOfElements in *.
    by rewrite Hnofnew. }
  destruct (insert_entry_found d t1 capacity (GetOrCreateHash key) key rest fuel
              Hlay Hused Hnof1 Hcells Hnf Hrefl) as (Hne & Hkeyat & Hfind).
  exists (insert_entry d t1 (GetOrCreateHash key) (key :: rest)), (UsedCapacity t1).
  split_and!; [done| |by apply (payload_insert_entry_eq d t1 capacity)].
  unfold OrderedHashTable_FindEntry. rewrite decide_False by done.
  unfold FindEntry_hash in Hhash.
  destruct (IsSmi key); [injection Hhash as ->; exact Hfind|].
  destruct (IsUndefined (GetHash key)); [done|].
  injection Hhash as ->. exact Hfind.
Qed.

(** X5. After a set's or a map's [Add] has returned a table, that table has
    the key: [FindEntry] finds a live entry whose key is the same value, and
    [HasKey] answers true. *)
Theorem Add_then_HasKey fuel isolate table key value isolate' table' :
  2 ≤ kInitialCapacity ≤ 2 ^ 30 →
  kNotFound < 0 →
  IsTheHole key = false →
  SameValueZero key key = true →
  FindEntry_hash key = Some (GetOrCreateHash key) →
  (∀ t, large_at isolate table = Some t →
     table_ok OrderedHashSet t → buckets_complete OrderedHashSet t →
     keys_hashed OrderedHashSet t →
     (Z.to_nat (UsedCapacity t) < fuel)%nat →
     OrderedHashSet_Add fuel isolate table key = Some (isolate', Some table') →
     ∃ t' entry,
       large_at isolate' table' = Some t' ∧
       OrderedHashTable_FindEntry fuel OrderedHashSet t' key
         = Some (Some entry) ∧
       SameValueZero (KeyAt 1 t' entry) key = true ∧
       OrderedHashTable_HasKey fuel OrderedHashSet t' key = Some true) ∧
  (∀ t, large_at isolate table = Some t →
     table_ok OrderedHashMap t → buckets_complete OrderedHashMap t →
     keys_hashed OrderedHashMap t →
     (Z.to_nat (UsedCapacity t) < fuel)%nat →
     OrderedHashMap_Add fuel isolate table key value
       = Some (isolate', Some table') →
     ∃ t' entry,
       large_at isolate' table' = Some t' ∧
       OrderedHashTable_FindEntry fuel OrderedHashMap t' key
         = Some (Some entry) ∧
       SameValueZero (KeyAt 2 t' entry) key = true ∧
       OrderedHashTable_HasKey fuel OrderedHashMap t' key = Some true).
Proof.
  intros Hk Hnf Hkey Hrefl Hhash.
  assert (∀ d t' entry,
            d ≠ OrderedNameDictionary →
            OrderedHashTable_FindEntry fuel d t' key = Some (Some entry) →
            OrderedHashTable_HasKey fuel d t' key = Some true) as Hhas.
  { intros d t' entry Hd Hfind. unfold OrderedHashTable_HasKey.
    assert (Derived_FindEntry fuel d t' key = Some (Some entry)) as ->
      by (by destruct d).
    done. }
  split.
  - intros t Ht Hok Hcomplete Hhashed Hfuel.
    rewrite (OrderedHashSet_Add_unfold _ _ _ _ _ Ht).
    destruct (key_present_or_absent OrderedHashSet t key) as [Hpresent|Habsent].
    + destruct (large_lookup_present _ _ _ fuel Hok Hcomplete Hpresent
                  ltac:(lia)) as (e & ->).
      cbn [mbind option_bind]. intros [= <- <-].
      destruct (OrderedHashTable_FindEntry_present OrderedHashSet t key fuel
                  Hkey Hok Hcomplete Hhashed Hpresent ltac:(lia))
        as (entry & Hfind & _ & Hsame).
      exists t, entry. split_and!; try done. by apply (Hhas _ _ entry).
    + rewrite large_lookup_absent by done. cbn [mbind option_bind].
      intros Hadd. destruct fuel as [|fuel]; [lia|].
      destruct (Add_after_lookup_found OrderedHashSet true isolate table t key []
                  fuel isolate' table' Ht Hok Hk eq_refl Hnf Hrefl Hhash Hadd)
        as (t' & entry & Ht' & Hfind & Hpayload).
      exists t', entry. split_and!; try done; [|by apply (Hhas _ _ entry)].
      rewrite KeyAt_payload in Hpayload. by injection Hpayload as ->.
  - intros t Ht Hok Hcomplete Hhashed Hfuel.
    rewrite (OrderedHashMap_Add_unfold _ _ _ _ _ _ Ht).
    destruct (key_present_or_absent OrderedHashMap t key) as [Hpresent|Habsent].
    + destruct (large_lookup_present _ _ _ fuel Hok Hcomplete Hpresent
                  ltac:(lia)) as (e & ->).
      cbn [mbind option_bind]. intros [= <- <-].
      destruct (OrderedHashTable_FindEntry_present OrderedHashMap t key fuel
                  Hkey Hok Hcomplete Hhashed Hpresent ltac:(lia))
        as (entry & Hfind & _ & Hsame).
      exists t, entry. split_and!; try done. by apply (Hhas _ _ entry).
    + rewrite large_lookup_absent by done. cbn [mbind option_bind].
      intros Hadd. destruct fuel as [|fuel]; [lia|].
      destruct (Add_after_lookup_found OrderedHashMap false isolate table t key
                  [value] fuel isolate' table' Ht Hok Hk eq_refl Hnf Hrefl Hhash
                  Hadd)
        as (t' & entry & Ht' & Hfind & Hpayload).
      exists t', entry. split_and!; try done; [|by apply (Hhas _ _ entry)].
      unfold payload in Hpayload. cbn [entrysize] in Hpayload.
      change (seqZ 0 2) with [0; 1] in Hpayload. cbn [map] in Hpayload.
      injection Hpayload as Hk0 _. rewrite Z.add_0_r in Hk0.
      unfold KeyAt. by rewrite Hk0.
Qed.


(** *** The iteration order after an insertion *)

Lemma live_entries_insert_entry d t capacity hash cells :
  layout_ok d t capacity →
  0 ≤ UsedCapacity t < capacity →
  Z.of_nat (length cells) = entrysize d →
  payload_is_hole cells = false →
  let t' := insert_entry d t hash cells in
  live_slots d t' = live_slots d t ++ [UsedCapacity t] ∧
  live_entries d t' = live_entries d t ++ [cells].
Proof.
  intros Hlay Hused Hcells Hlive t'.
  destruct (insert_entry_header d t hash cells) as (Hnof' & Hnod' & _).
  fold t' in Hnof', Hnod'.
  assert (UsedCapacity t' = UsedCapacity t + 1) as Hused'
    by (unfold UsedCapacity, NumberOfElements, NumberOfDeletedElements; lia).
  assert (∀ e, 0 ≤ e → e ≠ UsedCapacity t → payload d t' e = payload d t e)
    as Hsame by (intros; by apply (payload_insert_entry_ne d t capacity)).
  assert (payload d t' (UsedCapacity t) = cells) as Hnew
    by (by apply (payload_insert_entry_eq d t capacity)).
  assert (live_slots d t' = live_slots d t ++ [UsedCapacity t]) as Hslots.
  { unfold live_slots, IterateEntries. rewrite Hused'.
    rewrite seqZ_app by lia. rewrite List.filter_app. f_equal.
    - apply List.filter_ext_in. intros e He%list_elem_of_In%elem_of_seqZ.
      by rewrite !is_hole_payload, Hsame by lia.
    - change (seqZ (0 + UsedCapacity t) 1) with [0 + UsedCapacity t].
      rewrite Z.add_0_l. cbn [List.filter].
      by rewrite is_hole_payload, Hnew, Hlive. }
  split; [done|].
  unfold live_entries. rewrite Hslots, map_app. cbn [map]. rewrite Hnew.
  f_equal. apply map_ext_in. intros e He%list_elem_of_In.
  apply elem_of_live_slots in He as [He _]. apply Hsame; lia.
Qed.

(** The table [EnsureCapacityForAdding] hands back has the live entries of
    the table it was given, in the same order. *)
Lemma EnsureCapacityForAdding_live_entries d isolate table t isolate1 table1 t1 :
  large_at isolate table = Some t →
  table_ok d t →
  2 ≤ kInitialCapacity ≤ 2 ^ 30 →
  EnsureCapacityForAdding d isolate table = Some (isolate1, Some table1) →
  large_at isolate1 table1 = Some t1 →
  live_entries d t1 = live_entries d t ∧
  NumberOfElements t1 = NumberOfElements t.
Proof.
  intros Ht Hok Hk Hensure Ht1.
  destruct (EnsureCapacityForAdding_ok _ _ _ _ _ _ Ht Hok Hk Hensure)
    as (t1' & capacity' & Ht1' & _ & _ & _ & _ & Hcase).
  rewrite Ht1 in Ht1'. injection Ht1' as <-.
  destruct Hok as (Hnof & _ & _ & _ & _ & Hholes).
  destruct Hcase as [(_ & _ & -> & _)|(t0 & Hre & _)]; [done|].
  split.
  - apply (rehashed_live_entries _ _ _ _ _ _ _ _ Hre).
    by apply length_live_slots.
  - by destruct Hre as (_ & _ & _ & Hnofnew & _).
Qed.

Lemma Add_after_lookup_order d check isolate table t hash cells isolate' table' :
  large_at isolate table = Some t →
  table_ok d t →
  2 ≤ kInitialCapacity ≤ 2 ^ 30 →
  Z.of_nat (length cells) = entrysize d →
  payload_is_hole cells = false →
  Add_after_lookup d check isolate table hash cells = Some (isolate', Some table') →
  ∃ t', large_at isolate' table' = Some t' ∧
        live_entries d t' = live_entries d t ++ [cells] ∧
        NumberOfElements t' = NumberOfElements t + 1.
Proof.
  intros Ht Hok Hk Hcells Hlive Hadd.
  destruct (Add_after_lookup_ok _ _ _ _ _ _ _ _ _ Ht Hok Hk Hadd)
    as (isolate1 & t1 & capacity & Hensure & Ht1 & Ht' & _ & Hlay & Hused & _).
  destruct (EnsureCapacityForAdding_live_entries d _ _ _ _ _ _ Ht Hok Hk Hensure
              Ht1) as [Hsame Hnof].
  exists (insert_entry d t1 hash cells). split; [done|].
  destruct (live_entries_insert_entry d t1 capacity hash cells Hlay Hused Hcells
              Hlive) as [_ ->].
  rewrite Hsame. split; [done|].
  destruct (insert_entry_header d t1 hash cells) as (Hnof' & _).
  unfold NumberOfElements in *. lia.
Qed.

(** X6. A large [Add] of a key that the table does not hold, when it returns
    a table, has appended the new entry to the iteration order: the live
    entries of the returned table, in slot order, are those of the table
    given followed by the new one, whether or not the add had to rehash. *)
Theorem Add_appends_to_iteration_order fuel isolate table key value details
    isolate' table' :
  2 ≤ kInitialCapacity ≤ 2 ^ 30 →
  IsTheHole key = false →
  (∀ t, large_at isolate table = Some t →
     table_ok OrderedHashSet t → key_absent OrderedHashSet t key →
     (Z.to_nat (UsedCapacity t) < fuel)%nat →
     OrderedHashSet_Add fuel isolate table key = Some (isolate', Some table') →
     ∃ t', large_at isolate' table' = Some t' ∧
           live_entries OrderedHashSet t'
             = live_entries OrderedHashSet t ++ [[key]] ∧
           NumberOfElements t' = NumberOfElements t + 1) ∧
  (∀ t, large_at isolate table = Some t →
     table_ok OrderedHashMap t → key_absent OrderedHashMap t key →
     (Z.to_nat (UsedCapacity t) < fuel)%nat →
     OrderedHashMap_Add fuel isolate table key value
       = Some (isolate', Some table') →
     ∃ t', large_at isolate' table' = Some t' ∧
           live_entries OrderedHashMap t'
             = live_entries OrderedHashMap t ++ [[key; value]] ∧
           NumberOfElements t' = NumberOfElements t + 1) ∧
  (∀ t, large_at isolate table = Some t →
     table_ok OrderedNameDictionary t →
     OrderedNameDictionary_Add isolate table key value details
       = Some (isolate', Some table') →
     ∃ t', large_at isolate' table' = Some t' ∧
           live_entries OrderedNameDictionary t'
             = live_entries OrderedNameDictionary t
               ++ [[key; value; AsSmi details]] ∧
           NumberOfElements t' = NumberOfElements t + 1).
Proof.
  intros Hk Hkey. split_and!.
  - intros t Ht Hok Habsent Hfuel.
    rewrite (OrderedHashSet_Add_unfold _ _ _ _ _ Ht).
    rewrite large_lookup_absent by done. cbn [mbind option_bind].
    by apply (Add_after_lookup_order OrderedHashSet).
  - intros t Ht Hok Habsent Hfuel.
    rewrite (OrderedHashMap_Add_unfold _ _ _ _ _ _ Ht).
    rewrite large_lookup_absent by done. cbn [mbind option_bind].
    by apply (Add_after_lookup_order OrderedHashMap).
  - intros t Ht Hok. rewrite OrderedNameDictionary_Add_unfold.
    by apply (Add_after_lookup_order OrderedNameDictionary).
Qed.


(** *** Shrinking *)

Lemma shiftr_2_div4 z : Z.shiftr z 2 = z / 4.
Proof. by rewrite Z.shiftr_div_pow2. Qed.

(** When less than a quarter of the capacity is in use, [Shrink] rehashes
    for half the capacity, and the allocation of that table succeeds. *)
Lemma Shrink_rehashes d isolate table t k :
  large_at isolate table = Some t →
  table_ok d t →
  2 ≤ kInitialCapacity ≤ 2 ^ 30 →
  0 ≤ k → kInitialCapacity = 2 ^ k →
  kInitialCapacity ≤ MaxCapacity (entrysize d) →
  Capacity t ≤ MaxCapacity (entrysize d) →
  NumberOfElements t < Capacity t / 4 →
  let rounded := 2 ^ Z.log2_up (Z.max kInitialCapacity (Capacity t / 2)) in
  0 < NumberOfBuckets t ∧
  rounded = Z.max kInitialCapacity (2 ^ Z.log2_up (Capacity t / 2)) ∧
  rounded / 2 * kLoadFactor = rounded ∧
  ∃ isolate' old new_t,
    Derived_Rehash d isolate table (Capacity t ÷ 2)
      = Some (isolate', Some (length (heap isolate))) ∧
    rehashed d isolate table t rounded isolate' old new_t.
Proof.
  intros Ht Hok Hk Hk0 Hpow Hinit Hmax Hshrink.
  pose proof Hok as (Hnof & Hnod & Hcap & Hlay & Hch & Hholes).
  assert (0 < Capacity t) as Hpos.
  { destruct (decide (0 < Capacity t)); [done|].
    assert (Capacity t / 4 ≤ 0) by (apply Z.div_le_upper_bound; lia). lia. }
  assert (Capacity t ÷ 2 = Capacity t / 2) as Hquot
    by (apply Z.quot_div_nonneg; lia).
  rewrite Hquot.
  set (half := Capacity t / 2) in *.
  assert (0 ≤ half ≤ 2 ^ 29) as Hhalf.
  { unfold half. split; [apply Z.div_pos; lia|].
    apply Z.div_le_upper_bound; lia. }
  assert (Capacity t / 4 ≤ half) as Hquarter.
  { unfold half. apply Z.div_le_lower_bound; [lia|].
    pose proof (Z.mul_div_le (Capacity t) 4 ltac:(lia)). lia. }
  assert (2 * half ≤ Capacity t) as Hle
    by (unfold half; apply Z.mul_div_le; lia).
  intros rounded.
  assert (rounded = Z.max kInitialCapacity (2 ^ Z.log2_up half)) as Hrounded.
  { unfold rounded. destruct (Z.max_spec kInitialCapacity half) as [[? ->]|[? ->]].
    - assert (kInitialCapacity ≤ 2 ^ Z.log2_up half).
      { pose proof (Z.log2_up_spec half ltac:(lia)). lia. }
      lia.
    - rewrite Hpow, Z.log2_up_pow2 by done.
      assert (2 ^ Z.log2_up half ≤ 2 ^ k).
      { apply Z.pow_le_mono_r; [lia|].
        rewrite <- (Z.log2_up_pow2 k) by done. apply Z.log2_up_le_mono. lia. }
      lia. }
  assert (1 ≤ kInitialCapacity ≤ 2 ^ 30) as Hk1 by lia.
  assert (half ≤ 2 ^ 30) as Hhalf30 by lia.
  destruct (allocated_capacity_small half Hk1 Hhalf30) as (Halloc & Hlow & Hup).
  fold rounded in Halloc. rewrite Halloc in Hlow, Hup.
  assert (¬ rounded > MaxCapacity (entrysize d)) as Hfits.
  { destruct (Z.max_spec kInitialCapacity half) as [[? Hm]|[? Hm]].
    - rewrite Hm in Hup. lia.
    - assert (rounded = kInitialCapacity); [|lia].
      unfold rounded. rewrite Hm, Hpow. by rewrite Z.log2_up_pow2. }
  pose proof (length_live_slots d t Hnof Hholes) as Hlives.
  destruct (rounded_capacity half Hk Hhalf30) as (_ & _ & _ & Hdouble & _).
  fold rounded in Hdouble.
  split_and!; [unfold Capacity, kLoadFactor in Hpos; lia|done|done|].
  destruct (Derived_Rehash_ok d isolate table t half Ht Hk Hhalf30 Hfits)
    as (isolate' & old & new_t & Hrehash & Hre); [fold rounded; lia|].
  by exists isolate', old, new_t.
Qed.

(** X7. [Shrink] hands back the table it was given while at least a quarter
    of the capacity is in use by elements.  Otherwise it never fails: it
    rehashes into a fresh table of half the capacity (but no less than
    [kInitialCapacity]) that has the same live entries in the same order
    and no tombstones, and it leaves the old table obsolete. *)
Theorem Shrink_keeps_entries d isolate table t k :
  large_at isolate table = Some t →
  table_ok d t →
  2 ≤ kInitialCapacity ≤ 2 ^ 30 →
  0 ≤ k → kInitialCapacity = 2 ^ k →
  kInitialCapacity ≤ MaxCapacity (entrysize d) →
  Capacity t ≤ MaxCapacity (entrysize d) →
  ∃ isolate' table' t',
    Shrink d isolate table = Some (isolate', table') ∧
    large_at isolate' table' = Some t' ∧
    live_entries d t' = live_entries d t ∧
    NumberOfElements t' = NumberOfElements t ∧
    (NumberOfElements t >= Capacity t / 4 →
       isolate' = isolate ∧ table' = table) ∧
    (NumberOfElements t < Capacity t / 4 →
       table' = length (heap isolate) ∧
       NumberOfDeletedElements t' = 0 ∧
       Capacity t' = Z.max kInitialCapacity (2 ^ Z.log2_up (Capacity t / 2)) ∧
       ∃ old, large_at isolate' table = Some old ∧
              next_table old = Some table').
Proof.
  intros Ht Hok Hk Hk0 Hpow Hinit Hmax.
  pose proof (large_at_lt _ _ _ Ht) as Hlt.
  pose proof Hok as (Hnof & Hnod & Hcap & Hlay & Hch & Hholes).
  unfold Shrink. rewrite Ht. cbn [mbind option_bind].
  rewrite shiftr_2_div4.
  destruct (decide (NumberOfElements t >= Capacity t / 4)) as [Hkeep|Hshrink].
  { exists isolate, table, t. split_and!; done. }
  destruct (Shrink_rehashes d isolate table t k Ht Hok Hk Hk0 Hpow Hinit Hmax)
    as (Hnob & Hrounded & Hdouble & isolate' & old & new_t & Hrehash & Hre);
    [lia|].
  rewrite Hrehash. cbn [mbind option_bind].
  pose proof (length_live_slots d t Hnof Hholes) as Hlives.
  destruct (rehashed_large_at _ _ _ _ _ _ _ _ Hre Hlt) as (Hnew & Hold & _).
  destruct (rehashed_live_entries _ _ _ _ _ _ _ _ Hre Hlives) as [_ Hsame].
  pose proof Hre as (_ & _ & (log & Hold_eq & _) & Hnofnew & Hnodnew & Hnobnew & _).
  exists isolate', (length (heap isolate)), new_t.
  split_and!; try done; try lia.
  intros _. split_and!; try done.
  - unfold Capacity. by rewrite Hnobnew, Hdouble.
  - exists old. split; [done|].
    rewrite Hold_eq. rewrite decide_True; [done|lia].
Qed.

End LargeLookup.

(** ** The iterator on a live table and across a rehash *)

Section Iteration.
Context `{Constants} `{Host}.

Lemma filter_comm {A} (f g : A → bool) (l : list A) :
  List.filter f (List.filter g l) = List.filter g (List.filter f l).
Proof.
  induction l as [|x l IH]; [done|]. simpl.
  destruct (f x) eqn:Ef, (g x) eqn:Eg; simpl; rewrite ?Ef, ?Eg, IH; done.
Qed.

Lemma filter_nil_all {A} (f : A → bool) (l : list A) :
  Forall (λ x, f x = false) l → List.filter f l = [].
Proof. induction 1 as [|x l Hx _ IH]; [done|]. simpl. by rewrite Hx. Qed.

(** The slots below [used] split at [index]. *)
Lemma filter_seqZ_split (f : Z → bool) index used :
  0 ≤ index ≤ used →
  List.filter (λ e, bool_decide (e < index)) (List.filter f (seqZ 0 used))
    = List.filter f (seqZ 0 index) ∧
  List.filter (λ e, bool_decide (index ≤ e)) (List.filter f (seqZ 0 used))
    = List.filter f (seqZ index (used - index)) ∧
  List.filter f (seqZ 0 used)
    = List.filter f (seqZ 0 index) ++ List.filter f (seqZ index (used - index)).
Proof.
  intros Hindex.
  assert (seqZ 0 used = seqZ 0 index ++ seqZ index (used - index)) as Hsplit.
  { replace used with (index + (used - index)) at 1 by lia.
    rewrite seqZ_app by lia. by rewrite Z.add_0_l. }
  rewrite Hsplit, !List.filter_app.
  assert (∀ g : Z → bool, ∀ l, Forall (λ x, g x = true) l →
            List.filter g (List.filter f l) = List.filter f l) as Hall.
  { intros g l Hl. rewrite (filter_comm g f). by rewrite (filter_all g l Hl). }
  assert (∀ g : Z → bool, ∀ l, Forall (λ x, g x = false) l →
            List.filter g (List.filter f l) = []) as Hnone.
  { intros g l Hl. rewrite (filter_comm g f). by rewrite (filter_nil_all g l Hl). }
  split_and!; [| |done].
  - rewrite Hall, Hnone, app_nil_r; [done| |];
      apply Forall_forall; intros e He%elem_of_seqZ.
    + apply bool_decide_eq_false. lia.
    + apply bool_decide_eq_true. lia.
  - rewrite Hnone, Hall; [done| |];
      apply Forall_forall; intros e He%elem_of_seqZ.
    + apply bool_decide_eq_true. lia.
    + apply bool_decide_eq_false. lia.
Qed.

(** The loop of [HasMore] stops at the first slot from [index] on that is
    not tombstoned, or at the end of the used slots. *)
Lemma HasMore_skip_first d t used (n : nat) : ∀ index fuel,
  Z.to_nat (used - index) = n → (n < fuel)%nat →
  HasMore_skip fuel d t index used
    = Some (match List.filter (λ e, negb (is_hole d t e))
                    (seqZ index (used - index)) with
            | e :: _ => e
            | [] => Z.max index used
            end).
Proof.
  induction n as [|n IH]; intros index fuel Hn Hfuel;
    (destruct fuel as [|fuel]; [lia|]); cbn [HasMore_skip].
  - rewrite bool_decide_eq_false_2 by lia. cbn [andb].
    unfold seqZ. rewrite Z2Nat.nonpos by lia. simpl. f_equal. lia.
  - rewrite bool_decide_eq_true_2 by lia. cbn [andb].
    replace (used - index) with (Z.succ (used - index - 1)) by lia.
    rewrite seqZ_cons by lia. rewrite Z.pred_succ. cbn [List.filter].
    fold (is_hole d t index).
    destruct (is_hole d t index) eqn:Ehole; cbn [negb].
    + rewrite (IH (index + 1) fuel) by lia.
      replace (Z.succ index) with (index + 1) by lia.
      replace (used - (index + 1)) with (used - index - 1) by lia.
      destruct (List.filter _ _) eqn:Efilter; [|done].
      f_equal. lia.
    + done.
Qed.

(** X8. On a table that is not obsolete, [HasMore] moves the iterator to the
    first entry at or after its index that is not tombstoned and answers
    true; when there is none it answers false and leaves the iterator on
    the canonical empty table. *)
Theorem HasMore_skips_tombstones fuel d empty isolate table t index :
  d ≠ OrderedNameDictionary →
  large_at isolate table = Some t →
  next_table t = None →
  0 ≤ index →
  (Z.to_nat (UsedCapacity t - index) < fuel)%nat →
  HasMore fuel d empty isolate (mkIterator table (Smi index))
    = Some (match List.filter (λ e, bool_decide (index ≤ e)) (live_slots d t) with
            | e :: _ => (mkIterator table (Smi e), true)
            | [] => (mkIterator empty (Smi (Z.max index (UsedCapacity t))), false)
            end).
Proof.
  intros _ Ht Hnext Hindex Hfuel. unfold HasMore, Transition. cbn [iterator_table].
  rewrite Ht. cbn [mbind option_bind]. unfold IsObsolete. rewrite Hnext.
  cbn [negb].
  cbn [mbind option_bind iterator_table iterator_index Smi_ToInt]. rewrite Ht.
  cbn [mbind option_bind].
  rewrite (HasMore_skip_first d t (UsedCapacity t) _ index fuel eq_refl Hfuel).
  cbn [mbind option_bind].
  assert (List.filter (λ e, bool_decide (index ≤ e)) (live_slots d t)
          = List.filter (λ e, negb (is_hole d t e))
              (seqZ index (UsedCapacity t - index))) as ->.
  { unfold live_slots, IterateEntries.
    destruct (decide (index ≤ UsedCapacity t)) as [Hle|Hgt].
    - by destruct (filter_seqZ_split (λ e, negb (is_hole d t e)) index
                     (UsedCapacity t)) as (_ & -> & _).
    - unfold seqZ at 2. rewrite Z2Nat.nonpos by lia. simpl.
      rewrite filter_comm.
      rewrite (filter_nil_all (λ e, bool_decide (index ≤ e))); [done|].
      apply Forall_forall. intros e He%elem_of_seqZ.
      apply bool_decide_eq_false. lia. }
  destruct (List.filter _ _) as [|e l] eqn:Efilter.
  - rewrite decide_False by lia. done.
  - assert (e ∈ List.filter (λ e, negb (is_hole d t e))
                  (seqZ index (UsedCapacity t - index))) as He
      by (rewrite Efilter; left).
    apply list_elem_of_In, filter_In in He as [He%list_elem_of_In%elem_of_seqZ _].
    rewrite decide_True by lia. done.
Qed.

End Iteration.

Section IterationAcrossRehash.
Context `{Constants} `{Host}.

Lemma ascending_from_lower l : ∀ lo x,
  ascending_from lo l → x ∈ l → lo ≤ x.
Proof.
  induction l as [|y l IH]; intros lo x Hasc Hx; [by apply elem_of_nil in Hx|].
  destruct Hasc as [Hy Hasc].
  apply elem_of_cons in Hx as [->|Hx]; [done|].
  specialize (IH (y + 1) x Hasc Hx). lia.
Qed.

(** In an ascending log, the removed indices below an index come first. *)
Lemma count_leading_below_filter i l : ∀ lo,
  ascending_from lo l →
  count_leading_below i l
    = Z.of_nat (length (List.filter (λ e, bool_decide (e < i)) l)).
Proof.
  induction l as [|r l IH]; intros lo Hasc; [done|].
  destruct Hasc as [Hr Hasc]. cbn [count_leading_below List.filter].
  destruct (decide (r < i)) as [Hlt|Hge].
  - rewrite bool_decide_eq_true_2 by done. cbn [length].
    rewrite (IH (r + 1)) by done. lia.
  - rewrite bool_decide_eq_false_2 by done.
    rewrite filter_nil_all; [done|].
    apply Forall_forall. intros x Hx.
    pose proof (ascending_from_lower l (r + 1) x Hasc Hx).
    apply bool_decide_eq_false. lia.
Qed.

(** The source of a rehash has logged its tombstoned slots. *)
Lemma rehashed_removed_indices d isolate table t capacity isolate' t' new_t :
  rehashed d isolate table t capacity isolate' t' new_t →
  Z.of_nat (length (hole_slots d t)) = NumberOfDeletedElements t →
  NumberOfDeletedElements t' = NumberOfDeletedElements t ∧
  recorded_removed_indices t' = hole_slots d t.
Proof.
  intros (_ & _ & (log & Ht' & Hlog) & _) Hholes.
  assert (NumberOfDeletedElements t' = NumberOfDeletedElements t) as Hnod'.
  { rewrite Ht'. by destruct (decide (NumberOfBuckets t > 0)). }
  split; [done|].
  unfold recorded_removed_indices. rewrite Hnod', <- Hholes.
  apply omap_seqZ_lookup. intros i Hi.
  assert (RemovedIndexAt t' (0 + Z.of_nat i) = log !! (0 + Z.of_nat i)) as ->.
  { rewrite Ht'. by destruct (decide (NumberOfBuckets t > 0)). }
  rewrite Hlog, decide_True by lia. f_equal. lia.
Qed.

Lemma filter_true {A} (l : list A) : List.filter (λ _, true) l = l.
Proof. induction l as [|x l IH]; [done|]. simpl. by rewrite IH. Qed.

(** X9. An iterator on a table that [Rehash] has made obsolete moves to the
    new table, and its index drops by the number of tombstoned slots below
    it: it has as many live entries behind it as before, and the entries
    from its index on are the same, in the same order. *)
Theorem Transition_after_Rehash d isolate table t new_capacity index :
  d ≠ OrderedNameDictionary →
  large_at isolate table = Some t →
  table_ok d t →
  0 < NumberOfBuckets t →
  kClearedTableSentinel < 0 →
  2 ≤ kInitialCapacity ≤ 2 ^ 30 → new_capacity ≤ 2 ^ 30 →
  ¬ 2 ^ Z.log2_up (Z.max kInitialCapacity new_capacity)
      > MaxCapacity (entrysize d) →
  NumberOfElements t ≤ 2 ^ Z.log2_up (Z.max kInitialCapacity new_capacity) →
  0 ≤ index ≤ UsedCapacity t →
  ∃ isolate' new_t index',
    Derived_Rehash d isolate table new_capacity
      = Some (isolate', Some (length (heap isolate))) ∧
    large_at isolate' (length (heap isolate)) = Some new_t ∧
    Transition 2 isolate' (mkIterator table (Smi index))
      = Some (mkIterator (length (heap isolate)) (Smi index')) ∧
    index' = Z.of_nat (length (List.filter (λ e, bool_decide (e < index))
                                 (live_slots d t))) ∧
    map (payload d new_t)
        (List.filter (λ e, bool_decide (index' ≤ e)) (live_slots d new_t))
      = map (payload d t)
          (List.filter (λ e, bool_decide (index ≤ e)) (live_slots d t)).
Proof.
  intros _ Ht Hok Hnob Hsentinel Hk Hc Hmax Hfit Hindex.
  pose proof Hok as (Hnof & Hnod & _ & _ & _ & Hholes).
  pose proof (large_at_lt _ _ _ Ht) as Hlt.
  pose proof (length_live_slots d t Hnof Hholes) as Hlives.
  destruct (Derived_Rehash_ok d isolate table t new_capacity Ht Hk Hc Hmax)
    as (isolate' & t' & new_t & Hrehash & Hpost); [lia|].
  destruct (rehashed_large_at _ _ _ _ _ _ _ _ Hpost Hlt) as (Hnew & Hold & _).
  destruct (rehashed_live_entries _ _ _ _ _ _ _ _ Hpost Hlives) as (Hslots & _).
  destruct (rehashed_removed_indices _ _ _ _ _ _ _ _ Hpost Hholes)
    as (Hnod' & Hrecorded).
  pose proof Hpost as (_ & _ & (log & Ht' & _) & _ & _ & _ & Hnext_new & _ & Hmap & _).
  assert (next_table t' = Some (length (heap isolate))) as Hnext.
  { rewrite Ht'. by rewrite decide_True by lia. }
  (* the two halves of the slots *)
  destruct (filter_seqZ_split (λ e, negb (is_hole d t e)) index (UsedCapacity t)
              Hindex) as (Hbelow & Hfrom & Hsplit).
  destruct (filter_seqZ_split (is_hole d t) index (UsedCapacity t) Hindex)
    as (Hholes_below & _ & _).
  fold (IterateEntries t) in Hbelow, Hfrom, Hsplit, Hholes_below.
  fold (live_slots d t) in Hbelow, Hfrom, Hsplit.
  fold (hole_slots d t) in Hholes_below.
  set (behind := List.filter (λ e, negb (is_hole d t e)) (seqZ 0 index)) in *.
  set (ahead := List.filter (λ e, negb (is_hole d t e))
                  (seqZ index (UsedCapacity t - index))) in *.
  assert (Z.of_nat (length (List.filter (is_hole d t) (seqZ 0 index)))
          + Z.of_nat (length behind) = index) as Hsum.
  { pose proof (List.filter_length (is_hole d t) (seqZ 0 index)) as Hlen.
    rewrite length_seqZ in Hlen. fold behind in Hlen. lia. }
  exists isolate', new_t, (Z.of_nat (length behind)).
  split_and!; [done|done| |by rewrite Hbelow|].
  - unfold Transition. cbn [iterator_table iterator_index].
    rewrite Hold. cbn [mbind option_bind]. unfold IsObsolete. rewrite Hnext.
    cbn [negb Smi_ToInt].
    rewrite (Transition_loop_chain isolate' table [t'] (length (heap isolate)) 2
               index).
    + cbn [mbind option_bind foldl]. do 3 f_equal.
      unfold index_after. rewrite decide_False by lia.
      rewrite Hrecorded.
      rewrite (count_leading_below_filter index _ 0) by apply ascending_hole_slots.
      rewrite Hholes_below. lia.
    + eapply obsolete_chain_step; [done..|].
      by eapply obsolete_chain_end.
    + apply Forall_singleton. right. rewrite Hrecorded, Hnod', <- Hholes.
      split; [by rewrite Nat2Z.id|apply ascending_hole_slots].
    + lia.
    + simpl. lia.
  - rewrite Hfrom, Hslots.
    assert (length (live_slots d t) = (length behind + length ahead)%nat) as Hlen
      by (by rewrite Hsplit, length_app).
    assert (NumberOfElements t
            = Z.of_nat (length behind) + Z.of_nat (length ahead)) as Hnof_split by lia.
    destruct (filter_seqZ_split (λ _, true) (Z.of_nat (length behind))
                (NumberOfElements t)) as (_ & Hfrom' & _); [lia|].
    rewrite !filter_true in Hfrom'. rewrite Hfrom'.
    rewrite Hlives in Hmap.
    replace (NumberOfElements t) with
      (Z.of_nat (length behind) + Z.of_nat (length ahead)) in Hmap by lia.
    rewrite seqZ_app, Hsplit, !map_app in Hmap by lia.
    apply app_inj_1 in Hmap as [_ Hmap].
    + rewrite <- Hmap. do 2 f_equal. lia.
    + by rewrite !length_map, length_seqZ, Nat2Z.id.
Qed.

End IterationAcrossRehash.

(** ** The canonical empty table *)

Section EmptyTable.
Context `{Constants} `{Host} `{Primitives}.

(** [AllocateEmpty] makes a table without buckets, entries or cells, which
    keeps the invariants of a large table. *)
Lemma Derived_AllocateEmpty_ok d isolate :
  ∃ t,
    Derived_AllocateEmpty d isolate
      = Some (mkIsolate (heap isolate ++ [LargeTable t]) (pending_exception isolate),
              length (heap isolate)) ∧
    NumberOfBuckets t = 0 ∧ NumberOfElements t = 0 ∧
    NumberOfDeletedElements t = 0 ∧ next_table t = None ∧
    removed_indices t = ∅ ∧ elements t = [] ∧ table_ok d t.
Proof.
  assert (∀ hash,
            let t := mkOrderedHashTable 0 0 0 None hash ∅ [] in
            table_ok d t) as Hok.
  { intros hash t. unfold table_ok. split_and!; try done.
    - by right.
    - split; intros b Hb; unfold NumberOfBuckets, UsedCapacity in Hb;
        simpl in Hb; lia. }
  unfold Derived_AllocateEmpty, OrderedHashTable_AllocateEmpty,
    NewFixedArrayWithMap. rewrite Z.sub_diag. cbn [Z.to_nat replicate].
  unfold SetNumberOfBuckets, SetNumberOfElements, SetNumberOfDeletedElements.
  cbn. destruct d.
  - eexists. split; [reflexivity|]. split_and!; try done; apply Hok.
  - eexists. split; [reflexivity|]. split_and!; try done; apply Hok.
  - rewrite large_at_new_object_eq. cbn [mbind option_bind].
    eexists. split.
    + unfold store; simpl. do 2 f_equal.
      rewrite insert_app_r_alt by lia. by rewrite Nat.sub_diag.
    + split_and!; try done; apply Hok.
Qed.

(** The tail of a large [Add] on a table without buckets: the entry goes
    into a new table of the initial capacity, and the table given stays as
    it was. *)
Lemma Add_after_lookup_no_buckets d check isolate table t hash cells :
  large_at isolate table = Some t →
  table_ok d t →
  NumberOfBuckets t = 0 →
  2 ≤ kInitialCapacity ≤ 2 ^ 30 →
  ¬ 2 ^ Z.log2_up kInitialCapacity > MaxCapacity (entrysize d) →
  Z.of_nat (length cells) = entrysize d →
  payload_is_hole cells = false →
  ∃ isolate' t',
    Add_after_lookup d check isolate table hash cells
      = Some (isolate', Some (length (heap isolate))) ∧
    large_at isolate' table = Some t ∧
    large_at isolate' (length (heap isolate)) = Some t' ∧
    live_entries d t' = live_entries d t ++ [cells] ∧
    NumberOfElements t' = NumberOfElements t + 1 ∧
    NumberOfDeletedElements t' = 0 ∧
    Capacity t' = 2 ^ Z.log2_up kInitialCapacity.
Proof.
  intros Ht Hok Hnob Hk Hmax Hcells Hlive.
  pose proof (large_at_lt _ _ _ Ht) as Hlt.
  assert (Capacity t = 0) as Hcap0 by (unfold Capacity; lia).
  pose proof Hok as (Hnof & Hnod & Hcap & _ & _ & Hholes).
  assert (¬ UsedCapacity t < Capacity t) as Hfull
    by (unfold UsedCapacity; lia).
  destruct (EnsureCapacityForAdding_succeeds d isolate table t Ht Hok Hk)
    as (isolate1 & table1 & Hensure).
  { intros _. rewrite decide_True by done. by rewrite Z.max_id. }
  destruct (EnsureCapacityForAdding_ok _ _ _ _ _ _ Ht Hok Hk Hensure)
    as (t1 & capacity & Ht1 & Hlay & Hused & Hch & Hlt1 & Hcase).
  destruct Hcase as [(_ & _ & _ & _ & Hroom)|(t0 & Hre & -> & _ & Hcapacity)];
    [done|].
  rewrite decide_True, Z.max_id in Hcapacity by done.
  destruct (rehashed_large_at _ _ _ _ _ _ _ _ Hre Hlt) as (_ & Hold & Hlen & _).
  pose proof Hre as (_ & _ & (log & Ht0 & Hlog) & Hnof1 & Hnod1 & Hnob1 & _).
  assert (t0 = t) as ->.
  { rewrite Ht0, decide_False by lia.
    assert (log = removed_indices t) as ->.
    { apply map_eq. intros i. rewrite Hlog.
      assert (NumberOfDeletedElements t = 0) as Hnod0
        by (unfold UsedCapacity in Hcap; lia).
      by rewrite decide_False by lia. }
    by destruct t. }
  assert (Add_after_lookup d check isolate table hash cells
          = Some (store isolate1 (length (heap isolate))
                    (LargeTable (insert_entry d t1 hash cells)),
                  Some (length (heap isolate)))) as Hadd.
  { unfold Add_after_lookup. rewrite Hensure. cbn [mbind option_bind].
    by rewrite Ht1. }
  destruct (Add_after_lookup_order d check isolate table t hash cells _ _
              Ht Hok Hk Hcells Hlive Hadd) as (t' & Ht' & Horder & Hnof').
  rewrite large_at_store_eq in Ht' by done. injection Ht' as <-.
  eexists _, _. split_and!; [exact Hadd| | |done..| |].
  - rewrite large_at_store_ne by lia. done.
  - by apply large_at_store_eq.
  - destruct (insert_entry_header d t1 hash cells) as (_ & Hnod' & _).
    unfold NumberOfDeletedElements in *. lia.
  - destruct (insert_entry_header d t1 hash cells) as (_ & _ & Hnob' & _).
    assert (kInitialCapacity ≤ 2 ^ 30) as Hk30 by lia.
    destruct (rounded_capacity kInitialCapacity Hk Hk30)
      as (_ & _ & _ & Hdouble & _).
    rewrite Z.max_id in Hdouble.
    unfold Capacity, NumberOfBuckets in *. by rewrite Hnob', Hnob1, Hcapacity.
Qed.

(** X10. An [Add] to the canonical empty table, which has no buckets, does
    not write to it: the key goes into a new table of the initial capacity,
    whose only entry it is, and the empty table is as [AllocateEmpty] made
    it, not even marked obsolete. *)
Theorem Add_to_empty_table d fuel isolate key value details :
  2 ≤ kInitialCapacity ≤ 2 ^ 30 →
  ¬ 2 ^ Z.log2_up kInitialCapacity > MaxCapacity (entrysize d) →
  IsTheHole key = false →
  let empty := length (heap isolate) in
  ∃ isolate0 t0 isolate' t',
    Derived_AllocateEmpty d isolate = Some (isolate0, empty) ∧
    large_at isolate0 empty = Some t0 ∧
    NumberOfBuckets t0 = 0 ∧
    match d with
    | OrderedHashSet => OrderedHashSet_Add fuel isolate0 empty key
    | OrderedHashMap => OrderedHashMap_Add fuel isolate0 empty key value
    | OrderedNameDictionary =>
        OrderedNameDictionary_Add isolate0 empty key value details
    end = Some (isolate', Some (S empty)) ∧
    large_at isolate' empty = Some t0 ∧
    IsObsolete t0 = false ∧
    large_at isolate' (S empty) = Some t' ∧
    live_entries d t'
      = [match d with
         | OrderedHashSet => [key]
         | OrderedHashMap => [key; value]
         | OrderedNameDictionary => [key; value; AsSmi details]
         end] ∧
    NumberOfElements t' = 1 ∧
    Capacity t' = 2 ^ Z.log2_up kInitialCapacity.
Proof.
  intros Hk Hmax Hkey empty. unfold empty. clear empty.
  destruct (Derived_AllocateEmpty_ok d isolate)
    as (t0 & Hempty & Hnob & Hnof & Hnod & Hnext & Hrem & Hel & Hok).
  set (isolate0 := mkIsolate (heap isolate ++ [LargeTable t0])
                     (pending_exception isolate)) in *.
  assert (large_at isolate0 (length (heap isolate)) = Some t0) as Ht0.
  { unfold large_at, isolate0. cbn [heap].
    rewrite lookup_app_r by lia. by rewrite Nat.sub_diag. }
  assert (length (heap isolate0) = S (length (heap isolate))) as Hlen.
  { unfold isolate0. cbn [heap]. rewrite length_app. simpl. lia. }
  assert (live_entries d t0 = []) as Hnone.
  { unfold live_entries, live_slots, IterateEntries, UsedCapacity.
    by rewrite Hnof, Hnod. }
  set (cells := match d with
                | OrderedHashSet => [key]
                | OrderedHashMap => [key; value]
                | OrderedNameDictionary => [key; value; AsSmi details]
                end).
  assert (∀ check hash, ∃ isolate' t',
            Add_after_lookup d check isolate0 (length (heap isolate)) hash cells
              = Some (isolate', Some (S (length (heap isolate)))) ∧
            large_at isolate' (length (heap isolate)) = Some t0 ∧
            large_at isolate' (S (length (heap isolate))) = Some t' ∧
            live_entries d t' = [cells] ∧
            NumberOfElements t' = 1 ∧
            Capacity t' = 2 ^ Z.log2_up kInitialCapacity) as Hadd.
  { intros check hash.
    destruct (Add_after_lookup_no_buckets d check isolate0 (length (heap isolate))
                t0 hash cells Ht0 Hok Hnob) as (isolate' & t' & Hadd & Hold & Hnew
                & Horder & Hnof' & _ & Hcap); try done.
    - by destruct d.
    - by destruct d.
    - rewrite Hlen in Hadd, Hnew. rewrite Hnone in Horder.
      exists isolate', t'. split_and!; try done. lia. }
  assert (IsObsolete t0 = false) as Hobs by (unfold IsObsolete; by rewrite Hnext).
  destruct d.
  - destruct (Hadd true (GetOrCreateHash key)) as (isolate' & t' & Hadd' & Hrest).
    exists isolate0, t0, isolate', t'.
    split_and!; try done; try apply Hrest.
    rewrite (OrderedHashSet_Add_unfold _ _ _ _ _ Ht0).
    rewrite decide_False by lia. done.
  - destruct (Hadd false (GetOrCreateHash key)) as (isolate' & t' & Hadd' & Hrest).
    exists isolate0, t0, isolate', t'.
    split_and!; try done; try apply Hrest.
    rewrite (OrderedHashMap_Add_unfold _ _ _ _ _ _ Ht0).
    rewrite decide_False by lia. done.
  - destruct (Hadd false (Name_hash key)) as (isolate' & t' & Hadd' & Hrest).
    exists isolate0, t0, isolate', t'.
    split_and!; try done; try apply Hrest.
    by rewrite OrderedNameDictionary_Add_unfold.
Qed.

End EmptyTable.

(** ** Rehashing, shrinking and insertion order in the small form *)

Section SmallRehash.
Context `{Constants} `{Host}.

Lemma small_entrysize_pos d : 1 ≤ Small_kEntrySize d ≤ 3.
Proof. destruct d; simpl; lia. Qed.

Lemma small_is_hole_payload d s entry :
  small_is_hole d s entry = payload_is_hole (small_payload d s entry).
Proof.
  unfold small_is_hole, Small_KeyAt, small_payload, kKeyIndex.
  by destruct d.
Qed.

(** One turn of the loop of the small [Rehash] on a live entry copies its
    payload into the next free slot of the new table. *)
Lemma Small_Rehash_step_live d table new_table new_entry old_entry :
  small_is_hole d table old_entry = false →
  0 ≤ new_entry →
  (new_entry + 1) * Small_kEntrySize d ≤ Z.of_nat (length (data_table new_table)) →
  ∃ new_table',
    Small_Rehash_step d table (new_table, new_entry) old_entry
      = (new_table', new_entry + 1) ∧
    length (data_table new_table') = length (data_table new_table) ∧
    small_payload d new_table' new_entry = small_payload d table old_entry ∧
    (∀ e, e ≠ new_entry →
       small_payload d new_table' e = small_payload d new_table e).
Proof.
  intros Hlive Hlo Hhi.
  pose proof (Small_Rehash_step_shape d table new_table new_entry old_entry)
    as (_ & _ & _ & Hshape & _).
  revert Hshape. unfold Small_Rehash_step.
  unfold small_is_hole in Hlive. rewrite Hlive. cbn [fst]. intros Hshape.
  eexists. split; [reflexivity|]. split; [exact Hshape|]. clear Hshape.
  set (nt := SetNextEntry _ _ _).
  assert (data_table nt = data_table new_table) as Hdata by done.
  assert (∀ e i, GetDataEntry d nt e i = GetDataEntry d new_table e i) as Hget
    by done.
  clearbody nt.
  unfold small_payload.
  split.
  - destruct d; cbn [Small_kEntrySize] in *;
      [change (seqZ 0 1) with [0]
      |change (seqZ 0 2) with [0; 1]
      |change (seqZ 0 3) with [0; 1; 2]]; cbn [map foldl];
      repeat first
        [ rewrite GetDataEntry_SetDataEntry_eq
            by (unfold SetDataEntry; cbn [data_table Small_kEntrySize];
                rewrite ?length_array_set, Hdata; lia)
        | rewrite GetDataEntry_SetDataEntry_ne by (cbn [Small_kEntrySize]; lia) ];
      done.
  - intros e He. apply map_ext_in. intros i Hi%list_elem_of_In%elem_of_seqZ.
    rewrite <- Hget.
    destruct d; cbn [Small_kEntrySize] in *;
      [change (seqZ 0 1) with [0]
      |change (seqZ 0 2) with [0; 1]
      |change (seqZ 0 3) with [0; 1; 2]]; cbn [foldl];
      rewrite !GetDataEntry_SetDataEntry_ne by (cbn [Small_kEntrySize]; lia);
      done.
Qed.

(** The loop of the small [Rehash]: the live entries among [l] go, in
    order, into the slots from [new_entry] on. *)
Lemma Small_Rehash_loop_payloads d table l : ∀ new_table new_entry,
  let lives := List.filter (λ e, negb (small_is_hole d table e)) l in
  0 ≤ new_entry →
  (new_entry + Z.of_nat (length lives)) * Small_kEntrySize d
    ≤ Z.of_nat (length (data_table new_table)) →
  ∃ new_table',
    foldl (Small_Rehash_step d table) (new_table, new_entry) l
      = (new_table', new_entry + Z.of_nat (length lives)) ∧
    map (small_payload d new_table') (seqZ new_entry (Z.of_nat (length lives)))
      = map (small_payload d table) lives ∧
    (∀ e, e < new_entry →
       small_payload d new_table' e = small_payload d new_table e).
Proof.
  pose proof (small_entrysize_pos d) as Hes.
  induction l as [|a l IH]; intros new_table new_entry lives Hlo Hhi.
  - exists new_table. cbn [foldl]. unfold lives. simpl.
    split_and!; [by rewrite Z.add_0_r|done|done].
  - cbn [foldl]. unfold lives in *. cbn [List.filter] in *.
    destruct (small_is_hole d table a) eqn:Ehole; cbn [negb] in *.
    + assert (Small_Rehash_step d table (new_table, new_entry) a
              = (new_table, new_entry)) as ->.
      { unfold Small_Rehash_step. unfold small_is_hole in Ehole.
        by rewrite Ehole. }
      by apply IH.
    + cbn [length] in Hhi.
      destruct (Small_Rehash_step_live d table new_table new_entry a Ehole Hlo)
        as (nt1 & -> & Hdata & Hcopied & Hothers); [nia|].
      destruct (IH nt1 (new_entry + 1)) as (nt' & Hfold & Hmap & Hbelow);
        [lia|rewrite Hdata; nia|].
      exists nt'. cbn [length]. split_and!.
      * rewrite Hfold. f_equal. lia.
      * rewrite Nat2Z.inj_succ, seqZ_cons by lia. rewrite Z.pred_succ.
        cbn [map]. f_equal.
        -- rewrite Hbelow by lia. done.
        -- replace (Z.succ new_entry) with (new_entry + 1) by lia. done.
      * intros e He. rewrite Hbelow by lia. apply Hothers. lia.
Qed.

Lemma length_small_live_slots d s :
  0 ≤ Small_NumberOfElements s →
  Z.of_nat (length (small_hole_slots d s)) = Small_NumberOfDeletedElements s →
  Z.of_nat (length (small_live_slots d s)) = Small_NumberOfElements s.
Proof.
  intros Hnof Hholes.
  pose proof (List.filter_length (small_is_hole d s) (Small_IterateEntries s))
    as Hsum.
  fold (small_hole_slots d s) in Hsum. fold (small_live_slots d s) in Hsum.
  unfold Small_IterateEntries, Small_UsedCapacity in Hsum.
  rewrite length_seqZ in Hsum. lia.
Qed.

(** The live entries of the table a small [Rehash] returns. *)
Lemma Small_Derived_Rehash_entries d isolate table s new_capacity :
  small_at isolate table = Some s →
  0 ≤ Small_NumberOfElements s < 256 →
  Z.of_nat (length (small_live_slots d s)) = Small_NumberOfElements s →
  Small_NumberOfElements s ≤ new_capacity →
  ∃ isolate' new_s,
    Small_Derived_Rehash d isolate table new_capacity
      = Some (isolate', length (heap isolate)) ∧
    small_at isolate' (length (heap isolate)) = Some new_s ∧
    small_at isolate' table = Some s ∧
    small_live_slots d new_s = seqZ 0 (Small_NumberOfElements s) ∧
    small_live_entries d new_s = small_live_entries d s ∧
    Small_NumberOfElements new_s = Small_NumberOfElements s ∧
    Small_NumberOfDeletedElements new_s = 0 ∧
    Small_NumberOfBuckets new_s = uint8 (new_capacity ÷ kLoadFactor).
Proof.
  intros Hs Hnof Hlives Hfit. pose proof (small_at_lt _ _ _ Hs) as Hlt.
  pose proof (small_entrysize_pos d) as Hes.
  destruct (Small_Rehash_loop_payloads d s (Small_IterateEntries s)
              (Initialize d new_capacity) 0) as (nt & Hfold & Hmap & _); [lia| |].
  { fold (small_live_slots d s). cbn [Initialize data_table].
    rewrite length_replicate. nia. }
  fold (small_live_slots d s) in Hfold, Hmap. rewrite Hlives in Hfold, Hmap.
  pose proof (Small_Rehash_loop_shape d s (Small_IterateEntries s)
                (Initialize d new_capacity) 0) as Hshape.
  rewrite Hfold in Hshape. cbn [fst] in Hshape.
  destruct Hshape as (_ & Hnod & Hnob & _).
  assert (∀ o, length (heap (mkIsolate (heap isolate ++ [o])
                  (pending_exception isolate))) = S (length (heap isolate)))
    as Hlen by (intros o; simpl; rewrite length_app; simpl; lia).
  assert (∀ new_s,
            Small_NumberOfElements new_s = Small_NumberOfElements s →
            Small_NumberOfDeletedElements new_s = 0 →
            (∀ e, small_payload d new_s e = small_payload d nt e) →
            small_live_slots d new_s = seqZ 0 (Small_NumberOfElements s) ∧
            small_live_entries d new_s = small_live_entries d s) as Hentries.
  { intros new_s Hnof' Hnod' Hpayload.
    assert (small_live_slots d new_s = seqZ 0 (Small_NumberOfElements s)) as Hslots.
    { unfold small_live_slots, Small_IterateEntries, Small_UsedCapacity.
      rewrite Hnof', Hnod', Z.add_0_r. apply filter_all.
      assert (Forall (λ p, negb (payload_is_hole p) = true)
                (map (small_payload d s) (small_live_slots d s))) as Hall.
      { apply Forall_map. apply Forall_forall. intros e He.
        apply elem_of_small_live_slots in He as [_ He].
        by rewrite <- small_is_hole_payload, He. }
      rewrite <- Hmap in Hall. apply Forall_map in Hall.
      eapply Forall_impl; [exact Hall|]. simpl. intros e He.
      by rewrite small_is_hole_payload, Hpayload. }
    split; [done|]. unfold small_live_entries. rewrite Hslots.
    rewrite <- Hmap. apply map_ext. intros e. apply Hpayload. }
  assert (∃ isolate' new_s,
    SmallOrderedHashTable_Rehash d isolate table new_capacity
      = Some (isolate', length (heap isolate)) ∧
    small_at isolate' (length (heap isolate)) = Some new_s ∧
    small_at isolate' table = Some s ∧
    length (heap isolate') = S (length (heap isolate)) ∧
    Small_NumberOfElements new_s = Small_NumberOfElements s ∧
    Small_NumberOfDeletedElements new_s = 0 ∧
    Small_NumberOfBuckets new_s = uint8 (new_capacity ÷ kLoadFactor) ∧
    (∀ e, small_payload d new_s e = small_payload d nt e)) as Hbase.
  { unfold SmallOrderedHashTable_Rehash, Small_Allocate, new_object.
    cbn [mbind option_bind].
    rewrite (small_at_new_object isolate _ table) by done.
    rewrite Hs. cbn [mbind option_bind].
    rewrite small_at_new_object_eq. cbn [mbind option_bind].
    rewrite Hfold.
    eexists _, _. split; [reflexivity|]. split_and!.
    - apply small_at_store_eq. rewrite Hlen. lia.
    - rewrite small_at_store_ne by lia.
      by rewrite (small_at_new_object isolate _ table).
    - by rewrite length_heap_store, Hlen.
    - unfold Small_NumberOfElements; simpl. apply uint8_small.
      unfold Small_NumberOfElements in Hnof. lia.
    - exact Hnod.
    - exact Hnob.
    - done. }
  destruct Hbase as (isolate1 & new_s & Hr & Hnew & Hold & Hlen1 & Hnof1 & Hnod1
                     & Hnob1 & Hpayload).
  destruct d; simpl;
    try (exists isolate1, new_s;
         split_and!; try done; by apply Hentries).
  rewrite Hr. cbn [mbind option_bind]. rewrite Hold. cbn [mbind option_bind].
  rewrite Hnew. cbn [mbind option_bind].
  eexists _, _. split; [reflexivity|]. split_and!.
  - apply small_at_store_eq. lia.
  - rewrite small_at_store_ne by lia. done.
  - by apply Hentries.
  - by apply Hentries.
  - done.
  - done.
  - done.
Qed.

End SmallRehash.

Section SmallRehashTheorems.
Context `{Constants} `{Host} `{Primitives}.

(** X11. A small [Rehash] for a capacity that holds the elements returns a
    new table with the live entries of the source in the same order and
    without tombstones, and leaves the source as it was. *)
Theorem Small_Rehash_keeps_entries d isolate table s new_capacity :
  small_at isolate table = Some s →
  small_table_ok d s →
  Small_NumberOfElements s ≤ new_capacity →
  ∃ isolate' new_s,
    Small_Derived_Rehash d isolate table new_capacity
      = Some (isolate', length (heap isolate)) ∧
    small_at isolate' (length (heap isolate)) = Some new_s ∧
    small_at isolate' table = Some s ∧
    small_live_entries d new_s = small_live_entries d s ∧
    Small_NumberOfElements new_s = Small_NumberOfElements s ∧
    Small_NumberOfDeletedElements new_s = 0.
Proof.
  intros Hs Hok Hfit.
  pose proof Hok as (Hnof & Hnod & Hnob & Hused & _ & _ & _ & _ & _ & Hholes).
  pose proof (length_small_live_slots d s Hnof Hholes) as Hlives.
  destruct (Small_Derived_Rehash_entries d isolate table s new_capacity Hs)
    as (isolate' & new_s & Hr & Hnew & Hold & _ & Hentries & Hnof' & Hnod' & _);
    [|done..|].
  { unfold Small_UsedCapacity, Small_Capacity, kLoadFactor in *. lia. }
  by exists isolate', new_s.
Qed.

(** X12. The small [Shrink] hands back the table it was given while at
    least a quarter of the capacity is in use, and otherwise a new table
    without tombstones; either way the live entries are the same, in the
    same order. *)
Theorem Small_Shrink_keeps_entries d isolate table s :
  small_at isolate table = Some s →
  small_table_ok d s →
  ∃ isolate' table' s',
    Small_Shrink d isolate table = Some (isolate', table') ∧
    small_at isolate' table' = Some s' ∧
    small_live_entries d s' = small_live_entries d s ∧
    Small_NumberOfElements s' = Small_NumberOfElements s ∧
    (Small_NumberOfElements s >= Small_Capacity s / 4 →
       isolate' = isolate ∧ table' = table) ∧
    (Small_NumberOfElements s < Small_Capacity s / 4 →
       table' = length (heap isolate) ∧
       small_at isolate' table = Some s ∧
       Small_NumberOfDeletedElements s' = 0).
Proof.
  intros Hs Hok.
  pose proof Hok as (Hnof & Hnod & Hnob & Hused & _ & _ & _ & _ & _ & Hholes).
  pose proof (length_small_live_slots d s Hnof Hholes) as Hlives.
  unfold Small_Shrink. rewrite Hs. cbn [mbind option_bind].
  rewrite shiftr_2_div4.
  destruct (decide (Small_NumberOfElements s >= Small_Capacity s / 4))
    as [Hkeep|Hshrink].
  - exists isolate, table, s. split_and!; done.
  - assert (0 ≤ Small_Capacity s) as Hcap
      by (unfold Small_Capacity, kLoadFactor; lia).
    rewrite Z.quot_div_nonneg by lia.
    assert (Small_Capacity s / 4 ≤ Small_Capacity s / 2) as Hquarter.
    { apply Z.div_le_compat_l; lia. }
    destruct (Small_Derived_Rehash_entries d isolate table s (Small_Capacity s / 2)
                Hs)
      as (isolate' & new_s & Hr & Hnew & Hold & _ & Hentries & Hnof' & Hnod' & _);
      [|done|lia|].
    { unfold Small_UsedCapacity, Small_Capacity, kLoadFactor in *. lia. }
    exists isolate', (length (heap isolate)), new_s.
    split_and!; done.
Qed.

End SmallRehashTheorems.

Section SmallOrder.
Context `{Constants} `{Host} `{!HostOk}.

(** The table a small [Add] inserts into has the live entries of the table
    given, in the same order. *)
Lemma Small_table_for_adding_entries d isolate table s isolate1 table1 s1 :
  small_at isolate table = Some s →
  small_table_ok d s →
  Small_table_for_adding d isolate table s = Some (isolate1, Some table1) →
  small_at isolate1 table1 = Some s1 →
  small_live_entries d s1 = small_live_entries d s ∧
  Small_NumberOfElements s1 = Small_NumberOfElements s.
Proof.
  intros Hs Hok Hfor Hs1.
  pose proof Hok as (Hnof & Hnod & Hnob & Hused & _ & _ & _ & _ & _ & Hholes).
  pose proof (length_small_live_slots d s Hnof Hholes) as Hlives.
  unfold Small_table_for_adding in Hfor.
  destruct (decide (Small_UsedCapacity s >= Small_Capacity s)) as [Hfull|Hroom].
  - destruct (Grow_rehashes d _ _ _ _ _ Hs Hok Hfor) as (m & Hm & Hfit & Hrehash).
    destruct (Small_Derived_Rehash_entries d isolate table s (m * 2) Hs)
      as (isolate' & new_s & Hr & Hnew & _ & _ & Hentries & Hnof' & _);
      [|done|lia|].
    { unfold Small_UsedCapacity, Small_Capacity, kLoadFactor in *. lia. }
    rewrite Hr in Hrehash. injection Hrehash as <- <-.
    rewrite Hnew in Hs1. by injection Hs1 as <-.
  - injection Hfor as <- <-. rewrite Hs in Hs1. by injection Hs1 as <-.
Qed.

Lemma Small_Add_after_lookup_order d isolate table s hash key value details
    isolate' table' :
  small_at isolate table = Some s →
  small_table_ok d s →
  IsTheHole key = false →
  Small_Add_after_lookup d isolate table s hash (small_writes d key value details)
    = Some (isolate', Some table') →
  ∃ s', small_at isolate' table' = Some s' ∧
        small_live_entries d s'
          = small_live_entries d s ++ [small_cells d key value details] ∧
        Small_NumberOfElements s' = Small_NumberOfElements s + 1.
Proof.
  intros Hs Hok Hkey Hadd.
  destruct (Small_Add_after_lookup_ok _ _ _ _ _ _ _ _ _ _ Hs Hok Hadd)
    as (isolate1 & s1 & s' & Hfor & Hs1 & Hs' & Hnew & Hsame & Hnof' & Hnod').
  destruct (Small_table_for_adding_entries d _ _ _ _ _ _ Hs Hok Hfor Hs1)
    as [Hentries Hnof1].
  destruct (Small_table_for_adding_ok _ _ _ _ _ _ Hs Hok Hfor)
    as (s1' & Hs1' & _ & Hnof1' & Hnod1' & _).
  rewrite Hs1 in Hs1'. injection Hs1' as <-.
  exists s'. split; [done|]. split; [|lia].
  rewrite <- Hentries.
  assert (Small_UsedCapacity s' = Small_UsedCapacity s1 + 1) as Hused'
    by (unfold Small_UsedCapacity; lia).
  assert (payload_is_hole (small_cells d key value details) = false) as Hlive
    by (by destruct d).
  assert (small_live_slots d s' = small_live_slots d s1 ++ [Small_UsedCapacity s1])
    as Hslots.
  { unfold small_live_slots, Small_IterateEntries. rewrite Hused'.
    rewrite seqZ_app by (unfold Small_UsedCapacity; lia).
    rewrite List.filter_app. f_equal.
    - apply List.filter_ext_in. intros e He%list_elem_of_In%elem_of_seqZ.
      by rewrite !small_is_hole_payload, Hsame by lia.
    - change (seqZ (0 + Small_UsedCapacity s1) 1) with [0 + Small_UsedCapacity s1].
      rewrite Z.add_0_l. cbn [List.filter].
      by rewrite small_is_hole_payload, Hnew, Hlive. }
  unfold small_live_entries. rewrite Hslots, map_app. cbn [map]. rewrite Hnew.
  f_equal. apply map_ext_in. intros e He%list_elem_of_In.
  apply elem_of_small_live_slots in He as [He _]. apply Hsame; lia.
Qed.

(** X13. A small [Add] of a key that the table does not hold, when it
    returns a table, has appended the new entry to the iteration order: the
    live entries of the returned table are those of the table given followed
    by the new one, whether or not the table had to grow. *)
Theorem Small_Add_appends_to_iteration_order fuel isolate table key value details
    isolate' table' :
  IsTheHole key = false →
  (∀ s, small_at isolate table = Some s →
     small_table_ok SmallOrderedHashSet s →
     small_key_absent SmallOrderedHashSet s key →
     (Z.to_nat (Small_UsedCapacity s) < fuel)%nat →
     SmallOrderedHashSet_Add fuel isolate table key = Some (isolate', Some table') →
     ∃ s', small_at isolate' table' = Some s' ∧
           small_live_entries SmallOrderedHashSet s'
             = small_live_entries SmallOrderedHashSet s ++ [[key]] ∧
           Small_NumberOfElements s' = Small_NumberOfElements s + 1) ∧
  (∀ s, small_at isolate table = Some s →
     small_table_ok SmallOrderedHashMap s →
     small_key_absent SmallOrderedHashMap s key →
     (Z.to_nat (Small_UsedCapacity s) < fuel)%nat →
     SmallOrderedHashMap_Add fuel isolate table key value
       = Some (isolate', Some table') →
     ∃ s', small_at isolate' table' = Some s' ∧
           small_live_entries SmallOrderedHashMap s'
             = small_live_entries SmallOrderedHashMap s ++ [[key; value]] ∧
           Small_NumberOfElements s' = Small_NumberOfElements s + 1) ∧
  (∀ s, small_at isolate table = Some s →
     small_table_ok SmallOrderedNameDictionary s →
     SmallOrderedNameDictionary_Add isolate table key value details
       = Some (isolate', Some table') →
     ∃ s', small_at isolate' table' = Some s' ∧
           small_live_entries SmallOrderedNameDictionary s'
             = small_live_entries SmallOrderedNameDictionary s
               ++ [[key; value; AsSmi details]] ∧
           Small_NumberOfElements s' = Small_NumberOfElements s + 1).
Proof.
  intros Hkey. split_and!.
  - intros s Hs Hok Habsent Hfuel.
    rewrite (SmallOrderedHashSet_Add_unfold _ _ _ _ _ Hs).
    rewrite Small_HasKey_absent by done. cbn [mbind option_bind].
    by apply (Small_Add_after_lookup_order SmallOrderedHashSet).
  - intros s Hs Hok Habsent Hfuel.
    rewrite (SmallOrderedHashMap_Add_unfold _ _ _ _ _ _ Hs).
    rewrite Small_HasKey_absent by done. cbn [mbind option_bind].
    by apply (Small_Add_after_lookup_order SmallOrderedHashMap).
  - intros s Hs Hok.
    rewrite (SmallOrderedNameDictionary_Add_unfold _ _ _ _ _ _ Hs).
    by apply (Small_Add_after_lookup_order SmallOrderedNameDictionary).
Qed.

End SmallOrder.

(** ** Deletion in the small form *)

Section SmallDelete.
Context `{Constants} `{Host} `{Primitives} `{!HostOk}.

Lemma Small_FindInChain_sound d s key :
  d ≠ SmallOrderedNameDictionary →
  (∀ entry, 0 ≤ entry < Small_UsedCapacity s →
     GetNextEntry s entry = Small_kNotFound ∨
     0 ≤ GetNextEntry s entry < entry) →
  ∀ fuel raw_entry entry,
  raw_entry = Small_kNotFound ∨ 0 ≤ raw_entry < Small_UsedCapacity s →
  Small_FindInChain fuel d s key raw_entry = Some (Some entry) →
  0 ≤ entry < Small_UsedCapacity s ∧
  SameValueZero (Small_KeyAt d s entry) key = true.
Proof.
  intros Hd Hchains. induction fuel as [|fuel IH]; intros raw_entry entry Hraw;
    cbn [Small_FindInChain]; [done|].
  destruct (decide (raw_entry = Small_kNotFound)) as [|Hne]; [done|].
  destruct Hraw as [|Hraw]; [done|].
  assert (match d with
          | SmallOrderedNameDictionary =>
              bool_decide (Small_KeyAt d s raw_entry = key)
          | _ => SameValueZero (Small_KeyAt d s raw_entry) key
          end = SameValueZero (Small_KeyAt d s raw_entry) key) as ->
    by (by destruct d).
  destruct (SameValueZero _ key) eqn:Esame.
  - intros [= <-]. done.
  - apply IH. destruct (Hchains raw_entry Hraw) as [->|?]; [by left|right; lia].
Qed.

(** A lookup in a small set or map finds a live entry that holds the key
    when there is one. *)
Lemma Small_FindEntry_present d s key fuel :
  d ≠ SmallOrderedNameDictionary →
  IsTheHole key = false →
  small_table_ok d s →
  small_buckets_complete d s →
  small_key_present d s key →
  (Z.to_nat (Small_UsedCapacity s) ≤ fuel)%nat →
  ∃ entry,
    Small_FindEntry fuel d s key = Some (Some entry) ∧
    entry ∈ small_live_slots d s ∧
    SameValueZero (Small_KeyAt d s entry) key = true.
Proof.
  intros Hd Hkey Hok Hcomplete (entry & Hlive & Hsame) Hfuel.
  pose proof Hok as (Hnof & Hnod & Hnob & Hused & _ & _ & _ & Hbuckets & Hchains & _).
  destruct (Hcomplete entry Hlive) as (Hhashed & Hchain).
  rewrite (SameValueZero_GetHash _ _ Hsame) in Hhashed, Hchain.
  destruct (Small_FindInChain_found d s key (Z.to_nat (Small_UsedCapacity s)) Hd
              fuel (HashToFirstEntry s (Smi_ToInt (GetHash key))) Hfuel)
    as (e & He & Hsame'); [by exists entry|].
  assert (Small_FindEntry fuel d s key = Some (Some e)) as Hfind.
  { unfold Small_FindEntry. destruct d; [| |done]; by rewrite Hhashed. }
  exists e. split; [done|].
  destruct (Small_FindInChain_sound d s key Hd Hchains fuel
              (HashToFirstEntry s (Smi_ToInt (GetHash key))) e) as [Hrange _];
    [|exact He|].
  { unfold HashToFirstEntry, Small_HashToBucket.
    pose proof (Z.mod_pos_bound (Smi_ToInt (GetHash key)) (Small_NumberOfBuckets s)
                  ltac:(lia)) as Hb.
    destruct (Hbuckets _ Hb) as [->|?]; [by left|right; lia]. }
  split; [|done]. apply elem_of_small_live_slots. split; [done|].
  unfold small_is_hole.
  destruct (IsTheHole (Small_KeyAt d s e)) eqn:Ehole; [|done].
  apply IsTheHole_true in Ehole. rewrite Ehole in Hsame'.
  by rewrite SameValueZero_hole in Hsame'.
Qed.

Lemma Small_FindEntry_absent d s key fuel :
  d ≠ SmallOrderedNameDictionary →
  IsTheHole key = false →
  small_table_ok d s →
  small_key_absent d s key →
  (Z.to_nat (Small_UsedCapacity s) < fuel)%nat →
  Small_FindEntry fuel d s key = Some None.
Proof.
  intros Hd Hkey Hok Habsent Hfuel.
  pose proof (Small_HasKey_absent d s key fuel Hd Hkey Hok Habsent Hfuel) as Hhas.
  unfold Small_HasKey in Hhas.
  destruct (Small_FindEntry fuel d s key) as [[e|]|]; try done.
Qed.

(** *** The writes of [Delete] *)

Lemma small_tombstoned_header d s entry :
  1 ≤ Small_NumberOfElements s < 256 →
  0 ≤ Small_NumberOfDeletedElements s < 255 →
  let s' := small_tombstoned d s entry in
  Small_NumberOfElements s' = Small_NumberOfElements s - 1 ∧
  Small_NumberOfDeletedElements s' = Small_NumberOfDeletedElements s + 1 ∧
  Small_NumberOfBuckets s' = Small_NumberOfBuckets s ∧
  hash_table s' = hash_table s ∧
  chain_table s' = chain_table s ∧
  length (data_table s') = length (data_table s).
Proof.
  intros Hnof Hnod s'. unfold s', small_tombstoned.
  unfold Small_SetNumberOfDeletedElements, Small_SetNumberOfElements,
    Small_NumberOfElements, Small_NumberOfDeletedElements, Small_NumberOfBuckets
    in *.
  cbn [small_number_of_elements small_number_of_deleted_elements
       small_number_of_buckets hash_table chain_table data_table].
  rewrite !uint8_small by lia.
  destruct d; cbn [Small_kEntrySize];
    [change (seqZ 0 1) with [0]
    |change (seqZ 0 2) with [0; 1]
    |change (seqZ 0 3) with [0; 1; 2]]; cbn [foldl];
    unfold SetDataEntry; cbn; rewrite ?length_array_set; done.
Qed.

Lemma small_payload_tombstoned_eq d s entry :
  0 ≤ entry →
  (entry + 1) * Small_kEntrySize d ≤ Z.of_nat (length (data_table s)) →
  small_payload d (small_tombstoned d s entry) entry
    = replicate (Z.to_nat (Small_kEntrySize d)) the_hole_value.
Proof.
  intros Hlo Hhi. unfold small_payload, small_tombstoned.
  change (GetDataEntry d (Small_SetNumberOfDeletedElements ?a ?n))
    with (GetDataEntry d a).
  change (GetDataEntry d (Small_SetNumberOfElements ?a ?n)) with (GetDataEntry d a).
  destruct d; cbn [Small_kEntrySize] in *;
    [change (seqZ 0 1) with [0]
    |change (seqZ 0 2) with [0; 1]
    |change (seqZ 0 3) with [0; 1; 2]]; cbn [map foldl];
    repeat first
      [ rewrite GetDataEntry_SetDataEntry_eq
          by (unfold SetDataEntry; cbn [data_table Small_kEntrySize];
              rewrite ?length_array_set; lia)
      | rewrite GetDataEntry_SetDataEntry_ne by (cbn [Small_kEntrySize]; lia) ];
    done.
Qed.

Lemma small_payload_tombstoned_ne d s entry e :
  e ≠ entry →
  small_payload d (small_tombstoned d s entry) e = small_payload d s e.
Proof.
  intros Hne. unfold small_payload, small_tombstoned.
  change (GetDataEntry d (Small_SetNumberOfDeletedElements ?a ?n))
    with (GetDataEntry d a).
  change (GetDataEntry d (Small_SetNumberOfElements ?a ?n)) with (GetDataEntry d a).
  apply map_ext_in. intros i Hi%list_elem_of_In%elem_of_seqZ.
  destruct d; cbn [Small_kEntrySize] in *;
    [change (seqZ 0 1) with [0]
    |change (seqZ 0 2) with [0; 1]
    |change (seqZ 0 3) with [0; 1; 2]]; cbn [foldl];
    rewrite !GetDataEntry_SetDataEntry_ne by (cbn [Small_kEntrySize]; lia);
    done.
Qed.

Lemma small_is_hole_tombstoned d s entry e :
  0 ≤ entry →
  (entry + 1) * Small_kEntrySize d ≤ Z.of_nat (length (data_table s)) →
  small_is_hole d (small_tombstoned d s entry) e
    = bool_decide (e = entry) || small_is_hole d s e.
Proof.
  intros Hlo Hhi. rewrite !small_is_hole_payload.
  destruct (decide (e = entry)) as [->|Hne].
  - rewrite bool_decide_true by done.
    rewrite small_payload_tombstoned_eq by done. by destruct d.
  - rewrite bool_decide_false by done.
    by rewrite small_payload_tombstoned_ne.
Qed.

Lemma Small_UsedCapacity_tombstoned d s entry :
  1 ≤ Small_NumberOfElements s < 256 →
  0 ≤ Small_NumberOfDeletedElements s < 255 →
  Small_UsedCapacity (small_tombstoned d s entry) = Small_UsedCapacity s.
Proof.
  intros Hnof Hnod.
  destruct (small_tombstoned_header d s entry Hnof Hnod) as (Hnof' & Hnod' & _).
  unfold Small_UsedCapacity. lia.
Qed.

Lemma small_live_slots_tombstoned d s entry :
  1 ≤ Small_NumberOfElements s < 256 →
  0 ≤ Small_NumberOfDeletedElements s < 255 →
  0 ≤ entry →
  (entry + 1) * Small_kEntrySize d ≤ Z.of_nat (length (data_table s)) →
  small_live_slots d (small_tombstoned d s entry)
    = List.filter (λ e, bool_decide (e ≠ entry)) (small_live_slots d s).
Proof.
  intros Hnof Hnod Hlo Hhi. unfold small_live_slots, Small_IterateEntries.
  rewrite Small_UsedCapacity_tombstoned, filter_filter_and by done.
  apply List.filter_ext_in. intros e He%list_elem_of_In%elem_of_seqZ.
  rewrite small_is_hole_tombstoned by done.
  destruct (decide (e = entry)) as [->|Hne].
  - rewrite bool_decide_true by done.
    rewrite (bool_decide_false (entry ≠ entry)) by (intros Hn; by apply Hn).
    by rewrite andb_false_r.
  - rewrite bool_decide_false by done.
    rewrite (bool_decide_true (e ≠ entry)) by done.
    by rewrite andb_true_r.
Qed.

Lemma NoDup_small_live_slots d s : NoDup (small_live_slots d s).
Proof.
  unfold small_live_slots.
  apply NoDup_ListNoDup, List.NoDup_filter, NoDup_ListNoDup, NoDup_seqZ.
Qed.

Lemma small_chain_from_tombstoned d s entry fuel raw_entry :
  1 ≤ Small_NumberOfElements s < 256 →
  0 ≤ Small_NumberOfDeletedElements s < 255 →
  small_chain_from fuel (small_tombstoned d s entry) raw_entry
    = small_chain_from fuel s raw_entry.
Proof.
  intros Hnof Hnod.
  destruct (small_tombstoned_header d s entry Hnof Hnod)
    as (_ & _ & _ & _ & Hchain & _).
  revert raw_entry. induction fuel as [|fuel IH]; intros raw_entry; [done|].
  cbn [small_chain_from]. case_decide; [done|]. f_equal.
  unfold GetNextEntry. rewrite Hchain. apply IH.
Qed.

(** A live entry of a small table and the bounds its slot keeps. *)
Lemma small_table_ok_slot d s entry :
  small_table_ok d s →
  entry ∈ small_live_slots d s →
  1 ≤ Small_NumberOfElements s < 256 ∧
  0 ≤ Small_NumberOfDeletedElements s < 255 ∧
  0 ≤ entry ∧
  (entry + 1) * Small_kEntrySize d ≤ Z.of_nat (length (data_table s)).
Proof.
  intros (Hnof & Hnod & Hnob & Hused & Hdata & _ & _ & _ & _ & Hholes) Hlive.
  pose proof (length_small_live_slots d s Hnof Hholes) as Hlives.
  pose proof (small_entrysize_pos d) as Hes.
  pose proof Hlive as [Hrange _]%elem_of_small_live_slots.
  assert (1 ≤ Small_NumberOfElements s).
  { destruct (small_live_slots d s); [by apply elem_of_nil in Hlive|].
    simpl in Hlives. lia. }
  unfold Small_UsedCapacity, Small_Capacity, kLoadFactor in *.
  split_and!; try lia. rewrite Hdata. nia.
Qed.

Lemma small_table_ok_tombstoned d s entry :
  small_table_ok d s →
  entry ∈ small_live_slots d s →
  small_table_ok d (small_tombstoned d s entry).
Proof.
  intros Hok Hlive.
  destruct (small_table_ok_slot d s entry Hok Hlive) as (Hnof1 & Hnod1 & Hlo & Hhi).
  destruct Hok as (Hnof & Hnod & Hnob & Hused & Hdata & Hhash & Hchain & Hbuckets
                   & Hchains & Hholes).
  destruct (small_tombstoned_header d s entry Hnof1 Hnod1)
    as (Hnof' & Hnod' & Hnob' & Hhash' & Hchain' & Hdata').
  pose proof (Small_UsedCapacity_tombstoned d s entry Hnof1 Hnod1) as Hused'.
  unfold small_table_ok.
  unfold Small_Capacity, GetFirstEntry, GetNextEntry in *.
  rewrite Hused', Hnof', Hnod', Hnob', Hhash', Hchain', Hdata'.
  split_and!; try done; try lia.
  pose proof (List.filter_length (small_is_hole d (small_tombstoned d s entry))
                (Small_IterateEntries (small_tombstoned d s entry))) as Hsum.
  fold (small_hole_slots d (small_tombstoned d s entry)) in Hsum.
  fold (small_live_slots d (small_tombstoned d s entry)) in Hsum.
  rewrite small_live_slots_tombstoned in Hsum by done.
  pose proof (length_filter_remove (small_live_slots d s) entry
                (NoDup_small_live_slots d s) Hlive) as Hremoved.
  pose proof (length_small_live_slots d s Hnof Hholes) as Hlives.
  unfold Small_IterateEntries in Hsum. rewrite Hused', length_seqZ in Hsum.
  unfold Small_UsedCapacity in Hsum. lia.
Qed.

Lemma small_buckets_complete_tombstoned d s entry :
  small_table_ok d s →
  entry ∈ small_live_slots d s →
  small_buckets_complete d s →
  small_buckets_complete d (small_tombstoned d s entry).
Proof.
  intros Hok Hlive Hcomplete e He.
  destruct (small_table_ok_slot d s entry Hok Hlive) as (Hnof1 & Hnod1 & Hlo & Hhi).
  rewrite small_live_slots_tombstoned in He by done.
  apply list_elem_of_In, filter_In in He as [He%list_elem_of_In Hne].
  apply bool_decide_eq_true in Hne.
  destruct (small_tombstoned_header d s entry Hnof1 Hnod1)
    as (_ & _ & Hnob' & Hhash' & _).
  assert (Small_KeyAt d (small_tombstoned d s entry) e = Small_KeyAt d s e) as ->.
  { pose proof (small_payload_tombstoned_ne d s entry e Hne) as Hp.
    unfold small_payload in Hp. unfold Small_KeyAt, kKeyIndex.
    destruct d; cbn [Small_kEntrySize] in Hp;
      [change (seqZ 0 1) with [0] in Hp
      |change (seqZ 0 2) with [0; 1] in Hp
      |change (seqZ 0 3) with [0; 1; 2] in Hp]; cbn [map] in Hp;
      by injection Hp. }
  destruct (Hcomplete e He) as (Hhashed & Hchain). split; [done|].
  rewrite Small_UsedCapacity_tombstoned, small_chain_from_tombstoned by done.
  unfold HashToFirstEntry, Small_HashToBucket, GetFirstEntry in *.
  by rewrite Hnob', Hhash'.
Qed.

(** X14. The small [Delete] of a key that a set or map does not hold
    answers false and leaves the table as it was.  For a key that a live
    entry holds it answers true and turns one such entry into a tombstone:
    its payload cells are the hole, every other entry keeps its payload and
    its slot, one element fewer and one deleted element more are counted,
    and the table keeps its invariants. *)
Theorem Small_Delete_tombstones_entry fuel d s key :
  d ≠ SmallOrderedNameDictionary →
  IsTheHole key = false →
  small_table_ok d s →
  small_buckets_complete d s →
  (Z.to_nat (Small_UsedCapacity s) < fuel)%nat →
  (small_key_absent d s key → Small_Delete fuel d s key = Some (s, false)) ∧
  (small_key_present d s key →
   ∃ entry s',
     Small_Delete fuel d s key = Some (s', true) ∧
     entry ∈ small_live_slots d s ∧
     SameValueZero (Small_KeyAt d s entry) key = true ∧
     small_payload d s' entry
       = replicate (Z.to_nat (Small_kEntrySize d)) the_hole_value ∧
     (∀ e, e ≠ entry → small_payload d s' e = small_payload d s e) ∧
     small_live_slots d s'
       = List.filter (λ e, bool_decide (e ≠ entry)) (small_live_slots d s) ∧
     Small_NumberOfElements s' = Small_NumberOfElements s - 1 ∧
     Small_NumberOfDeletedElements s' = Small_NumberOfDeletedElements s + 1 ∧
     small_table_ok d s' ∧ small_buckets_complete d s').
Proof.
  intros Hd Hkey Hok Hcomplete Hfuel. split.
  - intros Habsent. unfold Small_Delete.
    by rewrite Small_FindEntry_absent.
  - intros Hpresent.
    destruct (Small_FindEntry_present d s key fuel Hd Hkey Hok Hcomplete Hpresent)
      as (entry & Hfind & Hlive & Hsame); [lia|].
    destruct (small_table_ok_slot d s entry Hok Hlive)
      as (Hnof1 & Hnod1 & Hlo & Hhi).
    destruct (small_tombstoned_header d s entry Hnof1 Hnod1)
      as (Hnof' & Hnod' & _).
    exists entry, (small_tombstoned d s entry).
    split_and!; try done.
    + unfold Small_Delete. by rewrite Hfind.
    + by apply small_payload_tombstoned_eq.
    + intros e Hne. by apply small_payload_tombstoned_ne.
    + by apply small_live_slots_tombstoned.
    + by apply small_table_ok_tombstoned.
    + by apply small_buckets_complete_tombstoned.
Qed.

(** X15. When at most one live entry of a small set or map holds the key,
    the key is gone after [Delete]: [HasKey] answers false and a second
    [Delete] answers false and changes nothing. *)
Theorem Small_Delete_then_HasKey fuel d s key :
  d ≠ SmallOrderedNameDictionary →
  IsTheHole key = false →
  small_table_ok d s →
  small_buckets_complete d s →
  small_key_present d s key →
  (∀ e e', e ∈ small_live_slots d s → e' ∈ small_live_slots d s →
     SameValueZero (Small_KeyAt d s e) key = true →
     SameValueZero (Small_KeyAt d s e') key = true → e = e') →
  (Z.to_nat (Small_UsedCapacity s) < fuel)%nat →
  ∃ s',
    Small_Delete fuel d s key = Some (s', true) ∧
    Small_HasKey fuel d s' key = Some false ∧
    Small_Delete fuel d s' key = Some (s', false).
Proof.
  intros Hd Hkey Hok Hcomplete Hpresent Honce Hfuel.
  destruct (Small_FindEntry_present d s key fuel Hd Hkey Hok Hcomplete Hpresent)
    as (entry & Hfind & Hlive & Hsame); [lia|].
  destruct (small_table_ok_slot d s entry Hok Hlive)
    as (Hnof1 & Hnod1 & Hlo & Hhi).
  exists (small_tombstoned d s entry).
  assert (Small_FindEntry fuel d (small_tombstoned d s entry) key = Some None)
    as Hgone.
  { apply Small_FindEntry_absent; try done.
    - by apply small_table_ok_tombstoned.
    - intros e He. rewrite small_live_slots_tombstoned in He by done.
      apply list_elem_of_In, filter_In in He as [He%list_elem_of_In Hne].
      apply bool_decide_eq_true in Hne.
      assert (Small_KeyAt d (small_tombstoned d s entry) e = Small_KeyAt d s e)
        as ->.
      { pose proof (small_payload_tombstoned_ne d s entry e Hne) as Hp.
        unfold small_payload in Hp. unfold Small_KeyAt, kKeyIndex.
        destruct d; cbn [Small_kEntrySize] in Hp;
          [change (seqZ 0 1) with [0] in Hp
          |change (seqZ 0 2) with [0; 1] in Hp
          |change (seqZ 0 3) with [0; 1; 2] in Hp]; cbn [map] in Hp;
          by injection Hp. }
      destruct (SameValueZero (Small_KeyAt d s e) key) eqn:Esame; [|done].
      by destruct (Hne (Honce e entry He Hlive Esame Hsame)).
    - by rewrite Small_UsedCapacity_tombstoned. }
  unfold Small_Delete, Small_HasKey. rewrite Hfind, Hgone. done.
Qed.

End SmallDelete.

(** ** Requests beyond 2^30 entries *)

Section AllocationOverflow.
Context `{Constants} `{Host}.


End AllocationOverflow.

(** ** Adding and then finding, in the small form and the name dictionaries *)

Section RoundTrips.
Context `{Constants} `{Host} `{Primitives}.

(** The entry a large [Add] has just inserted is the head of the chain of
    its bucket and holds the key. *)
Lemma insert_entry_head d t capacity hash key rest :
  layout_ok d t capacity →
  0 ≤ UsedCapacity t < capacity →
  Z.of_nat (length (key :: rest)) = entrysize d →
  let t' := insert_entry d t hash (key :: rest) in
  NumberOfElements t' = NumberOfElements t + 1 ∧
  KeyAt (entrysize d) t' (UsedCapacity t) = key ∧
  HashToEntryRaw t' hash = UsedCapacity t.
Proof.
  intros Hlay Hused Hcells t'.
  pose proof Hlay as (Hnb & Hcap & Hlen).
  destruct (insert_entry_header d t hash (key :: rest))
    as (Hnof' & _ & Hnob' & _).
  fold t' in Hnof', Hnob'.
  pose proof (entrysize_pos d) as Hes.
  pose proof (HashToBucket_range t hash Hnb) as Hbucket.
  split_and!.
  - done.
  - unfold KeyAt, EntryToIndexRaw, NumberOfBuckets. rewrite Hnob'.
    fold (NumberOfBuckets t). fold (EntryToIndexRaw (entrysize d) t (UsedCapacity t)).
    unfold t'. rewrite (get_insert_entry d t capacity) by done.
    rewrite decide_False by (unfold EntryToIndexRaw, kEntrySize; nia).
    rewrite decide_True by lia.
    by rewrite Z.sub_diag.
  - unfold HashToEntryRaw, HashToBucket, NumberOfBuckets. rewrite Hnob'.
    fold (NumberOfBuckets t). fold (HashToBucket t hash).
    unfold t'. rewrite (get_insert_entry d t capacity) by done.
    by rewrite decide_True.
Qed.

(** The same for the small form. *)
Lemma Small_insert_entry_head d s hash key value details :
  0 ≤ Small_UsedCapacity s < Small_Capacity s →
  Small_Capacity s ≤ 254 →
  1 ≤ Small_NumberOfBuckets s →
  Z.of_nat (length (data_table s)) = Small_Capacity s * Small_kEntrySize d →
  Z.of_nat (length (hash_table s)) = Small_NumberOfBuckets s →
  let s' := Small_insert_entry d s hash (small_writes d key value details) in
  Small_KeyAt d s' (Small_UsedCapacity s) = key ∧
  HashToFirstEntry s' hash = Small_UsedCapacity s ∧
  small_payload d s' (Small_UsedCapacity s) = small_cells d key value details.
Proof.
  intros Hused Hcap Hnob Hdata Hhash s'.
  pose proof (small_entrysize_pos d) as Hes.
  assert (small_payload d s' (Small_UsedCapacity s)
          = small_cells d key value details) as Hpayload.
  { apply small_payload_insert_eq; [lia|]. rewrite Hdata. nia. }
  split_and!; [| |done].
  - unfold small_payload in Hpayload. unfold Small_KeyAt, kKeyIndex.
    destruct d; cbn [Small_kEntrySize small_cells] in Hpayload;
      [change (seqZ 0 1) with [0] in Hpayload
      |change (seqZ 0 2) with [0; 1] in Hpayload
      |change (seqZ 0 3) with [0; 1; 2] in Hpayload]; cbn [map] in Hpayload;
      by injection Hpayload.
  - unfold s', Small_insert_entry, HashToFirstEntry, Small_HashToBucket,
      GetFirstEntry.
    fold (Small_UsedCapacity s).
    set (s1 := foldl _ s _).
    assert (hash_table s1 = hash_table s ∧
            small_number_of_buckets s1 = small_number_of_buckets s) as [Hh Hb].
    { unfold s1. by destruct d. }
    cbn. unfold Small_NumberOfBuckets in *. rewrite Hb, Hh.
    rewrite array_get_set_eq.
    + apply uint8_small. lia.
    + pose proof (Z.mod_pos_bound hash (small_number_of_buckets s)). lia.
Qed.

(** X16. After a small set's or map's [Add] has returned a table, that table
    has the key: [HasKey] answers true, whether the key was there, was
    appended, or the table had to grow first. *)
Theorem Small_Add_then_HasKey fuel isolate table key value isolate' table' :
  SameValueZero key key = true →
  IsUndefined (GetHash key) = false →
  Smi_ToInt (GetHash key) = GetOrCreateHash key →
  (∀ s, small_at isolate table = Some s →
     small_table_ok SmallOrderedHashSet s →
     SmallOrderedHashSet_Add fuel isolate table key = Some (isolate', Some table') →
     ∃ s', small_at isolate' table' = Some s' ∧
           Small_HasKey fuel SmallOrderedHashSet s' key = Some true) ∧
  (∀ s, small_at isolate table = Some s →
     small_table_ok SmallOrderedHashMap s →
     SmallOrderedHashMap_Add fuel isolate table key value
       = Some (isolate', Some table') →
     ∃ s', small_at isolate' table' = Some s' ∧
           Small_HasKey fuel SmallOrderedHashMap s' key = Some true).
Proof.
  intros Hrefl Hhashed Hhash.
  assert (∀ d s,
            d ≠ SmallOrderedNameDictionary →
            small_at isolate table = Some s →
            small_table_ok d s →
            (has_key ← Small_HasKey fuel d s key;
             if (has_key : bool) then Some (isolate, Some table)
             else Small_Add_after_lookup d isolate table s (GetOrCreateHash key)
                    (small_writes d key value 0))
              = Some (isolate', Some table') →
            ∃ s', small_at isolate' table' = Some s' ∧
                  Small_HasKey fuel d s' key = Some true) as Hboth.
  { intros d s Hd Hs Hok.
    destruct (Small_HasKey fuel d s key) as [[|]|] eqn:Ehas;
      cbn [mbind option_bind]; [| |done].
    - intros [= <- <-]. by exists s.
    - intros Hadd.
      assert (∃ n, fuel = S n) as [n ->].
      { destruct fuel as [|n]; [|by exists n].
        unfold Small_HasKey, Small_FindEntry in Ehas.
        destruct d; [| |done]; rewrite Hhashed in Ehas; done. }
      unfold Small_Add_after_lookup in Hadd.
      destruct (Small_table_for_adding d isolate table s)
        as [[isolate1 [table1|]]|] eqn:Efor; cbn [mbind option_bind] in Hadd;
        [|done..].
      destruct (Small_table_for_adding_ok _ _ _ _ _ _ Hs Hok Efor)
        as (s1 & Hs1 & Hlt & Hnof1 & Hnod1 & Hused1 & Hnob1 & Hdata1 & Hhash1 & _).
      rewrite Hs1 in Hadd. cbn [mbind option_bind] in Hadd.
      injection Hadd as <- <-.
      eexists. split; [by apply small_at_store_eq|].
      destruct (Small_insert_entry_head d s1 (GetOrCreateHash key) key value 0)
        as (Hkeyat & Hhead & _); try done; try lia.
      { unfold Small_UsedCapacity in *. lia. }
      unfold Small_HasKey, Small_FindEntry.
      assert (Small_FindInChain (S n) d
                (Small_insert_entry d s1 (GetOrCreateHash key)
                   (small_writes d key value 0)) key
                (HashToFirstEntry
                   (Small_insert_entry d s1 (GetOrCreateHash key)
                      (small_writes d key value 0))
                   (Smi_ToInt (GetHash key)))
              = Some (Some (Small_UsedCapacity s1))) as Hfind.
      { rewrite Hhash, Hhead. cbn [Small_FindInChain].
        rewrite decide_False by (unfold Small_kNotFound; lia).
        rewrite Hkeyat. destruct d; [| |done]; by rewrite Hrefl. }
      destruct d; [| |done]; rewrite Hhashed, Hfind; done. }
  split.
  - intros s Hs Hok. rewrite (SmallOrderedHashSet_Add_unfold _ _ _ _ _ Hs).
    by apply Hboth.
  - intros s Hs Hok. rewrite (SmallOrderedHashMap_Add_unfold _ _ _ _ _ _ Hs).
    by apply Hboth.
Qed.

(** X17. After a name dictionary's [Add] has returned a table, [FindEntry]
    finds the name in that table, in the entry that holds the name, the
    value and the details given; this holds in the large and in the small
    form. *)
Theorem NameDictionary_Add_then_FindEntry fuel isolate table key value details
    isolate' table' :
  2 ≤ kInitialCapacity ≤ 2 ^ 30 →
  kNotFound < 0 →
  (∀ t, large_at isolate table = Some t →
     table_ok OrderedNameDictionary t →
     OrderedNameDictionary_Add isolate table key value details
       = Some (isolate', Some table') →
     ∃ t' entry,
       large_at isolate' table' = Some t' ∧
       OrderedNameDictionary_FindEntry (S fuel) t' key = Some (Some entry) ∧
       payload OrderedNameDictionary t' entry = [key; value; AsSmi details]) ∧
  (∀ s, small_at isolate table = Some s →
     small_table_ok SmallOrderedNameDictionary s →
     SmallOrderedNameDictionary_Add isolate table key value details
       = Some (isolate', Some table') →
     ∃ s' entry,
       small_at isolate' table' = Some s' ∧
       Small_FindEntry (S fuel) SmallOrderedNameDictionary s' key
         = Some (Some entry) ∧
       small_payload SmallOrderedNameDictionary s' entry
         = [key; value; AsSmi details]).
Proof.
  intros Hk Hnf. split.
  - intros t Ht Hok. rewrite OrderedNameDictionary_Add_unfold. intros Hadd.
    destruct (Add_after_lookup_ok _ _ _ _ _ _ _ _ _ Ht Hok Hk Hadd)
      as (isolate1 & t1 & capacity & Hensure & Ht1 & Ht' & _ & Hlay & Hused & _).
    destruct (insert_entry_head OrderedNameDictionary t1 capacity (Name_hash key)
                key [value; AsSmi details] Hlay Hused eq_refl)
      as (Hnof' & Hkeyat & Hhead).
    assert (0 ≤ NumberOfElements t1) as Hnof1.
    { destruct (EnsureCapacityForAdding_ok _ _ _ _ _ _ Ht Hok Hk Hensure)
        as (t1' & capacity' & Ht1' & _ & _ & _ & _ & Hcase).
      rewrite Ht1 in Ht1'. injection Ht1' as <-.
      destruct Hok as (Hnof & _).
      destruct Hcase as [(_ & _ & -> & _)|(t0 & Hre & _)]; [done|].
      destruct Hre as (_ & _ & _ & Hnofnew & _). unfold NumberOfElements in *.
      by rewrite Hnofnew. }
    eexists _, (UsedCapacity t1). split; [exact Ht'|]. split.
    + unfold OrderedNameDictionary_FindEntry.
      rewrite decide_False by lia. rewrite Hhead.
      cbn [FindInChain_by_identity]. rewrite decide_False by lia.
      cbn [entrysize] in Hkeyat. rewrite Hkeyat.
      by rewrite bool_decide_eq_true_2.
    + by apply (payload_insert_entry_eq OrderedNameDictionary t1 capacity).
  - intros s Hs Hok.
    rewrite (SmallOrderedNameDictionary_Add_unfold _ _ _ _ _ _ Hs).
    unfold Small_Add_after_lookup.
    destruct (Small_table_for_adding SmallOrderedNameDictionary isolate table s)
      as [[isolate1 [table1|]]|] eqn:Efor; cbn [mbind option_bind]; [|done..].
    destruct (Small_table_for_adding_ok _ _ _ _ _ _ Hs Hok Efor)
      as (s1 & Hs1 & Hlt & Hnof1 & Hnod1 & Hused1 & Hnob1 & Hdata1 & Hhash1 & _).
    rewrite Hs1. cbn [mbind option_bind]. intros [= <- <-].
    destruct (Small_insert_entry_head SmallOrderedNameDictionary s1 (Name_hash key)
                key value details) as (Hkeyat & Hhead & Hpayload);
      try done; try lia.
    { unfold Small_UsedCapacity in *. lia. }
    eexists _, (Small_UsedCapacity s1).
    split; [by apply small_at_store_eq|]. split; [|exact Hpayload].
    unfold Small_FindEntry.
    change [(kValueIndex, value); (kKeyIndex, key);
            (kPropertyDetailsIndex, AsSmi details)]
      with (small_writes SmallOrderedNameDictionary key value details).
    rewrite Hhead. cbn [Small_FindInChain].
    rewrite decide_False by (unfold Small_kNotFound; lia).
    rewrite Hkeyat. by rewrite bool_decide_eq_true_2.
Qed.

End RoundTrips.

(** ** Deleting an entry of a name dictionary *)

Section DictionaryDelete.
Context `{Constants} `{Host} `{Primitives}.

(** Writing a payload cell other than the key of a slot changes neither the
    header, nor a key, a chain link or a bucket head, nor the payload of
    another slot. *)
Lemma set_payload_cell d t e0 off v :
  1 ≤ off < entrysize d → 0 ≤ e0 → 0 ≤ NumberOfBuckets t →
  let t' := set t (EntryToIndexRaw (entrysize d) t e0 + off) v in
  number_of_elements t' = number_of_elements t ∧
  number_of_deleted_elements t' = number_of_deleted_elements t ∧
  number_of_buckets t' = number_of_buckets t ∧
  length (elements t') = length (elements t) ∧
  (∀ e, 0 ≤ e → KeyAt (entrysize d) t' e = KeyAt (entrysize d) t e) ∧
  (∀ e, 0 ≤ e →
     get t' (EntryToIndexRaw (entrysize d) t' e + kChainOffset (entrysize d))
       = get t (EntryToIndexRaw (entrysize d) t e + kChainOffset (entrysize d))) ∧
  (∀ b, b < NumberOfBuckets t →
     get t' (HashTableStartIndex + b) = get t (HashTableStartIndex + b)) ∧
  (∀ e, 0 ≤ e → e ≠ e0 → payload d t' e = payload d t e).
Proof.
  intros Hoff He0 Hnb t'.
  assert (∀ e, EntryToIndexRaw (entrysize d) t' e = EntryToIndexRaw (entrysize d) t e)
    as Hidx by done.
  split_and!; try done.
  - apply length_elements_set.
  - intros e He. unfold KeyAt. rewrite Hidx. unfold t'.
    apply get_set_ne. unfold EntryToIndexRaw, kEntrySize.
    destruct (Z.lt_trichotomy e e0) as [?|[->|?]]; nia.
  - intros e He. rewrite Hidx. unfold t'.
    apply get_set_ne. unfold EntryToIndexRaw, kEntrySize, kChainOffset.
    destruct (Z.lt_trichotomy e e0) as [?|[->|?]]; nia.
  - intros b Hb. unfold t'. apply get_set_ne.
    unfold EntryToIndexRaw, kEntrySize. nia.
  - intros e He Hne. unfold payload. rewrite Hidx.
    apply map_ext_in. intros i Hi%list_elem_of_In%elem_of_seqZ.
    unfold t'. apply get_set_ne. unfold EntryToIndexRaw, kEntrySize.
    destruct (Z.lt_trichotomy e e0) as [?|[->|?]]; [nia|done|nia].
Qed.

Lemma table_ok_set_payload_cell d t e0 off v :
  1 ≤ off < entrysize d → 0 ≤ e0 →
  table_ok d t →
  let t' := set t (EntryToIndexRaw (entrysize d) t e0 + off) v in
  table_ok d t' ∧ live_slots d t' = live_slots d t.
Proof.
  intros Hoff He0 (Hnof & Hnod & Hcap & Hlay & Hch & Hholes) t'.
  assert (0 ≤ NumberOfBuckets t) as Hnb.
  { destruct Hlay as [(? & _)|[-> _]]; lia. }
  destruct (set_payload_cell d t e0 off v Hoff He0 Hnb)
    as (Hnof' & Hnod' & Hnob' & Hlen' & Hkeys & Hchains & Hbuckets & _).
  fold t' in Hnof', Hnod', Hnob', Hlen', Hkeys, Hchains, Hbuckets.
  assert (UsedCapacity t' = UsedCapacity t) as Hused'
    by (unfold UsedCapacity, NumberOfElements, NumberOfDeletedElements; lia).
  assert (∀ f : bool → bool,
            List.filter (λ e, f (is_hole d t' e)) (IterateEntries t')
            = List.filter (λ e, f (is_hole d t e)) (IterateEntries t)) as Hfilter.
  { intros f. unfold IterateEntries. rewrite Hused'.
    apply List.filter_ext_in. intros e He%list_elem_of_In%elem_of_seqZ.
    unfold is_hole. by rewrite Hkeys by lia. }
  assert (live_slots d t' = live_slots d t) as Hlive by apply (Hfilter negb).
  assert (hole_slots d t' = hole_slots d t) as Hhole by apply (Hfilter id).
  split; [|done].
  unfold table_ok, Capacity, NumberOfBuckets, NumberOfElements,
    NumberOfDeletedElements in *.
  rewrite Hused', Hhole, Hnof', Hnod', Hnob'. split_and!; try done; try lia.
  - destruct Hlay as [(Hn & Hc & Hl)|Hempty]; [left|by right].
    unfold layout_ok, NumberOfBuckets. rewrite Hnob', Hlen'. done.
  - destruct Hch as [Hb Hc]. split.
    + intros b Hb'. unfold NumberOfBuckets in Hb'. rewrite Hnob' in Hb'.
      rewrite Hbuckets by (unfold NumberOfBuckets; lia). by apply Hb.
    + intros e He. rewrite Hchains by lia. by apply Hc.
Qed.

(** The table [DeleteEntry] leaves before it shrinks: the entry is
    tombstoned and its details are the empty details. *)
Lemma DeleteEntry_writes t entry :
  SetNumberOfDeletedElements
    (SetNumberOfElements
       (OrderedNameDictionary_SetEntry t entry the_hole_value the_hole_value
          PropertyDetails_Empty)
       (NumberOfElements t - 1))
    (NumberOfDeletedElements t + 1)
  = set (tombstoned OrderedNameDictionary t entry)
      (EntryToIndexRaw 3 (tombstoned OrderedNameDictionary t entry) entry
       + kPropertyDetailsOffset)
      (AsSmi PropertyDetails_Empty).
Proof.
  unfold tombstoned, OrderedNameDictionary_SetEntry, kValueOffset,
    kPropertyDetailsOffset.
  cbn [entrysize].
  change (replicate (Z.to_nat 3) the_hole_value)
    with [the_hole_value; the_hole_value; the_hole_value].
  cbn [write_cells].
  set (index := EntryToIndexRaw 3 t entry).
  change (EntryToIndexRaw 3 (SetNumberOfDeletedElements ?a ?n) entry)
    with index.
  unfold set, with_elements, SetNumberOfDeletedElements, SetNumberOfElements.
  cbn. f_equal.
  replace (index + 1 + 1 - HashTableStartIndex)
    with (index + 2 - HashTableStartIndex) by lia.
  generalize (array_set
                (array_set (elements t) (index - HashTableStartIndex)
                   the_hole_value)
                (index + 1 - HashTableStartIndex) the_hole_value).
  intros a. unfold array_set. case_decide; [|done].
  by rewrite list_insert_insert_eq.
Qed.

Lemma OrderedNameDictionary_DeleteEntry_unfold isolate table entry :
  OrderedNameDictionary_DeleteEntry isolate table entry =
    (t ← large_at isolate table;
     Shrink OrderedNameDictionary
       (store isolate table
          (LargeTable
             (set (tombstoned OrderedNameDictionary t entry)
                (EntryToIndexRaw 3 (tombstoned OrderedNameDictionary t entry) entry
                 + kPropertyDetailsOffset)
                (AsSmi PropertyDetails_Empty))))
       table).
Proof.
  unfold OrderedNameDictionary_DeleteEntry.
  destruct (large_at isolate table) as [t|]; [|done]. cbn [mbind option_bind].
  cbv zeta. by rewrite <- DeleteEntry_writes.
Qed.

(** X18. [OrderedNameDictionary::DeleteEntry] of a live entry removes that
    entry and no other: the live entries of the table it returns are the
    other live entries of the table given, in their order, whether or not
    the table was shrunk, and one element fewer is counted.  When the table
    was not shrunk the slot of the entry holds the hole as key and value and
    the empty details. *)
Theorem NameDictionary_DeleteEntry_removes isolate table t entry k :
  large_at isolate table = Some t →
  table_ok OrderedNameDictionary t →
  entry ∈ live_slots OrderedNameDictionary t →
  2 ≤ kInitialCapacity ≤ 2 ^ 30 →
  0 ≤ k → kInitialCapacity = 2 ^ k →
  kInitialCapacity ≤ MaxCapacity 3 →
  Capacity t ≤ MaxCapacity 3 →
  ∃ isolate' table' t',
    OrderedNameDictionary_DeleteEntry isolate table entry
      = Some (isolate', table') ∧
    large_at isolate' table' = Some t' ∧
    live_entries OrderedNameDictionary t'
      = map (payload OrderedNameDictionary t)
          (List.filter (λ e, bool_decide (e ≠ entry))
             (live_slots OrderedNameDictionary t)) ∧
    NumberOfElements t' = NumberOfElements t - 1 ∧
    (table' = table →
     payload OrderedNameDictionary t' entry
       = [the_hole_value; the_hole_value; AsSmi PropertyDetails_Empty]).
Proof.
  intros Ht Hok Hlive Hk Hk0 Hpow Hinit Hmax.
  pose proof (large_at_lt _ _ _ Ht) as Hlt.
  set (d := OrderedNameDictionary) in *.
  destruct (table_ok_layout d t entry Hok Hlive) as (Hlay & Hentry & Hnb).
  pose proof (table_ok_tombstoned d t entry Hok Hlive) as Hok1.
  set (t1 := tombstoned d t entry) in *.
  destruct (table_ok_set_payload_cell d t1 entry kPropertyDetailsOffset
              (AsSmi PropertyDetails_Empty)) as [Hok2 Hslots2];
    [done|lia|done|].
  set (t2 := set t1 _ _) in *.
  assert (0 ≤ NumberOfBuckets t1) as Hnb1.
  { unfold t1, NumberOfBuckets.
    rewrite (proj1 (proj2 (proj2 (tombstoned_header d t entry)))).
    unfold NumberOfBuckets in Hnb. lia. }
  destruct (set_payload_cell d t1 entry kPropertyDetailsOffset
              (AsSmi PropertyDetails_Empty)) as (Hnof2 & _ & Hnob2 & _ & _ & _ & _
              & Hpayload2); [done|lia|done|].
  fold t2 in Hnof2, Hnob2, Hpayload2.
  destruct (tombstoned_header d t entry) as (Hnof1 & _ & Hnob1 & _).
  fold t1 in Hnof1, Hnob1.
  assert (live_slots d t2
          = List.filter (λ e, bool_decide (e ≠ entry)) (live_slots d t)) as Hslots.
  { rewrite Hslots2. by apply (live_slots_tombstoned d t (Capacity t)). }
  assert (live_entries d t2
          = map (payload d t)
              (List.filter (λ e, bool_decide (e ≠ entry)) (live_slots d t)))
    as Hentries.
  { unfold live_entries. rewrite Hslots. apply map_ext_in.
    intros e [He Hne]%filter_In. apply bool_decide_eq_true in Hne.
    apply list_elem_of_In, elem_of_live_slots in He as [He _].
    rewrite Hpayload2 by (done || lia).
    apply (payload_tombstoned_ne d t (Capacity t)); (done || lia). }
  assert (NumberOfElements t2 = NumberOfElements t - 1) as Hnof
    by (unfold NumberOfElements; lia).
  assert (Capacity t2 = Capacity t) as Hcap
    by (unfold Capacity, NumberOfBuckets; by rewrite Hnob2, Hnob1).
  assert (payload d t2 entry
          = [the_hole_value; the_hole_value; AsSmi PropertyDetails_Empty])
    as Hslot.
  { pose proof (payload_tombstoned_eq d t (Capacity t) entry Hlay Hentry) as Hp.
    fold t1 in Hp. unfold payload in Hp |- *.
    change (EntryToIndexRaw (entrysize d) t2 entry)
      with (EntryToIndexRaw (entrysize d) t1 entry).
    cbn [entrysize d] in Hp |- *.
    change (seqZ 0 3) with [0; 1; 2] in Hp |- *. cbn [map] in Hp |- *.
    change (replicate (Z.to_nat 3) the_hole_value)
      with [the_hole_value; the_hole_value; the_hole_value] in Hp.
    injection Hp as Hp0 Hp1 _.
    unfold t2, kPropertyDetailsOffset. change (entrysize d) with 3.
    set (index := EntryToIndexRaw 3 t1 entry) in *.
    rewrite (get_set_ne t1 (index + 2) (index + 0)) by lia.
    rewrite (get_set_ne t1 (index + 2) (index + 1)) by lia.
    rewrite Hp0, Hp1.
    rewrite get_set_eq; [done|]. unfold index.
    destruct Hok1 as (_ & _ & _ & Hlay1 & _).
    unfold layout_ok, EntryToIndexRaw, kEntrySize, Capacity, kLoadFactor,
      NumberOfBuckets in *.
    change (entrysize d) with 3 in *.
    destruct Hlay1 as [(_ & _ & Hlen1)|[Hzero _]]; lia. }
  rewrite OrderedNameDictionary_DeleteEntry_unfold, Ht. cbn [mbind option_bind].
  fold d t1 t2.
  set (isolate2 := store isolate table (LargeTable t2)).
  assert (large_at isolate2 table = Some t2) as Ht2
    by (by apply large_at_store_eq).
  assert (length (heap isolate2) = length (heap isolate)) as Hlen2
    by apply length_heap_store.
  change (Shrink d (store isolate table _) table) with (Shrink d isolate2 table).
  unfold Shrink. rewrite Ht2. cbn [mbind option_bind].
  rewrite shiftr_2_div4.
  destruct (decide (NumberOfElements t2 >= Capacity t2 / 4)) as [Hkeep|Hshrink].
  { exists isolate2, table, t2. split_and!; done. }
  destruct (Shrink_rehashes d isolate2 table t2 k Ht2 Hok2 Hk Hk0 Hpow)
    as (_ & _ & _ & isolate' & old & new_t & Hrehash & Hre);
    [done|by rewrite Hcap|lia|].
  rewrite Hrehash. cbn [mbind option_bind].
  pose proof Hok2 as (Hnof2' & _ & _ & _ & _ & Hholes2).
  pose proof (length_live_slots d t2 Hnof2' Hholes2) as Hlives2.
  destruct (rehashed_large_at _ _ _ _ _ _ _ _ Hre) as (Hnew & _); [lia|].
  destruct (rehashed_live_entries _ _ _ _ _ _ _ _ Hre Hlives2) as [_ Hsame].
  pose proof Hre as (_ & _ & _ & Hnofnew & _).
  exists isolate', (length (heap isolate2)), new_t.
  split_and!; try done.
  - by rewrite Hsame.
  - lia.
Qed.

End DictionaryDelete.

Section SmallDictionaryDelete.
Context `{Constants} `{Host} `{Primitives}.

(** The payloads after [SmallOrderedNameDictionary::SetEntry]. *)
Lemma small_payload_SetEntry s entry key value details :
  0 ≤ entry →
  (entry + 1) * 3 ≤ Z.of_nat (length (data_table s)) →
  let s' := SmallOrderedNameDictionary_SetEntry s entry key value details in
  small_payload SmallOrderedNameDictionary s' entry = [key; value; AsSmi details] ∧
  (∀ e, e ≠ entry →
     small_payload SmallOrderedNameDictionary s' e
       = small_payload SmallOrderedNameDictionary s e).
Proof.
  intros Hlo Hhi s'. unfold s', SmallOrderedNameDictionary_SetEntry,
    small_payload, kKeyIndex, kValueIndex, kPropertyDetailsIndex.
  cbn [Small_kEntrySize]. change (seqZ 0 3) with [0; 1; 2]. cbn [map].
  split.
  - repeat first
      [ rewrite GetDataEntry_SetDataEntry_eq
          by (unfold SetDataEntry; cbn [data_table Small_kEntrySize];
              rewrite ?length_array_set; lia)
      | rewrite GetDataEntry_SetDataEntry_ne by (cbn [Small_kEntrySize]; lia) ];
      done.
  - intros e Hne.
    rewrite !GetDataEntry_SetDataEntry_ne by (cbn [Small_kEntrySize]; lia).
    done.
Qed.

(** X19. [SmallOrderedNameDictionary::DeleteEntry] of a live entry removes
    that entry and no other: the live entries of the table it returns are
    the other live entries of the table given, in their order, whether or
    not the table was shrunk, and one element fewer is counted.  When the
    table was not shrunk the slot of the entry holds the hole as key and
    value and the empty details. *)
Theorem Small_DeleteEntry_removes isolate table s entry :
  small_at isolate table = Some s →
  small_table_ok SmallOrderedNameDictionary s →
  entry ∈ small_live_slots SmallOrderedNameDictionary s →
  ∃ isolate' table' s',
    SmallOrderedNameDictionary_DeleteEntry isolate table entry
      = Some (isolate', table') ∧
    small_at isolate' table' = Some s' ∧
    small_live_entries SmallOrderedNameDictionary s'
      = map (small_payload SmallOrderedNameDictionary s)
          (List.filter (λ e, bool_decide (e ≠ entry))
             (small_live_slots SmallOrderedNameDictionary s)) ∧
    Small_NumberOfElements s' = Small_NumberOfElements s - 1 ∧
    (table' = table →
     small_payload SmallOrderedNameDictionary s' entry
       = [the_hole_value; the_hole_value; AsSmi PropertyDetails_Empty]).
Proof.
  intros Hs Hok Hlive.
  pose proof (small_at_lt _ _ _ Hs) as Hlt.
  destruct (small_table_ok_slot SmallOrderedNameDictionary s entry Hok Hlive) as (Hnof1 & Hnod1 & Hlo & Hhi).
  pose proof Hok as (Hnof & Hnod & Hnob & Hused & _ & _ & _ & _ & _ & Hholes).
  pose proof (length_small_live_slots SmallOrderedNameDictionary s Hnof Hholes) as Hlives.
  destruct (small_payload_SetEntry s entry the_hole_value the_hole_value
              PropertyDetails_Empty Hlo Hhi) as [Hslot Hothers].
  unfold SmallOrderedNameDictionary_DeleteEntry. rewrite Hs.
  cbn [mbind option_bind]. cbv zeta.
  set (s1 := SmallOrderedNameDictionary_SetEntry s entry _ _ _) in *.
  set (s2 := Small_SetNumberOfDeletedElements
               (Small_SetNumberOfElements s1 _) _).
  assert (∀ e, small_payload SmallOrderedNameDictionary s2 e = small_payload SmallOrderedNameDictionary s1 e) as Hp2 by done.
  assert (Small_NumberOfElements s2 = Small_NumberOfElements s - 1) as Hnof2.
  { transitivity (uint8 (Small_NumberOfElements s - 1)); [done|].
    apply uint8_small. lia. }
  assert (Small_NumberOfDeletedElements s2 = Small_NumberOfDeletedElements s + 1)
    as Hnod2.
  { transitivity (uint8 (Small_NumberOfDeletedElements s + 1)); [done|].
    apply uint8_small. lia. }
  assert (Small_Capacity s2 = Small_Capacity s) as Hcap2 by done.
  assert (small_live_slots SmallOrderedNameDictionary s2
          = List.filter (λ e, bool_decide (e ≠ entry)) (small_live_slots SmallOrderedNameDictionary s))
    as Hslots.
  { unfold small_live_slots, Small_IterateEntries, Small_UsedCapacity.
    rewrite Hnof2, Hnod2, filter_filter_and.
    replace (Small_NumberOfElements s - 1 + (Small_NumberOfDeletedElements s + 1))
      with (Small_NumberOfElements s + Small_NumberOfDeletedElements s) by lia.
    apply List.filter_ext_in. intros e He.
    rewrite !small_is_hole_payload, Hp2.
    destruct (decide (e = entry)) as [->|Hne].
    - rewrite Hslot.
      rewrite (bool_decide_false (entry ≠ entry)) by (intros Hn; by apply Hn).
      by rewrite andb_false_r.
    - rewrite Hothers by done. rewrite (bool_decide_true (e ≠ entry)) by done.
      by rewrite andb_true_r. }
  assert (small_live_entries SmallOrderedNameDictionary s2
          = map (small_payload SmallOrderedNameDictionary s)
              (List.filter (λ e, bool_decide (e ≠ entry)) (small_live_slots SmallOrderedNameDictionary s)))
    as Hentries.
  { unfold small_live_entries. rewrite Hslots. apply map_ext_in.
    intros e [_ Hne]%filter_In. apply bool_decide_eq_true in Hne.
    by rewrite Hp2, Hothers. }
  assert (Z.of_nat (length (small_live_slots SmallOrderedNameDictionary s2)) = Small_NumberOfElements s2)
    as Hlives2.
  { rewrite Hslots, Hnof2.
    pose proof (length_filter_remove (small_live_slots SmallOrderedNameDictionary s) entry
                  (NoDup_small_live_slots SmallOrderedNameDictionary s) Hlive). lia. }
  set (isolate2 := store isolate table (SmallTable s2)).
  assert (small_at isolate2 table = Some s2) as Hs2
    by (by apply small_at_store_eq).
  assert (length (heap isolate2) = length (heap isolate)) as Hlen2
    by apply length_heap_store.
  unfold Small_Shrink. rewrite Hs2. cbn [mbind option_bind].
  rewrite shiftr_2_div4.
  destruct (decide (Small_NumberOfElements s2 >= Small_Capacity s2 / 4))
    as [Hkeep|Hshrink].
  { exists isolate2, table, s2. split_and!; done. }
  assert (0 ≤ Small_Capacity s2) as Hcap
    by (rewrite Hcap2; unfold Small_Capacity, kLoadFactor; lia).
  rewrite Z.quot_div_nonneg by lia.
  assert (Small_Capacity s2 / 4 ≤ Small_Capacity s2 / 2) as Hquarter.
  { apply Z.div_le_compat_l; lia. }
  destruct (Small_Derived_Rehash_entries SmallOrderedNameDictionary isolate2 table s2
              (Small_Capacity s2 / 2) Hs2)
    as (isolate' & new_s & Hr & Hnew & _ & _ & Hsame & Hnof' & _);
    [lia|done|lia|].
  exists isolate', (length (heap isolate2)), new_s.
  split_and!; try done.
  - by rewrite Hsame.
  - lia.
  - lia.
Qed.

End SmallDictionaryDelete.

(** ** The invariants of a large table are kept *)

Section ChainsGrow.
Context `{Constants} `{Host}.

Lemma chain_from_mono d t e : ∀ fuel head,
  e ∈ chain_from fuel d t head → e ∈ chain_from (S fuel) d t head.
Proof.
  induction fuel as [|fuel IH]; intros head; [by intros ?%elem_of_nil|].
  cbn [chain_from] in *. case_decide; [done|].
  intros [->|Hin]%elem_of_cons; [by left|].
  right. by apply IH.
Qed.

(** Two tables with the same chain links below [n] have the same chains
    from a head below [n]. *)
Lemma chain_from_agree d t t' n :
  chains_upto d n t →
  (∀ e, 0 ≤ e < n →
     get t' (EntryToIndexRaw (entrysize d) t' e + kChainOffset (entrysize d))
       = get t (EntryToIndexRaw (entrysize d) t e + kChainOffset (entrysize d))) →
  ∀ fuel head,
  head = kNotFound ∨ 0 ≤ head < n →
  chain_from fuel d t' head = chain_from fuel d t head.
Proof.
  intros [_ Hchains] Hlinks. induction fuel as [|fuel IH]; intros head Hhead;
    cbn [chain_from]; [done|].
  destruct (decide (head = kNotFound)) as [|Hne]; [done|].
  destruct Hhead as [|Hhead]; [done|].
  assert (NextChainEntryRaw (entrysize d) t' head
          = NextChainEntryRaw (entrysize d) t head) as ->.
  { unfold NextChainEntryRaw. by rewrite Hlinks. }
  f_equal. apply IH.
  destruct (Hchains head Hhead) as (x & Hx & Hnext).
  unfold NextChainEntryRaw. rewrite Hx. cbn [Smi_ToInt].
  destruct Hnext as [->|?]; [by left|right; lia].
Qed.

(** Entry [n] is put at the head of the chain of bucket [b]: it is on the
    chains of the hashes of that bucket, and every chain keeps the entries
    it had. *)
Lemma chain_from_prepended d t t' n b :
  0 ≤ n → kNotFound < 0 →
  chains_upto d n t →
  1 ≤ NumberOfBuckets t →
  NumberOfBuckets t' = NumberOfBuckets t →
  0 ≤ b < NumberOfBuckets t →
  get t' (HashTableStartIndex + b) = Smi n →
  get t' (EntryToIndexRaw (entrysize d) t' n + kChainOffset (entrysize d))
    = get t (HashTableStartIndex + b) →
  (∀ b', 0 ≤ b' < NumberOfBuckets t → b' ≠ b →
     get t' (HashTableStartIndex + b') = get t (HashTableStartIndex + b')) →
  (∀ e, 0 ≤ e < n →
     get t' (EntryToIndexRaw (entrysize d) t' e + kChainOffset (entrysize d))
       = get t (EntryToIndexRaw (entrysize d) t e + kChainOffset (entrysize d))) →
  (∀ h, HashToBucket t h = b →
     n ∈ chain_from (Z.to_nat (n + 1)) d t' (HashToEntryRaw t' h)) ∧
  (∀ h e, e ∈ chain_from (Z.to_nat n) d t (HashToEntryRaw t h) →
     e ∈ chain_from (Z.to_nat (n + 1)) d t' (HashToEntryRaw t' h)).
Proof.
  intros Hn Hnf Hch Hnb Hnob Hb Hhead Hlink Hbuckets Hlinks.
  assert (Z.to_nat (n + 1) = S (Z.to_nat n)) as -> by lia.
  assert (∀ h, HashToBucket t' h = HashToBucket t h) as Hbucket
    by (intros h; unfold HashToBucket; by rewrite Hnob).
  assert (∀ h, HashToBucket t h = b → HashToEntryRaw t' h = n) as Hnew.
  { intros h Hh. unfold HashToEntryRaw. by rewrite Hbucket, Hh, Hhead. }
  assert (∀ h, HashToEntryRaw t h = kNotFound ∨ 0 ≤ HashToEntryRaw t h < n)
    as Hold.
  { intros h. destruct Hch as [Hheads _].
    destruct (Hheads _ (HashToBucket_range t h Hnb)) as (x & Hx & Hrange).
    unfold HashToEntryRaw. rewrite Hx. cbn [Smi_ToInt].
    destruct Hrange as [->|?]; [by left|by right]. }
  split.
  - intros h Hh. rewrite (Hnew h Hh). cbn [chain_from].
    rewrite decide_False by lia. by left.
  - intros h e He.
    destruct (decide (HashToBucket t h = b)) as [Hh|Hh].
    + rewrite (Hnew h Hh). cbn [chain_from].
      rewrite decide_False by lia. right.
      assert (NextChainEntryRaw (entrysize d) t' n = HashToEntryRaw t h) as ->.
      { unfold NextChainEntryRaw, HashToEntryRaw. by rewrite Hlink, Hh. }
      by rewrite (chain_from_agree d t t' n Hch Hlinks).
    + assert (HashToEntryRaw t' h = HashToEntryRaw t h) as ->.
      { unfold HashToEntryRaw. rewrite Hbucket.
        rewrite Hbuckets; [done| |done]. by apply HashToBucket_range. }
      rewrite (chain_from_agree d t t' n Hch Hlinks) by done.
      by apply chain_from_mono.
Qed.

(** [insert_entry] puts the new entry at the head of its bucket. *)
Lemma chain_from_insert_entry d t capacity hash cells :
  layout_ok d t capacity →
  0 ≤ UsedCapacity t < capacity →
  Z.of_nat (length cells) = entrysize d →
  kNotFound < 0 →
  chains_upto d (UsedCapacity t) t →
  let t' := insert_entry d t hash cells in
  (∀ h, HashToBucket t h = HashToBucket t hash →
     UsedCapacity t
       ∈ chain_from (Z.to_nat (UsedCapacity t + 1)) d t' (HashToEntryRaw t' h)) ∧
  (∀ h e, e ∈ chain_from (Z.to_nat (UsedCapacity t)) d t (HashToEntryRaw t h) →
     e ∈ chain_from (Z.to_nat (UsedCapacity t + 1)) d t' (HashToEntryRaw t' h)).
Proof.
  intros Hlay Hused Hcells Hnf Hch t'.
  pose proof Hlay as (Hnb & Hcap & Hlen).
  pose proof (entrysize_pos d) as Hes.
  pose proof (HashToBucket_range t hash Hnb) as Hbucket.
  destruct (insert_entry_header d t hash cells) as (_ & _ & Hnob' & _).
  fold t' in Hnob'.
  assert (NumberOfBuckets t' = NumberOfBuckets t) as Hnob by done.
  assert (∀ e, EntryToIndexRaw (entrysize d) t' e = EntryToIndexRaw (entrysize d) t e)
    as Hidx by (intros e; unfold EntryToIndexRaw; by rewrite Hnob).
  apply (chain_from_prepended d t t' (UsedCapacity t) (HashToBucket t hash));
    try done; try lia.
  - unfold t'. rewrite (get_insert_entry d t capacity) by done.
    by rewrite decide_True.
  - rewrite Hidx. unfold t'. rewrite (get_insert_entry d t capacity) by done.
    rewrite decide_False by (unfold EntryToIndexRaw, kEntrySize, kChainOffset; nia).
    rewrite decide_False by (unfold kChainOffset; lia).
    rewrite decide_True by done.
    destruct Hch as [Hheads _].
    destruct (Hheads _ Hbucket) as (x & Hx & _).
    unfold HashToEntryRaw. by rewrite Hx.
  - intros b' Hb' Hne. unfold t'.
    rewrite (get_insert_entry d t capacity) by done.
    rewrite decide_False by lia.
    rewrite decide_False by (unfold EntryToIndexRaw, kEntrySize; nia).
    rewrite decide_False; [done|].
    unfold EntryToIndexRaw, kEntrySize, kChainOffset. nia.
  - intros e He. rewrite Hidx. unfold t'.
    rewrite (get_insert_entry d t capacity) by done.
    rewrite decide_False by (unfold EntryToIndexRaw, kEntrySize, kChainOffset; nia).
    rewrite decide_False by (unfold EntryToIndexRaw, kEntrySize, kChainOffset; nia).
    rewrite decide_False; [done|].
    unfold EntryToIndexRaw, kEntrySize, kChainOffset. nia.
Qed.

End ChainsGrow.

Section InsertKeepsInvariants.
Context `{Constants} `{Host} `{Primitives}.

Lemma payload_KeyAt d t e :
  ∃ rest, payload d t e = KeyAt (entrysize d) t e :: rest.
Proof.
  unfold payload, KeyAt.
  destruct d; cbn [entrysize];
    [change (seqZ 0 1) with [0]
    |change (seqZ 0 2) with [0; 1]
    |change (seqZ 0 3) with [0; 1; 2]]; cbn [map]; rewrite Z.add_0_r;
    by eexists.
Qed.

Lemma KeyAt_of_payload d t t' e e' :
  payload d t' e' = payload d t e →
  KeyAt (entrysize d) t' e' = KeyAt (entrysize d) t e.
Proof.
  destruct (payload_KeyAt d t e) as [rest ->].
  destruct (payload_KeyAt d t' e') as [rest' ->]. by intros [= -> _].
Qed.

(** The table after an insertion keeps the invariants of a large table. *)
Lemma table_ok_insert_entry d t hash cells :
  table_ok d t →
  UsedCapacity t < Capacity t →
  Z.of_nat (length cells) = entrysize d →
  payload_is_hole cells = false →
  table_ok d (insert_entry d t hash cells).
Proof.
  intros (Hnof & Hnod & Hcap & Hlay & Hch & Hholes) Hroom Hcells Hlive.
  destruct Hlay as [Hlay|[Hzero _]];
    [|unfold Capacity, UsedCapacity in *; rewrite Hzero in *; lia].
  assert (0 ≤ UsedCapacity t < Capacity t) as Hused
    by (unfold UsedCapacity in *; lia).
  set (t' := insert_entry d t hash cells).
  destruct (insert_entry_header d t hash cells)
    as (Hnof' & Hnod' & Hnob' & _ & _ & _ & Hlen').
  fold t' in Hnof', Hnod', Hnob', Hlen'.
  assert (UsedCapacity t' = UsedCapacity t + 1) as Hused'
    by (unfold UsedCapacity, NumberOfElements, NumberOfDeletedElements; lia).
  assert (Capacity t' = Capacity t) as Hcap'
    by (unfold Capacity, NumberOfBuckets; by rewrite Hnob').
  assert (hole_slots d t' = hole_slots d t) as Hhole.
  { unfold hole_slots, IterateEntries. rewrite Hused'.
    rewrite seqZ_app by lia. rewrite List.filter_app.
    change (seqZ (0 + UsedCapacity t) 1) with [0 + UsedCapacity t].
    rewrite Z.add_0_l. cbn [List.filter].
    rewrite (is_hole_payload d t' (UsedCapacity t)).
    unfold t'. rewrite (payload_insert_entry_eq d t (Capacity t)) by done.
    rewrite Hlive, app_nil_r.
    apply List.filter_ext_in. intros e He%list_elem_of_In%elem_of_seqZ.
    rewrite !is_hole_payload.
    by rewrite (payload_insert_entry_ne d t (Capacity t)) by (done || lia). }
  unfold table_ok. rewrite Hused', Hcap', Hhole.
  unfold NumberOfElements, NumberOfDeletedElements in *.
  rewrite Hnof', Hnod'. split_and!; try done; try lia.
  - left. destruct Hlay as (Hnb & Hc & Hlen).
    unfold layout_ok, NumberOfBuckets in *. by rewrite Hnob', Hlen'.
  - by apply (chains_upto_insert_entry d t (Capacity t)).
Qed.

(** The lookup invariants after an insertion of the key under its hash. *)
Lemma lookup_ok_insert_entry d t key rest :
  table_ok d t →
  UsedCapacity t < Capacity t →
  Z.of_nat (length (key :: rest)) = entrysize d →
  IsTheHole key = false →
  kNotFound < 0 →
  FindEntry_hash key = Some (GetOrCreateHash key) →
  Smi_ToInt (GetHash key) = GetOrCreateHash key →
  buckets_complete d t → keys_hashed d t → hashes_agree d t →
  let t' := insert_entry d t (GetOrCreateHash key) (key :: rest) in
  buckets_complete d t' ∧ keys_hashed d t' ∧ hashes_agree d t'.
Proof.
  intros Hok Hroom Hcells Hkey Hnf Hfind Hget Hcomplete Hhashed Hagree t'.
  pose proof Hok as (Hnof & Hnod & Hcap & Hlay & Hch & Hholes).
  destruct Hlay as [Hlay|[Hzero _]];
    [|unfold Capacity, UsedCapacity in *; rewrite Hzero in *; lia].
  assert (0 ≤ UsedCapacity t < Capacity t) as Hused
    by (unfold UsedCapacity in *; lia).
  destruct (live_entries_insert_entry d t (Capacity t) (GetOrCreateHash key)
              (key :: rest) Hlay Hused Hcells Hkey) as [Hslots _].
  fold t' in Hslots.
  destruct (insert_entry_head d t (Capacity t) (GetOrCreateHash key) key rest
              Hlay Hused Hcells) as (_ & Hkeyat & _).
  fold t' in Hkeyat.
  destruct (chain_from_insert_entry d t (Capacity t) (GetOrCreateHash key)
              (key :: rest) Hlay Hused Hcells Hnf Hch) as [Hnew Hold].
  fold t' in Hnew, Hold.
  assert (UsedCapacity t' = UsedCapacity t + 1) as Hused'.
  { destruct (insert_entry_header d t (GetOrCreateHash key) (key :: rest))
      as (Hnof' & Hnod' & _).
    fold t' in Hnof', Hnod'.
    unfold UsedCapacity, NumberOfElements, NumberOfDeletedElements. lia. }
  assert (∀ e, e ∈ live_slots d t →
            KeyAt (entrysize d) t' e = KeyAt (entrysize d) t e) as Hkeys.
  { intros e [He _]%elem_of_live_slots. apply KeyAt_of_payload.
    apply (payload_insert_entry_ne d t (Capacity t)); (done || lia). }
  assert (∀ P : Z → Prop,
            (∀ e, e ∈ live_slots d t → P e) → P (UsedCapacity t) →
            ∀ e, e ∈ live_slots d t' → P e) as Hcases.
  { intros P Hold' Hnew' e. rewrite Hslots.
    intros [He|Hlast]%elem_of_app; [by apply Hold'|].
    apply list_elem_of_singleton in Hlast. by rewrite Hlast. }
  split_and!; intros e He; pattern e; revert e He; apply Hcases; cbv beta.
  - intros e He. rewrite Hused', (Hkeys e He). apply Hold. by apply Hcomplete.
  - rewrite Hused', Hkeyat. by apply Hnew.
  - intros e He. rewrite (Hkeys e He). by apply Hhashed.
  - by rewrite Hkeyat.
  - intros e He. rewrite (Hkeys e He). by apply Hagree.
  - by rewrite Hkeyat.
Qed.

End InsertKeepsInvariants.

Section RehashKeepsChains.
Context `{Constants} `{Host}.

(** [copy_entry] puts the copied entry at the head of its bucket. *)
Lemma chain_from_copy_entry d table new_table capacity new_entry old_entry bucket :
  layout_ok d new_table capacity →
  0 ≤ new_entry < capacity →
  0 ≤ bucket < NumberOfBuckets new_table →
  kNotFound < 0 →
  chains_upto d new_entry new_table →
  let nt' := copy_entry d table new_table new_entry old_entry bucket in
  (∀ h, HashToBucket new_table h = bucket →
     new_entry ∈ chain_from (Z.to_nat (new_entry + 1)) d nt' (HashToEntryRaw nt' h)) ∧
  (∀ h e, e ∈ chain_from (Z.to_nat new_entry) d new_table
                (HashToEntryRaw new_table h) →
     e ∈ chain_from (Z.to_nat (new_entry + 1)) d nt' (HashToEntryRaw nt' h)).
Proof.
  intros Hlay Hentry Hbucket Hnf Hch nt'.
  pose proof Hlay as (Hnb & Hcap & Hlen).
  pose proof (entrysize_pos d) as Hes.
  destruct (copy_entry_header d table new_table new_entry old_entry bucket)
    as (_ & _ & Hnob' & _).
  fold nt' in Hnob'.
  assert (NumberOfBuckets nt' = NumberOfBuckets new_table) as Hnob by done.
  assert (∀ e, EntryToIndexRaw (entrysize d) nt' e
               = EntryToIndexRaw (entrysize d) new_table e)
    as Hidx by (intros e; unfold EntryToIndexRaw; by rewrite Hnob).
  apply (chain_from_prepended d new_table nt' new_entry bucket);
    try done; try lia.
  - unfold nt'. rewrite (get_copy_entry d table new_table capacity) by done.
    by rewrite decide_True.
  - rewrite Hidx. unfold nt'.
    rewrite (get_copy_entry d table new_table capacity) by done.
    rewrite decide_False by (unfold EntryToIndexRaw, kEntrySize, kChainOffset; nia).
    rewrite decide_False by (unfold kChainOffset; lia).
    by rewrite decide_True.
  - intros b' Hb' Hne. unfold nt'.
    rewrite (get_copy_entry d table new_table capacity) by done.
    rewrite decide_False by lia.
    rewrite decide_False by (unfold EntryToIndexRaw, kEntrySize; nia).
    rewrite decide_False; [done|].
    unfold EntryToIndexRaw, kEntrySize, kChainOffset. nia.
  - intros e He. rewrite Hidx. unfold nt'.
    rewrite (get_copy_entry d table new_table capacity) by done.
    rewrite decide_False by (unfold EntryToIndexRaw, kEntrySize, kChainOffset; nia).
    rewrite decide_False by (unfold EntryToIndexRaw, kEntrySize, kChainOffset; nia).
    rewrite decide_False; [done|].
    unfold EntryToIndexRaw, kEntrySize, kChainOffset. nia.
Qed.

(** The loop of [Rehash] keeps every copied entry on the chain of its
    bucket. *)
Lemma Rehash_loop_chained d capacity l :
  ∀ table new_table new_entry removed_holes_index,
  let lives := List.filter (λ e, negb (is_hole d table e)) l in
  layout_ok d new_table capacity →
  0 ≤ new_entry →
  new_entry + Z.of_nat (length lives) ≤ capacity →
  kNotFound < 0 →
  chains_upto d new_entry new_table →
  chained_upto d new_entry new_table →
  chained_upto d (new_entry + Z.of_nat (length lives))
    (foldl (Rehash_step d (NumberOfBuckets new_table))
       (table, new_table, new_entry, removed_holes_index) l).1.1.2.
Proof.
  induction l as [|a l IH]; intros table new_table new_entry r lives
    Hlay Hentry Hfit Hnf Hchains Hchained.
  - simpl. by replace (new_entry + Z.of_nat 0) with new_entry by lia.
  - cbn [foldl].
    destruct (is_hole d table a) eqn:Ehole.
    + rewrite Rehash_step_hole by done.
      set (table1 := SetRemovedIndexAt table r a).
      assert (lives = List.filter (λ e, negb (is_hole d table1 e)) l) as ->.
      { subst lives. simpl. by rewrite Ehole. }
      apply IH; try done.
    + rewrite Rehash_step_live by done.
      set (bucket := Z.land _ _).
      assert (0 ≤ bucket < NumberOfBuckets new_table) as Hbucket
        by (apply land_mask_range; apply Hlay).
      assert (lives = a :: List.filter (λ e, negb (is_hole d table e)) l) as Hlives.
      { subst lives. simpl. by rewrite Ehole. }
      rewrite Hlives in *. clear Hlives lives. simpl length in *.
      set (new1 := copy_entry d table new_table new_entry a bucket).
      destruct (copy_entry_header d table new_table new_entry a bucket)
        as (_ & _ & Hnob1 & _ & _ & _ & Hlen1). fold new1 in Hnob1, Hlen1.
      assert (layout_ok d new1 capacity) as Hlay1.
      { destruct Hlay as (? & ? & ?). unfold layout_ok, NumberOfBuckets.
        rewrite Hnob1, Hlen1. done. }
      assert (NumberOfBuckets new_table = NumberOfBuckets new1) as Hnb
        by (unfold NumberOfBuckets; by rewrite Hnob1).
      rewrite Hnb.
      replace (new_entry + Z.of_nat (S _))
        with (new_entry + 1
              + Z.of_nat (length (List.filter (λ e, negb (is_hole d table e)) l)))
        by lia.
      apply IH; try done; try lia.
      { apply (chains_upto_copy_entry d table new_table capacity);
          [done|lia|done..]. }
      destruct (chain_from_copy_entry d table new_table capacity new_entry a bucket)
        as [Hnew Hold]; [done|lia|done..|].
      fold new1 in Hnew, Hold.
      intros e He. destruct (decide (e = new_entry)) as [->|Hne].
      * apply Hnew.
        rewrite (KeyAt_of_payload d table new1 a new_entry)
          by (apply (payload_copy_entry_eq d table new_table capacity);
              [done|lia|done]).
        done.
      * rewrite (KeyAt_of_payload d new_table new1 e e)
          by (apply (payload_copy_entry_ne d table new_table capacity);
              [done|lia|done|lia..]).
        apply Hold. apply Hchained. lia.
Qed.

End RehashKeepsChains.

Section AddKeepsInvariants.
Context `{Constants} `{Host} `{Primitives}.

Lemma map_eq_elem {A B C} (f : A → C) (g : B → C) l1 l2 x :
  map f l1 = map g l2 → x ∈ l1 → ∃ y, y ∈ l2 ∧ f x = g y.
Proof.
  intros Hmap Hx.
  assert (In (f x) (map g l2)) as Hin.
  { rewrite <- Hmap. apply in_map. by apply list_elem_of_In. }
  apply in_map_iff in Hin as (y & Hy & Hin).
  exists y. split; [by apply list_elem_of_In|done].
Qed.

Lemma chain_from_SetNumberOfElements d t n : ∀ fuel head,
  chain_from fuel d (SetNumberOfElements t n) head = chain_from fuel d t head.
Proof.
  induction fuel as [|fuel IH]; intros head; [done|]. simpl.
  case_decide; [done|]. f_equal. apply IH.
Qed.

(** The new table of [Rehash] has every entry on the chain of its bucket. *)
Lemma OrderedHashTable_Rehash_chained d isolate table t new_capacity :
  large_at isolate table = Some t →
  2 ≤ kInitialCapacity ≤ 2 ^ 30 → new_capacity ≤ 2 ^ 30 →
  kNotFound < 0 →
  let rounded := 2 ^ Z.log2_up (Z.max kInitialCapacity new_capacity) in
  ¬ rounded > MaxCapacity (entrysize d) →
  Z.of_nat (length (live_slots d t)) ≤ rounded →
  ∃ isolate' new_t,
    OrderedHashTable_Rehash d isolate table new_capacity
      = Some (isolate', Some (length (heap isolate))) ∧
    large_at isolate' (length (heap isolate)) = Some new_t ∧
    chained_upto d (Z.of_nat (length (live_slots d t))) new_t.
Proof.
  intros Ht Hk Hc Hnf rounded Hmax Hfit.
  pose proof (large_at_lt _ _ _ Ht) as Hlt.
  destruct (rounded_capacity new_capacity Hk Hc)
    as (Hcap & Hq & Hhalf & Hdouble & Hrange).
  fold rounded in Hcap, Hq, Hhalf, Hdouble, Hrange.
  destruct (Derived_Allocate_ok d isolate new_capacity)
    as (t0 & Halloc & Hnob0 & Hnof0 & Hnod0 & Hnext0 & Hrem0 & Hlen0 & Hbuckets0 & _).
  { by rewrite Hcap. }
  rewrite Hcap, Hq in Hnob0, Hlen0, Hbuckets0.
  assert (0 ≤ rounded * kEntrySize (entrysize d)) as Hdata
    by (unfold kEntrySize; destruct d; simpl; lia).
  assert (layout_ok d t0 rounded) as Hlay.
  { unfold layout_ok. rewrite Hnob0, Hlen0. split_and!; lia. }
  assert (chains_upto d 0 t0) as Hch0.
  { split; [|intros; lia].
    intros b Hb. rewrite Hnob0 in Hb. exists kNotFound. split; [|by left].
    apply Hbuckets0; [done|]. rewrite Hlen0. lia. }
  assert (chained_upto d 0 t0) as Hchained0 by (intros e He; lia).
  destruct (Rehash_loop d rounded (IterateEntries t) t t0 0 0 Hlay)
    as (log & cells & Hfold & _); [lia|done|done|].
  pose proof (Rehash_loop_chained d rounded (IterateEntries t) t t0 0 0 Hlay
                ltac:(lia) Hfit Hnf Hch0 Hchained0) as Hchained.
  rewrite Hfold in Hchained. cbn [fst snd] in Hchained.
  fold (live_slots d t) in Hfold, Hchained.
  fold (hole_slots d t) in Hfold.
  rewrite Z.add_0_l in Hchained.
  unfold OrderedHashTable_Rehash. rewrite Halloc. cbn [mbind option_bind].
  rewrite (large_at_new_object isolate _ table) by done.
  rewrite Ht. cbn [mbind option_bind].
  rewrite large_at_new_object_eq. cbn [mbind option_bind].
  rewrite Hfold.
  eexists _, _. split; [reflexivity|]. split.
  - rewrite large_at_store_ne by lia. apply large_at_store_eq.
    simpl. rewrite length_app. simpl. lia.
  - intros e He. rewrite chain_from_SetNumberOfElements. by apply Hchained.
Qed.

(** The new table of a rehash satisfies the invariants of a table when its
    source does. *)
Lemma rehashed_invariants d isolate table t capacity isolate' t' new_t :
  rehashed d isolate table t capacity isolate' t' new_t →
  table_ok d t → keys_hashed d t → hashes_agree d t →
  NumberOfElements t ≤ capacity ≤ 2 ^ 29 →
  capacity / 2 * kLoadFactor = capacity →
  chained_upto d (NumberOfElements t) new_t →
  table_ok d new_t ∧ buckets_complete d new_t ∧ keys_hashed d new_t ∧
  hashes_agree d new_t.
Proof.
  intros Hpost (Hnof0 & _ & _ & _ & _ & Hholes) Hhashed Hagree Hfit Hdouble Hchained.
  pose proof (length_live_slots d t Hnof0 Hholes) as Hlives.
  destruct (rehashed_live_entries _ _ _ _ _ _ _ _ Hpost Hlives) as [Hslots _].
  destruct Hpost as (_ & _ & _ & Hnof & Hnod & Hnob & _ & Hlay & Hmap & Hch).
  rewrite Hlives in Hmap, Hch. rewrite <- Hslots in Hmap.
  assert (∀ e, e ∈ live_slots d new_t →
            ∃ e0, e0 ∈ live_slots d t ∧
                  KeyAt (entrysize d) new_t e = KeyAt (entrysize d) t e0) as Hkeys.
  { intros e He. destruct (map_eq_elem _ _ _ _ e Hmap He) as (e0 & He0 & Hp).
    exists e0. split; [done|]. by apply KeyAt_of_payload. }
  assert (UsedCapacity new_t = NumberOfElements t) as Hused
    by (unfold UsedCapacity; lia).
  assert (Capacity new_t = capacity) as Hcap
    by (unfold Capacity; by rewrite Hnob).
  assert (hashes_agree d new_t) as Hagree'.
  { intros e He. destruct (Hkeys e He) as (e0 & He0 & ->). by apply Hagree. }
  split_and!.
  - unfold table_ok. rewrite Hused, Hcap. split_and!; try lia; try done.
    + by left.
    + rewrite Hnod.
      assert (hole_slots d new_t = []) as ->; [|done].
      unfold hole_slots. apply filter_nil_all. apply Forall_forall.
      intros e He.
      assert (e ∈ live_slots d new_t) as Hlive.
      { rewrite Hslots. unfold IterateEntries in He. by rewrite Hused in He. }
      unfold live_slots in Hlive.
      apply list_elem_of_In, filter_In in Hlive as [_ Hlive].
      by apply negb_true_iff in Hlive.
  - intros e He. rewrite Hused. rewrite <- (Hagree' e He).
    apply Hchained. rewrite Hslots in He. apply elem_of_seqZ in He. lia.
  - intros e He. destruct (Hkeys e He) as (e0 & He0 & ->). by apply Hhashed.
  - done.
Qed.

(** The table [EnsureCapacityForAdding] hands back for a set or a map has
    room for one more entry and satisfies the invariants when the table given
    does. *)
Lemma EnsureCapacityForAdding_invariants d isolate table t isolate1 table1 :
  d ≠ OrderedNameDictionary →
  large_at isolate table = Some t →
  2 ≤ kInitialCapacity ≤ 2 ^ 30 →
  kNotFound < 0 →
  MaxCapacity (entrysize d) ≤ 2 ^ 29 →
  table_ok d t → buckets_complete d t → keys_hashed d t → hashes_agree d t →
  EnsureCapacityForAdding d isolate table = Some (isolate1, Some table1) →
  ∃ t1,
    large_at isolate1 table1 = Some t1 ∧
    UsedCapacity t1 < Capacity t1 ∧
    table_ok d t1 ∧ buckets_complete d t1 ∧ keys_hashed d t1 ∧
    hashes_agree d t1.
Proof.
  intros Hd Ht Hk Hnf Hmax Hok Hcomplete Hhashed Hagree Hensure.
  destruct (EnsureCapacityForAdding_ok _ _ _ _ _ _ Ht Hok Hk Hensure)
    as (t1 & capacity & Ht1 & Hlay1 & Hused1 & _ & _ & Hcases).
  exists t1. split; [done|].
  destruct Hcases as [(-> & -> & -> & -> & Hroom)|(t' & Hpost & -> & Hfull & Hcap)];
    [done|].
  pose proof Hok as (Hnof & Hnod & Hcap0 & _ & _ & Hholes).
  pose proof (length_live_slots d t Hnof Hholes) as Hlives.
  set (new_capacity := if decide (Capacity t = 0) then _ else _) in Hcap.
  assert (0 ≤ Capacity t) as Hcap00 by (unfold UsedCapacity in *; lia).
  assert (new_capacity ≤ 2 ^ 30) as Hnc.
  { unfold new_capacity. repeat case_decide; lia. }
  destruct (rounded_capacity new_capacity Hk Hnc)
    as (Halloc & _ & _ & Hdouble & Hrange).
  rewrite <- Hcap in Halloc, Hdouble, Hrange.
  unfold EnsureCapacityForAdding in Hensure. rewrite Ht in Hensure.
  cbn [mbind option_bind] in Hensure. fold (UsedCapacity t) in Hensure.
  rewrite shiftr_1_div2, shiftl_1_double in Hensure.
  rewrite decide_False in Hensure by done. fold new_capacity in Hensure.
  destruct (decide (capacity > MaxCapacity (entrysize d))) as [Hgt|Hfits].
  { rewrite Derived_Rehash_throws in Hensure by (by rewrite Halloc). done. }
  assert (Derived_Rehash d isolate table new_capacity
          = OrderedHashTable_Rehash d isolate table new_capacity) as Hre
    by (by destruct d).
  rewrite Hre in Hensure.
  pose proof Hpost as (_ & _ & _ & Hnof1 & Hnod1 & Hnob1 & _).
  assert (NumberOfElements t < capacity) as Hfit
    by (unfold UsedCapacity in Hused1; lia).
  destruct (OrderedHashTable_Rehash_chained d isolate table t new_capacity
              Ht Hk Hnc Hnf)
    as (isolate2 & new_t & Hrehash & Hnew & Hchained);
    [by rewrite <- Hcap|rewrite <- Hcap; lia|].
  rewrite Hrehash in Hensure. injection Hensure as ->.
  rewrite Ht1 in Hnew. injection Hnew as <-.
  rewrite Hlives in Hchained.
  split.
  - unfold Capacity. rewrite Hnob1, Hdouble. lia.
  - apply (rehashed_invariants d isolate table t capacity isolate1 t' t1);
      try done. lia.
Qed.

Lemma Add_after_lookup_invariants d check isolate table t key rest isolate' table' :
  d ≠ OrderedNameDictionary →
  large_at isolate table = Some t →
  2 ≤ kInitialCapacity ≤ 2 ^ 30 →
  kNotFound < 0 →
  MaxCapacity (entrysize d) ≤ 2 ^ 29 →
  Z.of_nat (length (key :: rest)) = entrysize d →
  IsTheHole key = false →
  FindEntry_hash key = Some (GetOrCreateHash key) →
  Smi_ToInt (GetHash key) = GetOrCreateHash key →
  table_invariants d t →
  Add_after_lookup d check isolate table (GetOrCreateHash key) (key :: rest)
    = Some (isolate', Some table') →
  ∃ t', large_at isolate' table' = Some t' ∧ table_invariants d t'.
Proof.
  intros Hd Ht Hk Hnf Hmax Hlen Hkey Hhash Hget (Hok & Hcomplete & Hhashed & Hagree)
    Hadd.
  destruct (Add_after_lookup_ok _ _ _ _ _ _ _ _ _ Ht Hok Hk Hadd)
    as (isolate1 & t1 & capacity & Hensure & Ht1 & Ht' & _).
  destruct (EnsureCapacityForAdding_invariants d isolate table t isolate1 table'
              Hd Ht Hk Hnf Hmax Hok Hcomplete Hhashed Hagree Hensure)
    as (t1' & Ht1' & Hroom & Hok1 & Hcomplete1 & Hhashed1 & Hagree1).
  rewrite Ht1 in Ht1'. injection Ht1' as <-.
  eexists. split; [exact Ht'|].
  split; [by apply table_ok_insert_entry|].
  by apply lookup_ok_insert_entry.
Qed.

(** X20. The [Add] of a set and of a map keep the invariants that lookups
    rely on: when the table given satisfies them and [Add] returns a table,
    whether the table given, with or without a new entry, or the new table
    of a rehash, the table returned satisfies them too. *)
Theorem Add_keeps_invariants fuel isolate table key value isolate' table' :
  2 ≤ kInitialCapacity ≤ 2 ^ 30 →
  kNotFound < 0 →
  IsTheHole key = false →
  FindEntry_hash key = Some (GetOrCreateHash key) →
  Smi_ToInt (GetHash key) = GetOrCreateHash key →
  (∀ t, large_at isolate table = Some t →
     MaxCapacity 1 ≤ 2 ^ 29 →
     table_invariants OrderedHashSet t →
     OrderedHashSet_Add fuel isolate table key = Some (isolate', Some table') →
     ∃ t', large_at isolate' table' = Some t' ∧
           table_invariants OrderedHashSet t') ∧
  (∀ t, large_at isolate table = Some t →
     MaxCapacity 2 ≤ 2 ^ 29 →
     table_invariants OrderedHashMap t →
     OrderedHashMap_Add fuel isolate table key value
       = Some (isolate', Some table') →
     ∃ t', large_at isolate' table' = Some t' ∧
           table_invariants OrderedHashMap t').
Proof.
  intros Hk Hnf Hkey Hhash Hget. split.
  - intros t Ht Hmax Hinv.
    rewrite (OrderedHashSet_Add_unfold _ _ _ _ _ Ht).
    destruct (if decide (NumberOfElements t > 0) then _ else _) as [[e|]|];
      cbn [mbind option_bind]; [| |done].
    + intros [= <- <-]. by exists t.
    + by apply (Add_after_lookup_invariants OrderedHashSet true isolate table t
                  key []).
  - intros t Ht Hmax Hinv.
    rewrite (OrderedHashMap_Add_unfold _ _ _ _ _ _ Ht).
    destruct (if decide (NumberOfElements t > 0) then _ else _) as [[e|]|];
      cbn [mbind option_bind]; [| |done].
    + intros [= <- <-]. by exists t.
    + by apply (Add_after_lookup_invariants OrderedHashMap false isolate table t
                  key [value]).
Qed.

End AddKeepsInvariants.

Section InvariantsKept.
Context `{Constants} `{Host} `{Primitives}.

(** X21. A table that [Allocate] returns satisfies the invariants that
    lookups rely on, and has no entry. *)
Theorem Allocate_establishes_invariants d isolate capacity :
  2 ≤ kInitialCapacity ≤ 2 ^ 30 →
  capacity ≤ 2 ^ 30 →
  MaxCapacity (entrysize d) ≤ 2 ^ 29 →
  ¬ 2 ^ Z.log2_up (Z.max kInitialCapacity capacity) > MaxCapacity (entrysize d) →
  ∃ isolate' t,
    OrderedHashTable_Allocate d isolate capacity
      = (isolate', Some (length (heap isolate))) ∧
    large_at isolate' (length (heap isolate)) = Some t ∧
    table_invariants d t ∧
    live_slots d t = [] ∧
    Capacity t = 2 ^ Z.log2_up (Z.max kInitialCapacity capacity).
Proof.
  intros Hk Hc Hmax Hfits.
  destruct (rounded_capacity capacity Hk Hc)
    as (Hcap & Hq & Hhalf & Hdouble & Hrange).
  set (rounded := 2 ^ Z.log2_up (Z.max kInitialCapacity capacity)) in *.
  destruct (OrderedHashTable_Allocate_ok d isolate capacity)
    as (t & Halloc & Hnob & Hnof & Hnod & _ & _ & Hlen & Hbuckets & _).
  { by rewrite Hcap. }
  rewrite Hcap, Hq in Hnob, Hlen, Hbuckets.
  assert (0 ≤ rounded * kEntrySize (entrysize d)) as Hdata
    by (unfold kEntrySize; destruct d; simpl; lia).
  assert (UsedCapacity t = 0) as Hused by (unfold UsedCapacity; lia).
  assert (Capacity t = rounded) as Hcapacity
    by (unfold Capacity; by rewrite Hnob).
  assert (live_slots d t = []) as Hlive
    by (unfold live_slots, IterateEntries; by rewrite Hused).
  exists (mkIsolate (heap isolate ++ [LargeTable t]) (pending_exception isolate)), t.
  split_and!; try done.
  - apply large_at_new_object_eq.
  - unfold table_invariants, table_ok, buckets_complete, keys_hashed, hashes_agree.
    rewrite Hlive, Hused, Hcapacity.
    split_and!; try lia; try (intros e He; by apply elem_of_nil in He).
    + left. unfold layout_ok. rewrite Hnob, Hlen. split_and!; lia.
    + split; [|intros; lia].
      intros b Hb. rewrite Hnob in Hb. exists kNotFound. split; [|by left].
      apply Hbuckets; [done|]. rewrite Hlen. lia.
    + unfold hole_slots, IterateEntries. rewrite Hused, Hnod. done.
Qed.

(** X23. [Shrink] of a set or a map keeps the invariants that lookups rely
    on, in the table it returns: the table given, or the new table of the
    rehash. *)
Theorem Shrink_keeps_invariants d isolate table t k :
  d ≠ OrderedNameDictionary →
  large_at isolate table = Some t →
  table_invariants d t →
  2 ≤ kInitialCapacity ≤ 2 ^ 30 →
  kNotFound < 0 →
  0 ≤ k → kInitialCapacity = 2 ^ k →
  kInitialCapacity ≤ MaxCapacity (entrysize d) →
  Capacity t ≤ MaxCapacity (entrysize d) →
  MaxCapacity (entrysize d) ≤ 2 ^ 29 →
  ∃ isolate' table' t',
    Shrink d isolate table = Some (isolate', table') ∧
    large_at isolate' table' = Some t' ∧
    table_invariants d t'.
Proof.
  intros Hd Ht (Hok & Hcomplete & Hhashed & Hagree) Hk Hnf Hk0 Hpow Hinit Hmax Hmax29.
  pose proof (large_at_lt _ _ _ Ht) as Hlt.
  pose proof Hok as (Hnof & Hnod & Hcap & Hlay & Hch & Hholes).
  unfold Shrink. rewrite Ht. cbn [mbind option_bind].
  rewrite shiftr_2_div4.
  destruct (decide (NumberOfElements t >= Capacity t / 4)) as [Hkeep|Hshrink].
  { exists isolate, table, t. done. }
  destruct (Shrink_rehashes d isolate table t k Ht Hok Hk Hk0 Hpow Hinit Hmax)
    as (Hnob & Hrounded & Hdouble & isolate' & old & new_t & Hrehash & Hre);
    [lia|].
  rewrite Hrehash. cbn [mbind option_bind].
  pose proof (length_live_slots d t Hnof Hholes) as Hlives.
  destruct (rehashed_large_at _ _ _ _ _ _ _ _ Hre Hlt) as (Hnew & Hold & _).
  exists isolate', (length (heap isolate)), new_t.
  split_and!; try done.
  set (rounded := 2 ^ Z.log2_up (Z.max kInitialCapacity (Capacity t / 2))) in *.
  assert (0 ≤ Capacity t) as Hcap0 by (unfold UsedCapacity in *; lia).
  assert (Capacity t ÷ 2 = Capacity t / 2) as Hquot
    by (apply Z.quot_div_nonneg; lia).
  assert (Capacity t / 2 ≤ 2 ^ 30) as Hnc by (apply Z.div_le_upper_bound; lia).
  destruct (rounded_capacity (Capacity t / 2) Hk Hnc)
    as (Halloc & _ & _ & _ & Hrange).
  fold rounded in Halloc, Hrange.
  assert (rounded ≤ 2 ^ 29) as Hsmall.
  { rewrite Hrounded.
    assert (Capacity t / 2 ≤ 2 ^ 28) by (apply Z.div_le_upper_bound; lia).
    destruct (decide (Capacity t / 2 ≤ 0)) as [Hz|Hpos].
    - rewrite Z.log2_up_nonpos by done. simpl. lia.
    - assert (Z.log2_up (Capacity t / 2) ≤ Z.log2_up (2 ^ 28))
        by (apply Z.log2_up_le_mono; lia).
      rewrite Z.log2_up_pow2 in * by lia.
      assert (2 ^ Z.log2_up (Capacity t / 2) ≤ 2 ^ 28)
        by (apply Z.pow_le_mono_r; lia).
      lia. }
  assert (Derived_Rehash d isolate table (Capacity t ÷ 2)
          = OrderedHashTable_Rehash d isolate table (Capacity t ÷ 2)) as Hre'
    by (by destruct d).
  destruct (OrderedHashTable_Rehash_chained d isolate table t (Capacity t / 2)
              Ht Hk Hnc Hnf)
    as (isolate2 & new_t2 & Hrehash2 & Hnew2 & Hchained).
  { fold rounded. intros Hgt.
    rewrite Derived_Rehash_throws in Hrehash by (by rewrite Hquot, Halloc).
    done. }
  { change (Z.of_nat (length (live_slots d t)) ≤ rounded). rewrite Hlives.
    assert (Capacity t / 4 ≤ Capacity t / 2) by (apply Z.div_le_compat_l; lia).
    lia. }
  rewrite Hre', Hquot, Hrehash2 in Hrehash. injection Hrehash as ->.
  rewrite Hnew in Hnew2. injection Hnew2 as <-.
  rewrite Hlives in Hchained.
  apply (rehashed_invariants d isolate table t rounded isolate' old new_t);
    try done.
  assert (Capacity t / 4 ≤ Capacity t / 2) by (apply Z.div_le_compat_l; lia).
  lia.
Qed.

End InvariantsKept.

Section DeleteKeepsInvariants.
Context `{Constants} `{Host} `{Primitives} `{!HostOk} `{!PrimitivesOk}.

Lemma hashes_agree_tombstoned d t entry :
  table_ok d t →
  hashes_agree d t →
  entry ∈ live_slots d t →
  hashes_agree d (tombstoned d t entry).
Proof.
  intros Hok Hagree Hlive.
  destruct (table_ok_layout d t entry Hok Hlive) as (Hlay & Hentry & _).
  intros e [He Hne]%(elem_of_live_slots_tombstoned d t (Capacity t)); [|done..].
  pose proof He as [Hrange _]%elem_of_live_slots.
  rewrite (KeyAt_tombstoned d t (Capacity t)) by (done || lia).
  rewrite decide_False by done. by apply Hagree.
Qed.

(** X22. [Delete] keeps the invariants that lookups rely on, whether it
    finds the key or not. *)
Theorem Delete_keeps_invariants fuel d t key t' removed :
  d ≠ OrderedNameDictionary →
  IsTheHole key = false →
  table_invariants d t →
  (Z.to_nat (UsedCapacity t) < fuel)%nat →
  OrderedHashTable_Delete fuel d t key = Some (t', removed) →
  table_invariants d t' ∧
  (removed = false → t' = t) ∧
  (removed = true → NumberOfElements t' = NumberOfElements t - 1).
Proof.
  intros Hd Hkey (Hok & Hcomplete & Hhashed & Hagree) Hfuel.
  rewrite OrderedHashTable_Delete_unfold.
  assert (Derived_FindEntry fuel d t key
          = OrderedHashTable_FindEntry fuel d t key) as ->
    by (by destruct d).
  destruct (key_present_or_absent d t key) as [Hpresent|Habsent].
  - destruct (OrderedHashTable_FindEntry_present d t key fuel Hkey Hok Hcomplete
                Hhashed Hpresent ltac:(lia)) as (entry & -> & Hlive & _).
    cbn [mbind option_bind]. intros [= <- <-].
    destruct (tombstoned_header d t entry) as (Hnof' & _).
    split_and!; try done.
    split_and!.
    + by apply table_ok_tombstoned.
    + by apply buckets_complete_tombstoned.
    + by apply keys_hashed_tombstoned.
    + by apply hashes_agree_tombstoned.
  - rewrite OrderedHashTable_FindEntry_absent by done.
    cbn [mbind option_bind]. intros [= <- <-]. done.
Qed.

End DeleteKeepsInvariants.

(** ** The statements on concrete tables *)

Section Concrete.
#[local] Existing Instance v8_constants.
#[local] Existing Instance simple_host.

(** The simple host keeps what [HostOk] asks of a host. *)
Lemma simple_host_ok : HostOk.
Proof.
  split.
  - intros key Hkey. apply bool_decide_eq_false. by intros <-.
  - intros a b Hsame%bool_decide_eq_true. by subst.
  - intros a b Hsame%bool_decide_eq_true. by subst.
Qed.
#[local] Existing Instance simple_host_ok.

(** A property of every index below [n], from the property of each. *)
Lemma forall_range (P : Z → Prop) n :
  Forall P (seqZ 0 n) → ∀ b, 0 ≤ b < n → P b.
Proof.
  intros HP b Hb. rewrite Forall_forall in HP. apply HP.
  apply elem_of_seqZ. lia.
Qed.

(** Evaluation on closed terms: [by_computation] for comparisons and
    equations, [decide_it] for decidable propositions, [list_cases] and
    [link] for the bucket heads and chain links of a large table. *)
Ltac list_cases :=
  match goal with
  | |- Forall _ ?l => let l' := eval vm_compute in l in change l with l'
  end;
  repeat (apply List.Forall_cons); [..|apply List.Forall_nil].

Ltac by_computation :=
  vm_compute;
  repeat match goal with |- _ ∧ _ => split end;
  first [reflexivity | exact I
        | let H := fresh in intros H; first [discriminate H | apply H; reflexivity]].
Ltac link :=
  eexists; split;
  [vm_compute; reflexivity|first [left; reflexivity|right; by_computation]].
Ltac decide_it := apply (bool_decide_unpack _); vm_compute; exact I.
Ltac decide_each :=
  unfold buckets_complete, small_buckets_complete, key_absent, small_key_absent;
  apply (proj1 (Forall_forall _ _)); decide_it.

Lemma all_distinct_dec seen rest : Decision (all_distinct seen rest).
Proof.
  revert seen. induction rest as [|key rest IH]; intros seen; simpl; apply _.
Defined.

Ltac large_table_ok :=
  unfold table_ok; split_and!; try by_computation;
  [left; unfold layout_ok; split_and!; by_computation
  |split; apply forall_range; list_cases; link].

Ltac small_table_ok :=
  unfold small_table_ok; split_and!; try by_computation;
  apply forall_range; decide_it.

(** The example tables keep the invariants. *)
Lemma five_keys_table_ok : table_ok OrderedHashSet five_keys_table.
Proof. large_table_ok. Qed.
Lemma two_pairs_table_ok : table_ok OrderedHashMap two_pairs_table.
Proof. large_table_ok. Qed.
Lemma one_property_table_ok : table_ok OrderedNameDictionary one_property_table.
Proof. large_table_ok. Qed.
Lemma two_keys_table_ok : small_table_ok SmallOrderedHashSet two_keys_table.
Proof. small_table_ok. Qed.
Lemma small_pairs_table_ok : small_table_ok SmallOrderedHashMap small_pairs_table.
Proof. small_table_ok. Qed.
Lemma small_property_table_ok :
  small_table_ok SmallOrderedNameDictionary small_property_table.
Proof. small_table_ok. Qed.
Lemma full_table_ok : small_table_ok SmallOrderedHashSet full_table.
Proof. small_table_ok. Qed.

(** The 254 keys are distinct, and one more cannot be added to their small
    set. *)
Lemma full_table_distinct : all_distinct [] (small_live_keys full_table).
Proof. apply (@bool_decide_unpack _ (all_distinct_dec _ _)). vm_compute. exact I. Qed.

Lemma full_table_add_fails :
  SmallOrderedHashSet_Add 300 full_isolate 0%nat (Smi 1000)
    = Some (full_isolate, None).
Proof. by_computation. Qed.




(** Witness of C9 (amended), for a request of 5 entries, which is rounded to
    8. *)
Lemma OrderedHashTable_Allocate_rounds_witness :
  ∃ isolate' t,
    OrderedHashTable_Allocate OrderedHashSet empty_isolate 5
      = (isolate', Some 0%nat) ∧
    pending_exception isolate' = None ∧
    heap isolate' = [LargeTable t] ∧
    NumberOfBuckets t = 4 ∧
    (∀ b, 0 ≤ b < NumberOfBuckets t →
       get t (HashTableStartIndex + b) = Smi kNotFound) ∧
    NumberOfElements t = 0 ∧
    NumberOfDeletedElements t = 0.
Proof.
  destruct (OrderedHashTable_Allocate_rounds OrderedHashSet empty_isolate 5)
    as (_ & _ & Hfits); [by_computation..|].
  destruct Hfits as (isolate' & t & Hallocate & Hpending & Hheap & Hbuckets & Hrest);
    [by_computation|].
  by exists isolate', t.
Defined.

(** Witness of C8, on the set of five keys. *)
Lemma Clear_marks_obsolete_witness :
  ∃ isolate' new_t,
    Clear OrderedHashSet five_keys_isolate 0%nat = Some (isolate', 1%nat) ∧
    large_at isolate' 1%nat = Some new_t ∧
    Capacity new_t = 4 ∧
    NumberOfElements new_t = 0 ∧
    NumberOfDeletedElements new_t = 0 ∧
    IsObsolete new_t = false ∧
    large_at isolate' 0%nat =
      Some (SetNumberOfDeletedElements (SetNextTable five_keys_table 1%nat) (-1)).
Proof.
  destruct (Clear_marks_obsolete OrderedHashSet five_keys_isolate 0%nat
              five_keys_table 2)
    as (isolate' & new_t & Hclear & Hnew & Hcap & Hnof & Hnod & Hobs & Hold & _);
    [by_computation..|].
  rewrite decide_True in Hold by by_computation.
  exists isolate', new_t. split_and!; assumption.
Defined.

(** Witness of C3, for an iterator at index 3 of the rehashed table with
    slot 1 removed: it moves to the new table, at index 2. *)
Lemma Transition_follows_chain_witness :
  obsolete_chain rehashed_isolate 0%nat [rehashed_source] 1%nat ∧
  removed_log_ok rehashed_source ∧
  Transition 2 rehashed_isolate (mkIterator 0%nat (Smi 3)) = Some (mkIterator 1%nat (Smi 2)).
Proof.
  assert (obsolete_chain rehashed_isolate 0%nat [rehashed_source] 1%nat) as Hchain.
  { eapply (obsolete_chain_step _ 0%nat rehashed_source 1%nat);
      [by_computation..|].
    eapply obsolete_chain_end; by_computation. }
  assert (removed_log_ok rehashed_source) as Hlog.
  { right. by_computation. }
  split_and!; [done..|].
  destruct (Transition_follows_chain rehashed_isolate (mkIterator 0%nat (Smi 3))
              rehashed_source [] 1%nat 3 eq_refl ltac:(done) Hchain)
    as (final_t & _ & _ & Hmoved).
  { by apply Forall_singleton. }
  exact Hmoved.
Defined.

(** Witness of C1, on the five keys with the second one deleted,
    rehashed for capacity 8. *)
Lemma Rehash_preserves_live_entries_witness :
  ∃ isolate' t' new_t,
    OrderedHashTable_Rehash OrderedHashSet holed_isolate 0%nat 8
      = Some (isolate', Some 1%nat) ∧
    large_at isolate' 1%nat = Some new_t ∧
    large_at isolate' 0%nat = Some t' ∧
    live_entries OrderedHashSet new_t = [[Smi 1]; [Smi 3]; [Smi 4]; [Smi 5]] ∧
    live_entries OrderedHashSet holed_table = [[Smi 1]; [Smi 3]; [Smi 4]; [Smi 5]] ∧
    recorded_removed_indices t' = [1] ∧
    NumberOfElements new_t = 4 ∧
    next_table t' = Some 1%nat.
Proof.
  destruct (Rehash_preserves_live_entries OrderedHashSet holed_isolate 0%nat
              holed_table 8)
    as (isolate' & t' & new_t & Hrehash & Hnew & Hold & Hlive & Hlog & _ & Hnof
        & Hnext); [by_computation..|].
  rewrite decide_True in Hnext by by_computation.
  exists isolate', t', new_t. split_and!.
  - exact Hrehash.
  - exact Hnew.
  - exact Hold.
  - rewrite Hlive. by_computation.
  - by_computation.
  - rewrite Hlog. by_computation.
  - rewrite Hnof. by_computation.
  - exact Hnext.
Defined.


(** Witness of C6, on a set and a map of each form, for a key they hold. *)
Lemma Add_present_changes_nothing_witness :
  OrderedHashSet_Add 16 five_keys_isolate 0%nat (Smi 3)
    = Some (five_keys_isolate, Some 0%nat) ∧
  OrderedHashMap_Add 16 two_pairs_isolate 0%nat (Smi 2) (Smi 99)
    = Some (two_pairs_isolate, Some 0%nat) ∧
  SmallOrderedHashSet_Add 16 two_keys_isolate 0%nat (Smi 2)
    = Some (two_keys_isolate, Some 0%nat) ∧
  SmallOrderedHashMap_Add 16 small_pairs_isolate 0%nat (Smi 2) (Smi 99)
    = Some (small_pairs_isolate, Some 0%nat).
Proof.
  split_and!.
  - apply (proj1 (Add_present_changes_nothing 16 five_keys_isolate 0%nat (Smi 3)
                    undefined_value) five_keys_table).
    + by_computation.
    + apply five_keys_table_ok.
    + decide_each.
    + exists 2. split; [decide_it|by_computation].
    + decide_it.
  - apply (proj1 (proj2 (Add_present_changes_nothing 16 two_pairs_isolate 0%nat
                           (Smi 2) (Smi 99))) two_pairs_table).
    + by_computation.
    + apply two_pairs_table_ok.
    + decide_each.
    + exists 1. split; [decide_it|by_computation].
    + decide_it.
  - apply (proj1 (proj2 (proj2 (Add_present_changes_nothing 16 two_keys_isolate
                                  0%nat (Smi 2) undefined_value)))
             two_keys_table).
    + by_computation.
    + decide_each.
    + exists 1. split; [decide_it|by_computation].
    + decide_it.
  - apply (proj2 (proj2 (proj2 (Add_present_changes_nothing 16 small_pairs_isolate
                                  0%nat (Smi 2) (Smi 99))))
             small_pairs_table).
    + by_computation.
    + decide_each.
    + exists 1. split; [decide_it|by_computation].
    + decide_it.
Defined.

(** Witness of C10, on the maps of two pairs: adding key 2 with value 99
    leaves its value 20. *)
Lemma Map_Add_keeps_value_witness :
  (∃ isolate' t',
     OrderedHashMap_Add 16 two_pairs_isolate 0%nat (Smi 2) (Smi 99)
       = Some (isolate', Some 0%nat) ∧
     large_at isolate' 0%nat = Some t' ∧
     KeyAt 2 t' 1 = Smi 2 ∧
     OrderedHashMap_ValueAt t' 1 = Smi 20) ∧
  (∃ isolate' s',
     SmallOrderedHashMap_Add 16 small_pairs_isolate 0%nat (Smi 2) (Smi 99)
       = Some (isolate', Some 0%nat) ∧
     small_at isolate' 0%nat = Some s' ∧
     Small_KeyAt SmallOrderedHashMap s' 1 = Smi 2 ∧
     SmallOrderedHashMap_ValueAt s' 1 = Smi 20) ∧
  OrderedHashMap_ValueAt (OrderedHashMap_SetEntry two_pairs_table 1 (Smi 2) (Smi 99)) 1
    = Smi 99.
Proof.
  split_and!.
  - destruct (proj1 (Map_Add_keeps_value 16 two_pairs_isolate 0%nat (Smi 2) (Smi 99))
                two_pairs_table 1)
      as (isolate' & t' & Hadd & Ht' & Hkey & Hvalue).
    + by_computation.
    + apply two_pairs_table_ok.
    + decide_each.
    + decide_it.
    + by_computation.
    + decide_it.
    + exists isolate', t'. split_and!; [exact Hadd|exact Ht'| |].
      * rewrite Hkey. by_computation.
      * rewrite Hvalue. by_computation.
  - destruct (proj1 (proj2 (Map_Add_keeps_value 16 small_pairs_isolate 0%nat (Smi 2)
                              (Smi 99))) small_pairs_table 1)
      as (isolate' & s' & Hadd & Hs' & Hkey & Hvalue).
    + by_computation.
    + decide_each.
    + decide_it.
    + by_computation.
    + decide_it.
    + exists isolate', s'. split_and!; [exact Hadd|exact Hs'| |].
      * rewrite Hkey. by_computation.
      * rewrite Hvalue. by_computation.
  - apply (proj2 (proj2 (Map_Add_keeps_value 16 two_pairs_isolate 0%nat (Smi 2)
                           (Smi 99))) two_pairs_table 4 1).
    + unfold layout_ok. split_and!; by_computation.
    + by_computation.
Defined.


(** Witness of C2, on a set, a map and a name dictionary of each form, for a
    key that none of them holds. *)
Lemma Add_appends_at_used_capacity_witness :
  (∃ isolate' table',
     OrderedHashSet_Add 16 five_keys_isolate 0%nat (Smi 6)
       = Some (isolate', Some table') ∧
     large_add_appends OrderedHashSet five_keys_isolate 0%nat [Smi 6]
       isolate' table') ∧
  (∃ isolate' table',
     OrderedHashMap_Add 16 two_pairs_isolate 0%nat (Smi 6) (Smi 60)
       = Some (isolate', Some table') ∧
     large_add_appends OrderedHashMap two_pairs_isolate 0%nat [Smi 6; Smi 60]
       isolate' table') ∧
  (∃ isolate' table',
     OrderedNameDictionary_Add one_property_isolate 0%nat (HeapObject 6) (Smi 60) 0
       = Some (isolate', Some table') ∧
     large_add_appends OrderedNameDictionary one_property_isolate 0%nat
       [HeapObject 6; Smi 60; Smi 0] isolate' table') ∧
  (∃ isolate' table',
     SmallOrderedHashSet_Add 16 two_keys_isolate 0%nat (Smi 6)
       = Some (isolate', Some table') ∧
     small_add_appends SmallOrderedHashSet two_keys_isolate 0%nat two_keys_table
       [Smi 6] isolate' table') ∧
  (∃ isolate' table',
     SmallOrderedHashMap_Add 16 small_pairs_isolate 0%nat (Smi 6) (Smi 60)
       = Some (isolate', Some table') ∧
     small_add_appends SmallOrderedHashMap small_pairs_isolate 0%nat
       small_pairs_table [Smi 6; Smi 60] isolate' table') ∧
  (∃ isolate' table',
     SmallOrderedNameDictionary_Add small_property_isolate 0%nat (HeapObject 6)
       (Smi 60) 0 = Some (isolate', Some table') ∧
     small_add_appends SmallOrderedNameDictionary small_property_isolate 0%nat
       small_property_table [HeapObject 6; Smi 60; Smi 0] isolate' table').
Proof.
  assert (2 ≤ kInitialCapacity ≤ 2 ^ 30) as Hk by by_computation.
  split_and!.
  - pose proof (Add_appends_at_used_capacity 16 five_keys_isolate 0%nat (Smi 6)
                  undefined_value 0 Hk
                  eq_refl) as (Hadds & _).
    destruct (Hadds five_keys_table)
      as (isolate' & [table'|] & Hadd & Hpost).
    + by_computation.
    + apply five_keys_table_ok.
    + decide_each.
    + decide_it.
    + exists isolate', table'. split; [exact Hadd|exact Hpost].
    + exfalso. subst isolate'. vm_compute in Hadd. discriminate Hadd.
  - pose proof (Add_appends_at_used_capacity 16 two_pairs_isolate 0%nat (Smi 6)
                  (Smi 60) 0 Hk
                  eq_refl) as (_ & Hadds & _).
    destruct (Hadds two_pairs_table)
      as (isolate' & [table'|] & Hadd & Hpost).
    + by_computation.
    + apply two_pairs_table_ok.
    + decide_each.
    + decide_it.
    + exists isolate', table'. split; [exact Hadd|exact Hpost].
    + exfalso. subst isolate'. vm_compute in Hadd. discriminate Hadd.
  - pose proof (Add_appends_at_used_capacity 16 one_property_isolate 0%nat
                  (HeapObject 6) (Smi 60) 0 Hk
                  eq_refl) as (_ & _ & Hadds & _).
    destruct (Hadds one_property_table)
      as (isolate' & [table'|] & Hadd & Hpost).
    + by_computation.
    + apply one_property_table_ok.
    + exists isolate', table'. split; [exact Hadd|exact Hpost].
    + exfalso. subst isolate'. vm_compute in Hadd. discriminate Hadd.
  - pose proof (Add_appends_at_used_capacity 16 two_keys_isolate 0%nat (Smi 6)
                  undefined_value 0 Hk
                  eq_refl) as (_ & _ & _ & Hadds & _).
    destruct (Hadds two_keys_table)
      as (isolate' & [table'|] & Hadd & Hpost).
    + by_computation.
    + apply two_keys_table_ok.
    + decide_each.
    + decide_it.
    + exists isolate', table'. split; [exact Hadd|exact Hpost].
    + exfalso. subst isolate'. vm_compute in Hadd. discriminate Hadd.
  - pose proof (Add_appends_at_used_capacity 16 small_pairs_isolate 0%nat (Smi 6)
                  (Smi 60) 0 Hk
                  eq_refl) as (_ & _ & _ & _ & Hadds & _).
    destruct (Hadds small_pairs_table)
      as (isolate' & [table'|] & Hadd & Hpost).
    + by_computation.
    + apply small_pairs_table_ok.
    + decide_each.
    + decide_it.
    + exists isolate', table'. split; [exact Hadd|exact Hpost].
    + exfalso. subst isolate'. vm_compute in Hadd. discriminate Hadd.
  - pose proof (Add_appends_at_used_capacity 16 small_property_isolate 0%nat
                  (HeapObject 6) (Smi 60) 0 Hk
                  eq_refl) as (_ & _ & _ & _ & _ & Hadds).
    destruct (Hadds small_property_table)
      as (isolate' & [table'|] & Hadd & Hpost).
    + by_computation.
    + apply small_property_table_ok.
    + exists isolate', table'. split; [exact Hadd|exact Hpost].
    + exfalso. subst isolate'. vm_compute in Hadd. discriminate Hadd.
Defined.

(** Witness of C4, on the small set of 254 keys, to which a further key
    cannot be added. *)
Lemma Handler_Add_promotes_witness :
  SmallOrderedHashSet_Add 300 full_isolate 0%nat (Smi 1000)
    = Some (full_isolate, None) ∧
  ∃ isolate' new_table t,
    OrderedHashSetHandler_AdjustRepresentation 300 full_isolate 0%nat
      = Some (isolate', Some new_table) ∧
    large_at isolate' new_table = Some t ∧
    NumberOfElements t = 254 ∧
    Capacity t = 512 ∧
    live_entries OrderedHashSet t
      = small_live_entries SmallOrderedHashSet full_table ∧
    OrderedHashSetHandler_Add 300 full_isolate 0%nat (Smi 1000)
      = OrderedHashSet_Add 300 isolate' new_table (Smi 1000).
Proof.
  split; [exact full_table_add_fails|].
  pose proof (Handler_Add_promotes 300 full_isolate 0%nat full_table (Smi 1000)
                full_isolate) as Hpromotes.
  do 2 specialize (Hpromotes ltac:(by_computation)).
  cbv zeta in Hpromotes.
  do 4 specialize (Hpromotes ltac:(by_computation)).
  specialize (Hpromotes full_table_ok).
  specialize (Hpromotes full_table_distinct ltac:(decide_it) full_table_add_fails).
  destruct Hpromotes
    as (isolate' & new_table & t & Hadjust & Ht & _ & Hnof & _ & Hlive & Hcap
        & Hadd).
  exists isolate', new_table, t. split_and!.
  - exact Hadjust.
  - exact Ht.
  - rewrite Hnof. by_computation.
  - transitivity (2 ^ Z.log2_up (kInitialCapacity `max` OrderedHashTableMinSize)).
    + apply Hcap. by_computation.
    + by_computation.
  - exact Hlive.
  - exact Hadd.
Defined.

(** Counterexample to C9 as stated: it fails for the third counter of the
    header: the table allocated for 4 entries has no elements and no deleted
    elements, and 2 buckets. *)
Lemma Allocate_number_of_buckets_not_zero :
  ∃ isolate' t,
    OrderedHashTable_Allocate OrderedHashSet empty_isolate 4
      = (isolate', Some 0%nat) ∧
    large_at isolate' 0%nat = Some t ∧
    NumberOfElements t = 0 ∧
    NumberOfDeletedElements t = 0 ∧
    NumberOfBuckets t = 2.
Proof.
  eexists _, _. split_and!; by_computation.
Defined.

(** *** Lookup, deletion, iteration and the small form *)

#[local] Existing Instance simple_primitives.

Lemma simple_primitives_ok : PrimitivesOk.
Proof. split. intros a b Hsame%bool_decide_eq_true. by subst. Qed.
#[local] Existing Instance simple_primitives_ok.

Lemma holed_table_ok : table_ok OrderedHashSet holed_table.
Proof. large_table_ok. Qed.
Lemma sparse_table_ok : table_ok OrderedHashSet sparse_table.
Proof. large_table_ok. Qed.
Lemma sparse_small_table_ok : small_table_ok SmallOrderedHashSet sparse_small_table.
Proof. small_table_ok. Qed.

Ltac each_live :=
  unfold keys_hashed; apply (proj1 (Forall_forall _ _)); decide_it.

Lemma five_keys_table_hashed : keys_hashed OrderedHashSet five_keys_table.
Proof. each_live. Qed.
Lemma five_keys_table_complete : buckets_complete OrderedHashSet five_keys_table.
Proof. decide_each. Qed.
Lemma two_pairs_table_hashed : keys_hashed OrderedHashMap two_pairs_table.
Proof. each_live. Qed.


(** Witness of X2: 9 is not among the five keys. *)
Lemma Delete_missing_key_witness :
  OrderedHashTable_Delete 16 OrderedHashSet five_keys_table (Smi 9)
    = Some (five_keys_table, false).
Proof.
  apply Delete_missing_key.
  - by_computation.
  - by_computation.
  - apply five_keys_table_ok.
  - decide_each.
  - decide_it.
Defined.

(** Witness of X3: deleting 2 from the five keys leaves the other four in
    their order and slot 1 tombstoned. *)
Lemma Delete_tombstones_entry_witness :
  ∃ t',
    OrderedHashTable_Delete 16 OrderedHashSet five_keys_table (Smi 2)
      = Some (t', true) ∧
    live_slots OrderedHashSet t' = [0; 2; 3; 4] ∧
    NumberOfElements t' = 4 ∧
    NumberOfDeletedElements t' = 1 ∧
    table_ok OrderedHashSet t'.
Proof.
  destruct (Delete_tombstones_entry 16 OrderedHashSet five_keys_table (Smi 2))
    as (entry & t' & Hdelete & Hlive & Hsame & _ & _ & Hslots & Hnof & Hnod & Hok
        & _).
  - by_computation.
  - by_computation.
  - apply five_keys_table_ok.
  - apply five_keys_table_complete.
  - apply five_keys_table_hashed.
  - exists 1. split; [decide_it|by_computation].
  - decide_it.
  - exists t'. split; [exact Hdelete|].
    assert (Forall (λ e, SameValueZero (KeyAt 1 five_keys_table e) (Smi 2) = true
                         → e = 1)
              (live_slots OrderedHashSet five_keys_table)) as Honly by decide_it.
    rewrite Forall_forall in Honly.
    rewrite (Honly entry Hlive Hsame) in Hslots.
    split_and!.
    + rewrite Hslots. by_computation.
    + rewrite Hnof. by_computation.
    + rewrite Hnod. by_computation.
    + exact Hok.
Defined.

Ltac settle := first [by_computation | decide_it].

(** Witness of X4, on the five keys and the key 2. *)
Lemma Delete_then_HasKey_witness :
  ∃ t',
    OrderedHashTable_Delete 16 OrderedHashSet five_keys_table (Smi 2)
      = Some (t', true) ∧
    OrderedHashTable_HasKey 16 OrderedHashSet t' (Smi 2) = Some false ∧
    OrderedHashTable_Delete 16 OrderedHashSet t' (Smi 2) = Some (t', false).
Proof.
  apply Delete_then_HasKey.
  - by_computation.
  - by_computation.
  - apply five_keys_table_ok.
  - apply five_keys_table_complete.
  - apply five_keys_table_hashed.
  - exists 1. split; [decide_it|by_computation].
  - assert (Forall (λ e, SameValueZero (KeyAt 1 five_keys_table e) (Smi 2) = true
                         → e = 1)
              (live_slots OrderedHashSet five_keys_table)) as Honly by decide_it.
    rewrite Forall_forall in Honly.
    intros e e' He He' Hsame Hsame'.
    rewrite (Honly e He Hsame), (Honly e' He' Hsame'). reflexivity.
  - decide_it.
Defined.

(** Witness of X5, for the key 6 added to the five keys and to the two
    pairs. *)
Lemma Add_then_HasKey_witness :
  (∃ isolate' table' t',
     OrderedHashSet_Add 16 five_keys_isolate 0%nat (Smi 6)
       = Some (isolate', Some table') ∧
     large_at isolate' table' = Some t' ∧
     OrderedHashTable_HasKey 16 OrderedHashSet t' (Smi 6) = Some true) ∧
  (∃ isolate' table' t',
     OrderedHashMap_Add 16 two_pairs_isolate 0%nat (Smi 6) (Smi 60)
       = Some (isolate', Some table') ∧
     large_at isolate' table' = Some t' ∧
     OrderedHashTable_HasKey 16 OrderedHashMap t' (Smi 6) = Some true).
Proof.
  split.
  - destruct (OrderedHashSet_Add 16 five_keys_isolate 0%nat (Smi 6))
      as [[isolate' [table'|]]|] eqn:Hadd;
      [|exfalso; vm_compute in Hadd; discriminate Hadd..].
    pose proof (Add_then_HasKey 16 five_keys_isolate 0%nat (Smi 6) undefined_value
                  isolate' table') as [Hset _]; [by_computation..|].
    destruct (Hset five_keys_table) as (t' & entry & Ht' & _ & _ & Hhas).
    + by_computation.
    + apply five_keys_table_ok.
    + apply five_keys_table_complete.
    + apply five_keys_table_hashed.
    + decide_it.
    + exact Hadd.
    + exists isolate', table', t'. split; [reflexivity|]. split; [exact Ht'|exact Hhas].
  - destruct (OrderedHashMap_Add 16 two_pairs_isolate 0%nat (Smi 6) (Smi 60))
      as [[isolate' [table'|]]|] eqn:Hadd;
      [|exfalso; vm_compute in Hadd; discriminate Hadd..].
    pose proof (Add_then_HasKey 16 two_pairs_isolate 0%nat (Smi 6) (Smi 60)
                  isolate' table') as [_ Hmap]; [by_computation..|].
    destruct (Hmap two_pairs_table) as (t' & entry & Ht' & _ & _ & Hhas).
    + by_computation.
    + apply two_pairs_table_ok.
    + decide_each.
    + apply two_pairs_table_hashed.
    + decide_it.
    + exact Hadd.
    + exists isolate', table', t'. split; [reflexivity|]. split; [exact Ht'|exact Hhas].
Defined.

(** Witness of X6, for the key 6 added to the five keys. *)
Lemma Add_appends_to_iteration_order_witness :
  ∃ isolate' table' t',
    OrderedHashSet_Add 16 five_keys_isolate 0%nat (Smi 6)
      = Some (isolate', Some table') ∧
    large_at isolate' table' = Some t' ∧
    live_entries OrderedHashSet t'
      = [[Smi 1]; [Smi 2]; [Smi 3]; [Smi 4]; [Smi 5]; [Smi 6]].
Proof.
  destruct (OrderedHashSet_Add 16 five_keys_isolate 0%nat (Smi 6))
    as [[isolate' [table'|]]|] eqn:Hadd;
    [|exfalso; vm_compute in Hadd; discriminate Hadd..].
  pose proof (Add_appends_to_iteration_order 16 five_keys_isolate 0%nat (Smi 6)
                undefined_value 0 isolate' table') as [Hset _]; [by_computation..|].
  destruct (Hset five_keys_table) as (t' & Ht' & Horder & _).
  - by_computation.
  - apply five_keys_table_ok.
  - decide_each.
  - decide_it.
  - exact Hadd.
  - exists isolate', table', t'. split; [reflexivity|]. split; [exact Ht'|].
    rewrite Horder. by_computation.
Defined.

(** Witness of X7, on the two keys in a set of capacity 16, which is shrunk
    to capacity 8. *)
Lemma Shrink_keeps_entries_witness :
  ∃ isolate' t',
    Shrink OrderedHashSet sparse_isolate 0%nat = Some (isolate', 1%nat) ∧
    large_at isolate' 1%nat = Some t' ∧
    live_entries OrderedHashSet t' = [[Smi 1]; [Smi 2]] ∧
    Capacity t' = 8.
Proof.
  destruct (Shrink_keeps_entries OrderedHashSet sparse_isolate 0%nat sparse_table 2)
    as (isolate' & table' & t' & Hshrink & Ht' & Hentries & _ & _ & Hrehash);
    [by_computation|apply sparse_table_ok|by_computation..|].
  destruct Hrehash as (Htable & _ & Hcap & _); [by_computation|].
  assert (table' = 1%nat) as -> by (rewrite Htable; by_computation).
  exists isolate', t'. split_and!.
  - exact Hshrink.
  - exact Ht'.
  - rewrite Hentries. by_computation.
  - rewrite Hcap. by_computation.
Defined.

(** Witness of X8, on the five keys with the second one deleted: from index
    1 the iterator moves to slot 2, from index 5 it is exhausted. *)
Lemma HasMore_skips_tombstones_witness :
  HasMore 16 OrderedHashSet 7%nat holed_isolate (mkIterator 0%nat (Smi 1))
    = Some (mkIterator 0%nat (Smi 2), true) ∧
  HasMore 16 OrderedHashSet 7%nat holed_isolate (mkIterator 0%nat (Smi 5))
    = Some (mkIterator 7%nat (Smi 5), false).
Proof.
  split.
  - rewrite (HasMore_skips_tombstones 16 OrderedHashSet 7%nat holed_isolate 0%nat
               holed_table 1); settle.
  - rewrite (HasMore_skips_tombstones 16 OrderedHashSet 7%nat holed_isolate 0%nat
               holed_table 5); settle.
Defined.

(** Witness of X9, on the five keys with the second one deleted: an
    iterator at index 3 is at index 2 of the rehashed table, with the keys 4
    and 5 ahead of it. *)
Lemma Transition_after_Rehash_witness :
  ∃ isolate' new_t,
    Derived_Rehash OrderedHashSet holed_isolate 0%nat 8
      = Some (isolate', Some 1%nat) ∧
    large_at isolate' 1%nat = Some new_t ∧
    Transition 2 isolate' (mkIterator 0%nat (Smi 3))
      = Some (mkIterator 1%nat (Smi 2)) ∧
    map (payload OrderedHashSet new_t)
        (List.filter (λ e, bool_decide (2 ≤ e)) (live_slots OrderedHashSet new_t))
      = [[Smi 4]; [Smi 5]].
Proof.
  destruct (Transition_after_Rehash OrderedHashSet holed_isolate 0%nat holed_table
              8 3)
    as (isolate' & new_t & index' & Hrehash & Hnew & Hmoved & Hindex & Hahead);
    [by_computation|by_computation|apply holed_table_ok|by_computation..|].
  assert (index' = 2) as -> by (rewrite Hindex; by_computation).
  assert (length (heap holed_isolate) = 1%nat) as Hlen by by_computation.
  rewrite Hlen in Hrehash, Hnew, Hmoved.
  exists isolate', new_t. split_and!.
  - exact Hrehash.
  - exact Hnew.
  - exact Hmoved.
  - rewrite Hahead. by_computation.
Defined.

(** Witness of X10, for the key 1 added to an empty set in an empty heap. *)
Lemma Add_to_empty_table_witness :
  ∃ isolate0 t0 isolate' t',
    Derived_AllocateEmpty OrderedHashSet empty_isolate = Some (isolate0, 0%nat) ∧
    OrderedHashSet_Add 16 isolate0 0%nat (Smi 1) = Some (isolate', Some 1%nat) ∧
    large_at isolate' 0%nat = Some t0 ∧
    NumberOfBuckets t0 = 0 ∧
    IsObsolete t0 = false ∧
    large_at isolate' 1%nat = Some t' ∧
    live_entries OrderedHashSet t' = [[Smi 1]] ∧
    Capacity t' = 4.
Proof.
  destruct (Add_to_empty_table OrderedHashSet 16 empty_isolate (Smi 1)
              undefined_value 0)
    as (isolate0 & t0 & isolate' & t' & Hempty & _ & Hnob & Hadd & Hold & Hobs
        & Hnew & Hentries & _ & Hcap); [by_computation..|].
  exists isolate0, t0, isolate', t'. split_and!.
  - exact Hempty.
  - exact Hadd.
  - exact Hold.
  - exact Hnob.
  - exact Hobs.
  - exact Hnew.
  - exact Hentries.
  - rewrite Hcap. by_computation.
Defined.

(** Witness of X11, on the small set of two keys, rehashed for capacity 8. *)
Lemma Small_Rehash_keeps_entries_witness :
  ∃ isolate' new_s,
    Small_Derived_Rehash SmallOrderedHashSet two_keys_isolate 0%nat 8
      = Some (isolate', 1%nat) ∧
    small_at isolate' 1%nat = Some new_s ∧
    small_at isolate' 0%nat = Some two_keys_table ∧
    small_live_entries SmallOrderedHashSet new_s = [[Smi 1]; [Smi 2]].
Proof.
  destruct (Small_Rehash_keeps_entries SmallOrderedHashSet two_keys_isolate 0%nat
              two_keys_table 8)
    as (isolate' & new_s & Hrehash & Hnew & Hold & Hentries & _);
    [by_computation|apply two_keys_table_ok|by_computation|].
  assert (length (heap two_keys_isolate) = 1%nat) as Hlen by by_computation.
  rewrite Hlen in Hrehash, Hnew.
  exists isolate', new_s. split_and!.
  - exact Hrehash.
  - exact Hnew.
  - exact Hold.
  - rewrite Hentries. by_computation.
Defined.

(** Witness of X12, on the two keys in a small set of capacity 16. *)
Lemma Small_Shrink_keeps_entries_witness :
  ∃ isolate' s',
    Small_Shrink SmallOrderedHashSet sparse_small_isolate 0%nat
      = Some (isolate', 1%nat) ∧
    small_at isolate' 1%nat = Some s' ∧
    small_live_entries SmallOrderedHashSet s' = [[Smi 1]; [Smi 2]] ∧
    Small_NumberOfDeletedElements s' = 0.
Proof.
  destruct (Small_Shrink_keeps_entries SmallOrderedHashSet sparse_small_isolate
              0%nat sparse_small_table)
    as (isolate' & table' & s' & Hshrink & Hs' & Hentries & _ & _ & Hrehash);
    [by_computation|apply sparse_small_table_ok|].
  destruct Hrehash as (Htable & _ & Hnod); [by_computation|].
  assert (table' = 1%nat) as -> by (rewrite Htable; by_computation).
  exists isolate', s'. split_and!.
  - exact Hshrink.
  - exact Hs'.
  - rewrite Hentries. by_computation.
  - exact Hnod.
Defined.

(** Witness of X13, for the key 3 added to the small set of two keys. *)
Lemma Small_Add_appends_to_iteration_order_witness :
  ∃ isolate' table' s',
    SmallOrderedHashSet_Add 16 two_keys_isolate 0%nat (Smi 3)
      = Some (isolate', Some table') ∧
    small_at isolate' table' = Some s' ∧
    small_live_entries SmallOrderedHashSet s' = [[Smi 1]; [Smi 2]; [Smi 3]].
Proof.
  destruct (SmallOrderedHashSet_Add 16 two_keys_isolate 0%nat (Smi 3))
    as [[isolate' [table'|]]|] eqn:Hadd;
    [|exfalso; vm_compute in Hadd; discriminate Hadd..].
  pose proof (Small_Add_appends_to_iteration_order 16 two_keys_isolate 0%nat (Smi 3)
                undefined_value 0 isolate' table') as [Hset _]; [by_computation|].
  destruct (Hset two_keys_table) as (s' & Hs' & Horder & _).
  - by_computation.
  - apply two_keys_table_ok.
  - decide_each.
  - decide_it.
  - exact Hadd.
  - exists isolate', table', s'. split; [reflexivity|]. split; [exact Hs'|].
    rewrite Horder. by_computation.
Defined.

(** Witness of X14, on the small set of two keys: 9 is not among them, 2
    is. *)
Lemma Small_Delete_tombstones_entry_witness :
  Small_Delete 16 SmallOrderedHashSet two_keys_table (Smi 9)
    = Some (two_keys_table, false) ∧
  ∃ s',
    Small_Delete 16 SmallOrderedHashSet two_keys_table (Smi 2) = Some (s', true) ∧
    small_live_slots SmallOrderedHashSet s' = [0] ∧
    Small_NumberOfElements s' = 1 ∧
    Small_NumberOfDeletedElements s' = 1 ∧
    small_table_ok SmallOrderedHashSet s'.
Proof.
  split.
  - apply (Small_Delete_tombstones_entry 16 SmallOrderedHashSet two_keys_table
             (Smi 9)).
    + by_computation.
    + by_computation.
    + apply two_keys_table_ok.
    + decide_each.
    + decide_it.
    + decide_each.
  - destruct (Small_Delete_tombstones_entry 16 SmallOrderedHashSet two_keys_table
                (Smi 2)) as [_ Hpresent].
    + by_computation.
    + by_computation.
    + apply two_keys_table_ok.
    + decide_each.
    + decide_it.
    + destruct Hpresent
        as (entry & s' & Hdelete & Hlive & Hsame & _ & _ & Hslots & Hnof & Hnod
            & Hok & _).
      { exists 1. split; [decide_it|by_computation]. }
      assert (Forall (λ e, SameValueZero
                             (Small_KeyAt SmallOrderedHashSet two_keys_table e)
                             (Smi 2) = true → e = 1)
                (small_live_slots SmallOrderedHashSet two_keys_table)) as Honly
        by decide_it.
      rewrite Forall_forall in Honly.
      rewrite (Honly entry Hlive Hsame) in Hslots.
      exists s'. split_and!.
      * exact Hdelete.
      * rewrite Hslots. by_computation.
      * rewrite Hnof. by_computation.
      * rewrite Hnod. by_computation.
      * exact Hok.
Defined.

(** Witness of X15, on the small set of two keys and the key 2. *)
Lemma Small_Delete_then_HasKey_witness :
  ∃ s',
    Small_Delete 16 SmallOrderedHashSet two_keys_table (Smi 2) = Some (s', true) ∧
    Small_HasKey 16 SmallOrderedHashSet s' (Smi 2) = Some false ∧
    Small_Delete 16 SmallOrderedHashSet s' (Smi 2) = Some (s', false).
Proof.
  apply Small_Delete_then_HasKey.
  - by_computation.
  - by_computation.
  - apply two_keys_table_ok.
  - decide_each.
  - exists 1. split; [decide_it|by_computation].
  - assert (Forall (λ e, SameValueZero
                           (Small_KeyAt SmallOrderedHashSet two_keys_table e)
                           (Smi 2) = true → e = 1)
              (small_live_slots SmallOrderedHashSet two_keys_table)) as Honly
      by decide_it.
    rewrite Forall_forall in Honly.
    intros e e' He He' Hsame Hsame'.
    rewrite (Honly e He Hsame), (Honly e' He' Hsame'). reflexivity.
  - decide_it.
Defined.

(** *** Round trips and the invariants kept *)

Ltac invariants :=
  unfold table_invariants; split_and!;
  [large_table_ok
  |decide_each
  |each_live
  |unfold hashes_agree; apply (proj1 (Forall_forall _ _)); decide_it].

Lemma five_keys_table_invariants : table_invariants OrderedHashSet five_keys_table.
Proof. invariants. Qed.
Lemma two_pairs_table_invariants : table_invariants OrderedHashMap two_pairs_table.
Proof. invariants. Qed.
Lemma full_set_table_invariants : table_invariants OrderedHashSet full_set_table.
Proof. invariants. Qed.
Lemma sparse_table_invariants : table_invariants OrderedHashSet sparse_table.
Proof. invariants. Qed.

(** Witness of X16: adding 3 to the small set of 1 and 2, and the pair of 3
    and 30 to the small map. *)
Lemma Small_Add_then_HasKey_witness :
  (∃ isolate' table' s',
     SmallOrderedHashSet_Add 16 two_keys_isolate 0%nat (Smi 3)
       = Some (isolate', Some table') ∧
     small_at isolate' table' = Some s' ∧
     Small_HasKey 16 SmallOrderedHashSet s' (Smi 3) = Some true) ∧
  (∃ isolate' table' s',
     SmallOrderedHashMap_Add 16 small_pairs_isolate 0%nat (Smi 3) (Smi 30)
       = Some (isolate', Some table') ∧
     small_at isolate' table' = Some s' ∧
     Small_HasKey 16 SmallOrderedHashMap s' (Smi 3) = Some true).
Proof.
  split.
  - destruct (SmallOrderedHashSet_Add 16 two_keys_isolate 0%nat (Smi 3))
      as [[isolate' [table'|]]|] eqn:Hadd;
      [|exfalso; vm_compute in Hadd; discriminate Hadd..].
    pose proof (Small_Add_then_HasKey 16 two_keys_isolate 0%nat (Smi 3)
                  undefined_value isolate' table') as [Hset _];
      [by_computation..|].
    destruct (Hset two_keys_table) as (s' & Hs' & Hhas).
    + by_computation.
    + apply two_keys_table_ok.
    + exact Hadd.
    + exists isolate', table', s'. split; [reflexivity|]. split; [exact Hs'|exact Hhas].
  - destruct (SmallOrderedHashMap_Add 16 small_pairs_isolate 0%nat (Smi 3) (Smi 30))
      as [[isolate' [table'|]]|] eqn:Hadd;
      [|exfalso; vm_compute in Hadd; discriminate Hadd..].
    pose proof (Small_Add_then_HasKey 16 small_pairs_isolate 0%nat (Smi 3)
                  (Smi 30) isolate' table') as [_ Hmap];
      [by_computation..|].
    destruct (Hmap small_pairs_table) as (s' & Hs' & Hhas).
    + by_computation.
    + apply small_pairs_table_ok.
    + exact Hadd.
    + exists isolate', table', s'. split; [reflexivity|]. split; [exact Hs'|exact Hhas].
Defined.

(** Witness of X17: adding the property 6 to the dictionaries of the
    property 7. *)
Lemma NameDictionary_Add_then_FindEntry_witness :
  (∃ isolate' table' t' entry,
     OrderedNameDictionary_Add one_property_isolate 0%nat (HeapObject 6) (Smi 60) 0
       = Some (isolate', Some table') ∧
     large_at isolate' table' = Some t' ∧
     OrderedNameDictionary_FindEntry 16 t' (HeapObject 6) = Some (Some entry) ∧
     payload OrderedNameDictionary t' entry = [HeapObject 6; Smi 60; AsSmi 0]) ∧
  (∃ isolate' table' s' entry,
     SmallOrderedNameDictionary_Add small_property_isolate 0%nat (HeapObject 6)
       (Smi 60) 0 = Some (isolate', Some table') ∧
     small_at isolate' table' = Some s' ∧
     Small_FindEntry 16 SmallOrderedNameDictionary s' (HeapObject 6)
       = Some (Some entry) ∧
     small_payload SmallOrderedNameDictionary s' entry
       = [HeapObject 6; Smi 60; AsSmi 0]).
Proof.
  split.
  - destruct (OrderedNameDictionary_Add one_property_isolate 0%nat (HeapObject 6)
                (Smi 60) 0) as [[isolate' [table'|]]|] eqn:Hadd;
      [|exfalso; vm_compute in Hadd; discriminate Hadd..].
    pose proof (NameDictionary_Add_then_FindEntry 15 one_property_isolate 0%nat
                  (HeapObject 6) (Smi 60) 0 isolate' table') as [Hlarge _];
      [by_computation..|].
    destruct (Hlarge one_property_table) as (t' & entry & Ht' & Hfind & Hpayload).
    + by_computation.
    + apply one_property_table_ok.
    + exact Hadd.
    + exists isolate', table', t', entry.
      split; [reflexivity|]. split; [exact Ht'|]. split; [exact Hfind|exact Hpayload].
  - destruct (SmallOrderedNameDictionary_Add small_property_isolate 0%nat
                (HeapObject 6) (Smi 60) 0) as [[isolate' [table'|]]|] eqn:Hadd;
      [|exfalso; vm_compute in Hadd; discriminate Hadd..].
    pose proof (NameDictionary_Add_then_FindEntry 15 small_property_isolate 0%nat
                  (HeapObject 6) (Smi 60) 0 isolate' table') as [_ Hsmall];
      [by_computation..|].
    destruct (Hsmall small_property_table) as (s' & entry & Hs' & Hfind & Hpayload).
    + by_computation.
    + apply small_property_table_ok.
    + exact Hadd.
    + exists isolate', table', s', entry.
      split; [reflexivity|]. split; [exact Hs'|]. split; [exact Hfind|exact Hpayload].
Defined.

(** Witness of X18: deleting the only property of the large dictionary. *)
Lemma NameDictionary_DeleteEntry_removes_witness :
  ∃ isolate' table' t',
    OrderedNameDictionary_DeleteEntry one_property_isolate 0%nat 0
      = Some (isolate', table') ∧
    large_at isolate' table' = Some t' ∧
    live_entries OrderedNameDictionary t' = [] ∧
    NumberOfElements t' = 0.
Proof.
  destruct (NameDictionary_DeleteEntry_removes one_property_isolate 0%nat
              one_property_table 0 2)
    as (isolate' & table' & t' & Hdelete & Ht' & Hentries & Hnof & _);
    [by_computation|apply one_property_table_ok|decide_it|by_computation..|].
  exists isolate', table', t'. split_and!.
  - exact Hdelete.
  - exact Ht'.
  - rewrite Hentries. by_computation.
  - rewrite Hnof. by_computation.
Defined.

(** Witness of X19: deleting the only property of the small dictionary. *)
Lemma Small_DeleteEntry_removes_witness :
  ∃ isolate' table' s',
    SmallOrderedNameDictionary_DeleteEntry small_property_isolate 0%nat 0
      = Some (isolate', table') ∧
    small_at isolate' table' = Some s' ∧
    small_live_entries SmallOrderedNameDictionary s' = [] ∧
    Small_NumberOfElements s' = 0.
Proof.
  destruct (Small_DeleteEntry_removes small_property_isolate 0%nat
              small_property_table 0)
    as (isolate' & table' & s' & Hdelete & Hs' & Hentries & Hnof & _);
    [by_computation|apply small_property_table_ok|decide_it|].
  exists isolate', table', s'. split_and!.
  - exact Hdelete.
  - exact Hs'.
  - rewrite Hentries. by_computation.
  - rewrite Hnof. by_computation.
Defined.

(** Witness of X20: a fifth key for the full set of capacity 4, which is
    rehashed, and a third pair for the map of two pairs. *)
Lemma Add_keeps_invariants_witness :
  (∃ isolate' t',
     OrderedHashSet_Add 16 full_set_isolate 0%nat (Smi 5)
       = Some (isolate', Some 1%nat) ∧
     large_at isolate' 1%nat = Some t' ∧
     table_invariants OrderedHashSet t') ∧
  (∃ isolate' t',
     OrderedHashMap_Add 16 two_pairs_isolate 0%nat (Smi 6) (Smi 60)
       = Some (isolate', Some 0%nat) ∧
     large_at isolate' 0%nat = Some t' ∧
     table_invariants OrderedHashMap t').
Proof.
  split.
  - destruct (OrderedHashSet_Add 16 full_set_isolate 0%nat (Smi 5))
      as [[isolate' [table'|]]|] eqn:Hadd;
      [|exfalso; vm_compute in Hadd; discriminate Hadd..].
    assert (table' = 1%nat) as ->.
    { vm_compute in Hadd. injection Hadd as _ <-. reflexivity. }
    pose proof (Add_keeps_invariants 16 full_set_isolate 0%nat (Smi 5)
                  undefined_value isolate' 1%nat) as [Hset _];
      [by_computation..|].
    destruct (Hset full_set_table) as (t' & Ht' & Hinv).
    + by_computation.
    + by_computation.
    + apply full_set_table_invariants.
    + exact Hadd.
    + exists isolate', t'. split; [reflexivity|]. split; [exact Ht'|exact Hinv].
  - destruct (OrderedHashMap_Add 16 two_pairs_isolate 0%nat (Smi 6) (Smi 60))
      as [[isolate' [table'|]]|] eqn:Hadd;
      [|exfalso; vm_compute in Hadd; discriminate Hadd..].
    assert (table' = 0%nat) as ->.
    { vm_compute in Hadd. injection Hadd as _ <-. reflexivity. }
    pose proof (Add_keeps_invariants 16 two_pairs_isolate 0%nat (Smi 6)
                  (Smi 60) isolate' 0%nat) as [_ Hmap];
      [by_computation..|].
    destruct (Hmap two_pairs_table) as (t' & Ht' & Hinv).
    + by_computation.
    + by_computation.
    + apply two_pairs_table_invariants.
    + exact Hadd.
    + exists isolate', t'. split; [reflexivity|]. split; [exact Ht'|exact Hinv].
Defined.

(** Witness of X21: a set allocated for four entries in the empty heap. *)
Lemma Allocate_establishes_invariants_witness :
  ∃ isolate' t,
    OrderedHashTable_Allocate OrderedHashSet empty_isolate 4
      = (isolate', Some 0%nat) ∧
    large_at isolate' 0%nat = Some t ∧
    table_invariants OrderedHashSet t ∧
    live_slots OrderedHashSet t = [] ∧
    Capacity t = 4.
Proof.
  destruct (Allocate_establishes_invariants OrderedHashSet empty_isolate 4)
    as (isolate' & t & Halloc & Ht & Hinv & Hlive & Hcap); [by_computation..|].
  exists isolate', t. split_and!.
  - exact Halloc.
  - exact Ht.
  - exact Hinv.
  - exact Hlive.
  - rewrite Hcap. by_computation.
Defined.

(** Witness of X22: deleting 2 from the five keys. *)
Lemma Delete_keeps_invariants_witness :
  ∃ t',
    OrderedHashTable_Delete 16 OrderedHashSet five_keys_table (Smi 2)
      = Some (t', true) ∧
    table_invariants OrderedHashSet t' ∧
    NumberOfElements t' = 4.
Proof.
  destruct (OrderedHashTable_Delete 16 OrderedHashSet five_keys_table (Smi 2))
    as [[t' [|]]|] eqn:Hdelete;
    [|exfalso; vm_compute in Hdelete; discriminate Hdelete..].
  destruct (Delete_keeps_invariants 16 OrderedHashSet five_keys_table (Smi 2)
              t' true) as (Hinv & _ & Hnof).
  - by_computation.
  - by_computation.
  - apply five_keys_table_invariants.
  - decide_it.
  - exact Hdelete.
  - exists t'. split; [reflexivity|]. split; [exact Hinv|].
    rewrite Hnof by reflexivity. by_computation.
Defined.

(** Witness of X23: the set of capacity 16 with two keys shrinks. *)
Lemma Shrink_keeps_invariants_witness :
  ∃ isolate' table' t',
    Shrink OrderedHashSet sparse_isolate 0%nat = Some (isolate', table') ∧
    large_at isolate' table' = Some t' ∧
    table_invariants OrderedHashSet t'.
Proof.
  apply (Shrink_keeps_invariants OrderedHashSet sparse_isolate 0%nat sparse_table 2).
  - by_computation.
  - by_computation.
  - apply sparse_table_invariants.
  - by_computation.
  - by_computation.
  - by_computation.
  - by_computation.
  - by_computation.
  - by_computation.
  - by_computation.
Defined.

End Concrete.
